(** * Keppel: manifest ingest, janitor sweeps, token keys, validation sessions

    A shallow embedding of the parts of Keppel that the specification's
    claims are about, one Rocq module per Go package:

    - [keppel]    : error codes, table rows, the relational store;
    - [tasks]     : the janitor sweeps of [internal/tasks/manifests.go];
    - [processor] : [ValidateAndStoreManifest];
    - [auth]      : [IssueToken] and [parseToken];
    - [client]    : the validation session of [internal/client/validate.go].

    The module [examples] holds concrete databases, drivers and keys; the
    modules after it hold the theorems, one module per subject.

    Conventions.  Go maps are [gmap]/[gset], slices are lists, [nil]-able
    pointers and interfaces are [option]s.  Points in time are integers
    counting seconds (the unit the SQL fixtures use); durations likewise.
    A function that mutates the database takes the tables and returns the
    new tables next to its Go return values. *)

From Stdlib Require Import ZArith Lia Bool Ascii Sorting.Sorted.
From Stdlib Require HexString.
From stdpp Require Import base tactics option list sorting gmap strings pretty.

Local Open Scope Z_scope.

#[global] Instance byte_eq_dec : EqDecision Byte.byte := Byte.byte_eq_dec.

(** [time.Hour] and [time.Minute], in seconds. *)
Definition Hour : Z := 3600.
Definition Minute : Z := 60.

(* ===================================================================== *)
(** * Package keppel *)
(* ===================================================================== *)

Module keppel.

(** ** errors.go *)

Inductive RegistryV2ErrorCode : Type :=
  | ErrBlobUnknown | ErrBlobUploadInvalid | ErrBlobUploadUnknown
  | ErrDigestInvalid | ErrManifestBlobUnknown | ErrManifestInvalid
  | ErrManifestUnknown | ErrManifestUnverified | ErrNameInvalid
  | ErrNameUnknown | ErrSizeInvalid | ErrTagInvalid
  | ErrUnauthorized | ErrDenied | ErrUnsupported.

#[global] Instance RegistryV2ErrorCode_eq_dec : EqDecision RegistryV2ErrorCode.
Proof. solve_decision. Defined.

(** The string value of each constant. *)
Definition code_string (c : RegistryV2ErrorCode) : string :=
  match c with
  | ErrBlobUnknown => "BLOB_UNKNOWN"
  | ErrBlobUploadInvalid => "BLOB_UPLOAD_INVALID"
  | ErrBlobUploadUnknown => "BLOB_UPLOAD_UNKNOWN"
  | ErrDigestInvalid => "DIGEST_INVALID"
  | ErrManifestBlobUnknown => "MANIFEST_BLOB_UNKNOWN"
  | ErrManifestInvalid => "MANIFEST_INVALID"
  | ErrManifestUnknown => "MANIFEST_UNKNOWN"
  | ErrManifestUnverified => "MANIFEST_UNVERIFIED"
  | ErrNameInvalid => "NAME_INVALID"
  | ErrNameUnknown => "NAME_UNKNOWN"
  | ErrSizeInvalid => "SIZE_INVALID"
  | ErrTagInvalid => "TAG_INVALID"
  | ErrUnauthorized => "UNAUTHORIZED"
  | ErrDenied => "DENIED"
  | ErrUnsupported => "UNSUPPORTED"
  end.

Definition apiErrorMessages (c : RegistryV2ErrorCode) : string :=
  match c with
  | ErrBlobUnknown => "blob unknown to registry"
  | ErrBlobUploadInvalid => "blob upload invalid"
  | ErrBlobUploadUnknown => "blob upload unknown to registry"
  | ErrDigestInvalid => "provided digest did not match uploaded content"
  | ErrManifestBlobUnknown => "manifest blob unknown to registry"
  | ErrManifestInvalid => "manifest invalid"
  | ErrManifestUnknown => "manifest unknown"
  | ErrManifestUnverified => "manifest failed signature verification"
  | ErrNameInvalid => "invalid repository name"
  | ErrNameUnknown => "repository name not known to registry"
  | ErrSizeInvalid => "provided length did not match content length"
  | ErrTagInvalid => "manifest tag did not match URI"
  | ErrUnauthorized => "authentication required"
  | ErrDenied => "requested access to the resource is denied"
  | ErrUnsupported => "operation is unsupported"
  end.

Record RegistryV2Error : Type := mkRegistryV2Error {
  Code : RegistryV2ErrorCode;
  Message : string;
  Detail : option string
}.

#[global] Instance RegistryV2Error_eq_dec : EqDecision RegistryV2Error.
Proof. solve_decision. Defined.

(** [c.With(msg, args...)]: callers pass [msg] with the arguments already
    formatted in.  An empty message leaves [Detail] nil. *)
Definition With (c : RegistryV2ErrorCode) (msg : string) : RegistryV2Error :=
  {| Code := c;
     Message := apiErrorMessages c;
     Detail := if decide (msg = "") then None else Some msg |}.

(** Modelled from the spec: [WithDetail] is called by the processor but its
    body is not among the source files covered here; the spec has the
    offending digest "as detail", so it stores its argument in [Detail]. *)
Definition WithDetail (e : RegistryV2Error) (detail : string) : RegistryV2Error :=
  {| Code := Code e; Message := Message e; Detail := Some detail |}.

(** The [Error] method of [RegistryV2Error]. *)
Definition RegistryV2Error_Error (e : RegistryV2Error) : string :=
  match Detail e with
  | Some d => Message e +:+ ": " +:+ d
  | None => Message e
  end.

(** Go's [error] values as the modelled code produces them: the
    [sql.ErrNoRows] sentinel (compared by identity in the source), errors
    made by [fmt.Errorf]/[errors.New], registry errors, and failures that
    a driver or the database connection reports. *)
Inductive error : Type :=
  | ErrNoRows
  | Errorf (msg : string)
  | RegistryErr (e : RegistryV2Error)
  | DriverErr (msg : string).

#[global] Instance error_eq_dec : EqDecision error.
Proof. solve_decision. Defined.

Definition Error (e : error) : string :=
  match e with
  | ErrNoRows => "sql: no rows in result set"
  | Errorf msg => msg
  | RegistryErr e => RegistryV2Error_Error e
  | DriverErr msg => msg
  end.

(** ** Severities (package clair) *)

(** Modelled from the spec: package [clair] has only its test among the
    source files covered here.  The spec orders the severities
    clean < negligible < low < medium < high < critical < unknown and lets
    pending dominate every other value; merging nothing gives clean. *)
Inductive Severity : Type :=
  | CleanSeverity | NegligibleSeverity | LowSeverity | MediumSeverity
  | HighSeverity | CriticalSeverity | UnknownSeverity | PendingSeverity.

#[global] Instance Severity_eq_dec : EqDecision Severity.
Proof. solve_decision. Defined.

Definition severity_rank (s : Severity) : nat :=
  match s with
  | CleanSeverity => 0 | NegligibleSeverity => 1 | LowSeverity => 2
  | MediumSeverity => 3 | HighSeverity => 4 | CriticalSeverity => 5
  | UnknownSeverity => 6 | PendingSeverity => 7
  end%nat.

(** Modelled from the spec: [clair.MergeSeverities] (see [Severity]). *)
Definition MergeSeverities (sevs : list Severity) : Severity :=
  foldr (fun s acc => if (severity_rank acc <? severity_rank s)%nat then s else acc)
        CleanSeverity sevs.

(** ** Table rows *)

Record Account : Type := mkAccount {
  Account_Name : string;
  Account_AuthTenantID : string;
  Account_UpstreamPeerHostName : string;
  Account_ExternalPeerURL : string;
  Account_RequiredLabels : string;
  Account_InMaintenance : bool
}.

Record Repository : Type := mkRepository {
  Repository_ID : Z;
  Repository_AccountName : string;
  Repository_Name : string;
  Repository_NextManifestSyncAt : option Z
}.

(** [(Repository).FullName]. *)
Definition FullName (r : Repository) : string :=
  Repository_AccountName r +:+ "/" +:+ Repository_Name r.

Record Blob : Type := mkBlob {
  Blob_ID : Z;
  Blob_AccountName : string;
  Blob_Digest : string;
  Blob_SizeBytes : Z;
  Blob_StorageID : string;
  Blob_PushedAt : Z;
  Blob_ValidatedAt : Z;
  Blob_ValidationErrorMessage : string
}.

Record Manifest : Type := mkManifest {
  Manifest_RepositoryID : Z;
  Manifest_Digest : string;
  Manifest_MediaType : string;
  Manifest_SizeBytes : Z;
  Manifest_PushedAt : Z;
  Manifest_ValidatedAt : Z;
  Manifest_ValidationErrorMessage : string;
  Manifest_NextVulnerabilityCheckAt : option Z;
  Manifest_VulnerabilityStatus : Severity
}.

Record Tag : Type := mkTag {
  Tag_RepositoryID : Z;
  Tag_Name : string;
  Tag_Digest : string;
  Tag_PushedAt : Z
}.

Record ManifestBlobRef : Type := mkManifestBlobRef {
  MBR_RepositoryID : Z;
  MBR_Digest : string;
  MBR_BlobID : Z
}.

Record ManifestManifestRef : Type := mkManifestManifestRef {
  MMR_RepositoryID : Z;
  MMR_ParentDigest : string;
  MMR_ChildDigest : string
}.

#[global] Instance Account_eq_dec : EqDecision Account.
Proof. solve_decision. Defined.
#[global] Instance Repository_eq_dec : EqDecision Repository.
Proof. solve_decision. Defined.
#[global] Instance Blob_eq_dec : EqDecision Blob.
Proof. solve_decision. Defined.
#[global] Instance Manifest_eq_dec : EqDecision Manifest.
Proof. solve_decision. Defined.
#[global] Instance Tag_eq_dec : EqDecision Tag.
Proof. solve_decision. Defined.

(** ** The database

    The tables of the relational schema, each a list of rows in scan
    order.  [blob_mounts] holds pairs [(blob_id, repo_id)]. *)
Record DB : Type := mkDB {
  accounts : list Account;
  repos : list Repository;
  blobs : list Blob;
  blob_mounts : list (Z * Z);
  manifests : list Manifest;
  tags : list Tag;
  manifest_blob_refs : list ManifestBlobRef;
  manifest_manifest_refs : list ManifestManifestRef
}.

Definition set_manifests (db : DB) (ms : list Manifest) : DB :=
  {| accounts := accounts db; repos := repos db; blobs := blobs db;
     blob_mounts := blob_mounts db; manifests := ms; tags := tags db;
     manifest_blob_refs := manifest_blob_refs db;
     manifest_manifest_refs := manifest_manifest_refs db |}.

Definition set_tags (db : DB) (ts : list Tag) : DB :=
  {| accounts := accounts db; repos := repos db; blobs := blobs db;
     blob_mounts := blob_mounts db; manifests := manifests db; tags := ts;
     manifest_blob_refs := manifest_blob_refs db;
     manifest_manifest_refs := manifest_manifest_refs db |}.

Definition set_repos (db : DB) (rs : list Repository) : DB :=
  {| accounts := accounts db; repos := rs; blobs := blobs db;
     blob_mounts := blob_mounts db; manifests := manifests db; tags := tags db;
     manifest_blob_refs := manifest_blob_refs db;
     manifest_manifest_refs := manifest_manifest_refs db |}.

(** The statements the modelled code sends to the database.  Besides the
    outcome that the rows determine, the connection can refuse any
    statement; [DBFaults] says which ones it refuses, and with what error. *)
Inductive Stmt : Type :=
  | StmtSelectOutdatedManifest
  | StmtSelectRepo (id : Z)
  | StmtFindAccount (name : string)
  | StmtUpdateValidation (repo_id : Z) (digest : string)
  | StmtSelectNextVulnCheck
  | StmtSelectBlobsOfManifest (repo_id : Z) (digest : string)
  | StmtSelectSubmanifestInfo (digest : string)
  | StmtUpdateManifest (repo_id : Z) (digest : string)
  | StmtSelectSyncRepo
  | StmtSyncDone (repo_id : Z)
  | StmtSelectManifests (repo_id : Z)
  | StmtSelectManifestRefs (repo_id : Z)
  | StmtDeleteManifest (repo_id : Z) (digest : string)
  | StmtFindBlob (repo_id : Z) (digest : string)
  | StmtSelectStorageID (account : string) (digest : string)
  | StmtInsertManifest (repo_id : Z) (digest : string)
  | StmtInsertTag (repo_id : Z) (name : string)
  | StmtFindOrCreateRepo (account : string) (name : string)
  | StmtCommit.

Definition DBFaults : Type := Stmt -> option string.

(** A connection that never refuses a statement. *)
Definition no_faults : DBFaults := fun _ => None.

(** [db.SelectOne] on the rows a query produced (at most one here, all
    queries end in LIMIT 1 or select by key). *)
Definition SelectOne {A : Type} (rows : list A) : error + A :=
  match rows with
  | [] => inl ErrNoRows
  | r :: _ => inr r
  end.

(** Modelled from the spec: [keppel.FindAccount] is not among the
    source files covered here; accounts are keyed by name. *)
Definition FindAccount (db : DB) (name : string) : error + Account :=
  SelectOne (filter (fun a => Account_Name a = name) (accounts db)).

(** [SELECT * FROM repos WHERE id = $1]. *)
Definition select_repo_by_id (db : DB) (id : Z) : list Repository :=
  filter (fun r => Repository_ID r = id) (repos db).

(** Modelled from the spec: the methods of [keppel.ManifestReference] are
    not among the source files covered here.  A reference is a tag or a
    digest; the struct has both fields and the digest, when set, decides. *)
Record ManifestReference : Type := mkManifestReference {
  Ref_Digest : string;
  Ref_Tag : string
}.

Definition IsDigest (r : ManifestReference) : bool := bool_decide (Ref_Digest r ≠ "").
Definition IsTag (r : ManifestReference) : bool := negb (IsDigest r).
Definition Ref_String (r : ManifestReference) : string :=
  if IsDigest r then Ref_Digest r else Ref_Tag r.

End keppel.

(* ===================================================================== *)
(** * Package tasks: the janitor (internal/tasks/manifests.go) *)
(* ===================================================================== *)

Module tasks.
Import keppel.

(** What a storage or database deletion did, in the order it happened. *)
Inductive Event : Type :=
  | EvDBDelete (repo_id : Z) (digest : string)
  | EvStorageDelete (account repo digest : string).

#[global] Instance Event_eq_dec : EqDecision Event.
Proof. solve_decision. Defined.

(** [clair.ManifestState] and the request sent to the scanner. *)
Record ClairState : Type := mkClairState {
  IsErrored : bool;
  IsIndexed : bool
}.

Record ClairLayer : Type := mkClairLayer {
  Layer_Digest : string;
  Layer_URL : string
}.

Record ClairManifest : Type := mkClairManifest {
  ClairManifest_Digest : string;
  ClairManifest_Layers : list ClairLayer
}.

(** The janitor and its collaborators.  None of the collaborators is among
    the source files covered here; each is a field and stays arbitrary.

    - [timeNow k] is the k-th reading (from 0) of [j.timeNow()] during one
      call of a sweep, [wallNow] the reading of [time.Now()];
    - [faults] tells which statements the database connection refuses;
    - [ValidateExistingManifest], [CheckManifestOnPrimary] and
      [ReplicateBlob] belong to [j.processor()];
    - [sd_DeleteManifest] and [sd_URLForBlob] belong to the storage driver
      (the first is given the account by its name);
    - [CheckManifestState] and [GetVulnerabilityReport] to the Clair client;
    - [range_order s] is the order in which one [for ... range] loop visits
      the keys of a Go map holding the keys [s]. *)
Record Janitor : Type := mkJanitor {
  timeNow : nat -> Z;
  wallNow : Z;
  faults : DBFaults;
  ValidateExistingManifest : Account -> Repository -> Manifest -> Z -> option error;
  CheckManifestOnPrimary : Account -> Repository -> ManifestReference -> error + bool;
  ReplicateBlob : DB -> Blob -> Account -> Repository -> DB * option error;
  sd_DeleteManifest : string -> string -> string -> option error;
  sd_URLForBlob : Account -> string -> error + string;
  CheckManifestState : ClairManifest -> error + ClairState;
  GetVulnerabilityReport : string -> error + option Severity;
  range_order : gset string -> list string
}.

(** A statement that reads: refused by the connection, or its rows. *)
Definition query {A : Type} (j : Janitor) (s : Stmt) (rows : list A) : error + list A :=
  match faults j s with
  | Some msg => inl (DriverErr msg)
  | None => inr rows
  end.

(** [j.db.SelectOne]. *)
Definition selectOne {A : Type} (j : Janitor) (s : Stmt) (rows : list A) : error + A :=
  match query j s rows with
  | inl err => inl err
  | inr rows => SelectOne rows
  end.

(** A statement that writes: refused, or the new tables. *)
Definition exec (j : Janitor) (s : Stmt) (db' : DB) : error + DB :=
  match faults j s with
  | Some msg => inl (DriverErr msg)
  | None => inr db'
  end.

(** [keppel.FindAccount(j.db, name)]. *)
Definition findAccount (j : Janitor) (db : DB) (name : string) : error + Account :=
  match faults j (StmtFindAccount name) with
  | Some msg => inl (DriverErr msg)
  | None => FindAccount db name
  end.

(** ** ValidateNextManifest *)

Definition has_validation_error (m : Manifest) : bool :=
  bool_decide (Manifest_ValidationErrorMessage m ≠ "").

(** The WHERE clause of [outdatedManifestSearchQuery]:
    [validated_at < $1 OR (validated_at < $2 AND validation_error_message != '')]. *)
Definition outdated_where (p1 p2 : Z) (m : Manifest) : bool :=
  bool_decide (Manifest_ValidatedAt m < p1)
  || (bool_decide (Manifest_ValidatedAt m < p2) && has_validation_error m).

(** Its ORDER BY clause,
    [validation_error_message != '' DESC, validated_at ASC]:
    [a] may come before [b]. *)
Definition outdated_order (a b : Manifest) : Prop :=
  (has_validation_error a = true ∧ has_validation_error b = false)
  ∨ (has_validation_error a = has_validation_error b
     ∧ Manifest_ValidatedAt a ≤ Manifest_ValidatedAt b).

#[global] Instance outdated_order_dec a b : Decision (outdated_order a b).
Proof. unfold outdated_order. apply _. Defined.

(** [outdatedManifestSearchQuery]: filter, sort, LIMIT 1.  Rows that the
    ORDER BY clause does not tell apart stay in table order. *)
Definition outdatedManifestSearchQuery (p1 p2 : Z) (db : DB) : list Manifest :=
  take 1 (merge_sort outdated_order (filter (fun m => outdated_where p1 p2 m = true) (manifests db))).

(** [UPDATE manifests SET validated_at = $1, validation_error_message = $2
     WHERE repo_id = $3 AND digest = $4]. *)
Definition update_validation (validated_at : Z) (msg : string) (repo_id : Z) (digest : string)
    (m : Manifest) : Manifest :=
  if decide (Manifest_RepositoryID m = repo_id ∧ Manifest_Digest m = digest) then
    {| Manifest_RepositoryID := Manifest_RepositoryID m;
       Manifest_Digest := Manifest_Digest m;
       Manifest_MediaType := Manifest_MediaType m;
       Manifest_SizeBytes := Manifest_SizeBytes m;
       Manifest_PushedAt := Manifest_PushedAt m;
       Manifest_ValidatedAt := validated_at;
       Manifest_ValidationErrorMessage := msg;
       Manifest_NextVulnerabilityCheckAt := Manifest_NextVulnerabilityCheckAt m;
       Manifest_VulnerabilityStatus := Manifest_VulnerabilityStatus m |}
  else m.

Definition exec_update_validation (db : DB) (validated_at : Z) (msg : string)
    (repo_id : Z) (digest : string) : DB :=
  set_manifests db (update_validation validated_at msg repo_id digest <$> manifests db).

(** The body of [ValidateNextManifest], before the deferred function runs.
    Returns the tables and [returnErr]. *)
Definition ValidateNextManifest_body (j : Janitor) (db : DB) : DB * option error :=
  let maxSuccessfulValidatedAt := timeNow j 0 - 24 * Hour in
  let maxFailedValidatedAt := timeNow j 1 - 10 * Minute in
  match selectOne j StmtSelectOutdatedManifest
          (outdatedManifestSearchQuery maxSuccessfulValidatedAt maxFailedValidatedAt db) with
  | inl err =>
      if decide (err = ErrNoRows) then (db, Some ErrNoRows) else (db, Some err)
  | inr manifest =>
      let repo_id := Manifest_RepositoryID manifest in
      match selectOne j (StmtSelectRepo repo_id) (select_repo_by_id db repo_id) with
      | inl err =>
          (db, Some (Errorf ("cannot find repo " +:+ pretty repo_id +:+ " for manifest "
                             +:+ Manifest_Digest manifest +:+ ": " +:+ Error err)))
      | inr repo =>
          match findAccount j db (Repository_AccountName repo) with
          | inl err =>
              (db, Some (Errorf ("cannot find account for manifest " +:+ FullName repo +:+ "/"
                                 +:+ Manifest_Digest manifest +:+ ": " +:+ Error err)))
          | inr account =>
              match ValidateExistingManifest j account repo manifest (timeNow j 2) with
              | None =>
                  match exec j (StmtUpdateValidation (Repository_ID repo) (Manifest_Digest manifest))
                          (exec_update_validation db (timeNow j 3) ""
                             (Repository_ID repo) (Manifest_Digest manifest)) with
                  | inl err => (db, Some err)
                  | inr db' => (db', None)
                  end
              | Some err =>
                  match exec j (StmtUpdateValidation (Repository_ID repo) (Manifest_Digest manifest))
                          (exec_update_validation db (timeNow j 3) (Error err)
                             (Repository_ID repo) (Manifest_Digest manifest)) with
                  | inl updateErr =>
                      (db, Some (Errorf (Error err
                         +:+ " (additional error encountered while recording validation error: "
                         +:+ Error updateErr +:+ ")")))
                  | inr db' => (db', Some err)
                  end
              end
          end
      end
  end.

(** The deferred function of the three sweeps: [sql.ErrNoRows] and success
    pass through, any other error gets the sweep's prefix.  (The counters
    it increments are metrics and not modelled.) *)
Definition wrap_sweep_error (prefix : string) (returnErr : option error) : option error :=
  match returnErr with
  | None => None
  | Some err =>
      if decide (err = ErrNoRows) then Some ErrNoRows
      else Some (Errorf (prefix +:+ Error err))
  end.

Definition ValidateNextManifest (j : Janitor) (db : DB) : DB * option error :=
  let '(db', returnErr) := ValidateNextManifest_body j db in
  (db', wrap_sweep_error "while validating a manifest: " returnErr).


(** Two rows with the same primary key (repo_id, digest). *)
Definition same_key (a b : Manifest) : Prop :=
  Manifest_RepositoryID a = Manifest_RepositoryID b ∧ Manifest_Digest a = Manifest_Digest b.

(** [after] is [before] except, at most, in the rows with the key of [m]. *)
Definition only_row_changed (m : Manifest) (before after : DB) : Prop :=
  accounts after = accounts before ∧ repos after = repos before
  ∧ blobs after = blobs before ∧ blob_mounts after = blob_mounts before
  ∧ tags after = tags before
  ∧ manifest_blob_refs after = manifest_blob_refs before
  ∧ manifest_manifest_refs after = manifest_manifest_refs before
  ∧ Forall2 (fun r r' => r' = r ∨ (same_key r m ∧ same_key r' m))
            (manifests before) (manifests after).

(** A call of [ValidateNextManifest] gets as far as validating
    [manifest], which it found in [repo] of [account]. *)
Definition sweep_validates (j : Janitor) (db : DB)
    (manifest : Manifest) (repo : Repository) (account : Account) : Prop :=
  selectOne j StmtSelectOutdatedManifest
    (outdatedManifestSearchQuery (timeNow j 0 - 24 * Hour) (timeNow j 1 - 10 * Minute) db)
    = inr manifest
  ∧ selectOne j (StmtSelectRepo (Manifest_RepositoryID manifest))
      (select_repo_by_id db (Manifest_RepositoryID manifest)) = inr repo
  ∧ findAccount j db (Repository_AccountName repo) = inr account.

(** What a call of [ValidateNextManifest] on [db] does with [manifest]
    when it works on it.  If the repository or the account of the
    manifest cannot be found, or the UPDATE is refused, the tables stay as
    they are and an error made by [fmt.Errorf] is returned.  Otherwise
    the manifest is handed to [ValidateExistingManifest]; the call
    returns the verdict of that (an error with the prefix of the sweep),
    and in the tables it leaves, the manifest has a row, and every row
    with its key has the current time as [validated_at] and the error
    message of the verdict, the empty one after a success. *)
Definition sweep_processes (j : Janitor) (db : DB) (manifest : Manifest) : Prop :=
  let db' := (ValidateNextManifest j db).1 in
  let returnErr := (ValidateNextManifest j db).2 in
  let untouched := db' = db ∧ ∃ msg, returnErr = Some (Errorf msg) in
  match selectOne j (StmtSelectRepo (Manifest_RepositoryID manifest))
          (select_repo_by_id db (Manifest_RepositoryID manifest)) with
  | inl _ => untouched
  | inr repo =>
      match findAccount j db (Repository_AccountName repo) with
      | inl _ => untouched
      | inr account =>
          match faults j (StmtUpdateValidation (Repository_ID repo) (Manifest_Digest manifest)) with
          | Some _ => untouched
          | None =>
              let verdict := ValidateExistingManifest j account repo manifest (timeNow j 2) in
              returnErr = wrap_sweep_error "while validating a manifest: " verdict
              ∧ (∃ row, row ∈ manifests db' ∧ same_key row manifest)
              ∧ ∀ row, row ∈ manifests db' → same_key row manifest →
                  Manifest_ValidatedAt row = timeNow j 3
                  ∧ Manifest_ValidationErrorMessage row
                    = match verdict with None => "" | Some err => Error err end
          end
      end
  end.
(** ** SyncManifestsInNextRepo and performManifestSync *)

(** [syncManifestRepoSelectQuery]: repos of replica accounts that are due,
    never-synced ones first, then by schedule; LIMIT 1. *)
Definition sync_due (now : Z) (db : DB) (r : Repository) : bool :=
  match Repository_NextManifestSyncAt r with
  | None => true
  | Some t => bool_decide (t < now)
  end
  && bool_decide (Exists (fun a => Account_Name a = Repository_AccountName r
                              ∧ (Account_UpstreamPeerHostName a ≠ ""
                                 ∨ Account_ExternalPeerURL a ≠ ""))
                         (accounts db)).

(** [x IS NULL DESC, x ASC] on a nullable timestamp. *)
Definition nulls_first_order (a b : option Z) : Prop :=
  match a, b with
  | None, _ => True
  | Some _, None => False
  | Some x, Some y => x ≤ y
  end.

#[global] Instance nulls_first_order_dec a b : Decision (nulls_first_order a b).
Proof. destruct a, b; simpl; apply _. Defined.

Definition sync_repo_order (a b : Repository) : Prop :=
  nulls_first_order (Repository_NextManifestSyncAt a) (Repository_NextManifestSyncAt b).

#[global] Instance sync_repo_order_dec a b : Decision (sync_repo_order a b).
Proof. unfold sync_repo_order. apply _. Defined.

Definition syncManifestRepoSelectQuery (now : Z) (db : DB) : list Repository :=
  take 1 (merge_sort sync_repo_order (filter (fun r => sync_due now db r = true) (repos db))).

(** [syncManifestEnumerateRefsQuery]: the (parent, child) pairs of a repo. *)
Definition syncManifestEnumerateRefsQuery (repo_id : Z) (db : DB) : list (string * string) :=
  (fun r => (MMR_ParentDigest r, MMR_ChildDigest r))
    <$> filter (fun r => MMR_RepositoryID r = repo_id) (manifest_manifest_refs db).

(** [syncManifestDoneQuery]. *)
Definition syncManifestDoneQuery (repo_id : Z) (next : Z) (db : DB) : DB :=
  set_repos db
    ((fun r => if decide (Repository_ID r = repo_id)
               then {| Repository_ID := Repository_ID r;
                       Repository_AccountName := Repository_AccountName r;
                       Repository_Name := Repository_Name r;
                       Repository_NextManifestSyncAt := Some next |}
               else r) <$> repos db).

(** Modelled from the spec: the schema of the database is not among the
    source files covered here.  The spec has a tag "deleted when the
    manifest it points to is deleted" and the reference rows "derived from"
    the manifest, so the row of a manifest takes with it the tags that
    point to it, its ManifestBlobRef rows and the ManifestManifestRef rows
    that have it as parent. *)
Definition delete_manifest_row (repo_id : Z) (digest : string) (db : DB) : DB :=
  {| accounts := accounts db;
     repos := repos db;
     blobs := blobs db;
     blob_mounts := blob_mounts db;
     manifests :=
       filter (fun m => ¬ (Manifest_RepositoryID m = repo_id ∧ Manifest_Digest m = digest))
              (manifests db);
     tags :=
       filter (fun t => ¬ (Tag_RepositoryID t = repo_id ∧ Tag_Digest t = digest)) (tags db);
     manifest_blob_refs :=
       filter (fun r => ¬ (MBR_RepositoryID r = repo_id ∧ MBR_Digest r = digest))
              (manifest_blob_refs db);
     manifest_manifest_refs :=
       filter (fun r => ¬ (MMR_RepositoryID r = repo_id ∧ MMR_ParentDigest r = digest))
              (manifest_manifest_refs db) |}.

(** Modelled from the spec: invariant I2 has every child of a
    ManifestManifestRef row exist as a manifest of the repo, and the
    comment on the deletion order in [performManifestSync] has the
    database "complain because of its consistency checks" when a child
    goes before its parent.  So the database refuses to delete a manifest
    that a reference row of the repo still names as child. *)
Definition referenced_as_child (repo_id : Z) (digest : string) (db : DB) : bool :=
  bool_decide (Exists (fun r => MMR_RepositoryID r = repo_id ∧ MMR_ChildDigest r = digest)
                      (manifest_manifest_refs db)).

(** The error of the database for that (its wording is the database's). *)
Definition foreign_key_violation : error :=
  DriverErr "update or delete on table manifests violates foreign key constraint on table manifest_manifest_refs".

(** [j.db.Delete(&keppel.Manifest{RepositoryID: ..., Digest: ...})]: refused
    by the connection, refused by the consistency check, or the new
    tables. *)
Definition delete_manifest (j : Janitor) (repo_id : Z) (digest : string) (db : DB)
    : error + DB :=
  match faults j (StmtDeleteManifest repo_id digest) with
  | Some msg => inl (DriverErr msg)
  | None =>
      if referenced_as_child repo_id digest db then inl foreign_key_violation
      else inr (delete_manifest_row repo_id digest db)
  end.

(** Reading a [map[string]bool] at a key: the zero value when absent. *)
Definition map_bool (m : gmap string bool) (k : string) : bool :=
  default false (m !! k).

(** Reading a [map[string][]string] at a key: nil when absent. *)
Definition map_slice (m : gmap string (list string)) (k : string) : list string :=
  default [] (m !! k).

(** The variables the deletion loop works on, with the tables and the
    deletions carried out so far (oldest first). *)
Record SyncState : Type := mkSyncState {
  shallDeleteManifest : gmap string bool;
  manifestWasDeleted : gmap string bool;
  sync_db : DB;
  sync_trace : list Event
}.

(** [fmt]'s [%v] for a slice of strings. *)
Definition fmt_strings (l : list string) : string :=
  "[" +:+ String.concat " " l +:+ "]".

(** First loop: ask the primary about each manifest of the repo. *)
Fixpoint check_manifests (j : Janitor) (account : Account) (repo : Repository)
    (ms : list Manifest) (shallDelete : gmap string bool) : error + gmap string bool :=
  match ms with
  | [] => inr shallDelete
  | manifest :: ms' =>
      let ref := mkManifestReference (Manifest_Digest manifest) "" in
      match CheckManifestOnPrimary j account repo ref with
      | inl err =>
          inl (Errorf ("cannot check existence of manifest " +:+ FullName repo +:+ "/"
                       +:+ Manifest_Digest manifest +:+ " on primary account: " +:+ Error err))
      | inr exists_ =>
          check_manifests j account repo ms'
            (if exists_ then shallDelete else <[Manifest_Digest manifest := true]> shallDelete)
      end
  end.

(** The callback of [ForeachRow] over the reference rows:
    [parentDigestsOf[childDigest] = append(parentDigestsOf[childDigest], parentDigest)]. *)
Definition collect_parents (rows : list (string * string)) : gmap string (list string) :=
  foldl (fun parentDigestsOf '(parentDigest, childDigest) =>
           <[childDigest := map_slice parentDigestsOf childDigest ++ [parentDigest]]> parentDigestsOf)
        ∅ rows.

(** The loop over [parentDigestsOf[digest]]: whether some parent of
    [digest] is not marked in [manifestWasDeleted], in which case the
    source goes on with the next manifest ([continue MANIFEST]). *)
Definition still_referenced (parentDigestsOf : gmap string (list string))
    (st : SyncState) (digest : string) : bool :=
  existsb (fun parentDigest => negb (map_bool (manifestWasDeleted st) parentDigest))
          (map_slice parentDigestsOf digest).

(** One run of the loop labelled MANIFEST over the keys [keys] that
    [range shallDeleteManifest] yields.  Result: the state, the flag
    [deletedSomething], and the error if the function returned from
    inside the loop. *)
Fixpoint sync_pass (j : Janitor) (account : Account) (repo : Repository)
    (parentDigestsOf : gmap string (list string))
    (keys : list string) (st : SyncState) (deletedSomething : bool)
    : SyncState * bool * option error :=
  match keys with
  | [] => (st, deletedSomething, None)
  | digest :: keys' =>
      if still_referenced parentDigestsOf st digest
      then sync_pass j account repo parentDigestsOf keys' st deletedSomething
      else
        match delete_manifest j (Repository_ID repo) digest (sync_db st) with
        | inl err =>
            (st, deletedSomething,
             Some (Errorf ("cannot remove deleted manifest " +:+ digest +:+ " in repo "
                           +:+ FullName repo +:+ " from DB: " +:+ Error err)))
        | inr db' =>
            let st1 := {| shallDeleteManifest := shallDeleteManifest st;
                          manifestWasDeleted := manifestWasDeleted st;
                          sync_db := db';
                          sync_trace := sync_trace st ++ [EvDBDelete (Repository_ID repo) digest] |} in
            match sd_DeleteManifest j (Account_Name account) (Repository_Name repo) digest with
            | Some err =>
                (st1, deletedSomething,
                 Some (Errorf ("cannot remove deleted manifest " +:+ digest +:+ " in repo "
                               +:+ FullName repo +:+ " from storage: " +:+ Error err)))
            | None =>
                let st2 := {| shallDeleteManifest := delete digest (shallDeleteManifest st1);
                              manifestWasDeleted := <[digest := true]> (manifestWasDeleted st1);
                              sync_db := sync_db st1;
                              sync_trace := sync_trace st1
                                ++ [EvStorageDelete (Account_Name account) (Repository_Name repo) digest] |} in
                sync_pass j account repo parentDigestsOf keys' st2 true
            end
        end
  end.

(** The error returned when a pass deleted nothing. *)
Definition stuck_error (undeletedDigests : list string) (repo : Repository) : error :=
  Errorf ("cannot remove deleted manifests " +:+ fmt_strings undeletedDigests +:+ " in repo "
          +:+ FullName repo
          +:+ " because they are still being referenced by other manifests (this smells like an inconsistency on the primary account)").

(** [for len(shallDeleteManifest) > 0 { ... }].  [fuel] bounds the number
    of passes; [None] means the bound was hit. *)
Fixpoint sync_loop (fuel : nat) (j : Janitor) (account : Account) (repo : Repository)
    (parentDigestsOf : gmap string (list string)) (st : SyncState)
    : option (SyncState * option error) :=
  if decide (size (shallDeleteManifest st) = 0%nat) then Some (st, None)
  else
    match fuel with
    | O => None
    | S fuel' =>
        match sync_pass j account repo parentDigestsOf
                (range_order j (dom (shallDeleteManifest st))) st false with
        | (st', _, Some err) => Some (st', Some err)
        | (st', deletedSomething, None) =>
            if negb deletedSomething then
              let undeletedDigests := range_order j (dom (shallDeleteManifest st')) in
              Some (st', Some (stuck_error undeletedDigests repo))
            else sync_loop fuel' j account repo parentDigestsOf st'
        end
    end.

(** What [performManifestSync] computes before its deletion loop: the
    deletion set and the parents of each child. *)
Definition sync_prepare (j : Janitor) (account : Account) (repo : Repository) (db : DB)
    : error + (gmap string bool * gmap string (list string)) :=
  match query j (StmtSelectManifests (Repository_ID repo))
          (filter (fun m => Manifest_RepositoryID m = Repository_ID repo) (manifests db)) with
  | inl err =>
      inl (Errorf ("cannot list manifests in repo " +:+ FullName repo +:+ ": " +:+ Error err))
  | inr manifests =>
      match check_manifests j account repo manifests ∅ with
      | inl err => inl err
      | inr shallDeleteManifest =>
          match query j (StmtSelectManifestRefs (Repository_ID repo))
                  (syncManifestEnumerateRefsQuery (Repository_ID repo) db) with
          | inl err =>
              inl (Errorf ("cannot enumerate manifest-manifest refs in repo "
                           +:+ FullName repo +:+ ": " +:+ Error err))
          | inr rows => inr (shallDeleteManifest, collect_parents rows)
          end
      end
  end.

(** [performManifestSync].  Every pass of the loop that goes on to a next
    pass removes a key, so as many passes as there are keys suffice (see
    the theorem on it below). *)
Definition performManifestSync (j : Janitor) (account : Account) (repo : Repository) (db : DB)
    : option (SyncState * option error) :=
  match sync_prepare j account repo db with
  | inl err => Some (mkSyncState ∅ ∅ db [], Some err)
  | inr (shallDeleteManifest, parentDigestsOf) =>
      sync_loop (size shallDeleteManifest) j account repo parentDigestsOf
        (mkSyncState shallDeleteManifest ∅ db [])
  end.

(** [SyncManifestsInNextRepo]. *)
Definition SyncManifestsInNextRepo_body (j : Janitor) (db : DB)
    : option (DB * list Event * option error) :=
  match selectOne j StmtSelectSyncRepo (syncManifestRepoSelectQuery (timeNow j 0) db) with
  | inl err =>
      if decide (err = ErrNoRows) then Some (db, [], Some ErrNoRows) else Some (db, [], Some err)
  | inr repo =>
      match findAccount j db (Repository_AccountName repo) with
      | inl err =>
          Some (db, [], Some (Errorf ("cannot find account for repo " +:+ FullName repo
                                      +:+ ": " +:+ Error err)))
      | inr account =>
          let done db1 trace :=
            match exec j (StmtSyncDone (Repository_ID repo))
                    (syncManifestDoneQuery (Repository_ID repo) (timeNow j 1 + 1 * Hour) db1) with
            | inl err => Some (db1, trace, Some err)
            | inr db2 => Some (db2, trace, None)
            end in
          if Account_InMaintenance account then done db []
          else
            match performManifestSync j account repo db with
            | None => None
            | Some (st, Some err) => Some (sync_db st, sync_trace st, Some err)
            | Some (st, None) => done (sync_db st) (sync_trace st)
            end
      end
  end.

Definition SyncManifestsInNextRepo (j : Janitor) (db : DB)
    : option (DB * list Event * option error) :=
  match SyncManifestsInNextRepo_body j db with
  | None => None
  | Some (db', trace, returnErr) =>
      Some (db', trace, wrap_sweep_error "while syncing manifests in a replica repo: " returnErr)
  end.

(** *** What the theorem on the deletion order says about a trace *)

(** Every database deletion of a manifest comes after the database
    deletion of each manifest that a reference row of the repo gives as
    its parent. *)
Definition parents_deleted_first (repo_id : Z) (db : DB) (trace : list Event) : Prop :=
  ∀ (i : nat) (d : string) (ref : ManifestManifestRef),
    trace !! i = Some (EvDBDelete repo_id d) →
    ref ∈ manifest_manifest_refs db →
    MMR_RepositoryID ref = repo_id →
    MMR_ChildDigest ref = d →
    ∃ i', (i' < i)%nat ∧ trace !! i' = Some (EvDBDelete repo_id (MMR_ParentDigest ref)).

(** Every storage deletion comes directly after the database deletion of
    the same manifest. *)
Definition db_row_before_storage (repo_id : Z) (trace : list Event) : Prop :=
  ∀ (i : nat) (a r d : string),
    trace !! i = Some (EvStorageDelete a r d) →
    ∃ i', i = S i' ∧ trace !! i' = Some (EvDBDelete repo_id d).

(** The primary account answers that it does not have the manifest. *)
Definition gone_upstream (j : Janitor) (account : Account) (repo : Repository)
    (digest : string) : Prop :=
  CheckManifestOnPrimary j account repo (mkManifestReference digest "") = inr false.

#[global] Instance gone_upstream_dec j account repo digest :
  Decision (gone_upstream j account repo digest).
Proof. unfold gone_upstream. apply _. Defined.

(** The deletion set of the repo: the digests of its manifest rows that
    are gone upstream. *)
Definition deletion_set (j : Janitor) (account : Account) (repo : Repository) (db : DB)
    : gset string :=
  list_to_set
    (Manifest_Digest
       <$> filter (fun m => Manifest_RepositoryID m = Repository_ID repo
                            ∧ gone_upstream j account repo (Manifest_Digest m))
                  (manifests db)).

(** The tables without the manifests [gone] of a repo and what goes with
    their rows. *)
Definition without_manifests (repo_id : Z) (gone : gset string) (db : DB) : DB :=
  {| accounts := accounts db;
     repos := repos db;
     blobs := blobs db;
     blob_mounts := blob_mounts db;
     manifests :=
       filter (fun m => ¬ (Manifest_RepositoryID m = repo_id ∧ Manifest_Digest m ∈ gone))
              (manifests db);
     tags :=
       filter (fun t => ¬ (Tag_RepositoryID t = repo_id ∧ Tag_Digest t ∈ gone)) (tags db);
     manifest_blob_refs :=
       filter (fun r => ¬ (MBR_RepositoryID r = repo_id ∧ MBR_Digest r ∈ gone))
              (manifest_blob_refs db);
     manifest_manifest_refs :=
       filter (fun r => ¬ (MMR_RepositoryID r = repo_id ∧ MMR_ParentDigest r ∈ gone))
              (manifest_manifest_refs db) |}.

(** The ways [performManifestSync] can end, in terms of the tables [db]
    it started from, the deletions [trace] it has carried out and its
    result. *)
Inductive SyncEnd (j : Janitor) (account : Account) (repo : Repository) (db : DB)
    (trace : list Event) : option error → Prop :=
  | SyncDone :
      (∀ d, d ∈ deletion_set j account repo db →
         EvDBDelete (Repository_ID repo) d ∈ trace
         ∧ EvStorageDelete (Account_Name account) (Repository_Name repo) d ∈ trace) →
      SyncEnd j account repo db trace None
  | SyncPrepareFailed err :
      sync_prepare j account repo db = inl err →
      trace = [] →
      SyncEnd j account repo db trace (Some err)
  | SyncDBDeleteFailed digest msg :
      faults j (StmtDeleteManifest (Repository_ID repo) digest) = Some msg →
      digest ∈ deletion_set j account repo db →
      EvDBDelete (Repository_ID repo) digest ∉ trace →
      (∀ ref, ref ∈ manifest_manifest_refs db →
         MMR_RepositoryID ref = Repository_ID repo →
         MMR_ChildDigest ref = digest →
         EvDBDelete (Repository_ID repo) (MMR_ParentDigest ref) ∈ trace) →
      SyncEnd j account repo db trace
        (Some (Errorf ("cannot remove deleted manifest " +:+ digest +:+ " in repo "
                       +:+ FullName repo +:+ " from DB: " +:+ msg)))
  | SyncStorageDeleteFailed digest err :
      sd_DeleteManifest j (Account_Name account) (Repository_Name repo) digest = Some err →
      last trace = Some (EvDBDelete (Repository_ID repo) digest) →
      SyncEnd j account repo db trace
        (Some (Errorf ("cannot remove deleted manifest " +:+ digest +:+ " in repo "
                       +:+ FullName repo +:+ " from storage: " +:+ Error err)))
  | SyncStuck undeletedDigests :
      undeletedDigests ≠ [] →
      NoDup undeletedDigests →
      (∀ d, d ∈ undeletedDigests
            ↔ d ∈ deletion_set j account repo db ∧ EvDBDelete (Repository_ID repo) d ∉ trace) →
      (∀ d, d ∈ undeletedDigests →
         ∃ ref, ref ∈ manifest_manifest_refs db
              ∧ MMR_RepositoryID ref = Repository_ID repo
              ∧ MMR_ChildDigest ref = d
              ∧ EvDBDelete (Repository_ID repo) (MMR_ParentDigest ref) ∉ trace) →
      SyncEnd j account repo db trace (Some (stuck_error undeletedDigests repo)).

(** The invariant of the deletion loop, in terms of the map
    [parentDigestsOf]: the two orderings above, and every digest marked in
    [manifestWasDeleted] has its database deletion in the trace. *)
Definition sync_invariant (repo_id : Z) (parentDigestsOf : gmap string (list string))
    (st : SyncState) : Prop :=
  (∀ (i : nat) (d p : string),
     sync_trace st !! i = Some (EvDBDelete repo_id d) →
     p ∈ map_slice parentDigestsOf d →
     ∃ i', (i' < i)%nat ∧ sync_trace st !! i' = Some (EvDBDelete repo_id p))
  ∧ db_row_before_storage repo_id (sync_trace st)
  ∧ (∀ d, map_bool (manifestWasDeleted st) d = true →
          ∃ i, sync_trace st !! i = Some (EvDBDelete repo_id d)).

(** ** CheckVulnerabilitiesForNextManifest and doVulnerabilityCheck *)

Definition vuln_check_order (a b : Manifest) : Prop :=
  nulls_first_order (Manifest_NextVulnerabilityCheckAt a) (Manifest_NextVulnerabilityCheckAt b).

#[global] Instance vuln_check_order_dec a b : Decision (vuln_check_order a b).
Proof. unfold vuln_check_order. apply _. Defined.

(** The WHERE clause of [vulnCheckSelectQuery]:
    [next_vuln_check_at IS NULL OR next_vuln_check_at < $1]. *)
Definition vuln_check_due (now : Z) (m : Manifest) : bool :=
  match Manifest_NextVulnerabilityCheckAt m with
  | None => true
  | Some t => bool_decide (t < now)
  end.

(** [vulnCheckSelectQuery]. *)
Definition vulnCheckSelectQuery (now : Z) (db : DB) : list Manifest :=
  take 1 (merge_sort vuln_check_order
            (filter (fun m => vuln_check_due now m = true) (manifests db))).

(** [vulnCheckBlobSelectQuery]: blobs joined with the blob references of
    one manifest. *)
Definition vulnCheckBlobSelectQuery (repo_id : Z) (digest : string) (db : DB) : list Blob :=
  b ← blobs db;
  r ← manifest_blob_refs db;
  if decide (Blob_ID b = MBR_BlobID r ∧ MBR_RepositoryID r = repo_id ∧ MBR_Digest r = digest)
  then [b] else [].

(** [vulnCheckSubmanifestInfoQuery]: the stored status of every manifest
    that a reference row names as a child of [digest]. *)
Definition vulnCheckSubmanifestInfoQuery (digest : string) (db : DB) : list Severity :=
  m ← manifests db;
  r ← manifest_manifest_refs db;
  if decide (Manifest_Digest m = MMR_ChildDigest r ∧ MMR_ParentDigest r = digest)
  then [Manifest_VulnerabilityStatus m] else [].

Definition set_NextVulnerabilityCheckAt (m : Manifest) (t : Z) : Manifest :=
  {| Manifest_RepositoryID := Manifest_RepositoryID m;
     Manifest_Digest := Manifest_Digest m;
     Manifest_MediaType := Manifest_MediaType m;
     Manifest_SizeBytes := Manifest_SizeBytes m;
     Manifest_PushedAt := Manifest_PushedAt m;
     Manifest_ValidatedAt := Manifest_ValidatedAt m;
     Manifest_ValidationErrorMessage := Manifest_ValidationErrorMessage m;
     Manifest_NextVulnerabilityCheckAt := Some t;
     Manifest_VulnerabilityStatus := Manifest_VulnerabilityStatus m |}.

Definition set_VulnerabilityStatus (m : Manifest) (s : Severity) : Manifest :=
  {| Manifest_RepositoryID := Manifest_RepositoryID m;
     Manifest_Digest := Manifest_Digest m;
     Manifest_MediaType := Manifest_MediaType m;
     Manifest_SizeBytes := Manifest_SizeBytes m;
     Manifest_PushedAt := Manifest_PushedAt m;
     Manifest_ValidatedAt := Manifest_ValidatedAt m;
     Manifest_ValidationErrorMessage := Manifest_ValidationErrorMessage m;
     Manifest_NextVulnerabilityCheckAt := Manifest_NextVulnerabilityCheckAt m;
     Manifest_VulnerabilityStatus := s |}.

(** How the loop over the blobs of [doVulnerabilityCheck] ends. *)
Inductive BlobLoopExit : Type :=
  | LayersDone (layers : list ClairLayer)
  | ReturnNow (manifest : Manifest) (err : option error)
  | Restart (db : DB) (manifest : Manifest).

(** [for _, blob := range blobs { ... }]. *)
Fixpoint vuln_blob_loop (j : Janitor) (db : DB) (account : Account) (repo : Repository)
    (manifest : Manifest) (bs : list Blob) (layers : list ClairLayer) : BlobLoopExit :=
  match bs with
  | [] => LayersDone layers
  | blob :: bs' =>
      if decide (Blob_StorageID blob = "") then
        let next := Manifest_PushedAt manifest + 10 * Minute in
        let manifest := set_NextVulnerabilityCheckAt manifest next in
        if decide (next < wallNow j) then ReturnNow manifest None
        else
          match ReplicateBlob j db blob account repo with
          | (_, Some err) => ReturnNow manifest (Some err)
          | (db', None) => Restart db' manifest
          end
      else
        match sd_URLForBlob j account (Blob_StorageID blob) with
        | inl err => ReturnNow manifest (Some err)
        | inr blobURL =>
            vuln_blob_loop j db account repo manifest bs'
              (layers ++ [mkClairLayer (Blob_Digest blob) blobURL])
        end
  end.

(** [doVulnerabilityCheck].  [manifest] is the struct behind the pointer;
    the result carries its fields after the call.  The function calls
    itself after a blob was replicated, [fuel] bounds how often. *)
Fixpoint doVulnerabilityCheck (fuel : nat) (j : Janitor) (db : DB)
    (account : Account) (repo : Repository) (manifest : Manifest)
    : option (DB * Manifest * option error) :=
  if Account_InMaintenance account then
    Some (db, set_NextVulnerabilityCheckAt manifest (timeNow j 1 + 1 * Hour), None)
  else
    match query j (StmtSelectBlobsOfManifest (Manifest_RepositoryID manifest) (Manifest_Digest manifest))
            (vulnCheckBlobSelectQuery (Manifest_RepositoryID manifest) (Manifest_Digest manifest) db) with
    | inl err => Some (db, manifest, Some err)
    | inr blobs =>
        match vuln_blob_loop j db account repo manifest blobs [] with
        | ReturnNow manifest' err => Some (db, manifest', err)
        | Restart db' manifest' =>
            match fuel with
            | O => None
            | S fuel' => doVulnerabilityCheck fuel' j db' account repo manifest'
            end
        | LayersDone layers =>
            let clairManifest := mkClairManifest (Manifest_Digest manifest) layers in
            match query j (StmtSelectSubmanifestInfo (Manifest_Digest manifest))
                    (vulnCheckSubmanifestInfoQuery (Manifest_Digest manifest) db) with
            | inl err => Some (db, manifest, Some err)
            | inr severities =>
                let finish (severities : list Severity) :=
                  let manifest := set_VulnerabilityStatus manifest (MergeSeverities severities) in
                  if decide (Manifest_VulnerabilityStatus manifest = UnknownSeverity) then
                    Some (db, set_NextVulnerabilityCheckAt manifest (timeNow j 1 + 2 * Minute), None)
                  else
                    Some (db, set_NextVulnerabilityCheckAt manifest (timeNow j 1 + 1 * Hour), None) in
                if decide (0 < length blobs)%nat then
                  match CheckManifestState j clairManifest with
                  | inl err => Some (db, manifest, Some err)
                  | inr clairState =>
                      if IsErrored clairState then
                        Some (db, manifest,
                              Some (Errorf ("Clair reports indexing of " +:+ Manifest_Digest manifest
                                            +:+ " as errored")))
                      else if IsIndexed clairState then
                        match GetVulnerabilityReport j (Manifest_Digest manifest) with
                        | inl err => Some (db, manifest, Some err)
                        | inr None =>
                            Some (db, manifest,
                                  Some (Errorf ("Clair reports indexing of " +:+ Manifest_Digest manifest
                                                +:+ " as finished, but vulnerability report is 404")))
                        | inr (Some severity) => finish (severities ++ [severity])
                        end
                      else finish (severities ++ [UnknownSeverity])
                  end
                else finish severities
            end
        end
    end.

(** [j.db.Update(&manifest)]: all columns of the row with the primary key
    of [manifest] are overwritten. *)
Definition update_manifest (manifest : Manifest) (db : DB) : DB :=
  set_manifests db
    ((fun m => if decide (Manifest_RepositoryID m = Manifest_RepositoryID manifest
                          ∧ Manifest_Digest m = Manifest_Digest manifest)
               then manifest else m) <$> manifests db).

(** [CheckVulnerabilitiesForNextManifest], before the deferred function.
    ([keppel.FindRepositoryByID] is taken to be the query by id that
    [ValidateNextManifest] spells out.) *)
Definition CheckVulnerabilitiesForNextManifest_body (fuel : nat) (j : Janitor) (db : DB)
    : option (DB * option error) :=
  match selectOne j StmtSelectNextVulnCheck (vulnCheckSelectQuery (timeNow j 0) db) with
  | inl err =>
      if decide (err = ErrNoRows) then Some (db, Some ErrNoRows) else Some (db, Some err)
  | inr manifest =>
      match selectOne j (StmtSelectRepo (Manifest_RepositoryID manifest))
              (select_repo_by_id db (Manifest_RepositoryID manifest)) with
      | inl err =>
          Some (db, Some (Errorf ("cannot find repo for manifest " +:+ Manifest_Digest manifest
                                  +:+ ": " +:+ Error err)))
      | inr repo =>
          match findAccount j db (Repository_AccountName repo) with
          | inl err =>
              Some (db, Some (Errorf ("cannot find account for repo " +:+ FullName repo
                                      +:+ ": " +:+ Error err)))
          | inr account =>
              match doVulnerabilityCheck fuel j db account repo manifest with
              | None => None
              | Some (db', _, Some err) => Some (db', Some err)
              | Some (db', manifest', None) =>
                  match exec j (StmtUpdateManifest (Manifest_RepositoryID manifest')
                                                   (Manifest_Digest manifest'))
                          (update_manifest manifest' db') with
                  | inl err => Some (db', Some err)
                  | inr db'' => Some (db'', None)
                  end
              end
          end
      end
  end.

Definition CheckVulnerabilitiesForNextManifest (fuel : nat) (j : Janitor) (db : DB)
    : option (DB * option error) :=
  match CheckVulnerabilitiesForNextManifest_body fuel j db with
  | None => None
  | Some (db', returnErr) =>
      Some (db', wrap_sweep_error "while updating vulnerability status for a manifest: " returnErr)
  end.

(** ** Notions used by the theorems on the sync and the schedules *)

(** The digest of the manifest that a deletion removed. *)
Definition event_digest (ev : Event) : string :=
  match ev with
  | EvDBDelete _ digest => digest
  | EvStorageDelete _ _ digest => digest
  end.

(** [db'] has the accounts, repositories, blobs and blob mounts of [db]. *)
Definition same_owners (db db' : DB) : Prop :=
  accounts db' = accounts db ∧ repos db' = repos db
  ∧ blobs db' = blobs db ∧ blob_mounts db' = blob_mounts db.

(** [m'] is [m] except, at most, in the two columns of the vulnerability
    check. *)
Definition only_vuln_columns_changed (m m' : Manifest) : Prop :=
  Manifest_RepositoryID m' = Manifest_RepositoryID m
  ∧ Manifest_Digest m' = Manifest_Digest m
  ∧ Manifest_MediaType m' = Manifest_MediaType m
  ∧ Manifest_SizeBytes m' = Manifest_SizeBytes m
  ∧ Manifest_PushedAt m' = Manifest_PushedAt m
  ∧ Manifest_ValidatedAt m' = Manifest_ValidatedAt m
  ∧ Manifest_ValidationErrorMessage m' = Manifest_ValidationErrorMessage m.

(** No manifest row is due for validation. *)
Definition nothing_to_validate (j : Janitor) (db : DB) : Prop :=
  ∀ m, m ∈ manifests db →
    outdated_where (timeNow j 0 - 24 * Hour) (timeNow j 1 - 10 * Minute) m = false.

End tasks.

(* ===================================================================== *)
(** * Package processor: ValidateAndStoreManifest *)
(* ===================================================================== *)

Module processor.
Import keppel.

(** [uint64(x)] for an [int64] (or any integer) [x]. *)
Definition uint64 (x : Z) : Z := x mod 2 ^ 64.

(** [distribution.Descriptor]; [Desc_Size] is an [int64]. *)
Record Descriptor : Type := mkDescriptor {
  Desc_MediaType : string;
  Desc_Digest : string;
  Desc_Size : Z
}.

(** The implementations of [distribution.Manifest] that
    [checkManifestHasRequiredLabels] tells apart, each with what its
    [References()] returns; [OtherManifest] is any other implementation. *)
Inductive DistManifest : Type :=
  | Schema2Manifest (config : Descriptor) (references : list Descriptor)
  | OCIManifest (config : Descriptor) (references : list Descriptor)
  | ManifestList (references : list Descriptor)
  | OtherManifest (references : list Descriptor).

Definition References (m : DistManifest) : list Descriptor :=
  match m with
  | Schema2Manifest _ refs | OCIManifest _ refs | ManifestList refs | OtherManifest refs => refs
  end.

Record IncomingManifest : Type := mkIncomingManifest {
  RepoName : string;
  Reference : ManifestReference;
  MediaType : string;
  Contents : list Byte.byte;
  PushedAt : Z
}.

(** Manifests in the backing storage, by (account, repo, digest). *)
Abbreviation Storage := (gmap (string * string * string) (list Byte.byte)).

(** What a transaction did, in order. *)
Inductive TxOp : Type :=
  | OpFindBlob (digest : string)
  | OpSelectStorageID (digest : string)
  | OpReadBlob (storage_id : string)
  | OpInsertManifest (repo_id : Z) (digest : string)
  | OpInsertTag (repo_id : Z) (name : string)
  | OpWriteManifest (account repo digest : string).

#[global] Instance TxOp_eq_dec : EqDecision TxOp.
Proof. solve_decision. Defined.

(** The processor and what it calls that is not in the source files covered here:

    - [p_faults]: the statements the database connection refuses;
    - [checkQuotaForManifestPush]: the quota check (a method of the
      processor, reads the database);
    - [UnmarshalManifest]: [distribution.UnmarshalManifest];
    - [WriteManifest_err]: whether the storage driver fails to write the
      manifest (of the account of that name, repo and digest);
    - [ReadBlob]: reading a blob through the storage driver (including
      [ioutil.ReadAll] and [Close] on the reader);
    - [config_labels]: [json.Unmarshal] of a config blob into the struct
      of [checkManifestHasRequiredLabels], giving the keys of
      [.config.labels]. *)
Record Processor : Type := mkProcessor {
  p_faults : DBFaults;
  checkQuotaForManifestPush : DB -> Account -> option error;
  UnmarshalManifest : string -> list Byte.byte -> error + (DistManifest * Descriptor);
  WriteManifest_err : string -> string -> string -> list Byte.byte -> option error;
  ReadBlob : Account -> string -> error + list Byte.byte;
  config_labels : list Byte.byte -> error + gset string
}.

(** The state a transaction body works on: the tables as the transaction
    sees them, the storage, and the operations so far. *)
Record TxState : Type := mkTxState {
  tx_db : DB;
  tx_storage : Storage;
  tx_log : list TxOp
}.

Definition tx_logged (st : TxState) (op : TxOp) : TxState :=
  {| tx_db := tx_db st; tx_storage := tx_storage st; tx_log := tx_log st ++ [op] |}.

(** Modelled from the spec: [insideTransaction] is not among the
    source files covered here.  The body runs in one transaction; if it returns an error the
    transaction aborts (the tables are as before, the storage is not part
    of the transaction), otherwise it commits. *)
Definition insideTransaction {A : Type} (p : Processor)
    (action : TxState -> TxState * A * option error)
    (db : DB) (storage : Storage) : DB * Storage * list TxOp * A * option error :=
  match action (mkTxState db storage []) with
  | (st, a, Some err) => (db, tx_storage st, tx_log st, a, Some err)
  | (st, a, None) =>
      match p_faults p StmtCommit with
      | Some msg => (db, tx_storage st, tx_log st, a, Some (DriverErr msg))
      | None => (tx_db st, tx_storage st, tx_log st, a, None)
      end
  end.

(** Modelled from the spec: [FindOrCreateRepository] is not among the source
    files covered here.  "Find-or-create the repository row": the row of this
    account with this name, or a new one under the next free id. *)
Definition FindOrCreateRepository (p : Processor) (db : DB) (name : string) (account : Account)
    : DB * (error + Repository) :=
  match p_faults p (StmtFindOrCreateRepo (Account_Name account) name) with
  | Some msg => (db, inl (DriverErr msg))
  | None =>
      match filter (fun r => Repository_AccountName r = Account_Name account
                             ∧ Repository_Name r = name) (repos db) with
      | r :: _ => (db, inr r)
      | [] =>
          let r := {| Repository_ID := 1 + foldr Z.max 0 (Repository_ID <$> repos db);
                      Repository_AccountName := Account_Name account;
                      Repository_Name := name;
                      Repository_NextManifestSyncAt := None |} in
          (set_repos db (repos db ++ [r]), inr r)
      end
  end.

(** Modelled from the spec: [keppel.FindBlobByRepositoryID] is not among the source
    files covered here.  A descriptor "exists as a Blob in this repo" when the
    account has a blob row of that digest that is mounted in the repo. *)
Definition FindBlobByRepositoryID (p : Processor) (db : DB) (digest : string) (repo_id : Z)
    (account : Account) : error + Blob :=
  match p_faults p (StmtFindBlob repo_id digest) with
  | Some msg => inl (DriverErr msg)
  | None =>
      SelectOne (filter (fun b => Blob_AccountName b = Account_Name account
                                  ∧ Blob_Digest b = digest
                                  ∧ (Blob_ID b, repo_id) ∈ blob_mounts db) (blobs db))
  end.

(** Modelled from the spec: [Manifest.InsertIfMissing] is not among the source
    files covered here.  "Insert the Manifest row if missing (idempotent on
    (repo_id, digest))". *)
Definition Manifest_InsertIfMissing (p : Processor) (m : Manifest) (db : DB) : error + DB :=
  match p_faults p (StmtInsertManifest (Manifest_RepositoryID m) (Manifest_Digest m)) with
  | Some msg => inl (DriverErr msg)
  | None =>
      if bool_decide (Exists (fun m' => Manifest_RepositoryID m' = Manifest_RepositoryID m
                                        ∧ Manifest_Digest m' = Manifest_Digest m) (manifests db))
      then inr db
      else inr (set_manifests db (manifests db ++ [m]))
  end.

(** Modelled from the spec: [Tag.InsertIfMissing] is not among the
    source files covered here.  "If reference is a tag, upsert the Tag row": the row of that
    (repo_id, name) is overwritten, or added when there is none. *)
Definition Tag_InsertIfMissing (p : Processor) (t : Tag) (db : DB) : error + DB :=
  match p_faults p (StmtInsertTag (Tag_RepositoryID t) (Tag_Name t)) with
  | Some msg => inl (DriverErr msg)
  | None =>
      if bool_decide (Exists (fun t' => Tag_RepositoryID t' = Tag_RepositoryID t
                                        ∧ Tag_Name t' = Tag_Name t) (tags db))
      then inr (set_tags db ((fun t' => if decide (Tag_RepositoryID t' = Tag_RepositoryID t
                                                   ∧ Tag_Name t' = Tag_Name t)
                                        then t else t') <$> tags db))
      else inr (set_tags db (tags db ++ [t]))
  end.

(** [sd.WriteManifest]. *)
Definition WriteManifest (p : Processor) (account repo digest : string)
    (contents : list Byte.byte) (st : TxState) : TxState * option error :=
  let st := tx_logged st (OpWriteManifest account repo digest) in
  match WriteManifest_err p account repo digest contents with
  | Some err => (st, Some err)
  | None =>
      ({| tx_db := tx_db st;
          tx_storage := <[(account, repo, digest) := contents]> (tx_storage st);
          tx_log := tx_log st |}, None)
  end.

(** [strings.Split(s, ",")]. *)
Fixpoint split_comma_aux (s : string) (cur : string) : list string :=
  match s with
  | EmptyString => [cur]
  | String c s' =>
      if Ascii.eqb c ","%char then cur :: split_comma_aux s' ""
      else split_comma_aux s' (cur +:+ String c "")
  end.

Definition split_comma (s : string) : list string := split_comma_aux s "".

(** [checkManifestHasRequiredLabels]: the missing labels, or an error. *)
Definition checkManifestHasRequiredLabels (p : Processor) (st : TxState) (account : Account)
    (manifest : DistManifest) (requiredLabels : list string)
    : TxState * (error + list string) :=
  let zero := mkDescriptor "" "" 0 in
  let with_config (configBlob : Descriptor) : TxState * (error + list string) :=
    let st := tx_logged st (OpSelectStorageID (Desc_Digest configBlob)) in
    match p_faults p (StmtSelectStorageID (Account_Name account) (Desc_Digest configBlob)) with
    | Some msg => (st, inl (DriverErr msg))
    | None =>
        (* [tx.SelectStr]: the empty string when there is no row *)
        let storageID :=
          match filter (fun b => Blob_AccountName b = Account_Name account
                                 ∧ Blob_Digest b = Desc_Digest configBlob) (blobs (tx_db st)) with
          | b :: _ => Blob_StorageID b
          | [] => ""
          end in
        if decide (storageID = "") then
          (st, inl (RegistryErr (WithDetail (With ErrManifestBlobUnknown "") (Desc_Digest configBlob))))
        else
          let st := tx_logged st (OpReadBlob storageID) in
          match ReadBlob p account storageID with
          | inl err => (st, inl err)
          | inr blobContents =>
              match config_labels p blobContents with
              | inl err => (st, inl err)
              | inr labels =>
                  (st, inr (filter (fun label => label ∉ labels) requiredLabels))
              end
          end
    end in
  match manifest with
  | Schema2Manifest config _ => with_config config
  | OCIManifest config _ => with_config config
  | ManifestList _ => (st, inr [])
  | OtherManifest _ => with_config zero
  end.

(** The loop that checks that all referenced blobs exist. *)
Fixpoint check_references (p : Processor) (st : TxState) (repo : Repository) (account : Account)
    (descs : list Descriptor) : TxState * option error :=
  match descs with
  | [] => (st, None)
  | desc :: descs' =>
      let st := tx_logged st (OpFindBlob (Desc_Digest desc)) in
      match FindBlobByRepositoryID p (tx_db st) (Desc_Digest desc) (Repository_ID repo) account with
      | inl err =>
          if decide (err = ErrNoRows) then
            (st, Some (RegistryErr (WithDetail (With ErrManifestBlobUnknown "") (Desc_Digest desc))))
          else (st, Some err)
      | inr _ => check_references p st repo account descs'
      end
  end.

(** The validation steps that are skipped for replica accounts. *)
Definition validate_for_primary (p : Processor) (st : TxState) (repo : Repository)
    (account : Account) (manifest : DistManifest) : TxState * option error :=
  match check_references p st repo account (References manifest) with
  | (st, Some err) => (st, Some err)
  | (st, None) =>
      if decide (Account_RequiredLabels account ≠ "") then
        let requiredLabels := split_comma (Account_RequiredLabels account) in
        match checkManifestHasRequiredLabels p st account manifest requiredLabels with
        | (st, inl err) => (st, Some err)
        | (st, inr missingLabels) =>
            if decide (0 < length missingLabels)%nat then
              let msg := "missing required labels: " +:+ String.concat ", " missingLabels in
              (st, Some (RegistryErr (With ErrManifestInvalid msg)))
            else (st, None)
        end
      else (st, None)
  end.

(** [sizeBytes := uint64(manifestDesc.Size); for ... { sizeBytes += uint64(desc.Size) }]. *)
Definition total_size (manifestDesc : Descriptor) (refs : list Descriptor) : Z :=
  foldl (fun sizeBytes desc => uint64 (sizeBytes + uint64 (Desc_Size desc)))
        (uint64 (Desc_Size manifestDesc)) refs.

(** The function passed to [insideTransaction].  The middle component of
    the result is the variable [dbManifest] that the closure assigns.
    (The fields that the struct literal leaves out get their zero values;
    for the vulnerability status that is written [CleanSeverity] here.) *)
Definition store_manifest_tx (p : Processor) (account : Account) (m : IncomingManifest)
    (repo : Repository) (manifest : DistManifest) (manifestDesc : Descriptor)
    (st : TxState) : TxState * option Manifest * option error :=
  match (if decide (Account_UpstreamPeerHostName account = "")
         then validate_for_primary p st repo account manifest
         else (st, None)) with
  | (st, Some err) => (st, None, Some err)
  | (st, None) =>
      let sizeBytes := total_size manifestDesc (References manifest) in
      let dbManifest :=
        {| Manifest_RepositoryID := Repository_ID repo;
           Manifest_Digest := Desc_Digest manifestDesc;
           Manifest_MediaType := Desc_MediaType manifestDesc;
           Manifest_SizeBytes := sizeBytes;
           Manifest_PushedAt := PushedAt m;
           Manifest_ValidatedAt := PushedAt m;
           Manifest_ValidationErrorMessage := "";
           Manifest_NextVulnerabilityCheckAt := None;
           Manifest_VulnerabilityStatus := CleanSeverity |} in
      let st := tx_logged st (OpInsertManifest (Repository_ID repo) (Desc_Digest manifestDesc)) in
      match Manifest_InsertIfMissing p dbManifest (tx_db st) with
      | inl err => (st, Some dbManifest, Some err)
      | inr db1 =>
          let st := {| tx_db := db1; tx_storage := tx_storage st; tx_log := tx_log st |} in
          let write (st : TxState) :=
            match WriteManifest p (Account_Name account) (Repository_Name repo)
                    (Desc_Digest manifestDesc) (Contents m) st with
            | (st, err) => (st, Some dbManifest, err)
            end in
          if IsTag (Reference m) then
            let st := tx_logged st (OpInsertTag (Repository_ID repo) (Ref_Tag (Reference m))) in
            match Tag_InsertIfMissing p
                    {| Tag_RepositoryID := Repository_ID repo;
                       Tag_Name := Ref_Tag (Reference m);
                       Tag_Digest := Desc_Digest manifestDesc;
                       Tag_PushedAt := PushedAt m |} (tx_db st) with
            | inl err => (st, Some dbManifest, Some err)
            | inr db2 =>
                write {| tx_db := db2; tx_storage := tx_storage st; tx_log := tx_log st |}
            end
          else write st
      end
  end.

(** The outcome of [ValidateAndStoreManifest]: the committed tables, the
    storage, the operations of the transaction (empty if none was begun),
    and the two Go return values. *)
Record StoreResult : Type := mkStoreResult {
  res_db : DB;
  res_storage : Storage;
  res_log : list TxOp;
  res_manifest : option Manifest;
  res_err : option error
}.

(** [ValidateAndStoreManifest]. *)
Definition ValidateAndStoreManifest (p : Processor) (account : Account) (m : IncomingManifest)
    (db : DB) (storage : Storage) : StoreResult :=
  match checkQuotaForManifestPush p db account with
  | Some err => mkStoreResult db storage [] None (Some err)
  | None =>
      match FindOrCreateRepository p db (RepoName m) account with
      | (db, inl err) => mkStoreResult db storage [] None (Some err)
      | (db, inr repo) =>
          match UnmarshalManifest p (MediaType m) (Contents m) with
          | inl err =>
              mkStoreResult db storage [] None
                (Some (RegistryErr (With ErrManifestInvalid (Error err))))
          | inr (manifest, manifestDesc) =>
              if IsDigest (Reference m)
                 && bool_decide (Desc_Digest manifestDesc ≠ Ref_Digest (Reference m))
              then
                mkStoreResult db storage [] None
                  (Some (RegistryErr (With ErrDigestInvalid
                           ("actual manifest digest is " +:+ Desc_Digest manifestDesc))))
              else
                match insideTransaction p
                        (store_manifest_tx p account m repo manifest manifestDesc) db storage with
                | (db', storage', log, dbManifest, err) =>
                    mkStoreResult db' storage' log dbManifest err
                end
          end
      end
  end.

(** *** Notions used by the theorems on [ValidateAndStoreManifest] *)

(** The operations with which a transaction reads. *)
Definition is_read (op : TxOp) : bool :=
  match op with
  | OpFindBlob _ | OpSelectStorageID _ | OpReadBlob _ => true
  | _ => false
  end.

Definition is_write_manifest (op : TxOp) : bool :=
  match op with
  | OpWriteManifest _ _ _ => true
  | _ => false
  end.

(** [st'] is [st] after some more reading operations. *)
Definition only_reads_since (st st' : TxState) : Prop :=
  tx_db st' = tx_db st ∧ tx_storage st' = tx_storage st
  ∧ ∃ ops, tx_log st' = tx_log st ++ ops ∧ Forall (fun op => is_read op = true) ops.

(** The descriptor has a blob row in the repo. *)
Definition has_blob_row (db : DB) (repo : Repository) (account : Account) (desc : Descriptor) : Prop :=
  ∃ b, b ∈ blobs db ∧ Blob_AccountName b = Account_Name account
       ∧ Blob_Digest b = Desc_Digest desc
       ∧ (Blob_ID b, Repository_ID repo) ∈ blob_mounts db.

(** The sum of the declared sizes. *)
Definition sum_sizes (refs : list Descriptor) : Z :=
  foldr (fun desc acc => Desc_Size desc + acc) 0 refs.

(** *** Notions used by the theorems on required labels *)

(** The descriptor whose blob [checkManifestHasRequiredLabels] loads: the
    config of an image manifest, none for a manifest list, and the zero
    descriptor for any other implementation (the type switch has no
    default arm). *)
Definition config_descriptor (manifest : DistManifest) : option Descriptor :=
  match manifest with
  | Schema2Manifest config _ | OCIManifest config _ => Some config
  | ManifestList _ => None
  | OtherManifest _ => Some (mkDescriptor "" "" 0)
  end.

(** The account has the config blob under a storage ID, and its contents
    parse to an image configuration with the labels [labels]. *)
Definition config_has_labels (p : Processor) (db : DB) (account : Account)
    (configBlob : Descriptor) (labels : gset string) : Prop :=
  ∃ b rest blobContents,
    filter (fun b => Blob_AccountName b = Account_Name account
                     ∧ Blob_Digest b = Desc_Digest configBlob) (blobs db) = b :: rest
    ∧ Blob_StorageID b ≠ ""
    ∧ ReadBlob p account (Blob_StorageID b) = inr blobContents
    ∧ config_labels p blobContents = inr labels.

End processor.

(* ===================================================================== *)
(** * Package auth: IssueToken and parseToken *)
(* ===================================================================== *)

Module auth.
Import keppel.

(** ** Keys and their fingerprint *)

(** The two kinds of issuer key that the type switches of
    [chooseSigningMethod], [derivePublicKey] and [serializePublicKey]
    handle.  Their [default] arms panic; the configuration holds no other
    kind of key, so those arms are left out.  A private key carries its
    public half, which [key.Public()] returns. *)
Inductive PrivateKey : Type :=
  | Ed25519PrivateKey (seed : list Byte.byte) (pub : list Byte.byte)
  | RSAPrivateKey (D : Z) (E : Z) (N : Z).

Inductive PublicKey : Type :=
  | Ed25519PublicKey (pub : list Byte.byte)
  | RSAPublicKey (E : Z) (N : Z).

#[global] Instance PrivateKey_eq_dec : EqDecision PrivateKey.
Proof. solve_decision. Defined.
#[global] Instance PublicKey_eq_dec : EqDecision PublicKey.
Proof. solve_decision. Defined.

(** The signing methods that the JWT library registers, by family; the
    member of a family (RS256, RS384, ...) is the value that
    [*m1 == *m2] compares in [equalSigningMethods]. *)
Inductive SigningMethod : Type :=
  | SigningMethodEdDSA
  | SigningMethodRSA (name : string)
  | SigningMethodECDSA (name : string)
  | SigningMethodRSAPSS (name : string)
  | SigningMethodHMAC (name : string)
  | SigningMethodNone.

#[global] Instance SigningMethod_eq_dec : EqDecision SigningMethod.
Proof. solve_decision. Defined.

Definition SigningMethodRS256 : SigningMethod := SigningMethodRSA "RS256".

(** [Alg()], the value of the ["alg"] header. *)
Definition Alg (m : SigningMethod) : string :=
  match m with
  | SigningMethodEdDSA => "EdDSA"
  | SigningMethodRSA name | SigningMethodECDSA name
  | SigningMethodRSAPSS name | SigningMethodHMAC name => name
  | SigningMethodNone => "none"
  end.

(** [jwt.GetSigningMethod]: the method registered under a name, nil for
    any other name. *)
Definition GetSigningMethod (alg : string) : option SigningMethod :=
  if decide (alg = "EdDSA") then Some SigningMethodEdDSA
  else if decide (alg ∈ ["RS256"; "RS384"; "RS512"]) then Some (SigningMethodRSA alg)
  else if decide (alg ∈ ["ES256"; "ES384"; "ES512"]) then Some (SigningMethodECDSA alg)
  else if decide (alg ∈ ["PS256"; "PS384"; "PS512"]) then Some (SigningMethodRSAPSS alg)
  else if decide (alg ∈ ["HS256"; "HS384"; "HS512"]) then Some (SigningMethodHMAC alg)
  else if decide (alg = "none") then Some SigningMethodNone
  else None.

(** How a function of this package ends: it returns, or it panics. *)
Inductive MethodResult (A : Type) : Type :=
  | Returns (a : A)
  | Panics.
Arguments Returns {A} a.
Arguments Panics {A}.

Definition chooseSigningMethod (key : PrivateKey) : SigningMethod :=
  match key with
  | Ed25519PrivateKey _ _ => SigningMethodEdDSA
  | RSAPrivateKey _ _ _ => SigningMethodRS256
  end.

Definition derivePublicKey (key : PrivateKey) : PublicKey :=
  match key with
  | Ed25519PrivateKey _ pub => Ed25519PublicKey pub
  | RSAPrivateKey _ E N => RSAPublicKey E N
  end.

(** One lower-case hexadecimal digit. *)
Definition hex_digit (n : N) : ascii :=
  match n with
  | 0 => "0" | 1 => "1" | 2 => "2" | 3 => "3" | 4 => "4" | 5 => "5"
  | 6 => "6" | 7 => "7" | 8 => "8" | 9 => "9" | 10 => "a" | 11 => "b"
  | 12 => "c" | 13 => "d" | 14 => "e" | _ => "f"
  end%N%char.

Definition hex_byte (b : Byte.byte) : string :=
  let n := Byte.to_N b in
  String (hex_digit (n / 16)) (String (hex_digit (n mod 16)) "").

(** [hex.EncodeToString]. *)
Fixpoint EncodeToString (bs : list Byte.byte) : string :=
  match bs with
  | [] => ""
  | b :: bs' => hex_byte b +:+ EncodeToString bs'
  end.

(** [%x] of an integer, and [Text(16)] of a big integer: lower-case
    hexadecimal digits without prefix, a minus sign first if negative. *)
Definition fmt_hex (z : Z) : string :=
  match z with
  | Z0 => "0"
  | Zpos p => HexString.Raw.of_pos p ""
  | Zneg p => String "-" (HexString.Raw.of_pos p "")
  end.

Definition serializePublicKey (key : PrivateKey) : string :=
  match key with
  | Ed25519PrivateKey _ pub => EncodeToString pub
  | RSAPrivateKey _ E N => fmt_hex E +:+ ":" +:+ fmt_hex N
  end.

(** [equalSigningMethods]: its type switch on [m1] has the three families
    that [chooseSigningMethod] and its forerunners pick from, and panics
    for any other. *)
Definition equalSigningMethods (m1 m2 : SigningMethod) : MethodResult bool :=
  match m1 with
  | SigningMethodEdDSA | SigningMethodECDSA _ | SigningMethodRSA _ =>
      Returns (bool_decide (m1 = m2))
  | SigningMethodRSAPSS _ | SigningMethodHMAC _ | SigningMethodNone => Panics
  end.

(** ** Scopes, identities, audiences *)

(** Modelled from the spec: the scope types are not among the source files
    covered here.
    A scope is (resource type, resource name, actions); a scope set is
    deduplicated, with the actions united when type and name match. *)
Record Scope : Type := mkScope {
  ResourceType : string;
  ResourceName : string;
  Actions : list string
}.

#[global] Instance Scope_eq_dec : EqDecision Scope.
Proof. solve_decision. Defined.

Definition ScopeSet : Type := list Scope.

Definition same_resource (a b : Scope) : bool :=
  bool_decide (ResourceType a = ResourceType b ∧ ResourceName a = ResourceName b).

Definition merge_actions (old new : list string) : list string :=
  old ++ filter (fun a => a ∉ old) (remove_dups new).

(** Modelled from the spec: [ScopeSet.Add] (see [Scope]). *)
Definition ScopeSet_Add (ss : ScopeSet) (s : Scope) : ScopeSet :=
  if existsb (same_resource s) ss then
    (fun s' => if same_resource s s'
               then mkScope (ResourceType s') (ResourceName s') (merge_actions (Actions s') (Actions s))
               else s') <$> ss
  else ss ++ [mkScope (ResourceType s) (ResourceName s) (merge_actions [] (Actions s))].

(** Modelled from the spec: [ScopeSet.Flatten] (see [Scope]). *)
Definition Flatten (ss : ScopeSet) : list Scope := ss.

(** A [keppel.UserIdentity] as a token carries it: the user name, and the
    type name and payload that [SerializeToJSON] gives and
    [DeserializeUserIdentity] takes back. *)
Record UserIdentity : Type := mkUserIdentity {
  UserName : string;
  IdentityType : string;
  IdentityPayload : string
}.

#[global] Instance UserIdentity_eq_dec : EqDecision UserIdentity.
Proof. solve_decision. Defined.

(** Modelled from the spec: the audience type [Service] is not among the source
    files covered here.  An audience is local or anycast; each has its public
    hostname and its ordered list of issuer keys. *)
Inductive Service : Type := LocalService | AnycastService.

#[global] Instance Service_eq_dec : EqDecision Service.
Proof. solve_decision. Defined.

(** [keppel.Configuration], with the fields the token code reads. *)
Record Configuration : Type := mkConfiguration {
  APIPublicHostname : string;
  AnycastAPIPublicHostname : string;
  JWTIssuerKeys : list PrivateKey;
  AnycastJWTIssuerKeys : list PrivateKey
}.

(** Modelled from the spec: [Service.Hostname] (see [Service]). *)
Definition Hostname (audience : Service) (cfg : Configuration) : string :=
  match audience with
  | LocalService => APIPublicHostname cfg
  | AnycastService => AnycastAPIPublicHostname cfg
  end.

(** Modelled from the spec: [Service.IssuerKeys] (see [Service]). *)
Definition IssuerKeys (audience : Service) (cfg : Configuration) : list PrivateKey :=
  match audience with
  | LocalService => JWTIssuerKeys cfg
  | AnycastService => AnycastJWTIssuerKeys cfg
  end.

(** [Authorization]; its [UserIdentity] is an interface, nil is [None]. *)
Record Authorization : Type := mkAuthorization {
  Auth_UserIdentity : option UserIdentity;
  Auth_ScopeSet : ScopeSet;
  Auth_Service : Service
}.

(** ** embeddedUserIdentity *)

(** What [MarshalJSON] and [UnmarshalJSON] call that is not among the
    source files covered here: the method [SerializeToJSON] of the
    identity (type name and payload, or an error), and [json.Marshal] and
    [json.Unmarshal] for a [map[string]json.RawMessage] (a payload is kept
    as a string). *)
Record IdentityCodec : Type := mkIdentityCodec {
  SerializeToJSON : UserIdentity -> error + (string * string);
  json_Marshal : gmap string string -> error + list Byte.byte;
  json_Unmarshal : list Byte.byte -> error + gmap string string
}.

(** [keppel.AuthDriver], as far as [keppel.DeserializeUserIdentity] uses
    it: the two results of that function for a type name and a payload. *)
Record AuthDriver : Type := mkAuthDriver {
  DeserializeUserIdentity : string -> string -> option UserIdentity * option error
}.

(** The struct [embeddedUserIdentity]; nil interfaces are [None]. *)
Record embeddedUserIdentity : Type := mkembeddedUserIdentity {
  Emb_UserIdentity : option UserIdentity;
  Emb_AuthDriver : option AuthDriver
}.

(** [MarshalJSON].  Calling [SerializeToJSON] on a nil identity panics. *)
Definition MarshalJSON (codec : IdentityCodec) (e : embeddedUserIdentity)
    : MethodResult (error + list Byte.byte) :=
  match Emb_UserIdentity e with
  | None => Panics
  | Some uid =>
      match SerializeToJSON codec uid with
      | inl err => Returns (inl err)
      | inr (typeName, payload) => Returns (json_Marshal codec {[typeName := payload]})
      end
  end.

(** [UnmarshalJSON]: the struct behind the receiver afterwards, and the
    error.  The loop over the map returns in its first iteration; the
    panic after the loop is reached only if the map has no entry, which
    the check of its length excludes. *)
Definition UnmarshalJSON (codec : IdentityCodec) (e : embeddedUserIdentity)
    (input : list Byte.byte) : MethodResult (embeddedUserIdentity * option error) :=
  match Emb_AuthDriver e with
  | None =>
      Returns (e, Some (Errorf "cannot unmarshal EmbeddedAuthorization without an AuthDriver"))
  | Some ad =>
      match json_Unmarshal codec input with
      | inl err => Returns (e, Some err)
      | inr m =>
          if decide (size m ≠ 1%nat) then
            Returns (e, Some (Errorf ("cannot unmarshal EmbeddedAuthorization with "
                                      +:+ pretty (size m) +:+ " components")))
          else
            match map_to_list m with
            | (typeName, payload) :: _ =>
                let '(uid, err) := DeserializeUserIdentity ad typeName payload in
                Returns ({| Emb_UserIdentity := uid; Emb_AuthDriver := Emb_AuthDriver e |}, err)
            | [] => Panics
            end
      end
  end.

(** ** Tokens *)

(** [jwt.RegisteredClaims]; the dates are seconds, [None] when absent. *)
Record RegisteredClaims : Type := mkRegisteredClaims {
  ID : string;
  Audience : list string;
  Issuer : string;
  Subject : string;
  ExpiresAt : option Z;
  NotBefore : option Z;
  IssuedAt : option Z
}.

(** The struct [tokenClaims]. *)
Record tokenClaims : Type := mktokenClaims {
  Registered : RegisteredClaims;
  Access : list Scope;
  Embedded : embeddedUserIdentity
}.

(** The claims of a token as its JSON object has them: the registered
    members, the member ["access"], and the member ["kea"] as the raw
    JSON value that [MarshalJSON] wrote and [UnmarshalJSON] is given,
    [None] when the object has no such member. *)
Record ClaimsJSON : Type := mkClaimsJSON {
  json_registered : RegisteredClaims;
  json_access : list Scope;
  json_kea : option (list Byte.byte)
}.

(** What the signature of a token covers: its header (the members
    ["alg"] and ["jwk"], [None] when absent or not a string) and its
    claims. *)
Record Unsigned : Type := mkUnsigned {
  Header_alg : option string;
  Header_jwk : option string;
  Claims : ClaimsJSON
}.

(** A token.  The JWT library turns it into a string of three segments
    and back; that encoding is the library's and the token stands for
    its string.  A string that the library cannot split into three
    segments and decode into a header and a claims object is rejected
    by the library before any of the steps below and has no
    counterpart here. *)
Record Token : Type := mkToken {
  Token_unsigned : Unsigned;
  Token_signature : string
}.

Record TokenResponse : Type := mkTokenResponse {
  Resp_Token : Token;
  Resp_ExpiresIn : Z;
  Resp_IssuedAt : Z
}.

(** What the token code takes from outside: the clock ([time_Now k] is
    the k-th reading during one call, the JWT library reads it too), the
    random token id, the signature scheme of the crypto library, and what
    the methods of [embeddedUserIdentity] call. *)
Record Env : Type := mkEnv {
  time_Now : nat -> Z;
  uuid_NewV4 : string;
  Sign : SigningMethod -> PrivateKey -> Unsigned -> string;
  Verify : SigningMethod -> PublicKey -> Unsigned -> string -> bool;
  json : IdentityCodec
}.

(** [IssueToken].  Calling [UserName] on a nil identity panics.
    [SignedString] marshals the claims, the member ["kea"] through
    [MarshalJSON]; the JSON library wraps an error of that method, and
    then the source returns, next to the error, a response with an empty
    token, which the sum leaves out.  ([SignedString] does not fail for
    a key of the kind its method expects, and [chooseSigningMethod]
    picked the method.  [Resp_IssuedAt] is the time that the source
    formats as RFC 3339.) *)
Definition IssueToken (env : Env) (a : Authorization) (cfg : Configuration)
    : MethodResult (error + TokenResponse) :=
  let now := time_Now env 0 in
  let expiresIn := 4 * Hour in
  let expiresAt := now + expiresIn in
  let issuerKeys := IssuerKeys (Auth_Service a) cfg in
  match issuerKeys with
  | [] => Returns (inl (Errorf "no issuer keys configured for this audience"))
  | issuerKey :: _ =>
      let method := chooseSigningMethod issuerKey in
      let publicHost := Hostname (Auth_Service a) cfg in
      match Auth_UserIdentity a with
      | None => Panics
      | Some uid =>
          let claims :=
            {| Registered :=
                 {| ID := uuid_NewV4 env;
                    Audience := [publicHost];
                    Issuer := "keppel-api@" +:+ APIPublicHostname cfg;
                    Subject := UserName uid;
                    ExpiresAt := Some expiresAt;
                    NotBefore := Some now;
                    IssuedAt := Some now |};
               Access := Flatten (Auth_ScopeSet a);
               Embedded := {| Emb_UserIdentity := Some uid; Emb_AuthDriver := None |} |} in
          match MarshalJSON (json env) (Embedded claims) with
          | Panics => Panics
          | Returns (inl err) =>
              Returns (inl (Errorf ("json: error calling MarshalJSON for type auth.embeddedUserIdentity: "
                                    +:+ Error err)))
          | Returns (inr kea) =>
              let token := {| Header_alg := Some (Alg method);
                              Header_jwk := Some (serializePublicKey issuerKey);
                              Claims := {| json_registered := Registered claims;
                                           json_access := Access claims;
                                           json_kea := Some kea |} |} in
              let tokenStr := mkToken token (Sign env method issuerKey token) in
              Returns (inr {| Resp_Token := tokenStr;
                              Resp_ExpiresIn := expiresAt - now;
                              Resp_IssuedAt := now |})
          end
      end
  end.

(** [%v] of the header member ["alg"]. *)
Definition fmt_alg (alg : option string) : string :=
  match alg with
  | Some alg => alg
  | None => "<nil>"
  end.

(** The key function that [parseToken] hands to [jwt.ParseWithClaims];
    [method] is [t.Method], [t] has the header. *)
Fixpoint find_issuer_key (ourIssuerKeys : list PrivateKey) (method : SigningMethod)
    (t : Unsigned) : MethodResult (error + PublicKey) :=
  match ourIssuerKeys with
  | [] => Returns (inl (Errorf "token signed by unknown key"))
  | ourIssuerKey :: rest =>
      if decide (Header_jwk t = Some (serializePublicKey ourIssuerKey)) then
        let ourSigningMethod := chooseSigningMethod ourIssuerKey in
        match equalSigningMethods ourSigningMethod method with
        | Panics => Panics
        | Returns false =>
            Returns (inl (Errorf ("unexpected signing method: " +:+ fmt_alg (Header_alg t))))
        | Returns true => Returns (inr (derivePublicKey ourIssuerKey))
        end
      else find_issuer_key rest method t
  end.

(** [VerifyExpiresAt], [VerifyNotBefore] and [VerifyIssuedAt] of
    [jwt.RegisteredClaims]. *)
Definition VerifyExpiresAt (c : RegisteredClaims) (cmp : Z) (req : bool) : bool :=
  match ExpiresAt c with
  | None => negb req
  | Some exp => bool_decide (cmp < exp)
  end.

Definition VerifyNotBefore (c : RegisteredClaims) (cmp : Z) (req : bool) : bool :=
  match NotBefore c with
  | None => negb req
  | Some nbf => bool_decide (nbf ≤ cmp)
  end.

Definition VerifyIssuedAt (c : RegisteredClaims) (cmp : Z) (req : bool) : bool :=
  match IssuedAt c with
  | None => negb req
  | Some iat => bool_decide (iat ≤ cmp)
  end.

(** [verifyAud] of the JWT library: without an audience the claim holds
    unless it is required; else a loop compares every entry with [cmp]
    and joins the entries; if the joined entries are the empty string
    (every entry is empty) the claim is treated as absent; else it holds
    if some entry was equal to [cmp]. *)
Definition verifyAud (aud : list string) (cmp : string) (required : bool) : bool :=
  if decide (length aud = 0%nat) then negb required
  else
    let '(result, stringClaims) :=
      foldl (fun '(result, stringClaims) a =>
               (if decide (a = cmp) then true else result, stringClaims +:+ a))
            (false, "") aud in
    if decide (String.length stringClaims = 0%nat) then negb required
    else result.

(** [VerifyAudience] of [jwt.RegisteredClaims]. *)
Definition VerifyAudience (c : RegisteredClaims) (cmp : string) (req : bool) : bool :=
  verifyAud (Audience c) cmp req.

(** [Parser.ParseUnverified]: the claims object is decoded into the struct
    [claims] that the caller has prepared, the member ["kea"], when there
    is one, by [UnmarshalJSON] on [claims.Embedded]; then the method that
    the header names under ["alg"] is looked up.  The result is that
    method and the struct. *)
Definition ParseUnverified (env : Env) (tokenStr : Token) (claims : tokenClaims)
    : MethodResult (error + SigningMethod * tokenClaims) :=
  let t := Token_unsigned tokenStr in
  let decoded : MethodResult (embeddedUserIdentity * option error) :=
    match json_kea (Claims t) with
    | None => Returns (Embedded claims, None)
    | Some raw => UnmarshalJSON (json env) (Embedded claims) raw
    end in
  match decoded with
  | Panics => Panics
  | Returns (_, Some err) => Returns (inl err)
  | Returns (embedded, None) =>
      let claims := {| Registered := json_registered (Claims t);
                       Access := json_access (Claims t);
                       Embedded := embedded |} in
      match Header_alg t with
      | None => Returns (inl (Errorf "signing method (alg) is unspecified."))
      | Some alg =>
          match GetSigningMethod alg with
          | None => Returns (inl (Errorf "signing method (alg) is unavailable."))
          | Some method => Returns (inr (method, claims))
          end
      end
  end.

(** [jwt.ParseWithClaims]: decode the token, look the key up, check the
    registered dates against the clock and check the signature; any
    failure is an error, that of the signature taking precedence over
    that of the dates.  (The wording of the library's errors for dates and
    signatures is not modelled.) *)
Definition ParseWithClaims (env : Env) (tokenStr : Token) (claims : tokenClaims)
    (keyFunc : SigningMethod -> Unsigned -> MethodResult (error + PublicKey))
    : MethodResult (error + tokenClaims) :=
  match ParseUnverified env tokenStr claims with
  | Panics => Panics
  | Returns (inl err) => Returns (inl err)
  | Returns (inr (method, claims)) =>
      let t := Token_unsigned tokenStr in
      match keyFunc method t with
      | Panics => Panics
      | Returns (inl err) => Returns (inl err)
      | Returns (inr key) =>
          let now := time_Now env 0 in
          let c := Registered claims in
          let claims_valid :=
            VerifyExpiresAt c now false && VerifyIssuedAt c now false
            && VerifyNotBefore c now false in
          if negb (Verify env method key t (Token_signature tokenStr)) then
            Returns (inl (Errorf "signature is invalid"))
          else if negb claims_valid then
            Returns (inl (Errorf "token claims are not valid"))
          else Returns (inr claims)
      end
  end.

(** The zero value of [jwt.RegisteredClaims]. *)
Definition no_registered_claims : RegisteredClaims :=
  {| ID := ""; Audience := []; Issuer := ""; Subject := "";
     ExpiresAt := None; NotBefore := None; IssuedAt := None |}.

(** [parseToken]; [ad] is the auth driver, nil is [None].  The branch on
    [!token.Valid] is left out: the library sets [Valid] exactly when it
    returns no error, as the source notes. *)
Definition parseToken (env : Env) (cfg : Configuration) (ad : option AuthDriver)
    (audience : Service) (tokenStr : Token)
    : MethodResult (RegistryV2Error + Authorization) :=
  let claims := {| Registered := no_registered_claims;
                   Access := [];
                   Embedded := {| Emb_UserIdentity := None; Emb_AuthDriver := ad |} |} in
  match ParseWithClaims env tokenStr claims (find_issuer_key (IssuerKeys audience cfg)) with
  | Panics => Panics
  | Returns (inl err) => Returns (inl (With ErrUnauthorized (Error err)))
  | Returns (inr claims) =>
      let now := time_Now env 1 in
      if negb (VerifyExpiresAt (Registered claims) (now - 3) true) then
        Returns (inl (With ErrUnauthorized "token expired"))
      else if negb (VerifyNotBefore (Registered claims) (now + 3) true) then
        Returns (inl (With ErrUnauthorized "token not valid yet"))
      else
        let publicHost := Hostname audience cfg in
        if bool_decide (audience = LocalService)
           && bool_decide (Issuer (Registered claims) ≠ "keppel-api@" +:+ publicHost) then
          Returns (inl (With ErrUnauthorized
                          ("token has wrong issuer (expected keppel-api@" +:+ publicHost +:+ ")")))
        else if negb (VerifyAudience (Registered claims) publicHost true) then
          Returns (inl (With ErrUnauthorized
                          ("token has wrong audience (expected " +:+ publicHost +:+ ")")))
        else
          let ss := foldl ScopeSet_Add [] (Access claims) in
          Returns (inr {| Auth_UserIdentity := Emb_UserIdentity (Embedded claims);
                          Auth_ScopeSet := ss;
                          Auth_Service := audience |})
  end.

(** *** Notions used by the theorem on key rotation *)

(** [s] has no colon in it. *)
Fixpoint colon_free (s : string) : bool :=
  match s with
  | EmptyString => true
  | String c s' => negb (Ascii.eqb c ":") && colon_free s'
  end.

Definition starts_with_minus (s : string) : bool :=
  match s with
  | String c _ => Ascii.eqb c "-"
  | EmptyString => false
  end.

(** Reading back what [fmt_hex] prints. *)
Definition parse_hex (s : string) : Z :=
  match s with
  | String c s' =>
      if Ascii.eqb c "-" then Z.opp (Z.of_N (HexString.Raw.to_N s' 0%N))
      else Z.of_N (HexString.Raw.to_N s 0%N)
  | EmptyString => 0
  end.

(** All 256 bytes, and reading back what [hex_byte] prints. *)
Definition all_bytes : list Byte.byte :=
  omap (fun n => Byte.of_N (N.of_nat n)) (seq 0 256).

Definition parse_hex_byte (s : string) : option Byte.byte :=
  List.find (fun b => String.eqb (hex_byte b) s) all_bytes.

(** The configuration after a new key was put in front of the keys of an
    audience. *)
Definition prepend_issuer_key (audience : Service) (key : PrivateKey) (cfg : Configuration)
    : Configuration :=
  match audience with
  | LocalService =>
      {| APIPublicHostname := APIPublicHostname cfg;
         AnycastAPIPublicHostname := AnycastAPIPublicHostname cfg;
         JWTIssuerKeys := key :: JWTIssuerKeys cfg;
         AnycastJWTIssuerKeys := AnycastJWTIssuerKeys cfg |}
  | AnycastService =>
      {| APIPublicHostname := APIPublicHostname cfg;
         AnycastAPIPublicHostname := AnycastAPIPublicHostname cfg;
         JWTIssuerKeys := JWTIssuerKeys cfg;
         AnycastJWTIssuerKeys := key :: AnycastJWTIssuerKeys cfg |}
  end.

(** A token of the audience [a] is being issued under [cfg] with the
    clock and signer of [issued], and parsed later with those of [parsed]
    while it has not expired. *)
Definition before_expiry (issued parsed : Env) : Prop :=
  time_Now issued 0 ≤ time_Now parsed 0 < time_Now issued 0 + 4 * Hour
  ∧ time_Now issued 0 ≤ time_Now parsed 1 < time_Now issued 0 + 4 * Hour.

(** The identity [uid], marshalled on the issuing side, is what the
    parsing side unmarshals from it with the auth driver [ad]. *)
Definition identity_decodes (issued parsed : Env) (ad : AuthDriver) (uid : UserIdentity)
    : Prop :=
  ∃ kea,
    MarshalJSON (json issued) {| Emb_UserIdentity := Some uid; Emb_AuthDriver := None |}
    = Returns (inr kea)
    ∧ UnmarshalJSON (json parsed) {| Emb_UserIdentity := None; Emb_AuthDriver := Some ad |} kea
      = Returns ({| Emb_UserIdentity := Some uid; Emb_AuthDriver := Some ad |}, None).

(** The verifier of [parsed] accepts what the signer of [issued] signs
    with a key, under the public half of that key. *)
Definition signatures_verify (issued parsed : Env) : Prop :=
  ∀ key t,
    Verify parsed (chooseSigningMethod key) (derivePublicKey key) t
      (Sign issued (chooseSigningMethod key) key t) = true.
(** ** Notions used by the theorems on token checks *)

(** The key that a token names in its header is a key of the list, the
    header names that key's signing method, and the signature verifies
    under that method and that key's public half. *)
Definition signed_by_one_of (env : Env) (keys : list PrivateKey) (tokenStr : Token) : Prop :=
  ∃ key, key ∈ keys
    ∧ Header_jwk (Token_unsigned tokenStr) = Some (serializePublicKey key)
    ∧ Header_alg (Token_unsigned tokenStr) = Some (Alg (chooseSigningMethod key))
    ∧ Verify env (chooseSigningMethod key) (derivePublicKey key)
        (Token_unsigned tokenStr) (Token_signature tokenStr) = true.

(** The struct that [parseToken] hands to the JWT library to decode the
    claims into. *)
Definition claims_to_fill (ad : option AuthDriver) : tokenClaims :=
  {| Registered := no_registered_claims;
     Access := [];
     Embedded := {| Emb_UserIdentity := None; Emb_AuthDriver := ad |} |}.

End auth.

(* ===================================================================== *)
(** * Package client: the validation session (internal/client/validate.go) *)
(* ===================================================================== *)

Module client.
Import keppel.

(** What a logger has written so far. *)
Inductive LogEntry : Type :=
  | ManifestLogged (reference : ManifestReference) (level : Z)
      (validationResult : option error) (resultFromCache : bool)
  | BlobLogged (d : string) (level : Z)
      (validationResult : option error) (resultFromCache : bool).

Abbreviation Output := (list LogEntry).

(** The interface [ValidationLogger]: each method acts on the output. *)
Record ValidationLogger : Type := mkValidationLogger {
  LogManifest : ManifestReference -> Z -> option error -> bool -> Output -> Output;
  LogBlob : string -> Z -> option error -> bool -> Output -> Output
}.

Definition noopLogger : ValidationLogger :=
  {| LogManifest := fun _ _ _ _ out => out;
     LogBlob := fun _ _ _ _ out => out |}.

(** The struct [ValidationSession]; a nil interface and a nil map are
    [None]. *)
Record ValidationSession : Type := mkValidationSession {
  Logger : option ValidationLogger;
  isValid : option (gmap string bool)
}.

(** [applyDefaults] on a [*ValidationSession] ([None] is the nil pointer).
    The result is the struct behind the pointer it returns, which is never
    nil: it is [s] itself, or the struct allocated in the first branch. *)
Definition applyDefaults (s : option ValidationSession) : ValidationSession :=
  let s := match s with
           | None => {| Logger := None; isValid := None |}
           | Some s => s
           end in
  let s := match Logger s with
           | None => {| Logger := Some noopLogger; isValid := isValid s |}
           | Some _ => s
           end in
  let s := match isValid s with
           | None => {| Logger := Logger s; isValid := Some ∅ |}
           | Some _ => s
           end in
  s.

Record RepoClient : Type := mkRepoClient {
  Host : string;
  RepoName : string
}.

Definition validationCacheKey (c : RepoClient) (digestOrTagName : string) : string :=
  Host c +:+ "/" +:+ RepoName c +:+ "/" +:+ digestOrTagName.

(** A platform filter is only handed on to [ManifestReferences]. *)
Abbreviation PlatformFilter := (list string).

(** What [keppel.ParseManifest] returns, as far as the validation looks at
    it: the descriptor's digest and the digests of the references. *)
Record ParsedManifest : Type := mkParsedManifest {
  PM_Digest : string;
  BlobReferences : list string;
  ManifestReferences : PlatformFilter -> list string
}.

(** What [DownloadBlob] returns when it succeeds: a reader, with the bytes
    it yields, the error [io.Copy] runs into if any, and the result of
    [Close]. *)
Record BlobBody : Type := mkBlobBody {
  body_bytes : list Byte.byte;
  body_read_err : option error;
  body_close_err : option error
}.

(** The registry behind a [RepoClient] and the library calls of the
    validation, none of them in the source files covered here: [NewDigest d bytes]
    is the digest of [bytes] under the algorithm of the digest [d], and
    [hash_linked a] tells whether the hash function of the algorithm [a]
    is linked into the binary ([crypto.Hash.Available]). *)
Record Remote : Type := mkRemote {
  DownloadManifest : RepoClient -> ManifestReference -> error + (list Byte.byte * string);
  ParseManifest : string -> list Byte.byte -> error + ParsedManifest;
  DownloadBlob : RepoClient -> string -> error + BlobBody;
  NewDigest : string -> list Byte.byte -> string;
  hash_linked : string -> bool
}.

(** The session struct (shared by pointer between all calls of one
    validation) and the logger's output. *)
Record State : Type := mkState {
  session : ValidationSession;
  output : Output
}.

(** The values that the validation can panic with: a method call on a
    nil [ValidationLogger], an assignment to an entry of a nil map, and
    the two panics of the digest library, in [Digest.Algorithm] for a
    digest without a colon and in [Algorithm.Hash] for an algorithm that
    is not available. *)
Inductive PanicValue : Type :=
  | NilPointerDereference
  | AssignmentToNilMap
  | DigestWithoutSeparator (d : string)
  | AlgorithmNotAvailable (a : string).

#[global] Instance PanicValue_eq_dec : EqDecision PanicValue.
Proof. solve_decision. Defined.

(** How a call ends: it returns (with the state and its error result), it
    panics (with the value of the panic and the state in which the panic
    leaves the call), or the recursion bound was hit. *)
Inductive Outcome : Type :=
  | Return (st : State) (returnErr : option error)
  | Panic (v : PanicValue) (st : State)
  | OutOfFuel.

(** [session.isValid[key]]: reading a nil map gives the zero value. *)
Definition read_isValid (st : State) (key : string) : bool :=
  match isValid (session st) with
  | None => false
  | Some m => default false (m !! key)
  end.

(** [session.isValid[key] = true]: writing to a nil map panics. *)
Definition write_isValid (st : State) (key : string) : option State :=
  match isValid (session st) with
  | None => None
  | Some m =>
      Some {| session := {| Logger := Logger (session st); isValid := Some (<[key := true]> m) |};
              output := output st |}
  end.

(** [session.Logger.LogManifest(...)]: a call on a nil interface panics. *)
Definition call_LogManifest (st : State) (reference : ManifestReference) (level : Z)
    (validationResult : option error) (resultFromCache : bool) : option State :=
  match Logger (session st) with
  | None => None
  | Some l =>
      Some {| session := session st;
              output := LogManifest l reference level validationResult resultFromCache (output st) |}
  end.

Definition call_LogBlob (st : State) (d : string) (level : Z)
    (validationResult : option error) (resultFromCache : bool) : option State :=
  match Logger (session st) with
  | None => None
  | Some l =>
      Some {| session := session st;
              output := LogBlob l d level validationResult resultFromCache (output st) |}
  end.

(** The part of a digest before its first colon. *)
Fixpoint before_colon (d : string) : option string :=
  match d with
  | EmptyString => None
  | String ch d' => if Ascii.eqb ch ":" then Some "" else String ch <$> before_colon d'
  end.

(** [d.Algorithm()] of the digest library: it panics on a digest without
    a colon. *)
Definition Algorithm (d : string) : PanicValue + string :=
  match before_colon d with
  | None => inl (DigestWithoutSeparator d)
  | Some a => inr a
  end.

(** [a.Available()]: the algorithm is one of the table of the digest
    library and its hash function is linked in. *)
Definition Available (r : Remote) (a : string) : bool :=
  bool_decide (a ∈ ["sha256"; "sha384"; "sha512"]) && hash_linked r a.

(** [blobDigest.Algorithm().Hash()]: the value it panics with, if it
    does. *)
Definition Algorithm_Hash (r : Remote) (blobDigest : string) : option PanicValue :=
  match Algorithm blobDigest with
  | inl v => Some v
  | inr a => if Available r a then None else Some (AlgorithmNotAvailable a)
  end.

(** [doValidateBlobContents].  Its deferred functions also run while a
    panic unwinds the call; [returnErr] is nil then, no return statement
    having set it. *)
Definition doValidateBlobContents (r : Remote) (c : RepoClient) (blobDigest : string)
    (level : Z) (st : State) : Outcome :=
  let cacheKey := validationCacheKey c blobDigest in
  if read_isValid st cacheKey then
    match call_LogBlob st blobDigest level None true with
    | None => Panic NilPointerDereference st
    | Some st => Return st None
    end
  else
    (* the first deferred function, which runs last; [panicking] is the
       value of the panic that unwinds the call, if one does *)
    let deferred_log (st : State) (returnErr : option error)
        (panicking : option PanicValue) : Outcome :=
      match call_LogBlob st blobDigest level returnErr false with
      | None => Panic NilPointerDereference st
      | Some st =>
          match panicking with
          | None => Return st returnErr
          | Some v => Panic v st
          end
      end in
    match DownloadBlob r c blobDigest with
    | inl err => deferred_log st (Some err) None
    | inr readCloser =>
        (* the second deferred function, which runs first *)
        let deferred_close (st : State) (returnErr : option error)
            (panicking : option PanicValue) : Outcome :=
          match returnErr with
          | None => deferred_log st (body_close_err readCloser) panicking
          | Some err => deferred_log st (Some err) panicking
          end in
        match Algorithm_Hash r blobDigest with
        | Some v => deferred_close st None (Some v)
        | None =>
            match body_read_err readCloser with
            | Some err => deferred_close st (Some err) None
            | None =>
                let actualDigest := NewDigest r blobDigest (body_bytes readCloser) in
                if decide (actualDigest ≠ blobDigest) then
                  deferred_close st (Some (Errorf ("actual digest is " +:+ actualDigest))) None
                else
                  match write_isValid st cacheKey with
                  | None => deferred_close st None (Some AssignmentToNilMap)
                  | Some st => deferred_close st None None
                  end
            end
        end
    end.

(** A loop of the shape
    [for _, desc := range descs { err := f(desc); if err != nil { return err } }]
    over the state. *)
Fixpoint validate_each {A : Type} (f : A → State → Outcome) (descs : list A) (st : State)
    : Outcome :=
  match descs with
  | [] => Return st None
  | desc :: descs' =>
      match f desc st with
      | Return st None => validate_each f descs' st
      | other => other
      end
  end.

(** [doValidateManifest]; [fuel] bounds the depth of the recursion into
    referenced manifests.  Its deferred function logs only while [logged]
    is false: a panic of the logger call that precedes [logged = true]
    makes it call the logger again, which panics again; a later panic
    passes it by. *)
Fixpoint doValidateManifest (fuel : nat) (r : Remote) (c : RepoClient)
    (reference : ManifestReference) (level : Z) (st : State)
    (platformFilter : PlatformFilter) : Outcome :=
  match fuel with
  | O => OutOfFuel
  | S fuel' =>
      if read_isValid st (validationCacheKey c (Ref_String reference)) then
        match call_LogManifest st reference level None true with
        | None => Panic NilPointerDereference st
        | Some st => Return st None
        end
      else
        (* the deferred function while [logged] is false *)
        let deferred_log (st : State) (returnErr : option error) : Outcome :=
          match call_LogManifest st reference level returnErr false with
          | None => Panic NilPointerDereference st
          | Some st => Return st returnErr
          end in
        match DownloadManifest r c reference with
        | inl err => deferred_log st (Some err)
        | inr (manifestBytes, manifestMediaType) =>
            match ParseManifest r manifestMediaType manifestBytes with
            | inl err => deferred_log st (Some err)
            | inr manifest =>
                match call_LogManifest st (mkManifestReference (PM_Digest manifest) "")
                        level None false with
                | None => Panic NilPointerDereference st
                | Some st =>
                    (* [logged] is true from here on *)
                    match validate_each
                            (fun desc st => doValidateBlobContents r c desc (level + 1) st)
                            (BlobReferences manifest) st with
                    | Return st None =>
                        match validate_each
                                (fun desc st =>
                                   doValidateManifest fuel' r c (mkManifestReference desc "")
                                     (level + 1) st platformFilter)
                                (ManifestReferences manifest platformFilter) st with
                        | Return st None =>
                            match write_isValid st (validationCacheKey c (PM_Digest manifest)) with
                            | None => Panic AssignmentToNilMap st
                            | Some st =>
                                match write_isValid st (validationCacheKey c (Ref_String reference)) with
                                | None => Panic AssignmentToNilMap st
                                | Some st => Return st None
                                end
                            end
                        | other => other
                        end
                    | other => other
                    end
                end
            end
        end
  end.

(** [ValidateManifest] and [ValidateBlobContents]; [out] is what the
    logger has written before the call. *)
Definition ValidateManifest (fuel : nat) (r : Remote) (c : RepoClient)
    (reference : ManifestReference) (session : option ValidationSession)
    (platformFilter : PlatformFilter) (out : Output) : Outcome :=
  doValidateManifest fuel r c reference 0 (mkState (applyDefaults session) out) platformFilter.

Definition ValidateBlobContents (r : Remote) (c : RepoClient) (blobDigest : string)
    (session : option ValidationSession) (out : Output) : Outcome :=
  doValidateBlobContents r c blobDigest 0 (mkState (applyDefaults session) out).

(** A session struct on which no call can panic: it has a logger and a
    map. *)
Definition ready (s : ValidationSession) : Prop :=
  is_Some (Logger s) ∧ is_Some (isValid s).

(** A panic of the digest library, not one on nil state. *)
Definition digest_panic (v : PanicValue) : Prop :=
  match v with
  | NilPointerDereference | AssignmentToNilMap => False
  | DigestWithoutSeparator _ | AlgorithmNotAvailable _ => True
  end.

(** An outcome that leaves the session ready and is not a panic on nil
    state. *)
Definition safe (o : Outcome) : Prop :=
  match o with
  | Return st _ => ready (session st)
  | Panic v st => digest_panic v ∧ ready (session st)
  | OutOfFuel => True
  end.

(** The download of a blob gives bytes that hash to its digest. *)
Definition blob_matches (r : Remote) (c : RepoClient) (blobDigest : string)
    (readCloser : BlobBody) : Prop :=
  DownloadBlob r c blobDigest = inr readCloser
  ∧ body_read_err readCloser = None
  ∧ NewDigest r blobDigest (body_bytes readCloser) = blobDigest.

(** [st'] has the logger of [st] and every cache entry of [st]. *)
Definition cache_grows (st st' : State) : Prop :=
  Logger (session st') = Logger (session st)
  ∧ ∀ key, read_isValid st key = true → read_isValid st' key = true.

(** [s] has no slash in it. *)
Fixpoint slash_free (s : string) : bool :=
  match s with
  | EmptyString => true
  | String c s' => negb (Ascii.eqb c "/") && slash_free s'
  end.

End client.

(* ===================================================================== *)
(** * Concrete inputs, used by the examples below *)
(* ===================================================================== *)

Module examples.
Import keppel.

(** The rows of [fixtures/manifest-validate-error-002.sql], and a second
    manifest whose last validation failed. *)
Definition account_test1 : Account :=
  mkAccount "test1" "test1authtenant" "" "" "" false.

Definition repo_foo : Repository := mkRepository 1 "test1" "foo" None.

Definition blob_1 : Blob :=
  mkBlob 1 "test1" "sha256:712dfd307e9f735a037e1391f16c8747e7fb0d1318851e32591b51a6bc600c2d"
    1102 "712dfd307e9f735a037e1391f16c8747e7fb0d1318851e32591b51a6bc600c2d" 46800 46800 "".

Definition manifest_8a92 : Manifest :=
  mkManifest 1 "sha256:8a9217f1887083297faf37cb2c1808f71289f0cd722d6e5157a07be1c362945f"
    "application/vnd.docker.distribution.manifest.v2+json" 1367 46800 90000 "" None CleanSeverity.

Definition manifest_broken : Manifest :=
  mkManifest 1 "sha256:bb" "application/vnd.docker.distribution.manifest.v2+json"
    10 46800 199000 "bad" None CleanSeverity.

Definition fixture_db : DB :=
  {| accounts := [account_test1];
     repos := [repo_foo];
     blobs := [blob_1];
     blob_mounts := [(1, 1)];
     manifests := [manifest_8a92; manifest_broken];
     tags := [];
     manifest_blob_refs :=
       [mkManifestBlobRef 1 "sha256:8a9217f1887083297faf37cb2c1808f71289f0cd722d6e5157a07be1c362945f" 1];
     manifest_manifest_refs := [] |}.

(** A janitor at time 200000 whose collaborators all succeed, except that
    revalidation fails and the scanner reports its indexing as errored. *)
Definition janitor_200000 : tasks.Janitor :=
  {| tasks.timeNow := fun _ => 200000;
     tasks.wallNow := 200000;
     tasks.faults := no_faults;
     tasks.ValidateExistingManifest := fun _ _ _ _ => Some (Errorf "manifest is broken");
     tasks.CheckManifestOnPrimary := fun _ _ _ => inr false;
     tasks.ReplicateBlob := fun db _ _ _ => (db, None);
     tasks.sd_DeleteManifest := fun _ _ _ => None;
     tasks.sd_URLForBlob := fun _ storage_id => inr ("https://storage/" +:+ storage_id);
     tasks.CheckManifestState := fun _ => inr (tasks.mkClairState true false);
     tasks.GetVulnerabilityReport := fun _ => inr (Some CleanSeverity);
     tasks.range_order := elements |}.

(** A replica repository with a manifest list [sha256:list] over the two
    images [sha256:amd64] and [sha256:arm64]. *)
Definition account_replica : Account :=
  mkAccount "replica1" "tenant" "registry.example.org" "" "" false.

Definition repo_replica : Repository := mkRepository 7 "replica1" "app" None.

Definition image (digest : string) : Manifest :=
  mkManifest 7 digest "application/vnd.docker.distribution.manifest.v2+json"
    100 1000 1000 "" None CleanSeverity.

Definition replica_db : DB :=
  {| accounts := [account_replica];
     repos := [repo_replica];
     blobs := [];
     blob_mounts := [];
     manifests := [image "sha256:amd64"; image "sha256:list"; image "sha256:arm64"];
     tags := [mkTag 7 "latest" "sha256:list" 1000];
     manifest_blob_refs := [];
     manifest_manifest_refs :=
       [mkManifestManifestRef 7 "sha256:list" "sha256:amd64";
        mkManifestManifestRef 7 "sha256:list" "sha256:arm64"] |}.

(** The same repository with reference rows that form a cycle. *)
Definition cyclic_db : DB :=
  {| accounts := [account_replica];
     repos := [repo_replica];
     blobs := [];
     blob_mounts := [];
     manifests := [image "sha256:a"; image "sha256:b"];
     tags := [];
     manifest_blob_refs := [];
     manifest_manifest_refs :=
       [mkManifestManifestRef 7 "sha256:a" "sha256:b";
        mkManifestManifestRef 7 "sha256:b" "sha256:a"] |}.

(** A processor whose collaborators all succeed.  Its parser takes every
    upload for a schema2 manifest with the config blob and one layer of
    [fixture_db]'s blob, under the digest of [manifest_8a92]. *)
Definition blob_1_descriptor (size : Z) : processor.Descriptor :=
  processor.mkDescriptor "application/vnd.docker.image.rootfs.diff.tar.gzip"
    (Blob_Digest blob_1) size.

Definition processor_ok (layer_sizes : list Z) : processor.Processor :=
  {| processor.p_faults := no_faults;
     processor.checkQuotaForManifestPush := fun _ _ => None;
     processor.UnmarshalManifest := fun mediaType contents =>
       inr (processor.Schema2Manifest (blob_1_descriptor 1102)
              (blob_1_descriptor <$> layer_sizes),
            processor.mkDescriptor mediaType (Manifest_Digest manifest_8a92)
              (Z.of_nat (length contents)));
     processor.WriteManifest_err := fun _ _ _ _ => None;
     processor.ReadBlob := fun _ _ => inr [];
     processor.config_labels := fun _ => inr ∅ |}.

(** The same, with a storage driver that cannot write. *)
Definition processor_storage_down : processor.Processor :=
  {| processor.p_faults := no_faults;
     processor.checkQuotaForManifestPush := fun _ _ => None;
     processor.UnmarshalManifest := processor.UnmarshalManifest (processor_ok [1102]);
     processor.WriteManifest_err := fun _ _ _ _ => Some (DriverErr "storage is down");
     processor.ReadBlob := fun _ _ => inr [];
     processor.config_labels := fun _ => inr ∅ |}.

(** A processor whose parser finds a second layer, of which the registry
    has no blob. *)
Definition missing_layer : processor.Descriptor :=
  processor.mkDescriptor "application/vnd.docker.image.rootfs.diff.tar.gzip" "sha256:missing" 5.

Definition processor_missing_layer : processor.Processor :=
  {| processor.p_faults := no_faults;
     processor.checkQuotaForManifestPush := fun _ _ => None;
     processor.UnmarshalManifest := fun mediaType contents =>
       inr (processor.Schema2Manifest (blob_1_descriptor 1102)
              [blob_1_descriptor 1102; missing_layer],
            processor.mkDescriptor mediaType (Manifest_Digest manifest_8a92)
              (Z.of_nat (length contents)));
     processor.WriteManifest_err := fun _ _ _ _ => None;
     processor.ReadBlob := fun _ _ => inr [];
     processor.config_labels := fun _ => inr ∅ |}.

Definition two_bytes : list Byte.byte := [Byte.x7b; Byte.x7d].

(** Pushes of the two bytes above: under a tag into the existing repo, and
    under a digest that is not the manifest's into a repo that does not
    exist yet. *)
Definition push_latest : processor.IncomingManifest :=
  processor.mkIncomingManifest "foo" (mkManifestReference "" "latest")
    "application/vnd.docker.distribution.manifest.v2+json" two_bytes 50000.

Definition push_wrong_digest : processor.IncomingManifest :=
  processor.mkIncomingManifest "bar" (mkManifestReference "sha256:0000" "")
    "application/vnd.docker.distribution.manifest.v2+json" two_bytes 50000.

(** [fixture_db] before any manifest was pushed. *)
Definition db_without_manifests : DB :=
  {| accounts := [account_test1];
     repos := [repo_foo];
     blobs := [blob_1];
     blob_mounts := [(1, 1)];
     manifests := [];
     tags := [];
     manifest_blob_refs := [];
     manifest_manifest_refs := [] |}.

(** A registry with one image: the manifest [sha256:m] with the blob
    [sha256:b], whose bytes hash to that digest. *)
Definition registry_one_image : client.Remote :=
  {| client.DownloadManifest := fun _ reference =>
       if decide (Ref_String reference = "sha256:m" ∨ Ref_String reference = "latest")
       then inr (two_bytes, "application/vnd.docker.distribution.manifest.v2+json")
       else inl (Errorf "manifest unknown");
     client.ParseManifest := fun _ _ =>
       inr (client.mkParsedManifest "sha256:m" ["sha256:b"; "sha256:b"] (fun _ => []));
     client.DownloadBlob := fun _ _ => inr (client.mkBlobBody two_bytes None None);
     client.NewDigest := fun _ _ => "sha256:b";
     client.hash_linked := fun _ => true |}.

Definition repo_client : client.RepoClient := client.mkRepoClient "registry.example.org" "app".

(** Two issuer keys, an old RSA key and a new Ed25519 key, and a
    configuration that has only the old one. *)
Definition key_old : auth.PrivateKey := auth.RSAPrivateKey 2753 17 3233.
Definition key_new : auth.PrivateKey :=
  auth.Ed25519PrivateKey [Byte.x01; Byte.x02] [Byte.xca; Byte.xfe].

Definition config_old : auth.Configuration :=
  {| auth.APIPublicHostname := "registry.example.org";
     auth.AnycastAPIPublicHostname := "anycast.example.org";
     auth.JWTIssuerKeys := [key_old];
     auth.AnycastJWTIssuerKeys := [] |}.

(** A codec that can write one object only, the one with the member
    [plain] and the value of [alice], as the two bytes of [two_bytes],
    and reads it back from them; and a driver that takes every payload
    for an identity of [alice]. *)
Definition toy_codec : auth.IdentityCodec :=
  {| auth.SerializeToJSON := fun uid =>
       inr (auth.IdentityType uid, auth.IdentityPayload uid);
     auth.json_Marshal := fun m =>
       if decide (m = {["plain" := "{}"]}) then inr two_bytes
       else inl (Errorf "unsupported value");
     auth.json_Unmarshal := fun _ => inr {["plain" := "{}"]} |}.

Definition toy_driver : auth.AuthDriver :=
  {| auth.DeserializeUserIdentity := fun typeName payload =>
       (Some (auth.mkUserIdentity "alice" typeName payload), None) |}.

(** A toy signature scheme: the signature of anything is the fingerprint
    of the signing key. *)
Definition toy_env (now : Z) : auth.Env :=
  {| auth.time_Now := fun _ => now;
     auth.uuid_NewV4 := "00000000-0000-4000-8000-000000000000";
     auth.Sign := fun _ key _ => auth.serializePublicKey key;
     auth.Verify := fun _ pub _ signature =>
       bool_decide (signature = match pub with
                                | auth.Ed25519PublicKey b => auth.EncodeToString b
                                | auth.RSAPublicKey E N =>
                                    auth.fmt_hex E +:+ ":" +:+ auth.fmt_hex N
                                end);
     auth.json := toy_codec |}.

Definition alice : auth.Authorization :=
  {| auth.Auth_UserIdentity := Some (auth.mkUserIdentity "alice" "plain" "{}");
     auth.Auth_ScopeSet := [auth.mkScope "repository" "test1/foo" ["pull"; "push"]];
     auth.Auth_Service := auth.LocalService |}.

(** A session state with the defaults, before anything was logged. *)
Definition fresh_state : client.State := client.mkState (client.applyDefaults None) [].

(** A registry like [registry_one_image] whose blob reader fails to close. *)
Definition registry_close_fails : client.Remote :=
  {| client.DownloadManifest := client.DownloadManifest registry_one_image;
     client.ParseManifest := client.ParseManifest registry_one_image;
     client.DownloadBlob := fun _ _ =>
       inr (client.mkBlobBody two_bytes None (Some (Errorf "connection reset")));
     client.NewDigest := client.NewDigest registry_one_image;
     client.hash_linked := fun _ => true |}.

(** A logger that appends what it is told to the output, and a session
    state with it and an empty cache. *)
Definition recording_logger : client.ValidationLogger :=
  {| client.LogManifest := fun reference level validationResult resultFromCache out =>
       out ++ [client.ManifestLogged reference level validationResult resultFromCache];
     client.LogBlob := fun d level validationResult resultFromCache out =>
       out ++ [client.BlobLogged d level validationResult resultFromCache] |}.

Definition recording_state : client.State :=
  client.mkState (client.mkValidationSession (Some recording_logger) (Some ∅)) [].

(** [janitor_200000] with a primary account that cannot be reached. *)
Definition janitor_primary_down : tasks.Janitor :=
  {| tasks.timeNow := fun _ => 200000;
     tasks.wallNow := 200000;
     tasks.faults := no_faults;
     tasks.ValidateExistingManifest := fun _ _ _ _ => None;
     tasks.CheckManifestOnPrimary := fun _ _ _ => inl (DriverErr "primary is down");
     tasks.ReplicateBlob := fun db _ _ _ => (db, None);
     tasks.sd_DeleteManifest := fun _ _ _ => None;
     tasks.sd_URLForBlob := fun _ storage_id => inr ("https://storage/" +:+ storage_id);
     tasks.CheckManifestState := fun _ => inr (tasks.mkClairState false true);
     tasks.GetVulnerabilityReport := fun _ => inr (Some LowSeverity);
     tasks.range_order := elements |}.

(** A primary account in maintenance with the repository [repo_foo]. *)
Definition account_maintenance : Account :=
  mkAccount "test1" "test1authtenant" "registry.example.org" "" "" true.

Definition maintenance_db : DB :=
  {| accounts := [account_maintenance];
     repos := [repo_foo];
     blobs := [blob_1];
     blob_mounts := [(1, 1)];
     manifests := [manifest_8a92];
     tags := [];
     manifest_blob_refs :=
       [mkManifestBlobRef 1 (Manifest_Digest manifest_8a92) 1];
     manifest_manifest_refs := [] |}.

(** [janitor_200000] with a processor whose revalidation fails with
    [sql.ErrNoRows] itself. *)
Definition janitor_validation_no_rows : tasks.Janitor :=
  {| tasks.timeNow := fun _ => 200000;
     tasks.wallNow := 200000;
     tasks.faults := no_faults;
     tasks.ValidateExistingManifest := fun _ _ _ _ => Some ErrNoRows;
     tasks.CheckManifestOnPrimary := fun _ _ _ => inr true;
     tasks.ReplicateBlob := fun db _ _ _ => (db, None);
     tasks.sd_DeleteManifest := fun _ _ _ => None;
     tasks.sd_URLForBlob := fun _ storage_id => inr ("https://storage/" +:+ storage_id);
     tasks.CheckManifestState := fun _ => inr (tasks.mkClairState false true);
     tasks.GetVulnerabilityReport := fun _ => inr (Some LowSeverity);
     tasks.range_order := elements |}.

(** A janitor whose scanner has indexed every manifest and reports low
    severity. *)
Definition janitor_scanner_ok : tasks.Janitor :=
  {| tasks.timeNow := fun _ => 200000;
     tasks.wallNow := 200000;
     tasks.faults := no_faults;
     tasks.ValidateExistingManifest := fun _ _ _ _ => None;
     tasks.CheckManifestOnPrimary := fun _ _ _ => inr true;
     tasks.ReplicateBlob := fun db _ _ _ => (db, None);
     tasks.sd_DeleteManifest := fun _ _ _ => None;
     tasks.sd_URLForBlob := fun _ storage_id => inr ("https://storage/" +:+ storage_id);
     tasks.CheckManifestState := fun _ => inr (tasks.mkClairState false true);
     tasks.GetVulnerabilityReport := fun _ => inr (Some LowSeverity);
     tasks.range_order := elements |}.

(** [fixture_db] with the manifest [manifest_8a92] only. *)
Definition one_manifest_db : DB :=
  {| accounts := [account_test1];
     repos := [repo_foo];
     blobs := [blob_1];
     blob_mounts := [(1, 1)];
     manifests := [manifest_8a92];
     tags := [];
     manifest_blob_refs :=
       [mkManifestBlobRef 1 (Manifest_Digest manifest_8a92) 1];
     manifest_manifest_refs := [] |}.

(** An account like [account_test1] that requires two labels, and a
    processor whose config blobs carry the label [maintainer] only. *)
Definition account_with_labels : Account :=
  mkAccount "test1" "test1authtenant" "" "" "maintainer,source" false.

Definition processor_one_label : processor.Processor :=
  {| processor.p_faults := no_faults;
     processor.checkQuotaForManifestPush := fun _ _ => None;
     processor.UnmarshalManifest := processor.UnmarshalManifest (processor_ok [1102]);
     processor.WriteManifest_err := fun _ _ _ _ => None;
     processor.ReadBlob := fun _ _ => inr [];
     processor.config_labels := fun _ => inr {["maintainer"]} |}.

(** The same with both labels. *)
Definition processor_two_labels : processor.Processor :=
  {| processor.p_faults := no_faults;
     processor.checkQuotaForManifestPush := fun _ _ => None;
     processor.UnmarshalManifest := processor.UnmarshalManifest (processor_ok [1102]);
     processor.WriteManifest_err := fun _ _ _ _ => None;
     processor.ReadBlob := fun _ _ => inr [];
     processor.config_labels := fun _ => inr {["maintainer"; "source"]} |}.

(** A token that names the RSA key [key_old] in its header but claims the
    method ES256. *)
Definition token_other_method : auth.Token :=
  {| auth.Token_unsigned :=
       {| auth.Header_alg := Some "ES256";
          auth.Header_jwk := Some (auth.serializePublicKey key_old);
          auth.Claims :=
            {| auth.json_registered :=
                 {| auth.ID := "1"; auth.Audience := ["registry.example.org"];
                    auth.Issuer := "keppel-api@registry.example.org";
                    auth.Subject := "mallory";
                    auth.ExpiresAt := Some 5000; auth.NotBefore := Some 0;
                    auth.IssuedAt := Some 0 |};
               auth.json_access := [];
               auth.json_kea := Some two_bytes |} |};
     auth.Token_signature := auth.serializePublicKey key_old |}.

(** A configuration like [config_old] without a public hostname. *)
Definition config_no_hostname : auth.Configuration :=
  {| auth.APIPublicHostname := "";
     auth.AnycastAPIPublicHostname := "";
     auth.JWTIssuerKeys := [key_old];
     auth.AnycastJWTIssuerKeys := [] |}.

(** A configuration with both audiences, each with the key [key_old]. *)
Definition config_anycast : auth.Configuration :=
  {| auth.APIPublicHostname := "registry.example.org";
     auth.AnycastAPIPublicHostname := "anycast.example.org";
     auth.JWTIssuerKeys := [key_old];
     auth.AnycastJWTIssuerKeys := [key_old] |}.

End examples.

(* ===================================================================== *)
(** * Theorems: the manifest validation sweep *)
(* ===================================================================== *)

Module validation_sweep.
Import keppel tasks.

Lemma outdated_where_spec p1 p2 m :
  outdated_where p1 p2 m = true
  ↔ (Manifest_ValidatedAt m < p1
     ∨ (Manifest_ValidatedAt m < p2 ∧ Manifest_ValidationErrorMessage m ≠ "")).
Proof.
  unfold outdated_where, has_validation_error.
  rewrite orb_true_iff, andb_true_iff, !bool_decide_eq_true. tauto.
Qed.

#[local] Instance outdated_order_total : Total outdated_order.
Proof.
  intros a b. unfold outdated_order.
  destruct (has_validation_error a), (has_validation_error b);
    destruct (Z.le_ge_cases (Manifest_ValidatedAt a) (Manifest_ValidatedAt b)); auto; lia || tauto.
Qed.

#[local] Instance outdated_order_trans : Transitive outdated_order.
Proof.
  intros a b c. unfold outdated_order.
  destruct (has_validation_error a), (has_validation_error b), (has_validation_error c);
    intros [[??]|[??]] [[??]|[??]]; try discriminate; auto; right; split; auto; lia.
Qed.

(** [take 1] of a sorted permutation: nothing, or a least row. *)
Lemma limit_1_sorted {A} (R : relation A) `{∀ x y, Decision (R x y)}
    `{!Transitive R, !Total R} (l : list A) :
  (l = [] ∧ take 1 (merge_sort R l) = [])
  ∨ (∃ m, take 1 (merge_sort R l) = [m] ∧ m ∈ l ∧ ∀ m', m' ∈ l → R m m').
Proof.
  pose proof (merge_sort_Permutation R l) as Hperm.
  pose proof (StronglySorted_merge_sort R l) as Hsorted.
  destruct (merge_sort R l) as [|m rest] eqn:E.
  - left. split; [|done]. by apply Permutation_nil_l in Hperm.
  - right. exists m. split; [done|]. split.
    + rewrite <- Hperm. left.
    + intros m' Hm'. rewrite <- Hperm in Hm'.
      apply elem_of_cons in Hm' as [->|Hin].
      * destruct (total R m m); done.
      * apply StronglySorted_inv in Hsorted as [_ Hall].
        rewrite Forall_forall in Hall. by apply Hall.
Qed.

Lemma query_result p1 p2 db :
  ((∀ m, m ∈ manifests db → outdated_where p1 p2 m = false)
   ∧ outdatedManifestSearchQuery p1 p2 db = [])
  ∨ (∃ m, outdatedManifestSearchQuery p1 p2 db = [m]
          ∧ m ∈ manifests db ∧ outdated_where p1 p2 m = true
          ∧ ∀ m', m' ∈ manifests db → outdated_where p1 p2 m' = true → outdated_order m m').
Proof.
  unfold outdatedManifestSearchQuery.
  destruct (limit_1_sorted outdated_order
              (filter (fun m => outdated_where p1 p2 m = true) (manifests db)))
    as [[Hnil ->]|(m & -> & Hin & Hmin)].
  - left. split; [|done]. intros m Hm.
    destruct (outdated_where p1 p2 m) eqn:E; [|done].
    assert (m ∈ filter (fun m => outdated_where p1 p2 m = true) (manifests db)) as Hf
      by (apply list_elem_of_filter; done).
    rewrite Hnil in Hf. by apply elem_of_nil in Hf.
  - right. exists m. apply list_elem_of_filter in Hin as [??].
    repeat split; try done.
    intros m' ??. apply Hmin, list_elem_of_filter. done.
Qed.

Lemma update_validation_same_key t msg repo_id digest r :
  same_key (update_validation t msg repo_id digest r) r.
Proof. unfold update_validation, same_key. case_decide; done. Qed.

Lemma exec_update_validation_only_row t msg m db :
  only_row_changed m db
    (exec_update_validation db t msg (Manifest_RepositoryID m) (Manifest_Digest m)).
Proof.
  unfold only_row_changed, exec_update_validation; simpl.
  repeat split; try done.
  apply Forall2_fmap_r, Forall_Forall2_diag, Forall_forall. intros r _.
  simpl. unfold update_validation. case_decide as Hk; [right|by left]. destruct Hk.
  unfold same_key; simpl. done.
Qed.

Lemma only_row_changed_refl m db : only_row_changed m db db.
Proof.
  unfold only_row_changed. repeat split; try done.
  apply Forall_Forall2_diag, Forall_forall. auto.
Qed.

Lemma select_repo_by_id_ID j db id repo :
  selectOne j (StmtSelectRepo id) (select_repo_by_id db id) = inr repo →
  Repository_ID repo = id.
Proof.
  unfold selectOne, query, select_repo_by_id.
  destruct (faults j _); [done|].
  destruct (filter _ _) as [|r rest] eqn:E; simpl; [done|].
  intros [= <-].
  assert (r ∈ filter (λ r, Repository_ID r = id) (repos db)) as Hin by (rewrite E; left).
  by apply list_elem_of_filter in Hin as [??].
Qed.

(** Whatever path the sweep takes once it has selected [m], it touches at
    most the rows with the key of [m]. *)
Lemma body_only_row_changed j db m :
  selectOne j StmtSelectOutdatedManifest
    (outdatedManifestSearchQuery (timeNow j 0 - 24 * Hour) (timeNow j 1 - 10 * Minute) db) = inr m →
  only_row_changed m db (ValidateNextManifest j db).1.
Proof.
  intros Hsel. unfold ValidateNextManifest, ValidateNextManifest_body. rewrite Hsel.
  destruct (selectOne j (StmtSelectRepo _) _) as [err|repo] eqn:Hrepo; simpl;
    [apply only_row_changed_refl|].
  apply select_repo_by_id_ID in Hrepo. rewrite Hrepo.
  destruct (findAccount j db _) as [err|account]; simpl; [apply only_row_changed_refl|].
  unfold exec.
  destruct (ValidateExistingManifest j account repo m _);
    destruct (faults j (StmtUpdateValidation _ _)); simpl;
    auto using only_row_changed_refl, exec_update_validation_only_row.
Qed.

Lemma update_validation_elem t msg repo_id digest (l : list Manifest) r :
  r ∈ update_validation t msg repo_id digest <$> l →
  Manifest_RepositoryID r = repo_id → Manifest_Digest r = digest →
  Manifest_ValidatedAt r = t ∧ Manifest_ValidationErrorMessage r = msg.
Proof.
  intros Hin Hid Hdg. apply list_elem_of_fmap in Hin as (r0 & -> & _).
  unfold update_validation in *. case_decide as Hk; [done|].
  exfalso. apply Hk. done.
Qed.

Lemma selected_manifest_in_table j db m :
  selectOne j StmtSelectOutdatedManifest
    (outdatedManifestSearchQuery (timeNow j 0 - 24 * Hour) (timeNow j 1 - 10 * Minute) db) = inr m →
  m ∈ manifests db.
Proof.
  unfold selectOne, query. destruct (faults j _); [done|].
  destruct (query_result (timeNow j 0 - 24 * Hour) (timeNow j 1 - 10 * Minute) db)
    as [[_ ->]|(m0 & -> & Hin & _)]; simpl; [done|].
  by intros [= <-].
Qed.

(** Once the sweep has selected [m], it goes through with it. *)
Lemma body_processes j db m :
  selectOne j StmtSelectOutdatedManifest
    (outdatedManifestSearchQuery (timeNow j 0 - 24 * Hour) (timeNow j 1 - 10 * Minute) db) = inr m →
  sweep_processes j db m.
Proof.
  intros Hsel. pose proof (selected_manifest_in_table _ _ _ Hsel) as Hin.
  unfold sweep_processes, ValidateNextManifest, ValidateNextManifest_body. rewrite Hsel.
  destruct (selectOne j (StmtSelectRepo _) _) as [err|repo] eqn:Hrepo; simpl.
  { split; [done|]. eauto. }
  apply select_repo_by_id_ID in Hrepo.
  destruct (findAccount j db _) as [err|account]; simpl.
  { split; [done|]. eauto. }
  unfold exec.
  destruct (faults j (StmtUpdateValidation _ _)) as [msg|].
  { destruct (ValidateExistingManifest j account repo m _); simpl;
      (split; [done|]); eauto. }
  assert (∀ msg,
    (∃ row, row ∈ manifests (exec_update_validation db (timeNow j 3) msg (Repository_ID repo)
                               (Manifest_Digest m)) ∧ same_key row m)
    ∧ ∀ row, row ∈ manifests (exec_update_validation db (timeNow j 3) msg (Repository_ID repo)
                               (Manifest_Digest m)) → same_key row m →
        Manifest_ValidatedAt row = timeNow j 3
        ∧ Manifest_ValidationErrorMessage row = msg) as Hrows.
  { intros msg. rewrite Hrepo. split.
    - exists (update_validation (timeNow j 3) msg (Manifest_RepositoryID m)
                (Manifest_Digest m) m).
      split; [|apply update_validation_same_key].
      simpl. apply list_elem_of_fmap. eauto.
    - intros row Hrow [??]. simpl in Hrow. eapply update_validation_elem; eauto. }
  destruct (ValidateExistingManifest j account repo m _) as [err|]; simpl;
    (split; [done|]); apply Hrows.
Qed.

(** C6.  One call of the manifest validation sweep, on a database that
    answers the search query.  If no manifest has [validated_at] older
    than now - 24 h, or older than now - 10 min with an error message
    recorded, the call returns [sql.ErrNoRows] and leaves every table as it
    was.  Otherwise there is one such manifest [m] that the call works
    on: it has an error recorded if any qualifying manifest has, among the
    qualifying manifests with the same error status its [validated_at] is
    the oldest; no row with another key than that of [m] is changed; and
    the call goes through with [m] ([sweep_processes]): unless a lookup
    or the UPDATE fails, it returns the verdict of the revalidation of
    [m] and has stamped the row of [m] with the current time and that
    verdict.  ("now" is the clock reading taken for the respective
    bound.) *)
Theorem ValidateNextManifest_picks_oldest (j : Janitor) (db : DB) :
  faults j StmtSelectOutdatedManifest = None →
  let qualifies (m : Manifest) : Prop :=
    m ∈ manifests db
    ∧ (Manifest_ValidatedAt m < timeNow j 0 - 24 * Hour
       ∨ (Manifest_ValidatedAt m < timeNow j 1 - 10 * Minute
          ∧ Manifest_ValidationErrorMessage m ≠ "")) in
  let errored (m : Manifest) : Prop := Manifest_ValidationErrorMessage m ≠ "" in
  ((∀ m, ¬ qualifies m) → ValidateNextManifest j db = (db, Some ErrNoRows))
  ∧ ((∃ m, qualifies m) →
     ∃ m, qualifies m
       ∧ selectOne j StmtSelectOutdatedManifest
           (outdatedManifestSearchQuery (timeNow j 0 - 24 * Hour) (timeNow j 1 - 10 * Minute) db)
         = inr m
       ∧ (∀ m', qualifies m' →
            (errored m' → errored m)
            ∧ ((errored m' ↔ errored m) → Manifest_ValidatedAt m ≤ Manifest_ValidatedAt m'))
       ∧ only_row_changed m db (ValidateNextManifest j db).1
       ∧ sweep_processes j db m).
Proof.
  intros Hfault qualifies errored.
  destruct (query_result (timeNow j 0 - 24 * Hour) (timeNow j 1 - 10 * Minute) db)
    as [[Hnone Hq]|(m & Hq & Hin & Hwhere & Hmin)].
  - split.
    + intros _. unfold ValidateNextManifest, ValidateNextManifest_body, selectOne, query.
      rewrite Hfault, Hq. simpl. done.
    + intros [m [Hm Hold]]. apply outdated_where_spec in Hold.
      rewrite (Hnone m Hm) in Hold. done.
  - assert (selectOne j StmtSelectOutdatedManifest
              (outdatedManifestSearchQuery (timeNow j 0 - 24 * Hour)
                 (timeNow j 1 - 10 * Minute) db) = inr m) as Hsel.
    { unfold selectOne, query. rewrite Hfault, Hq. done. }
    split.
    + intros Hno. exfalso. apply (Hno m). split; [done|]. by apply outdated_where_spec.
    + intros _. exists m. split; [|split; [done|split; [|split]]].
      * split; [done|]. by apply outdated_where_spec.
      * intros m' [Hm' Hold']. apply outdated_where_spec in Hold'.
        specialize (Hmin m' Hm' Hold'). unfold outdated_order, has_validation_error in Hmin.
        unfold errored.
        destruct Hmin as [[Ha Hb]|[Hab Hle]].
        -- apply bool_decide_eq_true in Ha. apply bool_decide_eq_false in Hb.
           split; [done|]. intros Hiff. exfalso. apply Hb. by apply Hiff.
        -- split; [|done]. intros He.
           eapply bool_decide_eq_true_1. rewrite Hab. by apply bool_decide_eq_true_2.
      * by apply body_only_row_changed.
      * by apply body_processes.
Qed.

(** A run of C6 on the fixture database at time 200000: the manifest that
    failed validation 1000 s ago is preferred over the clean one that was
    validated 110000 s ago; its revalidation fails again, the call
    returns that failure and the row carries the time and the message. *)
Lemma ValidateNextManifest_picks_oldest_witness :
  faults examples.janitor_200000 StmtSelectOutdatedManifest = None
  ∧ ∃ m, m ∈ manifests examples.fixture_db
       ∧ Manifest_Digest m = "sha256:bb"
       ∧ only_row_changed m examples.fixture_db
           (ValidateNextManifest examples.janitor_200000 examples.fixture_db).1
       ∧ (ValidateNextManifest examples.janitor_200000 examples.fixture_db).2
         = Some (Errorf "while validating a manifest: manifest is broken")
       ∧ ∀ row, row ∈ manifests (ValidateNextManifest examples.janitor_200000
                                   examples.fixture_db).1 →
                same_key row m →
                Manifest_ValidatedAt row = 200000
                ∧ Manifest_ValidationErrorMessage row = "manifest is broken".
Proof.
  split; [reflexivity|].
  destruct (ValidateNextManifest_picks_oldest examples.janitor_200000 examples.fixture_db
              eq_refl) as [_ H].
  destruct H as (m & [Hin _] & Hsel & _ & Hrow & Hproc).
  - exists examples.manifest_8a92. split; [left|]. left. vm_compute. done.
  - exists m. split; [done|].
    vm_compute in Hsel. injection Hsel as <-.
    split; [reflexivity|]. split; [done|].
    unfold sweep_processes in Hproc. vm_compute selectOne in Hproc.
    destruct Hproc as (Herr & _ & Hrows). split; [exact Herr|exact Hrows].
Defined.

(** C7.  When the sweep has selected a manifest and found its repository
    and account, and the database executes the UPDATE, then whether the
    revalidation succeeds or fails the row of that manifest ends up with
    [validated_at] set to the current time and with the error message of
    the failure (empty on success); the failure is also returned.  A sweep
    that runs less than 10 minutes after that time does not select the
    manifest again. *)
Theorem ValidateNextManifest_bumps_validated_at
    (j : Janitor) (db : DB) (manifest : Manifest) (repo : Repository) (account : Account) :
  sweep_validates j db manifest repo account →
  faults j (StmtUpdateValidation (Repository_ID repo) (Manifest_Digest manifest)) = None →
  let outcome := ValidateExistingManifest j account repo manifest (timeNow j 2) in
  let db' := (ValidateNextManifest j db).1 in
  (∃ r, r ∈ manifests db' ∧ same_key r manifest)
  ∧ (∀ r, r ∈ manifests db' → same_key r manifest →
       Manifest_ValidatedAt r = timeNow j 3
       ∧ Manifest_ValidationErrorMessage r
         = match outcome with None => "" | Some err => Error err end)
  ∧ (ValidateNextManifest j db).2 = wrap_sweep_error "while validating a manifest: " outcome
  ∧ (∀ j' : Janitor,
       timeNow j' 0 - 24 * Hour ≤ timeNow j 3 →
       timeNow j' 1 - 10 * Minute ≤ timeNow j 3 →
       ∀ r, r ∈ outdatedManifestSearchQuery
                  (timeNow j' 0 - 24 * Hour) (timeNow j' 1 - 10 * Minute) db' →
            ¬ same_key r manifest).
Proof.
  intros (Hsel & Hrepo & Hacct) Hupd outcome db'.
  pose proof (selected_manifest_in_table _ _ _ Hsel) as Hin.
  pose proof (select_repo_by_id_ID _ _ _ _ Hrepo) as Hid.
  assert (∃ msg, msg = match outcome with None => "" | Some err => Error err end
                 ∧ (ValidateNextManifest j db).2
                   = wrap_sweep_error "while validating a manifest: " outcome
                 ∧ db' = exec_update_validation db (timeNow j 3) msg
                           (Manifest_RepositoryID manifest) (Manifest_Digest manifest))
    as (msg & Hmsg & Herr & Hdb).
  { subst db' outcome.
    unfold ValidateNextManifest, ValidateNextManifest_body, exec.
    rewrite Hsel, Hrepo, Hacct, Hupd, Hid.
    destruct (ValidateExistingManifest j account repo manifest (timeNow j 2));
      eexists; simpl; repeat split; reflexivity. }
  rewrite <- Hmsg. clearbody db'. subst db'.
  assert (∀ r, r ∈ manifests (exec_update_validation db (timeNow j 3) msg
                 (Manifest_RepositoryID manifest) (Manifest_Digest manifest)) →
               same_key r manifest →
               Manifest_ValidatedAt r = timeNow j 3
               ∧ Manifest_ValidationErrorMessage r = msg) as Hrow.
  { intros r Hr [??]. simpl in Hr. eapply update_validation_elem; eauto. }
  split; [|split; [done|split; [done|]]].
  - exists (update_validation (timeNow j 3) msg (Manifest_RepositoryID manifest)
              (Manifest_Digest manifest) manifest).
    split; [|apply update_validation_same_key].
    simpl. apply list_elem_of_fmap. eauto.
  - intros j' H24 H10 r Hr Hkey.
    destruct (query_result (timeNow j' 0 - 24 * Hour) (timeNow j' 1 - 10 * Minute)
                (exec_update_validation db (timeNow j 3) msg
                   (Manifest_RepositoryID manifest) (Manifest_Digest manifest)))
      as [[_ Hq]|(m0 & Hq & Hm0 & Hwhere & _)]; rewrite Hq in Hr.
    + by apply elem_of_nil in Hr.
    + apply list_elem_of_singleton in Hr as ->.
      destruct (Hrow m0 Hm0 Hkey) as [Hv _].
      apply outdated_where_spec in Hwhere. lia.
Qed.

(** C7 on the fixture database: revalidation of the broken manifest fails
    again at time 200000, and its row carries that time and the new
    message afterwards. *)
Lemma ValidateNextManifest_bumps_validated_at_witness :
  (sweep_validates examples.janitor_200000 examples.fixture_db
     examples.manifest_broken examples.repo_foo examples.account_test1
   ∧ faults examples.janitor_200000 (StmtUpdateValidation 1 "sha256:bb") = None)
  ∧ ∀ r, r ∈ manifests (ValidateNextManifest examples.janitor_200000 examples.fixture_db).1 →
         same_key r examples.manifest_broken →
         Manifest_ValidatedAt r = 200000
         ∧ Manifest_ValidationErrorMessage r = "manifest is broken".
Proof.
  assert (sweep_validates examples.janitor_200000 examples.fixture_db
            examples.manifest_broken examples.repo_foo examples.account_test1) as Hsweep
    by (repeat split; vm_compute; reflexivity).
  split; [split; [exact Hsweep|reflexivity]|].
  exact (proj1 (proj2 (ValidateNextManifest_bumps_validated_at
                         examples.janitor_200000 examples.fixture_db
                         examples.manifest_broken examples.repo_foo examples.account_test1
                         Hsweep eq_refl))).
Defined.

End validation_sweep.

(* ===================================================================== *)
(** * Theorems: the replica manifest sync sweep *)
(* ===================================================================== *)

Module manifest_sync.
Import keppel tasks.

(** What [collect_parents] puts under a child: its parents in the rows. *)
Lemma collect_parents_spec (rows : list (string * string)) (p c : string) :
  p ∈ map_slice (collect_parents rows) c ↔ (p, c) ∈ rows.
Proof.
  unfold collect_parents.
  assert (∀ (m : gmap string (list string)),
            p ∈ map_slice (foldl (fun parentDigestsOf '(parentDigest, childDigest) =>
                   <[childDigest := map_slice parentDigestsOf childDigest ++ [parentDigest]]>
                     parentDigestsOf) m rows) c
            ↔ p ∈ map_slice m c ∨ (p, c) ∈ rows) as H.
  { induction rows as [|[p0 c0] rows IH]; intros m; simpl.
    - rewrite elem_of_nil. tauto.
    - rewrite IH, elem_of_cons. unfold map_slice at 1.
      destruct (decide (c0 = c)) as [->|Hne].
      + rewrite lookup_insert_eq. simpl. rewrite elem_of_app, list_elem_of_singleton.
        split; [intros [[?| ->]|?]|intros [?|[[= ->]|?]]]; auto.
      + rewrite lookup_insert_ne by done. fold (map_slice m c).
        split; [intros [?|?]|intros [?|[[= ? ?]|?]]]; auto. congruence. }
  rewrite H. unfold map_slice. rewrite lookup_empty. simpl. rewrite elem_of_nil. tauto.
Qed.

Lemma enumerate_refs_spec (repo_id : Z) (db : DB) (p c : string) :
  (p, c) ∈ syncManifestEnumerateRefsQuery repo_id db
  ↔ ∃ ref, ref ∈ manifest_manifest_refs db ∧ MMR_RepositoryID ref = repo_id
           ∧ MMR_ParentDigest ref = p ∧ MMR_ChildDigest ref = c.
Proof.
  unfold syncManifestEnumerateRefsQuery. rewrite list_elem_of_fmap.
  split.
  - intros (ref & Heq & Hin). injection Heq as -> ->.
    apply list_elem_of_filter in Hin as [??]. eauto.
  - intros (ref & Hin & Hid & <- & <-). exists ref. split; [done|].
    apply list_elem_of_filter. done.
Qed.

(** The keys that the first loop of [performManifestSync] puts into
    [shallDeleteManifest]. *)
Lemma check_manifests_dom j account repo ms : ∀ acc shallDelete,
  check_manifests j account repo ms acc = inr shallDelete →
  ∀ d, d ∈ dom shallDelete
       ↔ d ∈ dom acc
         ∨ ∃ m, m ∈ ms ∧ Manifest_Digest m = d ∧ gone_upstream j account repo d.
Proof.
  induction ms as [|m ms IH]; intros acc shallDelete; simpl.
  - intros [= <-] d. split; [auto|]. intros [?|(m & Hm & _)]; [done|].
    by apply elem_of_nil in Hm.
  - destruct (CheckManifestOnPrimary j account repo _) as [err|exists_] eqn:Hc; [done|].
    intros H d. rewrite (IH _ _ H d). destruct exists_.
    + split.
      * intros [?|(m' & Hm' & ? & ?)]; [by left|]. right. exists m'.
        split; [by right|done].
      * intros [?|(m' & [->|Hm']%elem_of_cons & Hd & Hg)]; [by left| |].
        -- subst d. unfold gone_upstream in Hg. congruence.
        -- right. eauto.
    + rewrite dom_insert_L, elem_of_union, elem_of_singleton. split.
      * intros [[->|?]|(m' & Hm' & ? & ?)].
        -- right. exists m. split; [by left|]. done.
        -- by left.
        -- right. exists m'. split; [by right|done].
      * intros [?|(m' & [->|Hm']%elem_of_cons & Hd & Hg)].
        -- left. by right.
        -- left. by left.
        -- right. eauto.
Qed.

Lemma sync_prepare_dom j account repo db shallDelete parentDigestsOf :
  sync_prepare j account repo db = inr (shallDelete, parentDigestsOf) →
  ∀ d, d ∈ dom shallDelete
       ↔ ∃ m, m ∈ manifests db ∧ Manifest_RepositoryID m = Repository_ID repo
              ∧ Manifest_Digest m = d ∧ gone_upstream j account repo d.
Proof.
  unfold sync_prepare, query.
  destruct (faults j (StmtSelectManifests _)); [done|].
  destruct (check_manifests _ _ _ _ _) as [e|sd] eqn:Hc; [done|].
  destruct (faults j (StmtSelectManifestRefs _)); [done|].
  intros [= <- _] d. rewrite (check_manifests_dom _ _ _ _ _ _ Hc d), dom_empty_L.
  split.
  - intros [Hin|(m & Hm & ? & ?)]; [by apply elem_of_empty in Hin|].
    apply list_elem_of_filter in Hm as [??]. eauto.
  - intros (m & ? & ? & ? & ?). right. exists m. split; [|done].
    by apply list_elem_of_filter.
Qed.

Lemma elem_of_deletion_set j account repo db d :
  d ∈ deletion_set j account repo db
  ↔ ∃ m, m ∈ manifests db ∧ Manifest_RepositoryID m = Repository_ID repo
         ∧ Manifest_Digest m = d ∧ gone_upstream j account repo d.
Proof.
  unfold deletion_set. rewrite elem_of_list_to_set, list_elem_of_fmap. split.
  - intros (m & -> & [[Hid Hg] Hm]%list_elem_of_filter). eauto.
  - intros (m & Hm & Hid & <- & Hg). exists m. split; [done|]. by apply list_elem_of_filter.
Qed.

(** The keys of [shallDeleteManifest] before the deletion loop. *)
Lemma sync_prepare_deletion_set j account repo db shallDelete parentDigestsOf :
  sync_prepare j account repo db = inr (shallDelete, parentDigestsOf) →
  dom shallDelete = deletion_set j account repo db.
Proof.
  intros H. apply set_eq. intros d.
  rewrite elem_of_deletion_set. by apply (sync_prepare_dom _ _ _ _ _ _ H).
Qed.

Section deletion_loop.
Context (j : Janitor) (account : Account) (repo : Repository).
Context (parentDigestsOf : gmap string (list string)).

Local Abbreviation repo_id := (Repository_ID repo).
Local Abbreviation Inv := (sync_invariant (Repository_ID repo) parentDigestsOf).
Local Abbreviation blocked := (still_referenced parentDigestsOf).

Lemma not_blocked_parents_deleted st digest p :
  blocked st digest = false → p ∈ map_slice parentDigestsOf digest →
  map_bool (manifestWasDeleted st) p = true.
Proof.
  unfold still_referenced. intros Hb Hp.
  destruct (map_bool (manifestWasDeleted st) p) eqn:E; [done|].
  assert (existsb (λ parentDigest, negb (map_bool (manifestWasDeleted st) parentDigest))
            (map_slice parentDigestsOf digest) = true) as Ht; [|congruence].
  apply existsb_exists. exists p. split; [by apply list_elem_of_In|by rewrite E].
Qed.

Lemma blocked_has_undeleted_parent st digest :
  blocked st digest = true →
  ∃ p, p ∈ map_slice parentDigestsOf digest ∧ map_bool (manifestWasDeleted st) p = false.
Proof.
  unfold still_referenced. intros (p & Hin & Hp)%existsb_exists.
  exists p. split; [by apply list_elem_of_In|]. by apply negb_true_iff.
Qed.

(** The invariant after the row of [digest] went from the database. *)
Lemma invariant_db_delete st digest db' :
  Inv st → blocked st digest = false →
  Inv {| shallDeleteManifest := shallDeleteManifest st;
         manifestWasDeleted := manifestWasDeleted st;
         sync_db := db';
         sync_trace := sync_trace st ++ [EvDBDelete repo_id digest] |}.
Proof.
  intros (Hpar & Hsto & Hdel) Hnb. repeat split; simpl.
  - intros i d p [[Hlt Hi]|[-> [= <-]]]%lookup_snoc_Some Hp.
    + destruct (Hpar i d p Hi Hp) as (i' & ? & Hi'). exists i'. split; [done|].
      by apply lookup_app_l_Some.
    + destruct (Hdel p (not_blocked_parents_deleted _ _ _ Hnb Hp)) as (i' & Hi').
      exists i'. split; [by eapply lookup_lt_Some|by apply lookup_app_l_Some].
  - intros i a r d [[Hlt Hi]|[_ [=]]]%lookup_snoc_Some.
    destruct (Hsto i a r d Hi) as (i' & -> & Hi'). exists i'. split; [done|].
    by apply lookup_app_l_Some.
  - intros d Hd. destruct (Hdel d Hd) as (i & Hi). exists i. by apply lookup_app_l_Some.
Qed.

(** The invariant after the object of [digest] went from the storage too
    and the loop has done its bookkeeping. *)
Lemma invariant_storage_delete st digest db' a r :
  Inv st → blocked st digest = false →
  Inv {| shallDeleteManifest := delete digest (shallDeleteManifest st);
         manifestWasDeleted := <[digest := true]> (manifestWasDeleted st);
         sync_db := db';
         sync_trace := (sync_trace st ++ [EvDBDelete repo_id digest])
                         ++ [EvStorageDelete a r digest] |}.
Proof.
  intros HI Hnb.
  destruct (invariant_db_delete st digest db' HI Hnb) as (Hpar & Hsto & Hdel).
  simpl in *. repeat split; simpl.
  - intros i d p [[Hlt Hi]|[_ [=]]]%lookup_snoc_Some Hp.
    destruct (Hpar i d p Hi Hp) as (i' & ? & Hi'). exists i'. split; [done|].
    by apply lookup_app_l_Some.
  - intros i a' r' d [[Hlt Hi]|[-> [= <- <- <-]]]%lookup_snoc_Some.
    + destruct (Hsto i a' r' d Hi) as (i' & -> & Hi'). exists i'. split; [done|].
      by apply lookup_app_l_Some.
    + exists (length (sync_trace st)). split.
      * rewrite length_app. simpl. lia.
      * apply lookup_app_l_Some. apply lookup_snoc_Some. right. done.
  - intros d Hd. unfold map_bool in Hd.
    destruct (decide (digest = d)) as [->|Hne].
    + exists (length (sync_trace st)).
      apply lookup_app_l_Some. apply lookup_snoc_Some. right. done.
    + rewrite lookup_insert_ne in Hd by done.
      destruct (Hdel d Hd) as (i & Hi). exists i. by apply lookup_app_l_Some.
Qed.

Lemma sync_pass_invariant keys : ∀ st b st' b' e,
  Inv st → sync_pass j account repo parentDigestsOf keys st b = (st', b', e) → Inv st'.
Proof.
  induction keys as [|digest keys IH]; intros st b st' b' e HI; simpl.
  - by intros [= <- _ _].
  - destruct (still_referenced _ _ _) eqn:Hb; [by apply IH|].
    unfold delete_manifest. destruct (faults j _); [by intros [= <- _ _]|].
    destruct (referenced_as_child _ _ _); [by intros [= <- _ _]|].
    destruct (sd_DeleteManifest j _ _ _).
    + intros [= <- _ _]. by apply invariant_db_delete.
    + apply IH. by apply invariant_storage_delete.
Qed.

(** A pass without error: the flag only ever goes up; if it stays down
    nothing was touched and every key is blocked; if it goes up the map
    has lost a key. *)
Lemma sync_pass_progress keys : ∀ st b st' b',
  NoDup keys → (∀ k, k ∈ keys → k ∈ dom (shallDeleteManifest st)) →
  sync_pass j account repo parentDigestsOf keys st b = (st', b', None) →
  (size (shallDeleteManifest st') ≤ size (shallDeleteManifest st))%nat
  ∧ (b = true → b' = true)
  ∧ (b' = false → st' = st ∧ ∀ k, k ∈ keys → blocked st k = true)
  ∧ (b = false → b' = true →
     (size (shallDeleteManifest st') < size (shallDeleteManifest st))%nat).
Proof.
  induction keys as [|digest keys IH]; intros st b st' b' Hnd Hdom; simpl.
  - intros [= <- <-]. repeat split; try done; try lia.
    + intros k Hk. by apply elem_of_nil in Hk.
    + congruence.
  - apply NoDup_cons in Hnd as [Hnotin Hnd].
    destruct (still_referenced _ _ _) eqn:Hb.
    + intros Hpass. apply IH in Hpass as (Hle & Hup & Hstay & Hlt); [|done|].
      * repeat split; try done.
        -- apply Hstay; done.
        -- intros k [->|Hk]%elem_of_cons; [done|]. apply Hstay; done.
      * intros k Hk. apply Hdom. by right.
    + unfold delete_manifest. destruct (faults j _); [done|].
      destruct (referenced_as_child _ _ _); [done|].
      destruct (sd_DeleteManifest j _ _ _); [done|].
      intros Hpass. apply IH in Hpass as (Hle & Hup & Hstay & Hlt); [|done|]; simpl in *.
      * assert (is_Some (shallDeleteManifest st !! digest)) as Hsome.
        { apply elem_of_dom. apply Hdom. left. }
        rewrite map_size_delete_Some in Hle by done.
        assert (size (shallDeleteManifest st) ≠ 0%nat) as Hnz.
        { intros Hz. apply map_size_empty_inv in Hz. rewrite Hz in Hsome.
          rewrite lookup_empty in Hsome. by destruct Hsome. }
        split; [lia|]. split; [intros _; by apply Hup|]. split.
        -- intros Hf. rewrite Hup in Hf; done.
        -- intros _ _. lia.
      * intros k Hk. rewrite dom_delete_L. apply elem_of_difference. split.
        -- apply Hdom. by right.
        -- intros ->%elem_of_singleton. done.
Qed.

Hypothesis range_order_perm : ∀ s : gset string, range_order j s ≡ₚ elements s.

Lemma range_order_NoDup s : NoDup (range_order j s).
Proof. rewrite range_order_perm. apply NoDup_elements. Qed.

Lemma range_order_elem s k : k ∈ range_order j s ↔ k ∈ s.
Proof. rewrite range_order_perm. apply elem_of_elements. Qed.

(** As many passes as the map has keys are enough. *)
Lemma sync_loop_terminates fuel : ∀ st,
  (size (shallDeleteManifest st) ≤ fuel)%nat →
  ∃ st' e, sync_loop fuel j account repo parentDigestsOf st = Some (st', e).
Proof.
  induction fuel as [|fuel IH]; intros st Hsize; simpl.
  - rewrite decide_True by lia. eauto.
  - case_decide; [eauto|].
    destruct (sync_pass _ _ _ _ _ _ _) as [[st' b'] [err|]] eqn:Hpass; [eauto|].
    destruct b'; simpl; [|eauto].
    apply sync_pass_progress in Hpass as (_ & _ & _ & Hlt);
      [|apply range_order_NoDup|intros k; apply range_order_elem].
    apply IH. specialize (Hlt eq_refl eq_refl). lia.
Qed.

Lemma sync_loop_invariant fuel : ∀ st st' e,
  Inv st → sync_loop fuel j account repo parentDigestsOf st = Some (st', e) → Inv st'.
Proof.
  induction fuel as [|fuel IH]; intros st st' e HI; simpl.
  - case_decide; [by intros [= <- _]|done].
  - case_decide; [by intros [= <- _]|].
    destruct (sync_pass _ _ _ _ _ _ _) as [[st1 b'] [err|]] eqn:Hpass.
    + intros [= <- _]. by eapply sync_pass_invariant.
    + destruct b'; simpl.
      * apply IH. by eapply sync_pass_invariant.
      * intros [= <- _]. by eapply sync_pass_invariant.
Qed.

End deletion_loop.

Lemma sync_prepare_parents j account repo db shallDelete parentDigestsOf :
  sync_prepare j account repo db = inr (shallDelete, parentDigestsOf) →
  parentDigestsOf = collect_parents (syncManifestEnumerateRefsQuery (Repository_ID repo) db).
Proof.
  unfold sync_prepare, query.
  destruct (faults j (StmtSelectManifests _)); [done|].
  destruct (check_manifests _ _ _ _ _); [done|].
  destruct (faults j (StmtSelectManifestRefs _)); [done|].
  by intros [= _ <-].
Qed.

Lemma parent_rows j account repo db shallDelete parentDigestsOf p d :
  sync_prepare j account repo db = inr (shallDelete, parentDigestsOf) →
  p ∈ map_slice parentDigestsOf d
  ↔ ∃ ref, ref ∈ manifest_manifest_refs db ∧ MMR_RepositoryID ref = Repository_ID repo
           ∧ MMR_ParentDigest ref = p ∧ MMR_ChildDigest ref = d.
Proof.
  intros ->%sync_prepare_parents. by rewrite collect_parents_spec, enumerate_refs_spec.
Qed.

Section bookkeeping.
Context (j : Janitor) (account : Account) (repo : Repository) (db : DB).
Context (parentDigestsOf : gmap string (list string)) (D0 : gset string).

Local Abbreviation repo_id := (Repository_ID repo).
Local Abbreviation blocked := (still_referenced parentDigestsOf).

(** [parentDigestsOf] has every parent that a reference row of the repo
    gives. *)
Hypothesis parents_complete : ∀ ref,
  ref ∈ manifest_manifest_refs db → MMR_RepositoryID ref = repo_id →
  MMR_ParentDigest ref ∈ map_slice parentDigestsOf (MMR_ChildDigest ref).

(** How the two maps, the tables and the deletions carried out go
    together between two deletions: [manifestWasDeleted] marks the
    manifests whose row was deleted; a key of [shallDeleteManifest] is in
    [D0] and unmarked; a digest of [D0] that is no longer a key has both
    its deletions behind it; and the reference rows of the repo that are
    left are rows of [db] with an unmarked parent. *)
Local Abbreviation Book := (fun st : SyncState =>
  (∀ d, EvDBDelete repo_id d ∈ sync_trace st ↔ map_bool (manifestWasDeleted st) d = true)
  ∧ (∀ d, d ∈ dom (shallDeleteManifest st) →
          d ∈ D0 ∧ map_bool (manifestWasDeleted st) d = false)
  ∧ (∀ d, d ∈ D0 → d ∉ dom (shallDeleteManifest st) →
          EvDBDelete repo_id d ∈ sync_trace st
          ∧ EvStorageDelete (Account_Name account) (Repository_Name repo) d ∈ sync_trace st)
  ∧ (∀ ref, ref ∈ manifest_manifest_refs (sync_db st) → MMR_RepositoryID ref = repo_id →
            ref ∈ manifest_manifest_refs db
            ∧ map_bool (manifestWasDeleted st) (MMR_ParentDigest ref) = false)).

(** The check of the loop on [parentDigestsOf] is at least as strict as
    the consistency check of the database: the loop never sends a DELETE
    that the database refuses for a reference row. *)
Lemma no_foreign_key_violation st digest :
  Book st → blocked st digest = false →
  referenced_as_child repo_id digest (sync_db st) = false.
Proof.
  intros (_ & _ & _ & Hrefs) Hnb. unfold referenced_as_child.
  apply bool_decide_eq_false. intros (ref & Hin & Hid & Hchild)%Exists_exists.
  destruct (Hrefs ref Hin Hid) as [Hdb Hunmarked].
  pose proof (parents_complete ref Hdb Hid) as Hp. rewrite Hchild in Hp.
  rewrite (not_blocked_parents_deleted parentDigestsOf st digest _ Hnb Hp) in Hunmarked.
  done.
Qed.

(** What a pass returns with: an error of a refused DELETE, for a digest
    of [D0] that has not been deleted; an error of the storage, directly
    after the row went; or no error, and the books are in order. *)
Local Abbreviation deletion_failed := (fun (st' : SyncState) (err : error) =>
  (∃ digest msg, faults j (StmtDeleteManifest repo_id digest) = Some msg
     ∧ digest ∈ D0
     ∧ (EvDBDelete repo_id digest ∉ sync_trace st')
     ∧ (∀ p, p ∈ map_slice parentDigestsOf digest → EvDBDelete repo_id p ∈ sync_trace st')
     ∧ err = Errorf ("cannot remove deleted manifest " +:+ digest +:+ " in repo "
                     +:+ FullName repo +:+ " from DB: " +:+ msg))
  ∨ (∃ digest e, sd_DeleteManifest j (Account_Name account) (Repository_Name repo) digest = Some e
     ∧ last (sync_trace st') = Some (EvDBDelete repo_id digest)
     ∧ err = Errorf ("cannot remove deleted manifest " +:+ digest +:+ " in repo "
                     +:+ FullName repo +:+ " from storage: " +:+ Error e))).

Lemma sync_pass_book keys : ∀ st b st' b' e,
  NoDup keys → (∀ k, k ∈ keys → k ∈ dom (shallDeleteManifest st)) → Book st →
  sync_pass j account repo parentDigestsOf keys st b = (st', b', e) →
  match e with
  | None => Book st'
  | Some err => deletion_failed st' err
  end.
Proof.
  induction keys as [|digest keys IH]; intros st b st' b' e Hnd Hkeys HB; simpl.
  - by intros [= <- _ <-].
  - apply NoDup_cons in Hnd as [Hnotin Hnd].
    assert (∀ k, k ∈ keys → k ∈ dom (shallDeleteManifest st)) as Hkeys'
      by (intros k Hk; apply Hkeys; by right).
    destruct (still_referenced _ _ _) eqn:Hnb; [by apply IH|].
    pose proof HB as (Hmark & Hkey & Hgone & Hrefs).
    destruct (Hkey digest) as [HD Hunmarked]; [apply Hkeys; left|].
    unfold delete_manifest. destruct (faults j _) as [msg|] eqn:Hf.
    { intros [= <- _ <-]. left. exists digest, msg.
      split; [done|]. split; [done|]. split; [rewrite Hmark; congruence|]. split; [|done].
      intros p Hp. apply Hmark. by eapply not_blocked_parents_deleted. }
    rewrite (no_foreign_key_violation st digest HB Hnb).
    destruct (sd_DeleteManifest j _ _ _) as [e0|] eqn:Hs.
    { intros [= <- _ <-]. right. exists digest, e0. simpl.
      split; [done|]. split; [apply last_snoc|done]. }
    apply IH; [done| |]; simpl.
    + intros k Hk. rewrite dom_delete_L. apply elem_of_difference.
      split; [by apply Hkeys'|]. intros ->%elem_of_singleton. done.
    + repeat split.
      * intros [[Hd|Hd%list_elem_of_singleton]%elem_of_app|Hd%list_elem_of_singleton]%elem_of_app;
          [|injection Hd as ->|done].
        -- unfold map_bool. destruct (decide (digest = d)) as [->|Hne].
           ++ by rewrite lookup_insert_eq.
           ++ rewrite lookup_insert_ne by done. by apply Hmark.
        -- unfold map_bool. by rewrite lookup_insert_eq.
      * unfold map_bool. destruct (decide (digest = d)) as [->|Hne].
        -- intros _. apply elem_of_app. left. apply elem_of_app. right.
           by apply list_elem_of_singleton.
        -- rewrite lookup_insert_ne by done. intros Hd%Hmark.
           apply elem_of_app. left. apply elem_of_app. by left.
      * apply Hkey. rewrite dom_delete_L in H. by apply elem_of_difference in H as [? _].
      * rewrite dom_delete_L in H. apply elem_of_difference in H as [Hd Hne].
        unfold map_bool. rewrite lookup_insert_ne.
        -- by apply Hkey.
        -- intros ->. apply Hne. by apply elem_of_singleton.
      * destruct (decide (d = digest)) as [->|Hne].
        -- apply elem_of_app. left. apply elem_of_app. right. by apply list_elem_of_singleton.
        -- apply elem_of_app. left. apply elem_of_app. left. apply Hgone; [done|].
           intros Hd. apply H0. rewrite dom_delete_L. apply elem_of_difference.
           split; [done|]. by intros ?%elem_of_singleton.
      * destruct (decide (d = digest)) as [->|Hne].
        -- apply elem_of_app. right. by apply list_elem_of_singleton.
        -- apply elem_of_app. left. apply elem_of_app. left. apply Hgone; [done|].
           intros Hd. apply H0. rewrite dom_delete_L. apply elem_of_difference.
           split; [done|]. by intros ?%elem_of_singleton.
      * apply list_elem_of_filter in H as [_ Hin]. by apply Hrefs.
      * apply list_elem_of_filter in H as [Hnot Hin].
        unfold map_bool. rewrite lookup_insert_ne.
        -- by apply Hrefs.
        -- intros Heq. apply Hnot. done.
Qed.

Hypothesis range_order_perm : ∀ s : gset string, range_order j s ≡ₚ elements s.

(** How the loop ends. *)
Lemma sync_loop_book fuel : ∀ st st' e,
  Book st →
  sync_loop fuel j account repo parentDigestsOf st = Some (st', e) →
  match e with
  | None => Book st' ∧ shallDeleteManifest st' = ∅
  | Some err =>
      deletion_failed st' err
      ∨ (∃ undeleted, err = stuck_error undeleted repo
           ∧ undeleted ≠ []
           ∧ NoDup undeleted
           ∧ (∀ d, d ∈ undeleted ↔ d ∈ dom (shallDeleteManifest st'))
           ∧ Book st'
           ∧ ∀ d, d ∈ undeleted → blocked st' d = true)
  end.
Proof.
  induction fuel as [|fuel IH]; intros st st' e HB; simpl.
  - case_decide as Hz; [|done]. intros [= <- <-]. split; [done|]. by apply map_size_empty_inv.
  - case_decide as Hz; [intros [= <- <-]; split; [done|]; by apply map_size_empty_inv|].
    destruct (sync_pass _ _ _ _ _ _ _) as [[st1 b'] err] eqn:Hpass.
    pose proof Hpass as Hbook. apply sync_pass_book in Hbook;
      [|by apply range_order_NoDup|intros k; by apply range_order_elem|done].
    destruct err as [err|].
    + intros [= <- <-]. by left.
    + destruct b'; simpl; [by apply IH|].
      intros [= <- <-]. right.
      apply sync_pass_progress in Hpass as (_ & _ & Hstay & _);
        [|by apply range_order_NoDup|intros k; by apply range_order_elem].
      destruct (Hstay eq_refl) as [-> Hblocked].
      exists (range_order j (dom (shallDeleteManifest st))).
      split; [done|]. split.
      { intros Hnil. apply Hz.
        pose proof (range_order_perm (dom (shallDeleteManifest st))) as Hperm.
        rewrite Hnil in Hperm. apply Permutation_nil_l in Hperm. symmetry in Hperm.
        apply elements_empty_inv, leibniz_equiv in Hperm.
        apply dom_empty_inv_L in Hperm. rewrite Hperm. apply map_size_empty. }
      split; [by apply range_order_NoDup|].
      split; [intros d; by apply range_order_elem|]. done.
Qed.

End bookkeeping.

(** C5.  Let a [for ... range] loop over a map visit each key once.  Then
    [performManifestSync] returns, and of the deletions it has carried
    out, in their order:
    (1) the database row of a manifest is deleted only after the row of
    every manifest that a ManifestManifestRef row of the repo names as
    its parent;
    (2) each storage object is deleted directly after the database row of
    the same manifest;
    (3) the call ends in one of five ways ([SyncEnd]).  It returns nil,
    and every manifest of the deletion set has been deleted from the
    database and from the storage.  Or it returns the error of the
    preparation, having deleted nothing.  Or it returns the error of a
    DELETE that the connection refused, for a manifest of the deletion
    set not deleted so far; or the error of the storage driver, with the
    database row of that manifest deleted last.  Or it returns the
    inconsistency error: then some manifest of the deletion set is
    undeleted, the error names exactly the undeleted manifests of the
    deletion set, each once, and each of them is the child in a reference
    row whose parent has not been deleted, so that a further pass over
    them would delete nothing.  A DELETE is refused by the connection
    only: the loop sends none that the database refuses for a reference
    row, and none for a manifest with an undeleted parent;
    (4) so, when the preparation succeeds and no deletion fails, the
    call that leaves a manifest of the deletion set undeleted returns
    the inconsistency error, and the error names that manifest. *)
Theorem performManifestSync_deletes_parents_first
    (j : Janitor) (account : Account) (repo : Repository) (db : DB) :
  (∀ s : gset string, range_order j s ≡ₚ elements s) →
  ∃ st result,
    performManifestSync j account repo db = Some (st, result)
    ∧ parents_deleted_first (Repository_ID repo) db (sync_trace st)
    ∧ db_row_before_storage (Repository_ID repo) (sync_trace st)
    ∧ SyncEnd j account repo db (sync_trace st) result
    ∧ (∀ d,
         d ∈ deletion_set j account repo db →
         EvDBDelete (Repository_ID repo) d ∉ sync_trace st →
         (∃ prepared, sync_prepare j account repo db = inr prepared) →
         (∀ d', faults j (StmtDeleteManifest (Repository_ID repo) d') = None) →
         (∀ d', sd_DeleteManifest j (Account_Name account) (Repository_Name repo) d' = None) →
         ∃ undeletedDigests,
           result = Some (stuck_error undeletedDigests repo) ∧ d ∈ undeletedDigests).
Proof.
  intros Hrange.
  enough (∃ st result,
            performManifestSync j account repo db = Some (st, result)
            ∧ parents_deleted_first (Repository_ID repo) db (sync_trace st)
            ∧ db_row_before_storage (Repository_ID repo) (sync_trace st)
            ∧ SyncEnd j account repo db (sync_trace st) result)
    as (st & result & Hrun & Hfirst & Hstorage & Hend).
  { exists st, result. split; [done|]. split; [done|]. split; [done|]. split; [done|].
    intros d Hd Hnot [prepared Hprepared] Hdb Hsd.
    destruct Hend as [Hall|err Hfailed _|digest msg Hf _ _ _|digest err Hs _
                     |undeleted _ _ Hnames _].
    - by destruct (Hall d Hd).
    - congruence.
    - by rewrite Hdb in Hf.
    - by rewrite Hsd in Hs.
    - exists undeleted. split; [done|]. by apply Hnames. }
  unfold performManifestSync.
  destruct (sync_prepare j account repo db) as [err|[shallDelete parentDigestsOf]] eqn:Hprep.
  { eexists _, _. split; [done|]. simpl. repeat split.
    - intros i d ref Hi. done.
    - intros i a r d Hi. done.
    - by apply SyncPrepareFailed. }
  set (st0 := mkSyncState shallDelete ∅ db []).
  set (D0 := deletion_set j account repo db).
  pose proof (sync_prepare_deletion_set _ _ _ _ _ _ Hprep) as HD0. fold D0 in HD0.
  destruct (sync_loop_terminates j account repo parentDigestsOf Hrange
              (size shallDelete) st0) as (st & result & Hloop); [done|].
  exists st, result. split; [done|].
  assert (sync_invariant (Repository_ID repo) parentDigestsOf st0) as Hinv0.
  { split; [|split]; simpl.
    - intros i d p Hi. done.
    - intros i a r d Hi. done.
    - intros d. unfold map_bool. rewrite lookup_empty. done. }
  destruct (sync_loop_invariant j account repo parentDigestsOf _ _ _ _ Hinv0 Hloop)
    as (Hpar & Hsto & _).
  split; [|split; [done|]].
  { intros i d ref Hi Href Hid Hchild.
    apply (Hpar i d (MMR_ParentDigest ref) Hi).
    apply (parent_rows _ _ _ _ _ _ _ _ Hprep). eauto. }
  assert (∀ ref, ref ∈ manifest_manifest_refs db → MMR_RepositoryID ref = Repository_ID repo →
            MMR_ParentDigest ref ∈ map_slice parentDigestsOf (MMR_ChildDigest ref)) as Hcomplete.
  { intros ref Href Hid. apply (parent_rows _ _ _ _ _ _ _ _ Hprep). eauto. }
  pose proof (sync_loop_book j account repo db parentDigestsOf D0 Hcomplete Hrange
                (size shallDelete) st0 st result) as Hend.
  lapply Hend; clear Hend.
  2:{ subst st0. simpl. unfold map_bool. repeat split; try done.
      - by intros ?%elem_of_nil.
      - by rewrite HD0 in H.
      - by rewrite HD0 in H0.
      - by rewrite HD0 in H0. }
  intros Hend. specialize (Hend Hloop).
  destruct result as [err|].
  - destruct Hend as [[(digest & msg & Hf & HD & Hnot & Hpar' & ->)
                      |(digest & e & Hs & Hlast & ->)]
                     |(undeleted & -> & Hne & Hnd & Hdom & HB & Hblocked)].
    + apply SyncDBDeleteFailed; [done..|].
      intros ref Href Hid <-. apply Hpar'. by apply Hcomplete.
    + by apply SyncStorageDeleteFailed.
    + destruct HB as (Hmark & Hkey & Hgone & _).
      apply SyncStuck; [done|done| |].
      * intros d. rewrite Hdom. split.
        -- intros Hd. destruct (Hkey d Hd) as [? Hunmarked]. split; [done|].
           rewrite Hmark. congruence.
        -- intros [HD Hnot].
           destruct (decide (d ∈ dom (shallDeleteManifest st))) as [|Hout]; [done|].
           destruct (Hgone d HD Hout) as [? _]. done.
      * intros d Hd.
        destruct (blocked_has_undeleted_parent parentDigestsOf st d (Hblocked d Hd))
          as (p & Hp & Hunmarked).
        apply (parent_rows _ _ _ _ _ _ _ _ Hprep) in Hp as (ref & ? & ? & <- & ?).
        exists ref. repeat split; try done. rewrite Hmark. congruence.
  - destruct Hend as [(_ & _ & Hgone & _) Hempty].
    apply SyncDone. intros d Hd. apply Hgone; [done|].
    rewrite Hempty, dom_empty_L. apply not_elem_of_empty.
Qed.

(** C5 on the replica repository whose three manifests are all gone
    upstream, with the keys of a map visited in the order of [elements]:
    all three are deleted, the manifest list first. *)
Lemma performManifestSync_deletes_parents_first_witness :
  (∀ s : gset string, range_order examples.janitor_200000 s ≡ₚ elements s)
  ∧ ∃ st result,
      performManifestSync examples.janitor_200000 examples.account_replica
        examples.repo_replica examples.replica_db = Some (st, result)
      ∧ parents_deleted_first 7 examples.replica_db (sync_trace st)
      ∧ db_row_before_storage 7 (sync_trace st)
      ∧ SyncEnd examples.janitor_200000 examples.account_replica examples.repo_replica
          examples.replica_db (sync_trace st) result.
Proof.
  split; [intros s; reflexivity|].
  destruct (performManifestSync_deletes_parents_first examples.janitor_200000
              examples.account_replica examples.repo_replica examples.replica_db
              (fun s => reflexivity (elements s)))
    as (st & result & Hrun & Hfirst & Hstorage & Hend & _).
  exists st, result. split; [exact Hrun|]. split; [exact Hfirst|].
  split; [exact Hstorage|exact Hend].
Defined.

(** That run in full: the manifest list goes first. *)
Example sync_replica_trace :
  (λ r, (sync_trace r.1, r.2, manifests (sync_db r.1)))
    <$> performManifestSync examples.janitor_200000 examples.account_replica
          examples.repo_replica examples.replica_db
  = Some ([EvDBDelete 7 "sha256:list"; EvStorageDelete "replica1" "app" "sha256:list";
           EvDBDelete 7 "sha256:amd64"; EvStorageDelete "replica1" "app" "sha256:amd64";
           EvDBDelete 7 "sha256:arm64"; EvStorageDelete "replica1" "app" "sha256:arm64"],
          None, []).
Proof. vm_compute. reflexivity. Qed.

(** With reference rows in a cycle nothing can be deleted; the error names
    both digests. *)
Example sync_cycle_is_stuck :
  (λ r, (sync_trace r.1, r.2, Manifest_Digest <$> manifests (sync_db r.1)))
    <$> performManifestSync examples.janitor_200000 examples.account_replica
          examples.repo_replica examples.cyclic_db
  = Some ([], Some (stuck_error ["sha256:a"; "sha256:b"] examples.repo_replica),
          ["sha256:a"; "sha256:b"]).
Proof. vm_compute. reflexivity. Qed.

End manifest_sync.

(* ===================================================================== *)
(** * Theorems: the vulnerability check sweep *)
(* ===================================================================== *)

Module vulnerability_sweep.
Import keppel tasks.

(** C9, counterexample.  On the fixture database at time 200000 the sweep
    selects the manifest sha256:8a92..., whose one blob is in the storage;
    the scanner reports its indexing as errored.  The sweep returns that
    error, and the row of the manifest still has no [next_vuln_check_at]
    afterwards: it was not set to now + 1 h. *)
Lemma scanner_error_is_not_rescheduled :
  let j := examples.janitor_200000 in
  let db := examples.fixture_db in
  let digest := Manifest_Digest examples.manifest_8a92 in
  selectOne j StmtSelectNextVulnCheck (vulnCheckSelectQuery (timeNow j 0) db)
    = inr examples.manifest_8a92
  ∧ (∀ request, ∃ state, CheckManifestState j request = inr state ∧ IsErrored state = true)
  ∧ ∃ db',
      CheckVulnerabilitiesForNextManifest 1 j db
      = Some (db', Some (Errorf ("while updating vulnerability status for a manifest: "
                                 +:+ "Clair reports indexing of " +:+ digest +:+ " as errored")))
      ∧ ¬ (∀ r, r ∈ manifests db' → Manifest_Digest r = digest →
                Manifest_NextVulnerabilityCheckAt r = Some (timeNow j 1 + 1 * Hour)).
Proof.
  intros j db digest. split; [vm_compute; reflexivity|].
  split; [intros request; eexists; split; reflexivity|].
  exists db. split; [vm_compute; reflexivity|].
  intros H. specialize (H examples.manifest_8a92). discriminate H.
  - left.
  - reflexivity.
Qed.

(** C9, as the code has it.  When the sweep has selected a manifest of an
    account that is not in maintenance, all of whose blobs (at least one)
    are in the storage, and the scanner reports the indexing of the
    manifest as errored, then the sweep returns that error and leaves
    every table as it was: [next_vuln_check_at] keeps its value. *)
Theorem scanner_error_leaves_schedule
    (fuel : nat) (j : Janitor) (db : DB) (manifest : Manifest) (repo : Repository)
    (account : Account) (blobs : list Blob) (layers : list ClairLayer) (state : ClairState) :
  selectOne j StmtSelectNextVulnCheck (vulnCheckSelectQuery (timeNow j 0) db) = inr manifest →
  selectOne j (StmtSelectRepo (Manifest_RepositoryID manifest))
    (select_repo_by_id db (Manifest_RepositoryID manifest)) = inr repo →
  findAccount j db (Repository_AccountName repo) = inr account →
  Account_InMaintenance account = false →
  query j (StmtSelectBlobsOfManifest (Manifest_RepositoryID manifest) (Manifest_Digest manifest))
    (vulnCheckBlobSelectQuery (Manifest_RepositoryID manifest) (Manifest_Digest manifest) db)
    = inr blobs →
  blobs ≠ [] →
  vuln_blob_loop j db account repo manifest blobs [] = LayersDone layers →
  faults j (StmtSelectSubmanifestInfo (Manifest_Digest manifest)) = None →
  CheckManifestState j (mkClairManifest (Manifest_Digest manifest) layers) = inr state →
  IsErrored state = true →
  CheckVulnerabilitiesForNextManifest fuel j db
  = Some (db, Some (Errorf ("while updating vulnerability status for a manifest: "
                            +:+ "Clair reports indexing of " +:+ Manifest_Digest manifest
                            +:+ " as errored"))).
Proof.
  intros Hsel Hrepo Hacct Hmaint Hblobs Hne Hloop Hsub Hstate Herr.
  unfold CheckVulnerabilitiesForNextManifest, CheckVulnerabilitiesForNextManifest_body.
  rewrite Hsel, Hrepo, Hacct.
  assert (doVulnerabilityCheck fuel j db account repo manifest
          = Some (db, manifest,
                  Some (Errorf ("Clair reports indexing of " +:+ Manifest_Digest manifest
                                +:+ " as errored")))) as ->.
  { destruct fuel; simpl; rewrite Hmaint, Hblobs, Hloop; unfold query; rewrite Hsub;
      (rewrite decide_True by (destruct blobs; simpl; [done|lia]));
      rewrite Hstate, Herr; reflexivity. }
  simpl. reflexivity.
Qed.

(** The amended C9 on the input of the counterexample. *)
Lemma scanner_error_leaves_schedule_witness :
  CheckVulnerabilitiesForNextManifest 1 examples.janitor_200000 examples.fixture_db
  = Some (examples.fixture_db,
          Some (Errorf ("while updating vulnerability status for a manifest: "
                        +:+ "Clair reports indexing of "
                        +:+ Manifest_Digest examples.manifest_8a92 +:+ " as errored"))).
Proof.
  apply (scanner_error_leaves_schedule 1 examples.janitor_200000 examples.fixture_db
           examples.manifest_8a92 examples.repo_foo examples.account_test1
           [examples.blob_1]
           [mkClairLayer (Blob_Digest examples.blob_1)
              ("https://storage/" +:+ Blob_StorageID examples.blob_1)]
           (mkClairState true false));
    try (vm_compute; reflexivity).
  discriminate.
Defined.

End vulnerability_sweep.

(* ===================================================================== *)
(** * Theorems: manifest ingest *)
(* ===================================================================== *)

Module manifest_ingest.
Import keppel processor.

Lemma only_reads_refl st : only_reads_since st st.
Proof. repeat split. exists []. by rewrite app_nil_r. Qed.

Lemma only_reads_logged st st' op :
  is_read op = true → only_reads_since (tx_logged st op) st' → only_reads_since st st'.
Proof.
  intros Hop (Hdb & Hsto & ops & Hlog & Hall). repeat split; try done.
  exists (op :: ops). simpl in Hlog. rewrite <- app_assoc in Hlog. split; [done|].
  by constructor.
Qed.

Lemma only_reads_trans st1 st2 st3 :
  only_reads_since st1 st2 → only_reads_since st2 st3 → only_reads_since st1 st3.
Proof.
  intros (Hdb & Hsto & ops & Hlog & Hall) (Hdb' & Hsto' & ops' & Hlog' & Hall').
  repeat split; [congruence..|].
  exists (ops ++ ops'). rewrite Hlog', Hlog, app_assoc. split; [done|].
  by apply Forall_app.
Qed.

Lemma check_references_reads p repo account descs : ∀ st,
  only_reads_since st (check_references p st repo account descs).1.
Proof.
  induction descs as [|desc descs IH]; intros st; simpl; [apply only_reads_refl|].
  eapply (only_reads_logged _ _ (OpFindBlob _)); [reflexivity|].
  destruct (FindBlobByRepositoryID _ _ _ _ _) as [err|b].
  - case_decide; apply only_reads_refl.
  - apply IH.
Qed.

Lemma required_labels_reads p st account manifest requiredLabels :
  only_reads_since st (checkManifestHasRequiredLabels p st account manifest requiredLabels).1.
Proof.
  assert (∀ configBlob,
    only_reads_since st
      (let st := tx_logged st (OpSelectStorageID (Desc_Digest configBlob)) in
       match p_faults p (StmtSelectStorageID (Account_Name account) (Desc_Digest configBlob)) with
       | Some msg => (st, inl (DriverErr msg))
       | None =>
           let storageID :=
             match filter (fun b => Blob_AccountName b = Account_Name account
                                    ∧ Blob_Digest b = Desc_Digest configBlob) (blobs (tx_db st)) with
             | b :: _ => Blob_StorageID b
             | [] => ""
             end in
           if decide (storageID = "") then
             (st, inl (RegistryErr (WithDetail (With ErrManifestBlobUnknown "")
                                      (Desc_Digest configBlob))))
           else
             let st := tx_logged st (OpReadBlob storageID) in
             match ReadBlob p account storageID with
             | inl err => (st, inl err)
             | inr blobContents =>
                 match config_labels p blobContents with
                 | inl err => (st, inl err)
                 | inr labels =>
                     (st, inr (filter (fun label => label ∉ labels) requiredLabels))
                 end
             end
       end).1) as H.
  { intros configBlob. cbv zeta.
    eapply (only_reads_logged _ _ (OpSelectStorageID _)); [reflexivity|].
    destruct (p_faults p _); [apply only_reads_refl|].
    case_decide; [apply only_reads_refl|].
    eapply (only_reads_logged _ _ (OpReadBlob _)); [reflexivity|].
    destruct (ReadBlob p _ _); [apply only_reads_refl|].
    destruct (config_labels p _); apply only_reads_refl. }
  unfold checkManifestHasRequiredLabels.
  destruct manifest; try apply H. apply only_reads_refl.
Qed.

Lemma validate_for_primary_reads p st repo account manifest :
  only_reads_since st (validate_for_primary p st repo account manifest).1.
Proof.
  unfold validate_for_primary.
  pose proof (check_references_reads p repo account (References manifest) st) as H1.
  destruct (check_references _ _ _ _ _) as [st1 [err|]]; [done|]. simpl in H1.
  case_decide; [|done].
  pose proof (required_labels_reads p st1 account manifest
                (split_comma (Account_RequiredLabels account))) as H2.
  destruct (checkManifestHasRequiredLabels _ _ _ _ _) as [st2 [err|missing]]; simpl in H2.
  - by eapply only_reads_trans.
  - case_decide; by eapply only_reads_trans.
Qed.

(** The first descriptor without a blob row stops the loop. *)
Lemma check_references_missing p repo account descs : ∀ st,
  (∀ desc, desc ∈ descs →
     p_faults p (StmtFindBlob (Repository_ID repo) (Desc_Digest desc)) = None) →
  (∃ desc, desc ∈ descs ∧ ¬ has_blob_row (tx_db st) repo account desc) →
  ∃ pre desc post,
    descs = pre ++ desc :: post
    ∧ Forall (has_blob_row (tx_db st) repo account) pre
    ∧ ¬ has_blob_row (tx_db st) repo account desc
    ∧ (check_references p st repo account descs).2
      = Some (RegistryErr (WithDetail (With ErrManifestBlobUnknown "") (Desc_Digest desc))).
Proof.
  induction descs as [|d descs IH]; intros st Hfaults (desc & Hin & Hmiss).
  { by apply elem_of_nil in Hin. }
  simpl. unfold FindBlobByRepositoryID. rewrite Hfaults by left. simpl.
  destruct (filter _ _) as [|b rest] eqn:Hfilter; simpl.
  - exists [], d, descs. split; [done|]. split; [constructor|]. split; [|done].
    intros (b & Hb & ? & ? & ?).
    assert (b ∈ filter (λ b, Blob_AccountName b = Account_Name account
                             ∧ Blob_Digest b = Desc_Digest d
                             ∧ (Blob_ID b, Repository_ID repo) ∈ blob_mounts (tx_db st))
                  (blobs (tx_db st))) as Hf by (apply list_elem_of_filter; done).
    rewrite Hfilter in Hf. by apply elem_of_nil in Hf.
  - assert (has_blob_row (tx_db st) repo account d) as Hd.
    { assert (b ∈ filter (λ b, Blob_AccountName b = Account_Name account
                               ∧ Blob_Digest b = Desc_Digest d
                               ∧ (Blob_ID b, Repository_ID repo) ∈ blob_mounts (tx_db st))
                    (blobs (tx_db st))) as Hf by (rewrite Hfilter; left).
      apply list_elem_of_filter in Hf as [(? & ? & ?) ?]. exists b. done. }
    apply elem_of_cons in Hin as [-> | Hin]; [done|].
    destruct (IH (tx_logged st (OpFindBlob (Desc_Digest d)))) as (pre & d' & post & -> & Hpre & Hd' & Herr).
    + intros ??. apply Hfaults. by right.
    + exists desc. done.
    + exists (d :: pre), d', post. split; [done|]. split; [by constructor|]. done.
Qed.

Lemma total_size_spec manifestDesc refs :
  total_size manifestDesc refs = (Desc_Size manifestDesc + sum_sizes refs) mod 2 ^ 64.
Proof.
  unfold total_size.
  assert (∀ acc, foldl (λ sizeBytes desc, uint64 (sizeBytes + uint64 (Desc_Size desc)))
                   (uint64 acc) refs = uint64 (acc + sum_sizes refs)) as H.
  { induction refs as [|desc refs IH]; intros acc; simpl.
    - by rewrite Z.add_0_r.
    - rewrite IH. unfold uint64.
      rewrite (Z.add_mod (_ + _) (sum_sizes refs)) by lia.
      rewrite <- (Z.add_mod acc (Desc_Size desc)) by lia.
      rewrite <- Z.add_mod by lia. f_equal. lia. }
  apply H.
Qed.

Lemma FindOrCreateRepository_tables p db name account :
  let db1 := (FindOrCreateRepository p db name account).1 in
  accounts db1 = accounts db ∧ blobs db1 = blobs db ∧ blob_mounts db1 = blob_mounts db
  ∧ manifests db1 = manifests db ∧ tags db1 = tags db
  ∧ manifest_blob_refs db1 = manifest_blob_refs db
  ∧ manifest_manifest_refs db1 = manifest_manifest_refs db.
Proof.
  unfold FindOrCreateRepository. destruct (p_faults p _); [done|].
  destruct (filter _ _); done.
Qed.

(** The shape of a transaction: reads and inserts, then at most one
    storage write, which is last and whose result is the result. *)
Lemma store_manifest_tx_shape p account m repo manifest manifestDesc st :
  let write := OpWriteManifest (Account_Name account) (Repository_Name repo)
                 (Desc_Digest manifestDesc) in
  let r := store_manifest_tx p account m repo manifest manifestDesc st in
  ∃ ops, Forall (fun op => is_write_manifest op = false) ops
    ∧ ((tx_log r.1.1 = tx_log st ++ ops ∧ r.2 ≠ None)
       ∨ (tx_log r.1.1 = tx_log st ++ ops ++ [write]
          ∧ r.2 = WriteManifest_err p (Account_Name account) (Repository_Name repo)
                    (Desc_Digest manifestDesc) (Contents m))).
Proof.
  intros write r. subst r. unfold store_manifest_tx.
  assert (∃ st1 e, (if decide (Account_UpstreamPeerHostName account = "")
                    then validate_for_primary p st repo account manifest
                    else (st, None)) = (st1, e) ∧ only_reads_since st st1)
    as (st1 & e & -> & (_ & _ & ops1 & Hlog1 & Hops1)).
  { case_decide.
    - pose proof (validate_for_primary_reads p st repo account manifest) as H1.
      destruct (validate_for_primary _ _ _ _ _) as [st1 e]. eauto.
    - eexists _, _. split; [done|]. apply only_reads_refl. }
  assert (Forall (λ op, is_write_manifest op = false) ops1) as Hw1.
  { eapply Forall_impl; [exact Hops1|]. intros []; simpl; done. }
  destruct e as [err|]; simpl.
  { exists ops1. split; [done|]. left. done. }
  destruct (Manifest_InsertIfMissing _ _ _) as [err|db1]; simpl.
  { exists (ops1 ++ [OpInsertManifest (Repository_ID repo) (Desc_Digest manifestDesc)]).
    split; [apply Forall_app; split; [done|by repeat constructor]|].
    left. rewrite Hlog1, app_assoc. done. }
  destruct (IsTag (Reference m)); simpl.
  - destruct (Tag_InsertIfMissing _ _ _) as [err|db2]; simpl.
    + exists (ops1 ++ [OpInsertManifest (Repository_ID repo) (Desc_Digest manifestDesc);
                       OpInsertTag (Repository_ID repo) (Ref_Tag (Reference m))]).
      split; [apply Forall_app; split; [done|by repeat constructor]|].
      left. rewrite Hlog1, <- !app_assoc. done.
    + exists (ops1 ++ [OpInsertManifest (Repository_ID repo) (Desc_Digest manifestDesc);
                       OpInsertTag (Repository_ID repo) (Ref_Tag (Reference m))]).
      split; [apply Forall_app; split; [done|by repeat constructor]|].
      right. unfold WriteManifest. simpl.
      destruct (WriteManifest_err p _ _ _ _); simpl; rewrite Hlog1, <- !app_assoc; done.
  - exists (ops1 ++ [OpInsertManifest (Repository_ID repo) (Desc_Digest manifestDesc)]).
    split; [apply Forall_app; split; [done|by repeat constructor]|].
    right. unfold WriteManifest. simpl.
    destruct (WriteManifest_err p _ _ _ _); simpl; rewrite Hlog1, <- !app_assoc; done.
Qed.

(** [ValidateAndStoreManifest] returns early, or runs the transaction. *)
Lemma ingest_cases p account m db storage :
  let r := ValidateAndStoreManifest p account m db storage in
  let db1 := (FindOrCreateRepository p db (RepoName m) account).1 in
  (res_log r = [] ∧ res_err r ≠ None ∧ (res_db r = db ∨ res_db r = db1)
   ∧ res_storage r = storage ∧ res_manifest r = None)
  ∨ (∃ repo manifest manifestDesc,
       checkQuotaForManifestPush p db account = None
       ∧ FindOrCreateRepository p db (RepoName m) account = (db1, inr repo)
       ∧ UnmarshalManifest p (MediaType m) (Contents m) = inr (manifest, manifestDesc)
       ∧ (IsDigest (Reference m) = true → Desc_Digest manifestDesc = Ref_Digest (Reference m))
       ∧ let t := store_manifest_tx p account m repo manifest manifestDesc
                    (mkTxState db1 storage []) in
         res_log r = tx_log t.1.1 ∧ res_storage r = tx_storage t.1.1
         ∧ res_manifest r = t.1.2
         ∧ match t.2 with
           | Some err => res_db r = db1 ∧ res_err r = Some err
           | None =>
               match p_faults p StmtCommit with
               | Some msg => res_db r = db1 ∧ res_err r = Some (DriverErr msg)
               | None => res_db r = tx_db t.1.1 ∧ res_err r = None
               end
           end).
Proof.
  intros r db1. subst r db1. unfold ValidateAndStoreManifest.
  destruct (checkQuotaForManifestPush p db account) as [err|] eqn:Hq.
  { left. simpl. auto 10. }
  destruct (FindOrCreateRepository p db (RepoName m) account) as [db1 [err|repo]] eqn:Hrepo;
    simpl.
  { left. auto 10. }
  destruct (UnmarshalManifest p (MediaType m) (Contents m)) as [err|[manifest manifestDesc]]
    eqn:Hparse.
  { left. simpl. auto 10. }
  destruct (IsDigest (Reference m) && _) eqn:Hdigest.
  { left. simpl. auto 10. }
  right. exists repo, manifest, manifestDesc.
  split; [done|]. split; [done|]. split; [done|]. split.
  { intros Hd. rewrite Hd in Hdigest. simpl in Hdigest.
    apply bool_decide_eq_false in Hdigest.
    destruct (decide (Desc_Digest manifestDesc = Ref_Digest (Reference m))); [done|].
    by destruct Hdigest. }
  unfold insideTransaction.
  destruct (store_manifest_tx _ _ _ _ _ _ _) as [[st dbManifest] [err|]]; simpl; [done|].
  destruct (p_faults p StmtCommit); simpl; done.
Qed.

(** C1.  In the transaction of [ValidateAndStoreManifest] the storage
    write of the manifest, if it is reached, is the last operation.  When
    that write fails, its error is the result of the call and the tables
    are those from before the transaction: the manifests and tags tables
    are as they were before the call.  The same holds for the tables when
    the call fails in any other way. *)
Theorem storage_write_is_final_step
    (p : Processor) (account : Account) (m : IncomingManifest) (db : DB) (storage : Storage) :
  let r := ValidateAndStoreManifest p account m db storage in
  (∀ (i : nat) (op : TxOp),
     res_log r !! i = Some op → is_write_manifest op = true → S i = length (res_log r))
  ∧ (∀ a rp d err,
       OpWriteManifest a rp d ∈ res_log r →
       WriteManifest_err p a rp d (Contents m) = Some err →
       res_err r = Some err
       ∧ res_db r = (FindOrCreateRepository p db (RepoName m) account).1
       ∧ manifests (res_db r) = manifests db ∧ tags (res_db r) = tags db)
  ∧ (res_err r ≠ None →
       manifests (res_db r) = manifests db ∧ tags (res_db r) = tags db).
Proof.
  intros r.
  pose proof (FindOrCreateRepository_tables p db (RepoName m) account)
    as (_ & _ & _ & Hm1 & Ht1 & _). cbv zeta in Hm1, Ht1.
  destruct (ingest_cases p account m db storage)
    as [(Hlog & Herr & Hdb & _)|(repo & manifest & manifestDesc & _ & _ & _ & _ & Htx)];
    fold r in Hlog, Herr, Hdb || fold r in Htx.
  - rewrite Hlog. split; [|split].
    + intros i op Hi. by rewrite lookup_nil in Hi.
    + intros a rp d err Hin. by apply elem_of_nil in Hin.
    + intros _. destruct Hdb as [-> | ->]; done.
  - cbv zeta in Htx. destruct Htx as (Hlog & _ & _ & Hres).
    destruct (store_manifest_tx_shape p account m repo manifest manifestDesc
                (mkTxState (FindOrCreateRepository p db (RepoName m) account).1 storage []))
      as (ops & Hops & Hshape). simpl in Hshape.
    rewrite Forall_forall in Hops.
    set (t := store_manifest_tx p account m repo manifest manifestDesc
                (mkTxState (FindOrCreateRepository p db (RepoName m) account).1 storage []))
      in *.
    split; [|split].
    + intros i op Hi Hw. rewrite Hlog in *.
      destruct Hshape as [[Hl _]|[Hl _]]; rewrite Hl in *.
      * apply list_elem_of_lookup_2, Hops in Hi. congruence.
      * apply lookup_snoc_Some in Hi as [[_ Hi]|[-> _]].
        -- apply list_elem_of_lookup_2, Hops in Hi. congruence.
        -- rewrite length_app. simpl. lia.
    + intros a rp d err Hin Hfail. rewrite Hlog in Hin.
      destruct Hshape as [[Hl _]|[Hl He]]; rewrite Hl in Hin.
      * apply Hops in Hin. done.
      * apply elem_of_app in Hin as [Hin|Hin]; [apply Hops in Hin; done|].
        apply list_elem_of_singleton in Hin. injection Hin as -> -> ->.
        rewrite Hfail in He. rewrite He in Hres. destruct Hres as [-> ->]. done.
    + intros Hne. destruct (t.2).
      * destruct Hres as [-> _]. done.
      * destruct (p_faults p StmtCommit); destruct Hres as [Hd He]; [by rewrite Hd|done].
Qed.

(** A push while the storage driver cannot write: the transaction had
    inserted the manifest and the tag, and neither row is there after the
    call. *)
Example push_with_storage_down :
  let r := ValidateAndStoreManifest examples.processor_storage_down examples.account_test1
             examples.push_latest examples.db_without_manifests ∅ in
  res_log r = [OpFindBlob (Blob_Digest examples.blob_1);
               OpInsertManifest 1 (Manifest_Digest examples.manifest_8a92);
               OpInsertTag 1 "latest";
               OpWriteManifest "test1" "foo" (Manifest_Digest examples.manifest_8a92)]
  ∧ res_err r = Some (DriverErr "storage is down")
  ∧ res_db r = examples.db_without_manifests.
Proof. vm_compute. done. Qed.

Lemma storage_write_is_final_step_witness :
  let r := ValidateAndStoreManifest examples.processor_storage_down examples.account_test1
             examples.push_latest examples.db_without_manifests ∅ in
  res_err r = Some (DriverErr "storage is down")
  ∧ res_db r = (FindOrCreateRepository examples.processor_storage_down
                  examples.db_without_manifests "foo" examples.account_test1).1
  ∧ manifests (res_db r) = [] ∧ tags (res_db r) = [].
Proof.
  apply (proj1 (proj2 (storage_write_is_final_step examples.processor_storage_down
                         examples.account_test1 examples.push_latest
                         examples.db_without_manifests ∅))
           "test1" "foo" (Manifest_Digest examples.manifest_8a92)).
  - vm_compute. do 3 right. left.
  - reflexivity.
Defined.

Lemma has_blob_row_after_repo p db name account repo desc :
  has_blob_row (FindOrCreateRepository p db name account).1 repo account desc
  ↔ has_blob_row db repo account desc.
Proof.
  pose proof (FindOrCreateRepository_tables p db name account) as (_ & Hb & Hm & _).
  cbv zeta in *. unfold has_blob_row. by rewrite Hb, Hm.
Qed.

(** C2.  Let the quota check pass, the repository be found or created,
    the manifest parse, and a digest reference match.  (1) In an account
    that is not a replica, if the database answers the blob lookups and
    some descriptor of the reference list has no blob row in the repo, the
    call fails with MANIFEST_BLOB_UNKNOWN; the detail is the digest of the
    first such descriptor, and the tables are those from before the
    transaction.  (2) In a replica account the transaction reads nothing:
    neither blob rows nor a config blob for the label check. *)
Theorem missing_blob_is_reported
    (p : Processor) (account : Account) (m : IncomingManifest) (db : DB) (storage : Storage)
    (repo : Repository) (manifest : DistManifest) (manifestDesc : Descriptor) :
  let r := ValidateAndStoreManifest p account m db storage in
  let db1 := (FindOrCreateRepository p db (RepoName m) account).1 in
  checkQuotaForManifestPush p db account = None →
  FindOrCreateRepository p db (RepoName m) account = (db1, inr repo) →
  UnmarshalManifest p (MediaType m) (Contents m) = inr (manifest, manifestDesc) →
  (IsDigest (Reference m) = true → Desc_Digest manifestDesc = Ref_Digest (Reference m)) →
  (Account_UpstreamPeerHostName account = "" →
   (∀ desc, desc ∈ References manifest →
      p_faults p (StmtFindBlob (Repository_ID repo) (Desc_Digest desc)) = None) →
   (∃ desc, desc ∈ References manifest ∧ ¬ has_blob_row db repo account desc) →
   ∃ pre desc post,
     References manifest = pre ++ desc :: post
     ∧ Forall (has_blob_row db repo account) pre
     ∧ ¬ has_blob_row db repo account desc
     ∧ res_err r = Some (RegistryErr {| Code := ErrManifestBlobUnknown;
                                        Message := "manifest blob unknown to registry";
                                        Detail := Some (Desc_Digest desc) |})
     ∧ res_db r = db1)
  ∧ (Account_UpstreamPeerHostName account ≠ "" →
     Forall (fun op => is_read op = false) (res_log r)).
Proof.
  intros r db1 Hquota Hrepo Hparse Hdigest.
  assert (r = let '(db', storage', log, dbManifest, err) :=
                insideTransaction p (store_manifest_tx p account m repo manifest manifestDesc)
                  db1 storage in
              mkStoreResult db' storage' log dbManifest err) as Hr.
  { subst r. unfold ValidateAndStoreManifest. rewrite Hquota, Hrepo, Hparse.
    destruct (IsDigest (Reference m)); simpl; [|done].
    rewrite bool_decide_eq_false_2; [done|]. intros Hne. by apply Hne, Hdigest. }
  split.
  - intros Hprimary Hfaults Hmissing.
    destruct (check_references_missing p repo account (References manifest)
                (mkTxState db1 storage []) Hfaults)
      as (pre & desc & post & Hsplit & Hpre & Hdesc & Herr).
    { destruct Hmissing as (desc & ? & Hno). exists desc. split; [done|].
      simpl. subst db1. by rewrite has_blob_row_after_repo. }
    exists pre, desc, post. simpl in Hpre, Hdesc. subst db1.
    rewrite has_blob_row_after_repo in Hdesc.
    split; [done|]. split.
    { eapply Forall_impl; [exact Hpre|]. intros d. by rewrite has_blob_row_after_repo. }
    split; [done|].
    rewrite Hr. unfold insideTransaction, store_manifest_tx, validate_for_primary.
    rewrite decide_True by done.
    destruct (check_references _ _ _ _ _) as [st1 e1]. simpl in Herr. subst e1. simpl. done.
  - intros Hreplica. rewrite Hr.
    unfold insideTransaction, store_manifest_tx. rewrite decide_False by done.
    destruct (Manifest_InsertIfMissing _ _ _); simpl; [by repeat constructor|].
    unfold WriteManifest.
    destruct (IsTag (Reference m)); simpl.
    + destruct (Tag_InsertIfMissing _ _ _); simpl; [by repeat constructor|].
      destruct (WriteManifest_err p _ _ _ _); simpl.
      * by repeat constructor.
      * destruct (p_faults p StmtCommit); simpl; by repeat constructor.
    + destruct (WriteManifest_err p _ _ _ _); simpl.
      * by repeat constructor.
      * destruct (p_faults p StmtCommit); simpl; by repeat constructor.
Qed.

(** C2 on a push whose second layer has no blob row. *)
Lemma missing_blob_is_reported_witness :
  let r := ValidateAndStoreManifest examples.processor_missing_layer examples.account_test1
             examples.push_latest examples.db_without_manifests ∅ in
  ∃ pre desc post,
    [examples.blob_1_descriptor 1102; examples.missing_layer] = pre ++ desc :: post
    ∧ Forall (has_blob_row examples.db_without_manifests examples.repo_foo
                examples.account_test1) pre
    ∧ ¬ has_blob_row examples.db_without_manifests examples.repo_foo
          examples.account_test1 desc
    ∧ res_err r = Some (RegistryErr {| Code := ErrManifestBlobUnknown;
                                       Message := "manifest blob unknown to registry";
                                       Detail := Some (Desc_Digest desc) |})
    ∧ res_db r = examples.db_without_manifests.
Proof.
  apply (proj1 (missing_blob_is_reported examples.processor_missing_layer
                  examples.account_test1 examples.push_latest examples.db_without_manifests ∅
                  examples.repo_foo
                  (Schema2Manifest (examples.blob_1_descriptor 1102)
                     [examples.blob_1_descriptor 1102; examples.missing_layer])
                  (mkDescriptor "application/vnd.docker.distribution.manifest.v2+json"
                     (Manifest_Digest examples.manifest_8a92) 2)
                  eq_refl eq_refl eq_refl (fun H => False_ind _ (Bool.diff_false_true H)))).
  - reflexivity.
  - intros desc _. reflexivity.
  - exists examples.missing_layer. split; [right; left|].
    intros (b & Hb & _ & Hdigest & _).
    apply list_elem_of_singleton in Hb. subst b. discriminate Hdigest.
Defined.

(** Case analysis on the outcomes of the tag insertion and the storage
    write in a hypothesis about the end of a transaction. *)
Ltac tx_tail_cases H :=
  unfold WriteManifest, Tag_InsertIfMissing in H; simpl in H;
  repeat first
    [ match type of H with
      | context [WriteManifest_err ?p ?a ?b ?c ?d] => destruct (WriteManifest_err p a b c d)
      end
    | match type of H with
      | context [p_faults ?p ?s] => destruct (p_faults p s)
      end
    | match type of H with
      | context [bool_decide ?P] => destruct (bool_decide P)
      end
    | match type of H with
      | context [IsTag ?r] => destruct (IsTag r)
      end ];
  simpl in H.

(** What a transaction that succeeds has built and inserted. *)
Lemma store_manifest_tx_success p account m repo manifest manifestDesc st st' dbManifest :
  store_manifest_tx p account m repo manifest manifestDesc st = (st', dbManifest, None) →
  ∃ row, dbManifest = Some row
    ∧ Manifest_RepositoryID row = Repository_ID repo
    ∧ Manifest_Digest row = Desc_Digest manifestDesc
    ∧ Manifest_SizeBytes row = total_size manifestDesc (References manifest)
    ∧ ((∀ old, old ∈ manifests (tx_db st) →
          ¬ (Manifest_RepositoryID old = Repository_ID repo
             ∧ Manifest_Digest old = Desc_Digest manifestDesc)) →
       row ∈ manifests (tx_db st')).
Proof.
  unfold store_manifest_tx.
  assert (∃ st1 e, (if decide (Account_UpstreamPeerHostName account = "")
                    then validate_for_primary p st repo account manifest
                    else (st, None)) = (st1, e) ∧ tx_db st1 = tx_db st)
    as (st1 & e & -> & Hdb1).
  { case_decide.
    - pose proof (validate_for_primary_reads p st repo account manifest) as (H1 & _).
      destruct (validate_for_primary _ _ _ _ _) as [st1 e]. eauto.
    - eauto. }
  destruct e as [err|]; [done|].
  unfold Manifest_InsertIfMissing. simpl.
  destruct (p_faults p (StmtInsertManifest _ _)); [done|].
  pose (row0 := {| Manifest_RepositoryID := Repository_ID repo;
                   Manifest_Digest := Desc_Digest manifestDesc;
                   Manifest_MediaType := Desc_MediaType manifestDesc;
                   Manifest_SizeBytes := total_size manifestDesc (References manifest);
                   Manifest_PushedAt := PushedAt m;
                   Manifest_ValidatedAt := PushedAt m;
                   Manifest_ValidationErrorMessage := "";
                   Manifest_NextVulnerabilityCheckAt := None;
                   Manifest_VulnerabilityStatus := CleanSeverity |}).
  match goal with |- context [bool_decide ?P] => destruct (bool_decide_reflect P) as [Hex|Hnex] end.
  - intros Hrest.
    assert (dbManifest = Some row0) as ->.
    { tx_tail_cases Hrest; try discriminate; injection Hrest as _ <-; reflexivity. }
    exists row0. repeat split.
    intros Hfresh. exfalso. apply Exists_exists in Hex as (old & Hold & Hkey).
    rewrite Hdb1 in Hold. apply (Hfresh old Hold). done.
  - intros Hrest.
    assert (dbManifest = Some row0 ∧ manifests (tx_db st') = manifests (tx_db st1) ++ [row0])
      as [-> Hrows].
    { tx_tail_cases Hrest; try discriminate; injection Hrest as <- <-; split; reflexivity. }
    exists row0. repeat split.
    intros _. rewrite Hrows. apply elem_of_app. right. left.
Qed.

Lemma sum_sizes_nonneg refs :
  Forall (fun desc => 0 ≤ Desc_Size desc) refs → 0 ≤ sum_sizes refs.
Proof. induction 1; unfold sum_sizes in *; simpl; lia. Qed.

(** C3, counterexample.  A manifest of two bytes whose three layers
    declare the sizes 2^63 - 1, 2^63 - 1 and 2 (each fits an [int64]) is
    stored successfully; the row gets [size_bytes] 2, while the length of
    the contents plus the declared sizes is 2 + 2^64. *)
Lemma stored_size_wraps_around :
  let sizes := [2 ^ 63 - 1; 2 ^ 63 - 1; 2] in
  let r := ValidateAndStoreManifest (examples.processor_ok sizes) examples.account_test1
             examples.push_latest examples.db_without_manifests ∅ in
  res_err r = None
  ∧ ∃ row, manifests (res_db r) = [row] ∧ res_manifest r = Some row
      ∧ Manifest_SizeBytes row = 2
      ∧ Z.of_nat (length (Contents examples.push_latest))
        + sum_sizes (examples.blob_1_descriptor <$> sizes) = 2 + 2 ^ 64
      ∧ Manifest_SizeBytes row
        ≠ Z.of_nat (length (Contents examples.push_latest))
          + sum_sizes (examples.blob_1_descriptor <$> sizes).
Proof.
  split; [vm_compute; reflexivity|].
  eexists. split; [vm_compute; reflexivity|]. split; [vm_compute; reflexivity|].
  split; [reflexivity|]. split; [vm_compute; reflexivity|].
  vm_compute. discriminate.
Qed.

(** C3, as the code has it.  Let the parser give the length of the
    contents as the size of the manifest's descriptor.  After a successful
    call, the manifest value that the call built and returns has as
    [SizeBytes] the length of the contents plus the declared sizes of the
    descriptors of the reference list, reduced modulo 2^64; it is the row
    in the manifests table unless the table had a row of that repo and
    digest before.  When no declared size is negative and the sum is below
    2^64, [SizeBytes] is the sum itself. *)
Theorem stored_size_is_sum_mod_2_64
    (p : Processor) (account : Account) (m : IncomingManifest) (db : DB) (storage : Storage)
    (manifest : DistManifest) (manifestDesc : Descriptor) :
  let r := ValidateAndStoreManifest p account m db storage in
  let total := Z.of_nat (length (Contents m)) + sum_sizes (References manifest) in
  UnmarshalManifest p (MediaType m) (Contents m) = inr (manifest, manifestDesc) →
  Desc_Size manifestDesc = Z.of_nat (length (Contents m)) →
  res_err r = None →
  ∃ row, res_manifest r = Some row
    ∧ Manifest_Digest row = Desc_Digest manifestDesc
    ∧ Manifest_SizeBytes row = total mod 2 ^ 64
    ∧ ((∀ old, old ∈ manifests db →
          ¬ (Manifest_RepositoryID old = Manifest_RepositoryID row
             ∧ Manifest_Digest old = Manifest_Digest row)) →
       row ∈ manifests (res_db r))
    ∧ (Forall (fun desc => 0 ≤ Desc_Size desc) (References manifest) →
       total < 2 ^ 64 → Manifest_SizeBytes row = total).
Proof.
  intros r total Hparse Hsize Hok.
  pose proof (FindOrCreateRepository_tables p db (RepoName m) account)
    as (_ & _ & _ & Hm1 & _). cbv zeta in Hm1.
  destruct (ingest_cases p account m db storage)
    as [(_ & Herr & _)|(repo & manifest' & manifestDesc' & _ & _ & Hparse' & _ & Htx)];
    [done|].
  rewrite Hparse in Hparse'. injection Hparse' as <- <-.
  cbv zeta in Htx. fold r in Htx. destruct Htx as (_ & _ & Hman & Hres).
  destruct (store_manifest_tx _ _ _ _ _ _ _) as [[st' dbManifest] e] eqn:Htx.
  simpl in Hman, Hres.
  destruct e as [err|]; [destruct Hres as [_ Hres]; congruence|].
  destruct (p_faults p StmtCommit); [destruct Hres as [_ Hres]; congruence|].
  destruct Hres as [Hdb _].
  apply store_manifest_tx_success in Htx as (row & -> & Hrepo & Hdg & Hsz & Hrow).
  rewrite total_size_spec, Hsize in Hsz. fold total in Hsz.
  exists row. split; [done|]. split; [done|]. split; [done|]. split.
  - intros Hfresh. rewrite Hdb. apply Hrow. simpl. rewrite Hm1.
    intros old Hold. rewrite <- Hrepo, <- Hdg. by apply Hfresh.
  - intros Hnonneg Hlt. rewrite Hsz. apply Z.mod_small. split; [|done].
    pose proof (sum_sizes_nonneg _ Hnonneg). lia.
Qed.

(** The amended C3 on an ordinary push: 2 bytes and a layer of 1102. *)
Lemma stored_size_is_sum_mod_2_64_witness :
  let r := ValidateAndStoreManifest (examples.processor_ok [1102]) examples.account_test1
             examples.push_latest examples.db_without_manifests ∅ in
  ∃ row, res_manifest r = Some row
    ∧ Manifest_Digest row = Manifest_Digest examples.manifest_8a92
    ∧ Manifest_SizeBytes row = (2 + (1102 + 0)) mod 2 ^ 64
    ∧ ((∀ old, old ∈ [] →
          ¬ (Manifest_RepositoryID old = Manifest_RepositoryID row
             ∧ Manifest_Digest old = Manifest_Digest row)) →
       row ∈ manifests (res_db r))
    ∧ (Forall (fun desc => 0 ≤ Desc_Size desc) [examples.blob_1_descriptor 1102] →
       2 + (1102 + 0) < 2 ^ 64 → Manifest_SizeBytes row = 2 + (1102 + 0)).
Proof.
  exact (stored_size_is_sum_mod_2_64 (examples.processor_ok [1102]) examples.account_test1
           examples.push_latest examples.db_without_manifests ∅
           (Schema2Manifest (examples.blob_1_descriptor 1102) [examples.blob_1_descriptor 1102])
           (mkDescriptor "application/vnd.docker.distribution.manifest.v2+json"
              (Manifest_Digest examples.manifest_8a92) 2)
           eq_refl eq_refl eq_refl).
Defined.

(** C4, counterexample.  A push under a digest that is not the manifest's,
    into a repository that does not exist yet, fails with DIGEST_INVALID,
    and afterwards the repos table has a row that was not there before. *)
Lemma digest_mismatch_creates_repo_row :
  let db := examples.db_without_manifests in
  let r := ValidateAndStoreManifest (examples.processor_ok [1102]) examples.account_test1
             examples.push_wrong_digest db ∅ in
  IsDigest (Reference examples.push_wrong_digest) = true
  ∧ match res_err r with
    | Some (RegistryErr e) => Code e = ErrDigestInvalid
    | _ => False
    end
  ∧ (mkRepository 2 "test1" "bar" None ∈ repos (res_db r))
  ∧ (mkRepository 2 "test1" "bar" None ∉ repos db)
  ∧ res_db r ≠ db.
Proof.
  vm_compute. repeat split.
  - right. left.
  - intros H. apply list_elem_of_singleton in H. discriminate H.
  - discriminate.
Qed.

(** C4, as the code has it.  When the quota check passes, the repository
    is found or created and the manifest parses, a reference that is a
    digest other than the computed one makes the call fail with
    DIGEST_INVALID (the detail names the computed digest) before any
    transaction begins: nothing is written to the storage and the tables
    are as [FindOrCreateRepository] left them, so but for a repository row
    that it may have created every table is as before the call; no
    Manifest or Tag row is created. *)
Theorem digest_mismatch_is_rejected
    (p : Processor) (account : Account) (m : IncomingManifest) (db db1 : DB) (storage : Storage)
    (repo : Repository) (manifest : DistManifest) (manifestDesc : Descriptor) :
  let r := ValidateAndStoreManifest p account m db storage in
  checkQuotaForManifestPush p db account = None →
  FindOrCreateRepository p db (RepoName m) account = (db1, inr repo) →
  UnmarshalManifest p (MediaType m) (Contents m) = inr (manifest, manifestDesc) →
  IsDigest (Reference m) = true →
  Desc_Digest manifestDesc ≠ Ref_Digest (Reference m) →
  res_err r = Some (RegistryErr
                      {| Code := ErrDigestInvalid;
                         Message := "provided digest did not match uploaded content";
                         Detail := Some ("actual manifest digest is "
                                         +:+ Desc_Digest manifestDesc) |})
  ∧ res_manifest r = None ∧ res_log r = [] ∧ res_storage r = storage
  ∧ res_db r = db1
  ∧ accounts db1 = accounts db ∧ blobs db1 = blobs db ∧ blob_mounts db1 = blob_mounts db
  ∧ manifests db1 = manifests db ∧ tags db1 = tags db
  ∧ manifest_blob_refs db1 = manifest_blob_refs db
  ∧ manifest_manifest_refs db1 = manifest_manifest_refs db.
Proof.
  intros r Hquota Hrepo Hparse Hisdigest Hne.
  pose proof (FindOrCreateRepository_tables p db (RepoName m) account) as Htables.
  rewrite Hrepo in Htables. cbv zeta in Htables. simpl in Htables.
  subst r. unfold ValidateAndStoreManifest. rewrite Hquota, Hrepo, Hparse, Hisdigest.
  rewrite bool_decide_eq_true_2 by done. simpl.
  unfold With. destruct (decide _) as [Hempty|_]; [discriminate Hempty|].
  repeat split; apply Htables.
Qed.

(** The amended C4 on the input of the counterexample. *)
Lemma digest_mismatch_is_rejected_witness :
  let r := ValidateAndStoreManifest (examples.processor_ok [1102]) examples.account_test1
             examples.push_wrong_digest examples.db_without_manifests ∅ in
  res_err r = Some (RegistryErr
                      {| Code := ErrDigestInvalid;
                         Message := "provided digest did not match uploaded content";
                         Detail := Some ("actual manifest digest is "
                                         +:+ Manifest_Digest examples.manifest_8a92) |})
  ∧ manifests (res_db r) = [] ∧ tags (res_db r) = [].
Proof.
  destruct (digest_mismatch_is_rejected (examples.processor_ok [1102]) examples.account_test1
              examples.push_wrong_digest examples.db_without_manifests
              (FindOrCreateRepository (examples.processor_ok [1102])
                 examples.db_without_manifests "bar" examples.account_test1).1
              ∅ (mkRepository 2 "test1" "bar" None)
              (Schema2Manifest (examples.blob_1_descriptor 1102) [examples.blob_1_descriptor 1102])
              (mkDescriptor "application/vnd.docker.distribution.manifest.v2+json"
                 (Manifest_Digest examples.manifest_8a92) 2)
              eq_refl eq_refl eq_refl eq_refl)
    as (Herr & _ & _ & _ & Hdb & _ & _ & _ & Hm & Ht & _).
  - discriminate.
  - split; [exact Herr|]. rewrite Hdb. split; [exact Hm|exact Ht].
Defined.

End manifest_ingest.

(* ===================================================================== *)
(** * Theorems: the validation session *)
(* ===================================================================== *)

Module validation_session.
Import keppel client.

Lemma applyDefaults_ready s : ready (applyDefaults s).
Proof.
  unfold applyDefaults, ready.
  destruct s as [[[l|] [v|]]|]; simpl; split; eauto.
Qed.

Lemma call_LogManifest_ready st reference level res cached :
  ready (session st) →
  ∃ st', call_LogManifest st reference level res cached = Some st' ∧ ready (session st').
Proof.
  intros [[l Hl] Hv]. unfold call_LogManifest. rewrite Hl. eexists. split; [done|].
  simpl. split; [by rewrite Hl|done].
Qed.

Lemma call_LogBlob_ready st d level res cached :
  ready (session st) →
  ∃ st', call_LogBlob st d level res cached = Some st' ∧ ready (session st').
Proof.
  intros [[l Hl] Hv]. unfold call_LogBlob. rewrite Hl. eexists. split; [done|].
  simpl. split; [by rewrite Hl|done].
Qed.

Lemma write_isValid_ready st key :
  ready (session st) →
  ∃ st', write_isValid st key = Some st' ∧ ready (session st').
Proof.
  intros [Hl [v Hv]]. unfold write_isValid. rewrite Hv. eexists. split; [done|].
  simpl. split; [done|eauto].
Qed.

(** [doValidateBlobContents] on a ready session returns, unless the
    digest library panics over the digest; the session stays ready. *)
Lemma doValidateBlobContents_ready r c blobDigest level st :
  ready (session st) →
  match doValidateBlobContents r c blobDigest level st with
  | Return st' _ => ready (session st')
  | Panic v st' => Algorithm_Hash r blobDigest = Some v ∧ ready (session st')
  | OutOfFuel => False
  end.
Proof.
  intros Hready. unfold doValidateBlobContents.
  assert (∀ st e panicking, ready (session st) →
            match
              match call_LogBlob st blobDigest level e false with
              | Some st0 =>
                  match panicking with
                  | None => Return st0 e
                  | Some v => Panic v st0
                  end
              | None => Panic NilPointerDereference st
              end
            with
            | Return st' _ => ready (session st')
            | Panic v st' => panicking = Some v ∧ ready (session st')
            | OutOfFuel => False
            end) as Hlog.
  { intros st0 e panicking H0.
    destruct (call_LogBlob_ready st0 blobDigest level e false H0) as (st' & -> & ?).
    by destruct panicking. }
  destruct (read_isValid st _).
  { by destruct (call_LogBlob_ready st blobDigest level None true Hready) as (st' & -> & ?). }
  destruct (DownloadBlob r c blobDigest) as [err|readCloser].
  { specialize (Hlog st (Some err) None Hready). simpl in Hlog.
    destruct (call_LogBlob _ _ _ _ _); [done|]. by destruct Hlog. }
  destruct (Algorithm_Hash r blobDigest) as [v|].
  { destruct (body_close_err readCloser) as [e|].
    - exact (Hlog st (Some e) (Some v) Hready).
    - exact (Hlog st None (Some v) Hready). }
  assert (∀ st e, ready (session st) →
            match
              match call_LogBlob st blobDigest level e false with
              | Some st0 => Return st0 e
              | None => Panic NilPointerDereference st
              end
            with
            | Return st' _ => ready (session st')
            | Panic v st' => None = Some v ∧ ready (session st')
            | OutOfFuel => False
            end) as Hret.
  { intros st0 e H0. by apply (Hlog st0 e None). }
  destruct (body_read_err readCloser); [by apply Hret|].
  case_decide; [by apply Hret|].
  destruct (write_isValid_ready st (validationCacheKey c blobDigest) Hready) as (st' & -> & ?).
  destruct (body_close_err readCloser); by apply Hret.
Qed.

Lemma doValidateBlobContents_safe r c blobDigest level st :
  ready (session st) → safe (doValidateBlobContents r c blobDigest level st).
Proof.
  intros Hready. pose proof (doValidateBlobContents_ready r c blobDigest level st Hready) as H.
  destruct (doValidateBlobContents r c blobDigest level st) as [st' e|v st'|]; simpl; [done| |done].
  destruct H as [Hv ?]. split; [|done].
  unfold Algorithm_Hash in Hv. destruct (Algorithm blobDigest) as [v0|a] eqn:Ha.
  - injection Hv as <-. unfold Algorithm in Ha. destruct (before_colon blobDigest); [done|].
    by injection Ha as <-.
  - destruct (Available r a); [done|]. by injection Hv as <-.
Qed.

Lemma validate_each_safe {A} (f : A → State → Outcome) descs : ∀ st,
  (∀ desc st, ready (session st) → safe (f desc st)) →
  ready (session st) → safe (validate_each f descs st).
Proof.
  induction descs as [|desc descs IH]; intros st Hf Hready; simpl; [done|].
  specialize (Hf desc st Hready) as Hd.
  destruct (f desc st) as [st' [err|]|v st'|]; simpl in *; try done.
  by apply IH.
Qed.

(** [doValidateManifest] on a ready session does not panic on nil state. *)
Lemma doValidateManifest_safe fuel r c platformFilter : ∀ reference level st,
  ready (session st) → safe (doValidateManifest fuel r c reference level st platformFilter).
Proof.
  induction fuel as [|fuel IH]; intros reference level st Hready; simpl; [done|].
  assert (∀ st e, ready (session st) →
            safe (match call_LogManifest st reference level e false with
                  | Some st0 => Return st0 e
                  | None => Panic NilPointerDereference st
                  end)) as Hlog.
  { intros st0 e H0.
    destruct (call_LogManifest_ready st0 reference level e false H0) as (st' & -> & ?). done. }
  destruct (read_isValid st _).
  { destruct (call_LogManifest_ready st reference level None true Hready) as (st' & -> & ?).
    done. }
  destruct (DownloadManifest r c reference) as [err|[manifestBytes manifestMediaType]];
    [by apply Hlog|].
  destruct (ParseManifest r manifestMediaType manifestBytes) as [err|manifest];
    [by apply Hlog|].
  destruct (call_LogManifest_ready st (mkManifestReference (PM_Digest manifest) "")
              level None false Hready) as (st1 & -> & Hready1).
  pose proof (validate_each_safe
                (λ desc st, doValidateBlobContents r c desc (level + 1) st)
                (BlobReferences manifest) st1
                (λ desc st0 H0, doValidateBlobContents_safe r c desc (level + 1) st0 H0)
                Hready1) as Hblobs.
  destruct (validate_each _ (BlobReferences manifest) st1) as [st2 [err|]|v st2|];
    simpl in *; try done.
  pose proof (validate_each_safe
                (λ desc st, doValidateManifest fuel r c (mkManifestReference desc "")
                              (level + 1) st platformFilter)
                (ManifestReferences manifest platformFilter) st2
                (λ desc st0 H0, IH (mkManifestReference desc "") (level + 1) st0 H0)
                Hblobs) as Hmanifests.
  destruct (validate_each _ (ManifestReferences manifest platformFilter) st2)
    as [st3 [err|]|v st3|]; simpl in *; try done.
  destruct (write_isValid_ready st3 (validationCacheKey c (PM_Digest manifest)) Hmanifests)
    as (st4 & -> & Hready4).
  destruct (write_isValid_ready st4 (validationCacheKey c (Ref_String reference)) Hready4)
    as (st5 & -> & Hready5).
  done.
Qed.

(** C10.  [applyDefaults] on the nil pointer gives a session with the
    no-op logger and an empty validity cache; [ValidateManifest] and
    [ValidateBlobContents] called with nil do exactly what they do with a
    pointer to a fresh [ValidationSession{}].  Whatever session (nil or
    not) the caller passes, no call touches nil state: neither function
    panics on a nil logger or a nil map.  If [ValidateManifest] panics,
    the digest library has panicked over the digest of a blob;
    [ValidateBlobContents] returns, or panics with the value that
    [blobDigest.Algorithm().Hash()] panics with, and it returns whenever
    that call does. *)
Theorem nil_session_is_safe
    (fuel : nat) (r : Remote) (c : RepoClient) (reference : ManifestReference)
    (blobDigest : string) (platformFilter : PlatformFilter) (out : Output) :
  let fresh := Some {| Logger := None; isValid := None |} in
  applyDefaults None = {| Logger := Some noopLogger; isValid := Some ∅ |}
  ∧ ValidateManifest fuel r c reference None platformFilter out
    = ValidateManifest fuel r c reference fresh platformFilter out
  ∧ ValidateBlobContents r c blobDigest None out
    = ValidateBlobContents r c blobDigest fresh out
  ∧ (∀ session v st,
       ValidateManifest fuel r c reference session platformFilter out = Panic v st →
       v ≠ NilPointerDereference ∧ v ≠ AssignmentToNilMap ∧ digest_panic v)
  ∧ (∀ session,
       match ValidateBlobContents r c blobDigest session out with
       | Return _ _ => True
       | Panic v _ => Algorithm_Hash r blobDigest = Some v
       | OutOfFuel => False
       end)
  ∧ (∀ session,
       Algorithm_Hash r blobDigest = None →
       ∃ st e, ValidateBlobContents r c blobDigest session out = Return st e).
Proof.
  intros fresh.
  assert (∀ session,
            match ValidateBlobContents r c blobDigest session out with
            | Return _ _ => True
            | Panic v _ => Algorithm_Hash r blobDigest = Some v
            | OutOfFuel => False
            end) as Hblob.
  { intros session.
    pose proof (doValidateBlobContents_ready r c blobDigest 0
                  (mkState (applyDefaults session) out) (applyDefaults_ready session)) as H.
    unfold ValidateBlobContents.
    destruct (doValidateBlobContents _ _ _ _ _) as [st e|v st|]; [done| |done].
    by destruct H. }
  split; [done|]. split; [done|]. split; [done|]. split; [|split; [done|]].
  - intros session v st Hpanic.
    pose proof (doValidateManifest_safe fuel r c platformFilter reference 0
                  (mkState (applyDefaults session) out) (applyDefaults_ready session)) as Hsafe.
    unfold ValidateManifest in Hpanic. rewrite Hpanic in Hsafe. destruct Hsafe as [Hv _].
    by destruct v.
  - intros session Hhash. specialize (Hblob session).
    destruct (ValidateBlobContents r c blobDigest session out) as [st e|v st|]; [eauto| |done].
    congruence.
Qed.

(** Validating the one image of the example registry with a nil session:
    the call returns without error; the second reference to the blob is
    answered from the cache, which ends up with the keys of the blob, of
    the manifest's digest, and of the tag. *)
Example validate_with_nil_session :
  match ValidateManifest 2 examples.registry_one_image examples.repo_client
          (mkManifestReference "" "latest") None [] [] with
  | Return st e =>
      e = None ∧ output st = []
      ∧ (dom <$> isValid (session st))
        = Some ({["registry.example.org/app/sha256:b"; "registry.example.org/app/sha256:m";
                 "registry.example.org/app/latest"]} : gset string)
  | _ => False
  end.
Proof. vm_compute. repeat split. Qed.

(** A blob whose digest names an algorithm that the digest library does
    not have: validating it panics, with a nil session as with any
    other, after the download and with the deferred log entry written. *)
Example validate_md5_blob_panics :
  ValidateBlobContents examples.registry_one_image examples.repo_client "md5:b" None []
  = Panic (AlgorithmNotAvailable "md5")
      (mkState {| Logger := Some noopLogger; isValid := Some ∅ |} []).
Proof. vm_compute. reflexivity. Qed.

(** Without [applyDefaults], a session struct without a logger makes the
    deferred logger call panic. *)
Example unprepared_session_panics :
  doValidateBlobContents examples.registry_one_image examples.repo_client "sha256:b" 0
    (mkState {| Logger := None; isValid := None |} [])
  = Panic NilPointerDereference (mkState {| Logger := None; isValid := None |} []).
Proof. vm_compute. reflexivity. Qed.

End validation_session.

(* ===================================================================== *)
(** * Theorems: issuer keys and their rotation *)
(* ===================================================================== *)

Module key_rotation.
Import keppel auth.

(** ** The fingerprint tells public keys apart *)

Lemma colon_free_app s1 s2 :
  colon_free (s1 +:+ s2) = colon_free s1 && colon_free s2.
Proof. induction s1 as [|c s1 IH]; simpl; [done|]. rewrite IH. by rewrite andb_assoc. Qed.

Fixpoint colon_free_of_pos (p : positive) (rest : string) {struct p} :
  colon_free (HexString.Raw.of_pos p rest) = colon_free rest.
Proof.
  do 4 try destruct p as [p|p|]; try reflexivity;
    cbn [HexString.Raw.of_pos]; rewrite colon_free_of_pos; reflexivity.
Qed.

Fixpoint of_pos_no_minus (p : positive) (rest : string) {struct p} :
  starts_with_minus rest = false →
  starts_with_minus (HexString.Raw.of_pos p rest) = false.
Proof.
  intros Hrest.
  do 4 try destruct p as [p|p|]; try reflexivity;
    cbn [HexString.Raw.of_pos]; apply of_pos_no_minus; reflexivity.
Qed.

Lemma colon_free_fmt_hex z : colon_free (fmt_hex z) = true.
Proof.
  destruct z as [|p|p]; simpl; [done| |]; by rewrite colon_free_of_pos.
Qed.

Lemma parse_fmt_hex z : parse_hex (fmt_hex z) = z.
Proof.
  destruct z as [|p|p]; simpl; [done| |].
  - pose proof (of_pos_no_minus p "" eq_refl) as Hminus.
    pose proof (HexString.Raw.to_N_of_pos p "" 0%N) as Hread.
    unfold parse_hex. destruct (HexString.Raw.of_pos p "") as [|c s]; simpl in *.
    + discriminate Hread.
    + rewrite Hminus, Hread. done.
  - rewrite HexString.Raw.to_N_of_pos. done.
Qed.

Lemma fmt_hex_inj z1 z2 : fmt_hex z1 = fmt_hex z2 → z1 = z2.
Proof. intros H. by rewrite <- (parse_fmt_hex z1), <- (parse_fmt_hex z2), H. Qed.

Lemma append_nil_l s : "" +:+ s = s.
Proof. reflexivity. Qed.

Lemma append_cons c s t : String c s +:+ t = String c (s +:+ t).
Proof. reflexivity. Qed.

Lemma split_at_colon a1 : ∀ a2 b1 b2,
  colon_free a1 = true → colon_free a2 = true →
  a1 +:+ ":" +:+ b1 = a2 +:+ ":" +:+ b2 → a1 = a2 ∧ b1 = b2.
Proof.
  induction a1 as [|c a1 IH]; intros [|c2 a2] b1 b2 H1 H2;
    rewrite ?append_nil_l, ?append_cons, ?append_nil_l; simpl in *.
  - by intros [= ->].
  - intros [= <- _]. done.
  - intros [= -> _]. done.
  - intros [= -> Hrest].
    apply andb_true_iff in H1 as [_ H1]. apply andb_true_iff in H2 as [_ H2].
    destruct (IH a2 b1 b2 H1 H2 Hrest) as [-> ->]. done.
Qed.

Lemma parse_hex_byte_spec b : parse_hex_byte (hex_byte b) = Some b.
Proof. destruct b; vm_compute; reflexivity. Qed.

Lemma hex_byte_inj b1 b2 : hex_byte b1 = hex_byte b2 → b1 = b2.
Proof.
  intros H. pose proof (parse_hex_byte_spec b1) as H1.
  rewrite H, parse_hex_byte_spec in H1. by injection H1.
Qed.

Lemma colon_free_hex_byte b : colon_free (hex_byte b) = true.
Proof. destruct b; reflexivity. Qed.

Lemma colon_free_EncodeToString bs : colon_free (EncodeToString bs) = true.
Proof.
  induction bs as [|b bs IH]; [done|].
  change (EncodeToString (b :: bs)) with (hex_byte b +:+ EncodeToString bs).
  by rewrite colon_free_app, colon_free_hex_byte, IH.
Qed.

Lemma EncodeToString_inj bs1 : ∀ bs2,
  EncodeToString bs1 = EncodeToString bs2 → bs1 = bs2.
Proof.
  induction bs1 as [|b1 bs1 IH]; intros [|b2 bs2]; simpl; try done;
    unfold hex_byte; rewrite ?append_cons, ?append_nil_l; try done.
  intros [= H1 H2 Hrest].
  f_equal; [|by apply IH]. apply hex_byte_inj. unfold hex_byte. by rewrite H1, H2.
Qed.

(** Two keys with the same fingerprint have the same public key, and so
    the same signing method. *)
Lemma serializePublicKey_inj k1 k2 :
  serializePublicKey k1 = serializePublicKey k2 →
  derivePublicKey k1 = derivePublicKey k2 ∧ chooseSigningMethod k1 = chooseSigningMethod k2.
Proof.
  destruct k1 as [seed1 pub1|D1 E1 N1], k2 as [seed2 pub2|D2 E2 N2]; simpl; intros H.
  - by rewrite (EncodeToString_inj _ _ H).
  - exfalso. pose proof (colon_free_EncodeToString pub1) as Hfree.
    rewrite H, !colon_free_app in Hfree. simpl in Hfree.
    rewrite andb_false_r in Hfree. done.
  - exfalso. pose proof (colon_free_EncodeToString pub2) as Hfree.
    rewrite <- H, !colon_free_app in Hfree. simpl in Hfree.
    rewrite andb_false_r in Hfree. done.
  - apply split_at_colon in H as [HE HN]; try apply colon_free_fmt_hex.
    by rewrite (fmt_hex_inj _ _ HE), (fmt_hex_inj _ _ HN).
Qed.

(** ** Looking up the key of a token *)

(** The method that [chooseSigningMethod] picks is registered under its
    name, and a registered method is found under its name only. *)
Lemma GetSigningMethod_choose key :
  GetSigningMethod (Alg (chooseSigningMethod key)) = Some (chooseSigningMethod key).
Proof. by destruct key. Qed.

Lemma GetSigningMethod_Alg alg method :
  GetSigningMethod alg = Some method → Alg method = alg.
Proof.
  unfold GetSigningMethod. repeat case_decide; intros [= <-]; simpl; by subst.
Qed.

(** [equalSigningMethods] does not panic on a method of ours. *)
Lemma equalSigningMethods_choose key method :
  equalSigningMethods (chooseSigningMethod key) method
  = Returns (bool_decide (chooseSigningMethod key = method)).
Proof. by destruct key. Qed.

(** The key function finds the public half of any configured key by the
    fingerprint in the header. *)
Lemma find_issuer_key_finds keys : ∀ key alg claims,
  key ∈ keys →
  find_issuer_key keys (chooseSigningMethod key)
    {| Header_alg := alg;
       Header_jwk := Some (serializePublicKey key);
       Claims := claims |}
  = Returns (inr (derivePublicKey key)).
Proof.
  induction keys as [|k0 keys IH]; intros key alg claims Hin; simpl.
  { by apply elem_of_nil in Hin. }
  case_decide as Hfp.
  - injection Hfp as Hfp. destruct (serializePublicKey_inj _ _ Hfp) as [Hpub Hmethod].
    rewrite equalSigningMethods_choose, bool_decide_eq_true_2 by done.
    by rewrite Hpub.
  - apply elem_of_cons in Hin as [-> | Hin]; [done|]. by apply IH.
Qed.

(** The key function never panics. *)
Lemma find_issuer_key_returns keys method t :
  ∃ res, find_issuer_key keys method t = Returns res.
Proof.
  induction keys as [|k0 keys IH]; simpl; [eauto|].
  case_decide; [|done]. rewrite equalSigningMethods_choose.
  destruct (bool_decide _); eauto.
Qed.

(** [UnmarshalJSON] never panics: a map of size one has an entry. *)
Lemma UnmarshalJSON_returns codec e input :
  ∃ res, UnmarshalJSON codec e input = Returns res.
Proof.
  unfold UnmarshalJSON.
  destruct (Emb_AuthDriver e) as [ad|]; [|eauto].
  destruct (json_Unmarshal codec input) as [decodeErr|m]; [eauto|].
  case_decide as Hsize; [eauto|].
  assert (size m = 1%nat) as Hone by (destruct (decide (size m = 1%nat)); [done|by destruct Hsize]).
  pose proof (length_map_to_list m) as Hlen. rewrite Hone in Hlen.
  destruct (map_to_list m) as [|[typeName payload] rest]; [done|].
  destruct (DeserializeUserIdentity ad typeName payload). eauto.
Qed.

(** Neither do the library's parser and [parseToken]. *)
Lemma ParseUnverified_returns env tokenStr claims :
  ∃ res, ParseUnverified env tokenStr claims = Returns res.
Proof.
  unfold ParseUnverified.
  assert (∃ res, match json_kea (Claims (Token_unsigned tokenStr)) with
                 | Some raw => UnmarshalJSON (json env) (Embedded claims) raw
                 | None => Returns (Embedded claims, None)
                 end = Returns res) as [[e err] ->].
  { destruct (json_kea _) as [raw|]; [apply UnmarshalJSON_returns|eauto]. }
  destruct err as [err|]; [eauto|].
  destruct (Header_alg _) as [alg|]; [|eauto].
  destruct (GetSigningMethod alg) as [method|]; eauto.
Qed.

Lemma ParseWithClaims_returns env cfg audience tokenStr claims :
  ∃ res, ParseWithClaims env tokenStr claims (find_issuer_key (IssuerKeys audience cfg))
         = Returns res.
Proof.
  unfold ParseWithClaims.
  destruct (ParseUnverified_returns env tokenStr claims) as [[err|[method claims']] ->];
    [eauto|].
  destruct (find_issuer_key_returns (IssuerKeys audience cfg) method
              (Token_unsigned tokenStr)) as [[err|key] ->]; [eauto|].
  destruct (negb (Verify _ _ _ _ _)); [eauto|].
  destruct (negb _); eauto.
Qed.

Lemma parseToken_returns env cfg ad audience tokenStr :
  ∃ res, parseToken env cfg ad audience tokenStr = Returns res.
Proof.
  unfold parseToken.
  destruct (ParseWithClaims_returns env cfg audience tokenStr
              {| Registered := no_registered_claims; Access := [];
                 Embedded := {| Emb_UserIdentity := None; Emb_AuthDriver := ad |} |})
    as [[err|claims] ->]; [eauto|].
  destruct (negb (VerifyExpiresAt _ _ _)); [eauto|].
  destruct (negb (VerifyNotBefore _ _ _)); [eauto|].
  destruct (_ && _); [eauto|].
  destruct (negb (VerifyAudience _ _ _)); eauto.
Qed.

(** What the loop of [verifyAud] computes: the flag is up if it was or
    if some entry is [cmp], and the joined string is empty only if every
    entry is. *)
Lemma verifyAud_loop cmp aud : ∀ result stringClaims result' stringClaims',
  foldl (fun '(result, stringClaims) a =>
           (if decide (a = cmp) then true else result, stringClaims +:+ a))
        (result, stringClaims) aud = (result', stringClaims') →
  (result' = true ↔ result = true ∨ cmp ∈ aud)
  ∧ (stringClaims' = "" ↔ stringClaims = "" ∧ ∀ a, a ∈ aud → a = "").
Proof.
  induction aud as [|a aud IH]; intros result stringClaims result' stringClaims'; simpl.
  - intros [= <- <-]. split.
    + split; [auto|]. intros [?|Hin]; [done|]. by apply elem_of_nil in Hin.
    + split; [|by intros [? _]]. intros ->. split; [done|]. by intros ? ?%elem_of_nil.
  - intros H. apply IH in H as [Hr Hs]. split.
    + rewrite Hr, elem_of_cons. case_decide as Heq.
      * split; [intros _; right; by left|auto].
      * split; [intros [?|?]; auto|]. intros [?|[?|?]]; auto; congruence.
    + rewrite Hs. split.
      * intros [Happ Hall].
        assert (stringClaims = "" ∧ a = "") as [-> ->].
        { destruct stringClaims; [|done]. by rewrite append_nil_l in Happ. }
        split; [done|]. intros a' [->|?]%elem_of_cons; auto.
      * intros [-> Hall]. rewrite append_nil_l. split; [apply Hall; left|].
        intros a' Ha'. apply Hall. by right.
Qed.

(** A required audience claim holds exactly when some entry is [cmp] and
    not every entry is empty. *)
Lemma verifyAud_required aud cmp :
  verifyAud aud cmp true = true ↔ cmp ∈ aud ∧ ∃ a, a ∈ aud ∧ a ≠ "".
Proof.
  unfold verifyAud. case_decide as Hlen.
  { destruct aud; [|done]. simpl. split; [done|]. by intros [?%elem_of_nil _]. }
  destruct (foldl _ _ aud) as [result stringClaims] eqn:Hloop.
  apply verifyAud_loop in Hloop as [Hr Hs].
  case_decide as Hempty.
  - simpl. split; [done|]. intros [_ (a & Ha & Hne)].
    assert (stringClaims = "") as Hnil by (by destruct stringClaims).
    apply Hs in Hnil as [_ Hall]. exfalso. by apply Hne, Hall.
  - rewrite Hr. split.
    + intros [?|Hin]; [done|]. split; [done|].
      destruct (decide (Forall (fun a => a = "") aud)) as [Hall|Hex].
      * exfalso. apply Hempty.
        assert (stringClaims = "") as ->; [|done].
        apply Hs. split; [done|]. by apply Forall_forall.
      * apply not_Forall_Exists, Exists_exists in Hex; [done|apply _].
    + intros [? _]. by right.
Qed.

Lemma prepend_issuer_key_keys audience new_key cfg :
  IssuerKeys audience (prepend_issuer_key audience new_key cfg)
  = new_key :: IssuerKeys audience cfg.
Proof. by destruct audience. Qed.

Lemma prepend_issuer_key_hosts audience new_key cfg :
  APIPublicHostname (prepend_issuer_key audience new_key cfg) = APIPublicHostname cfg
  ∧ AnycastAPIPublicHostname (prepend_issuer_key audience new_key cfg)
    = AnycastAPIPublicHostname cfg.
Proof. by destruct audience. Qed.

(** What [IssueToken] returns for an identity that marshals. *)
Lemma IssueToken_returns env a cfg key rest uid kea :
  IssuerKeys (Auth_Service a) cfg = key :: rest →
  Auth_UserIdentity a = Some uid →
  MarshalJSON (json env) {| Emb_UserIdentity := Some uid; Emb_AuthDriver := None |}
  = Returns (inr kea) →
  let t := {| Header_alg := Some (Alg (chooseSigningMethod key));
              Header_jwk := Some (serializePublicKey key);
              Claims :=
                {| json_registered :=
                     {| ID := uuid_NewV4 env;
                        Audience := [Hostname (Auth_Service a) cfg];
                        Issuer := "keppel-api@" +:+ APIPublicHostname cfg;
                        Subject := UserName uid;
                        ExpiresAt := Some (time_Now env 0 + 4 * Hour);
                        NotBefore := Some (time_Now env 0);
                        IssuedAt := Some (time_Now env 0) |};
                   json_access := Flatten (Auth_ScopeSet a);
                   json_kea := Some kea |} |} in
  IssueToken env a cfg
  = Returns (inr {| Resp_Token := mkToken t (Sign env (chooseSigningMethod key) key t);
                    Resp_ExpiresIn := time_Now env 0 + 4 * Hour - time_Now env 0;
                    Resp_IssuedAt := time_Now env 0 |}).
Proof.
  intros Hkeys Huid Hm t. unfold IssueToken. rewrite Hkeys, Huid.
  cbn [Embedded]. rewrite Hm. done.
Qed.

(** A token that [IssueToken] made with [key] parses, before it expires,
    under every configuration of the same hostnames that has [key]
    somewhere among the keys of the audience. *)
Lemma issued_token_parses issued parsed a cfg cfg' ad uid key rest :
  IssuerKeys (Auth_Service a) cfg = key :: rest →
  Auth_UserIdentity a = Some uid →
  Hostname (Auth_Service a) cfg ≠ "" →
  identity_decodes issued parsed ad uid →
  signatures_verify issued parsed →
  before_expiry issued parsed →
  APIPublicHostname cfg' = APIPublicHostname cfg →
  AnycastAPIPublicHostname cfg' = AnycastAPIPublicHostname cfg →
  key ∈ IssuerKeys (Auth_Service a) cfg' →
  ∃ resp, IssueToken issued a cfg = Returns (inr resp)
    ∧ parseToken parsed cfg' (Some ad) (Auth_Service a) (Resp_Token resp)
      = Returns (inr {| Auth_UserIdentity := Some uid;
                        Auth_ScopeSet := foldl ScopeSet_Add [] (Flatten (Auth_ScopeSet a));
                        Auth_Service := Auth_Service a |}).
Proof.
  intros Hkeys Huid Hhostname (kea & Hm & Hu) Hsig [[H0a H0b] [H1a H1b]] Hhost Hany Hin.
  rewrite (IssueToken_returns issued a cfg key rest uid kea Hkeys Huid Hm).
  eexists. split; [reflexivity|].
  unfold parseToken, ParseWithClaims, ParseUnverified.
  cbn [Resp_Token Token_unsigned Token_signature Claims json_kea Embedded].
  rewrite Hu. cbn [Header_alg]. rewrite GetSigningMethod_choose.
  rewrite (find_issuer_key_finds _ _ _ _ Hin).
  cbn [Claims Registered json_registered json_access Access Embedded Emb_UserIdentity].
  rewrite Hsig. cbn [negb].
  unfold VerifyExpiresAt, VerifyIssuedAt, VerifyNotBefore, VerifyAudience.
  cbn [ExpiresAt IssuedAt NotBefore Audience Issuer].
  rewrite (bool_decide_eq_true_2 (time_Now parsed 0 < _)) by lia.
  rewrite (bool_decide_eq_true_2 (time_Now issued 0 ≤ time_Now parsed 0)) by lia.
  cbn [andb negb Registered ExpiresAt IssuedAt NotBefore Audience Issuer Access Embedded
       Emb_UserIdentity].
  rewrite (bool_decide_eq_true_2 (time_Now parsed 1 - 3 < _)) by lia.
  rewrite (bool_decide_eq_true_2 (_ ≤ time_Now parsed 1 + 3)) by lia.
  cbn [negb Registered ExpiresAt IssuedAt NotBefore Audience Issuer Access Embedded
       Emb_UserIdentity].
  assert (Hostname (Auth_Service a) cfg' = Hostname (Auth_Service a) cfg) as ->
    by (destruct (Auth_Service a); done).
  assert (verifyAud [Hostname (Auth_Service a) cfg] (Hostname (Auth_Service a) cfg) true
          = true) as ->.
  { apply verifyAud_required. split; [left|]. eexists. split; [left|done]. }
  cbn [negb].
  destruct (Auth_Service a); cbn [Hostname].
  - rewrite (bool_decide_eq_true_2 (LocalService = LocalService)) by done.
    rewrite (bool_decide_eq_false_2 (_ ≠ _)) by (intros H; by apply H).
    done.
  - rewrite (bool_decide_eq_false_2 (AnycastService = LocalService)) by done.
    done.
Qed.

(** C8.  Let the audience of an authorization have the issuer keys
    [key :: rest] and a public host name; let the identity of the
    authorization be one that the parsing side, with its auth driver,
    decodes from what the issuing side encodes; let the verifier accept
    what the signer signs; and let the token be parsed before it expires.
    Then [IssueToken] makes a token that is signed with [key], the first
    key, and names the fingerprint of [key] and its method in the header;
    [parseToken] accepts that token under every configuration (of the
    same hostnames) that has [key] anywhere in the key list of the
    audience, giving back the identity and the scopes; in particular it
    accepts it after a new key was put in front of the list, while
    tokens issued from then on are signed with the new key. *)
Theorem issuer_keys_can_be_rotated
    (issued parsed : Env) (a : Authorization) (cfg : Configuration)
    (ad : AuthDriver) (uid : UserIdentity)
    (key : PrivateKey) (rest : list PrivateKey) :
  IssuerKeys (Auth_Service a) cfg = key :: rest →
  Auth_UserIdentity a = Some uid →
  Hostname (Auth_Service a) cfg ≠ "" →
  identity_decodes issued parsed ad uid →
  signatures_verify issued parsed →
  before_expiry issued parsed →
  let authorization :=
    {| Auth_UserIdentity := Some uid;
       Auth_ScopeSet := foldl ScopeSet_Add [] (Flatten (Auth_ScopeSet a));
       Auth_Service := Auth_Service a |} in
  ∃ resp,
    IssueToken issued a cfg = Returns (inr resp)
    ∧ Header_jwk (Token_unsigned (Resp_Token resp)) = Some (serializePublicKey key)
    ∧ Header_alg (Token_unsigned (Resp_Token resp)) = Some (Alg (chooseSigningMethod key))
    ∧ Token_signature (Resp_Token resp)
      = Sign issued (chooseSigningMethod key) key (Token_unsigned (Resp_Token resp))
    ∧ (∀ cfg',
         APIPublicHostname cfg' = APIPublicHostname cfg →
         AnycastAPIPublicHostname cfg' = AnycastAPIPublicHostname cfg →
         key ∈ IssuerKeys (Auth_Service a) cfg' →
         parseToken parsed cfg' (Some ad) (Auth_Service a) (Resp_Token resp)
         = Returns (inr authorization))
    ∧ (∀ new_key,
         parseToken parsed (prepend_issuer_key (Auth_Service a) new_key cfg) (Some ad)
           (Auth_Service a) (Resp_Token resp) = Returns (inr authorization)
         ∧ ∃ resp',
             IssueToken issued a (prepend_issuer_key (Auth_Service a) new_key cfg)
             = Returns (inr resp')
             ∧ Header_jwk (Token_unsigned (Resp_Token resp'))
               = Some (serializePublicKey new_key)
             ∧ Token_signature (Resp_Token resp')
               = Sign issued (chooseSigningMethod new_key) new_key
                   (Token_unsigned (Resp_Token resp'))).
Proof.
  intros Hkeys Huid Hhostname Hdec Hsig Hexp authorization.
  assert (∀ cfg',
            APIPublicHostname cfg' = APIPublicHostname cfg →
            AnycastAPIPublicHostname cfg' = AnycastAPIPublicHostname cfg →
            key ∈ IssuerKeys (Auth_Service a) cfg' →
            ∀ resp, IssueToken issued a cfg = Returns (inr resp) →
            parseToken parsed cfg' (Some ad) (Auth_Service a) (Resp_Token resp)
            = Returns (inr authorization))
    as Hparse.
  { intros cfg' Hh Ha Hin resp Hresp.
    destruct (issued_token_parses issued parsed a cfg cfg' ad uid key rest
                Hkeys Huid Hhostname Hdec Hsig Hexp Hh Ha Hin)
      as (resp0 & Hresp0 & Hp). rewrite Hresp in Hresp0. by injection Hresp0 as ->. }
  pose proof Hdec as (kea & Hm & _).
  pose proof (IssueToken_returns issued a cfg key rest uid kea Hkeys Huid Hm) as Hresp.
  simpl in Hresp. eexists. split; [exact Hresp|].
  split; [done|]. split; [done|]. split; [done|]. split.
  - intros cfg' Hh Ha Hin. by apply Hparse.
  - intros new_key. split.
    + destruct (prepend_issuer_key_hosts (Auth_Service a) new_key cfg) as [Hh Ha].
      apply Hparse; [done..| |done].
      rewrite prepend_issuer_key_keys, Hkeys. right. left.
    + pose proof (IssueToken_returns issued a
                    (prepend_issuer_key (Auth_Service a) new_key cfg) new_key
                    (IssuerKeys (Auth_Service a) cfg) uid kea
                    (prepend_issuer_key_keys _ _ _) Huid Hm) as Hresp'.
      simpl in Hresp'. eexists. split; [exact Hresp'|]. done.
Qed.

(** C8 with the keys of the example: a token issued at time 1000 under the
    old key alone is accepted at time 2000, after the new key was put in
    front. *)
Lemma issuer_keys_can_be_rotated_witness :
  (IssuerKeys LocalService examples.config_old = [examples.key_old]
   ∧ Auth_UserIdentity examples.alice = Some (mkUserIdentity "alice" "plain" "{}")
   ∧ Hostname LocalService examples.config_old ≠ ""
   ∧ identity_decodes (examples.toy_env 1000) (examples.toy_env 2000) examples.toy_driver
       (mkUserIdentity "alice" "plain" "{}")
   ∧ signatures_verify (examples.toy_env 1000) (examples.toy_env 2000)
   ∧ before_expiry (examples.toy_env 1000) (examples.toy_env 2000))
  ∧ ∃ resp,
      IssueToken (examples.toy_env 1000) examples.alice examples.config_old
      = Returns (inr resp)
      ∧ parseToken (examples.toy_env 2000)
          (prepend_issuer_key LocalService examples.key_new examples.config_old)
          (Some examples.toy_driver) LocalService (Resp_Token resp)
        = Returns (inr examples.alice).
Proof.
  assert (signatures_verify (examples.toy_env 1000) (examples.toy_env 2000)) as Hsig.
  { intros [seed pub|D E N] t; simpl; by apply bool_decide_eq_true_2. }
  assert (before_expiry (examples.toy_env 1000) (examples.toy_env 2000)) as Hexp
    by (vm_compute; repeat split; discriminate).
  assert (identity_decodes (examples.toy_env 1000) (examples.toy_env 2000)
            examples.toy_driver (mkUserIdentity "alice" "plain" "{}")) as Hdec.
  { exists examples.two_bytes. split.
    - unfold MarshalJSON. simpl. by rewrite decide_True.
    - vm_compute. reflexivity. }
  assert (Hostname LocalService examples.config_old ≠ "") as Hhost by discriminate.
  split; [repeat split; try done|].
  destruct (issuer_keys_can_be_rotated (examples.toy_env 1000) (examples.toy_env 2000)
              examples.alice examples.config_old examples.toy_driver
              (mkUserIdentity "alice" "plain" "{}") examples.key_old []
              eq_refl eq_refl Hhost Hdec Hsig Hexp)
    as (resp & Hresp & _ & _ & _ & _ & Hrot).
  exists resp. split; [exact Hresp|].
  exact (proj1 (Hrot examples.key_new)).
Defined.

(** Without a public host name the audience claim of a token is the
    empty string, which the JWT library takes for no audience at all:
    [parseToken] rejects the token that [IssueToken] has just made. *)
Example token_without_hostname_is_rejected :
  ∃ resp,
    IssueToken (examples.toy_env 1000) examples.alice examples.config_no_hostname
    = Returns (inr resp)
    ∧ parseToken (examples.toy_env 2000) examples.config_no_hostname
        (Some examples.toy_driver) LocalService (Resp_Token resp)
      = Returns (inl {| Code := ErrUnauthorized; Message := "authentication required";
                        Detail := Some "token has wrong audience (expected )" |}).
Proof. eexists. split; vm_compute; reflexivity. Qed.

End key_rotation.

(* ===================================================================== *)
(** * The severity lattice against its test *)
(* ===================================================================== *)

Module severity_lattice.
Import keppel.

(** The five expectations of [TestMergeSeverities]
    (internal/clair/severity_test.go). *)
Example TestMergeSeverities :
  MergeSeverities [] = CleanSeverity
  ∧ MergeSeverities [PendingSeverity] = PendingSeverity
  ∧ MergeSeverities [PendingSeverity; HighSeverity] = PendingSeverity
  ∧ MergeSeverities [LowSeverity; LowSeverity] = LowSeverity
  ∧ MergeSeverities [LowSeverity; HighSeverity] = HighSeverity.
Proof. repeat split. Qed.

End severity_lattice.

(* ===================================================================== *)
(** * Theorems: the cache of a validation session *)
(* ===================================================================== *)

Module validation_cache.
Import keppel client.

Lemma call_LogBlob_session st d level res cached st' :
  call_LogBlob st d level res cached = Some st' →
  session st' = session st
  ∧ ∃ l, Logger (session st) = Some l ∧ output st' = LogBlob l d level res cached (output st).
Proof.
  unfold call_LogBlob. destruct (Logger (session st)) as [l|]; [|done].
  intros [= <-]. simpl. eauto.
Qed.

Lemma call_LogManifest_session st reference level res cached st' :
  call_LogManifest st reference level res cached = Some st' →
  session st' = session st
  ∧ ∃ l, Logger (session st) = Some l
         ∧ output st' = LogManifest l reference level res cached (output st).
Proof.
  unfold call_LogManifest. destruct (Logger (session st)) as [l|]; [|done].
  intros [= <-]. simpl. eauto.
Qed.

Lemma read_isValid_session st st' key :
  session st' = session st → read_isValid st' key = read_isValid st key.
Proof. unfold read_isValid. by intros ->. Qed.

Lemma write_isValid_read st key st' :
  write_isValid st key = Some st' →
  Logger (session st') = Logger (session st)
  ∧ output st' = output st
  ∧ ∀ k, read_isValid st' k = if decide (k = key) then true else read_isValid st k.
Proof.
  unfold write_isValid, read_isValid. destruct (isValid (session st)) as [m|]; [|done].
  intros [= <-]. simpl. split; [done|]. split; [done|]. intros k.
  case_decide as Hk.
  - subst k. by rewrite lookup_insert_eq.
  - by rewrite lookup_insert_ne.
Qed.

Lemma cache_grows_refl st : cache_grows st st.
Proof. by split. Qed.

Lemma cache_grows_trans st1 st2 st3 :
  cache_grows st1 st2 → cache_grows st2 st3 → cache_grows st1 st3.
Proof. intros [H1 H2] [H3 H4]. split; [congruence|auto]. Qed.

Lemma cache_grows_session st st' : session st' = session st → cache_grows st st'.
Proof. intros H. split; [by rewrite H|]. intros key. by rewrite (read_isValid_session _ _ _ H). Qed.

Lemma cache_grows_write st key st' : write_isValid st key = Some st' → cache_grows st st'.
Proof.
  intros (Hl & _ & Hr)%write_isValid_read. split; [done|].
  intros k Hk. rewrite Hr. by case_decide.
Qed.

(** What one call of [doValidateBlobContents] does to the cache, the
    logger's output and its result. *)
Lemma doValidateBlobContents_spec r c d level st st' e :
  doValidateBlobContents r c d level st = Return st' e →
  let key := validationCacheKey c d in
  Logger (session st') = Logger (session st)
  ∧ (∃ l, Logger (session st) = Some l
          ∧ output st' = LogBlob l d level e (read_isValid st key) (output st))
  ∧ (read_isValid st key = true →
     e = None ∧ ∀ k, read_isValid st' k = read_isValid st k)
  ∧ (read_isValid st key = false →
     (read_isValid st' key = true ↔ ∃ readCloser, blob_matches r c d readCloser)
     ∧ (e = None ↔ ∃ readCloser, blob_matches r c d readCloser
                                 ∧ body_close_err readCloser = None)
     ∧ ∀ k, k ≠ key → read_isValid st' k = read_isValid st k).
Proof.
  intros H key. unfold doValidateBlobContents in H. fold key in H.
  destruct (read_isValid st key) eqn:Hc.
  { destruct (call_LogBlob st d level None true) as [st0|] eqn:Hlog; [|done].
    injection H as <- <-.
    apply call_LogBlob_session in Hlog as (Hs & l & Hl & Hout).
    split; [by rewrite Hs|]. split; [eauto|]. split; [|done].
    intros _. split; [done|]. intros k. by apply read_isValid_session. }
  assert (∀ st0 e0,
            match call_LogBlob st0 d level e0 false with
            | Some st1 => Return st1 e0
            | None => Panic NilPointerDereference st0
            end = Return st' e →
            e = e0 ∧ session st' = session st0
            ∧ ∃ l, Logger (session st0) = Some l
                   ∧ output st' = LogBlob l d level e false (output st0)) as Hlog.
  { intros st0 e0 H0. destruct (call_LogBlob st0 d level e0 false) as [st1|] eqn:E; [|done].
    injection H0 as <- <-. apply call_LogBlob_session in E as (? & ? & ? & ?). eauto. }
  unfold blob_matches.
  destruct (DownloadBlob r c d) as [err|readCloser] eqn:Hdl.
  { apply Hlog in H as (-> & Hs & l & Hl & Hout).
    split; [by rewrite Hs|]. split; [eauto|]. split; [done|]. intros _.
    split; [|split].
    - rewrite (read_isValid_session _ _ _ Hs), Hc. split; [done|]. by intros (? & ? & _).
    - split; [done|]. by intros (? & (? & _) & _).
    - intros k _. by apply read_isValid_session. }
  destruct (Algorithm_Hash r d) as [v|].
  { destruct (body_close_err readCloser); by destruct (call_LogBlob _ _ _ _ _). }
  destruct (body_read_err readCloser) as [err|] eqn:Hrd.
  { apply Hlog in H as (-> & Hs & l & Hl & Hout).
    split; [by rewrite Hs|]. split; [eauto|]. split; [done|]. intros _.
    split; [|split].
    - rewrite (read_isValid_session _ _ _ Hs), Hc. split; [done|].
      intros (? & [= <-] & ? & _). congruence.
    - split; [done|]. intros (? & ([= <-] & ? & _) & _). congruence.
    - intros k _. by apply read_isValid_session. }
  case_decide as Hdg.
  { apply Hlog in H as (-> & Hs & l & Hl & Hout).
    split; [by rewrite Hs|]. split; [eauto|]. split; [done|]. intros _.
    split; [|split].
    - rewrite (read_isValid_session _ _ _ Hs), Hc. split; [done|].
      intros (? & [= <-] & ? & ?). done.
    - split; [done|]. intros (? & ([= <-] & ? & ?) & _). done.
    - intros k _. by apply read_isValid_session. }
  destruct (write_isValid st key) as [st1|] eqn:Hw;
    [|destruct (body_close_err readCloser); by destruct (call_LogBlob _ _ _ _ _)].
  apply write_isValid_read in Hw as (Hl1 & Hout1 & Hr1).
  assert (e = body_close_err readCloser ∧ session st' = session st1
          ∧ ∃ l, Logger (session st1) = Some l
                 ∧ output st' = LogBlob l d level e false (output st1)) as (-> & Hs & l & Hl & Hout).
  { destruct (body_close_err readCloser); apply Hlog in H as (-> & ? & ?); auto. }
  split; [by rewrite Hs|]. split.
  { exists l. split; [congruence|]. by rewrite Hout, Hout1. }
  split; [done|]. intros _. split; [|split].
  - rewrite (read_isValid_session _ _ _ Hs), Hr1, decide_True by done.
    split; [|done]. intros _. by exists readCloser.
  - split.
    + intros Hcl. by exists readCloser.
    + by intros (? & ([= <-] & _) & ?).
  - intros k Hk. rewrite (read_isValid_session _ _ _ Hs), Hr1. by rewrite decide_False.
Qed.

Lemma doValidateBlobContents_grows r c d level st st' e :
  doValidateBlobContents r c d level st = Return st' e → cache_grows st st'.
Proof.
  intros H. pose proof (doValidateBlobContents_spec _ _ _ _ _ _ _ H) as (Hl & _ & Hhit & Hmiss).
  split; [done|]. intros k Hk.
  destruct (read_isValid st (validationCacheKey c d)) eqn:Hc.
  - destruct (Hhit eq_refl) as [_ Hsame]. by rewrite Hsame.
  - destruct (Hmiss eq_refl) as (_ & _ & Hother).
    rewrite Hother; [done|]. intros ->. congruence.
Qed.

Lemma validate_each_grows {A} (f : A → State → Outcome) descs : ∀ st st' e,
  (∀ desc st st' e, f desc st = Return st' e → cache_grows st st') →
  validate_each f descs st = Return st' e → cache_grows st st'.
Proof.
  induction descs as [|desc descs IH]; intros st st' e Hf; simpl.
  - intros [= <- _]. apply cache_grows_refl.
  - destruct (f desc st) as [st1 [err|]|? ?|] eqn:E; try done.
    + intros [= <- _]. by eapply Hf.
    + intros H. eapply cache_grows_trans; [by eapply Hf|by eapply IH].
Qed.

(** What every call of the loop keeps, the loop keeps. *)
Lemma validate_each_keeps {A} (f : A → State → Outcome) (P : State → Prop) descs :
  ∀ st st' e,
  (∀ desc st st' e, f desc st = Return st' e → P st → P st') →
  validate_each f descs st = Return st' e → P st → P st'.
Proof.
  induction descs as [|d descs IH]; intros st st' e Hkeep; simpl.
  - by intros [= <- _].
  - destruct (f d st) as [st1 [err|]|? ?|] eqn:E; try done.
    + intros [= <- _]. by eapply Hkeep.
    + intros H HP. eapply IH; [done|done|]. by eapply Hkeep.
Qed.

(** When the loop ends without an error, [post desc] holds at the end for
    every element, if each call establishes it and later calls keep it. *)
Lemma validate_each_all {A} (f : A → State → Outcome) (post : A → State → Prop) descs :
  ∀ st st',
  (∀ desc st st', f desc st = Return st' None → post desc st') →
  (∀ desc desc' st st' e, f desc' st = Return st' e → post desc st → post desc st') →
  validate_each f descs st = Return st' None →
  ∀ desc, desc ∈ descs → post desc st'.
Proof.
  induction descs as [|d descs IH]; intros st st' Hf Hkeep; simpl.
  - intros _ desc Hin. by apply elem_of_nil in Hin.
  - destruct (f d st) as [st1 [err|]|? ?|] eqn:E; try done.
    intros H desc [-> | Hin]%elem_of_cons; [|by eapply IH].
    eapply (validate_each_keeps f (post d)); [|exact H|by eapply Hf].
    intros desc' st0 st0' e0. apply Hkeep.
Qed.

Lemma Ref_String_digest d : Ref_String (mkManifestReference d "") = d.
Proof.
  unfold Ref_String, IsDigest. simpl. case_bool_decide as H; [done|].
  by destruct (decide (d = "")) as [->|].
Qed.

Lemma doValidateManifest_grows fuel r c pf : ∀ reference level st st' e,
  doValidateManifest fuel r c reference level st pf = Return st' e → cache_grows st st'.
Proof.
  induction fuel as [|fuel IH]; intros reference level st st' e; simpl; [done|].
  assert (∀ st0 e0,
            match call_LogManifest st0 reference level e0 false with
            | Some st1 => Return st1 e0
            | None => Panic NilPointerDereference st0
            end = Return st' e → cache_grows st0 st') as Hlog.
  { intros st0 e0 H0. destruct (call_LogManifest st0 reference level e0 false) eqn:E; [|done].
    injection H0 as <- <-. apply call_LogManifest_session in E as [? _].
    by apply cache_grows_session. }
  destruct (read_isValid st _).
  { destruct (call_LogManifest st reference level None true) eqn:E; [|done].
    intros [= <- _]. apply call_LogManifest_session in E as [? _].
    by apply cache_grows_session. }
  destruct (DownloadManifest r c reference) as [err|[manifestBytes manifestMediaType]];
    [by apply Hlog|].
  destruct (ParseManifest r manifestMediaType manifestBytes) as [err|manifest];
    [by apply Hlog|].
  destruct (call_LogManifest st _ level None false) as [st1|] eqn:E1; [|done].
  apply call_LogManifest_session in E1 as [Hs1 _].
  apply cache_grows_session in Hs1.
  destruct (validate_each _ (BlobReferences manifest) st1) as [st2 [err|]|? ?|] eqn:E2; try done.
  { intros [= <- _]. eapply cache_grows_trans; [exact Hs1|].
    eapply validate_each_grows; [|exact E2].
    intros ????. apply doValidateBlobContents_grows. }
  assert (cache_grows st st2) as H2.
  { eapply cache_grows_trans; [exact Hs1|].
    eapply validate_each_grows; [|exact E2].
    intros ????. apply doValidateBlobContents_grows. }
  destruct (validate_each _ (ManifestReferences manifest pf) st2) as [st3 [err|]|? ?|] eqn:E3;
    try done.
  { intros [= <- _]. eapply cache_grows_trans; [exact H2|].
    eapply validate_each_grows; [|exact E3]. intros ????. apply IH. }
  assert (cache_grows st st3) as H3.
  { eapply cache_grows_trans; [exact H2|].
    eapply validate_each_grows; [|exact E3]. intros ????. apply IH. }
  destruct (write_isValid st3 _) as [st4|] eqn:E4; [|done].
  destruct (write_isValid st4 _) as [st5|] eqn:E5; [|done].
  intros [= <- _].
  eapply cache_grows_trans; [exact H3|].
  eapply cache_grows_trans; by eapply cache_grows_write.
Qed.

(** A call of [doValidateManifest] that returns nil leaves the key of its
    reference in the cache. *)
Lemma doValidateManifest_success_key fuel r c pf reference level st st' :
  doValidateManifest fuel r c reference level st pf = Return st' None →
  read_isValid st' (validationCacheKey c (Ref_String reference)) = true.
Proof.
  destruct fuel as [|fuel]; simpl; [done|].
  destruct (read_isValid st _) eqn:Hc.
  { destruct (call_LogManifest st reference level None true) eqn:E; [|done].
    intros [= <-]. apply call_LogManifest_session in E as [Hs _].
    by rewrite (read_isValid_session _ _ _ Hs). }
  destruct (DownloadManifest r c reference) as [err|[manifestBytes manifestMediaType]].
  { by destruct (call_LogManifest st _ _ _ false). }
  destruct (ParseManifest r manifestMediaType manifestBytes) as [err|manifest].
  { by destruct (call_LogManifest st _ _ _ false). }
  destruct (call_LogManifest st _ _ None false) as [st1|]; [|done].
  destruct (validate_each _ (BlobReferences manifest) st1) as [st2 [err|]|? ?|]; try done.
  destruct (validate_each _ (ManifestReferences manifest pf) st2) as [st3 [err|]|? ?|];
    try done.
  destruct (write_isValid st3 _) as [st4|] eqn:E4; [|done].
  destruct (write_isValid st4 _) as [st5|] eqn:E5; [|done].
  intros [= <-]. apply write_isValid_read in E5 as (_ & _ & Hr5).
  by rewrite Hr5, decide_True.
Qed.

Lemma doValidateBlobContents_success_key r c d level st st' :
  doValidateBlobContents r c d level st = Return st' None →
  read_isValid st' (validationCacheKey c d) = true.
Proof.
  intros H0.
  pose proof (doValidateBlobContents_spec _ _ _ _ _ _ _ H0) as (_ & _ & Hhit & Hmiss).
  destruct (read_isValid st (validationCacheKey c d)) eqn:Hc0.
  - destruct (Hhit eq_refl) as [_ Hsame]. by rewrite Hsame.
  - destruct (Hmiss eq_refl) as (Hiff & Hnil & _). apply Hiff.
    destruct Hnil as [Hnil _]. destruct (Hnil eq_refl) as (rc & ? & _). by exists rc.
Qed.

(** What a call of [doValidateManifest] that was not answered from the
    cache and returns nil has seen and put into the cache. *)
Lemma doValidateManifest_success fuel r c pf reference level st st' :
  read_isValid st (validationCacheKey c (Ref_String reference)) = false →
  doValidateManifest fuel r c reference level st pf = Return st' None →
  ∃ manifestBytes manifestMediaType manifest,
    DownloadManifest r c reference = inr (manifestBytes, manifestMediaType)
    ∧ ParseManifest r manifestMediaType manifestBytes = inr manifest
    ∧ (∀ d, d ∈ BlobReferences manifest →
         read_isValid st' (validationCacheKey c d) = true)
    ∧ (∀ d, d ∈ ManifestReferences manifest pf →
         read_isValid st' (validationCacheKey c d) = true)
    ∧ read_isValid st' (validationCacheKey c (PM_Digest manifest)) = true.
Proof.
  intros Hc. destruct fuel as [|fuel]; simpl; [done|]. rewrite Hc.
  destruct (DownloadManifest r c reference) as [err|[manifestBytes manifestMediaType]] eqn:Hdl.
  { by destruct (call_LogManifest st _ _ _ false). }
  destruct (ParseManifest r manifestMediaType manifestBytes) as [err|manifest] eqn:Hparse.
  { by destruct (call_LogManifest st _ _ _ false). }
  destruct (call_LogManifest st _ level None false) as [st1|] eqn:E1; [|done].
  destruct (validate_each _ (BlobReferences manifest) st1) as [st2 [err|]|? ?|] eqn:E2; try done.
  destruct (validate_each _ (ManifestReferences manifest pf) st2) as [st3 [err|]|? ?|] eqn:E3;
    try done.
  destruct (write_isValid st3 _) as [st4|] eqn:E4; [|done].
  destruct (write_isValid st4 _) as [st5|] eqn:E5; [|done].
  intros [= <-].
  assert (cache_grows st2 st5) as [_ Hgrow2].
  { eapply cache_grows_trans.
    - eapply validate_each_grows; [|exact E3]. intros ????. apply doValidateManifest_grows.
    - eapply cache_grows_trans; by eapply cache_grows_write. }
  assert (cache_grows st3 st5) as [_ Hgrow3].
  { eapply cache_grows_trans; by eapply cache_grows_write. }
  pose proof (write_isValid_read _ _ _ E4) as (_ & _ & Hr4).
  pose proof (write_isValid_read _ _ _ E5) as (_ & _ & Hr5).
  exists manifestBytes, manifestMediaType, manifest.
  split; [done|]. split; [done|]. split; [|split].
  - intros d Hd. apply Hgrow2.
    eapply (validate_each_all _ (fun d st => read_isValid st (validationCacheKey c d) = true));
      [| |exact E2|exact Hd].
    + intros desc st0 st0'. apply doValidateBlobContents_success_key.
    + intros desc desc' st0 st0' e0 H0. by apply (doValidateBlobContents_grows _ _ _ _ _ _ _ H0).
  - intros d Hd. apply Hgrow3.
    eapply (validate_each_all _ (fun d st => read_isValid st (validationCacheKey c d) = true));
      [| |exact E3|exact Hd].
    + intros desc st0 st0' H0. apply doValidateManifest_success_key in H0.
      by rewrite Ref_String_digest in H0.
    + intros desc desc' st0 st0' e0 H0. by apply (doValidateManifest_grows _ _ _ _ _ _ _ _ _ H0).
  - rewrite Hr5. case_decide; [done|]. by rewrite Hr4, decide_True.
Qed.

Lemma slash_free_app s1 s2 :
  slash_free (s1 +:+ s2) = slash_free s1 && slash_free s2.
Proof.
  induction s1 as [|ch s1 IH]; [done|].
  rewrite key_rotation.append_cons. simpl. rewrite IH. by rewrite andb_assoc.
Qed.

(** Splitting at the first slash. *)
Lemma split_at_first_slash a1 : ∀ a2 b1 b2,
  slash_free a1 = true → slash_free a2 = true →
  a1 +:+ "/" +:+ b1 = a2 +:+ "/" +:+ b2 → a1 = a2 ∧ b1 = b2.
Proof.
  induction a1 as [|ch a1 IH]; intros [|ch2 a2] b1 b2 H1 H2;
    rewrite ?key_rotation.append_nil_l, ?key_rotation.append_cons,
      ?key_rotation.append_nil_l; simpl in *.
  - by intros [= ->].
  - intros [= <- _]. done.
  - intros [= -> _]. done.
  - intros [= -> Hrest].
    apply andb_true_iff in H1 as [_ H1]. apply andb_true_iff in H2 as [_ H2].
    by destruct (IH a2 b1 b2 H1 H2 Hrest) as [-> ->].
Qed.

(** Splitting at the last slash. *)
Lemma split_at_last_slash a1 : ∀ a2 b1 b2,
  slash_free b1 = true → slash_free b2 = true →
  a1 +:+ "/" +:+ b1 = a2 +:+ "/" +:+ b2 → a1 = a2 ∧ b1 = b2.
Proof.
  induction a1 as [|ch a1 IH]; intros [|ch2 a2] b1 b2 H1 H2;
    rewrite ?key_rotation.append_nil_l, ?key_rotation.append_cons,
      ?key_rotation.append_nil_l.
  - by intros [= ->].
  - intros [= <- ->].
    rewrite slash_free_app in H1.
    rewrite ?key_rotation.append_cons, ?key_rotation.append_nil_l in H1. simpl in H1.
    by rewrite andb_false_r in H1.
  - intros [= -> <-].
    rewrite slash_free_app in H2.
    rewrite ?key_rotation.append_cons, ?key_rotation.append_nil_l in H2. simpl in H2.
    by rewrite andb_false_r in H2.
  - intros [= -> Hrest]. by destruct (IH a2 b1 b2 H1 H2 Hrest) as [-> ->].
Qed.

(** X1.  A validation never removes an entry from the session's cache and
    never replaces the logger: what was valid before a call of
    [doValidateManifest] or [doValidateBlobContents] is valid after it,
    whether the call succeeds or fails. *)
Theorem validation_cache_only_grows
    (fuel : nat) (r : Remote) (c : RepoClient) (pf : PlatformFilter)
    (reference : ManifestReference) (blobDigest : string) (level : Z)
    (st st' : State) (e : option error) :
  doValidateManifest fuel r c reference level st pf = Return st' e
  ∨ doValidateBlobContents r c blobDigest level st = Return st' e →
  cache_grows st st'.
Proof.
  intros [H|H].
  - by eapply doValidateManifest_grows.
  - by eapply doValidateBlobContents_grows.
Qed.

Lemma validation_cache_only_grows_witness :
  ∃ st' e,
    doValidateManifest 2 examples.registry_one_image examples.repo_client
      (mkManifestReference "" "latest") 0 examples.fresh_state [] = Return st' e
    ∧ cache_grows examples.fresh_state st'.
Proof.
  destruct (doValidateManifest 2 examples.registry_one_image examples.repo_client
              (mkManifestReference "" "latest") 0 examples.fresh_state [])
    as [st' e| |] eqn:E.
  - exists st', e. split; [reflexivity|].
    apply (validation_cache_only_grows 2 examples.registry_one_image examples.repo_client []
             (mkManifestReference "" "latest") "" 0 examples.fresh_state st' e).
    left. exact E.
  - vm_compute in E. discriminate E.
  - vm_compute in E. discriminate E.
Defined.

(** X2.  [doValidateBlobContents] on a blob that is not in the cache puts
    it there exactly when the download succeeded, the body was read to its
    end and the bytes hash to the blob's digest; it returns nil exactly
    when, in addition, closing the reader succeeded (so a blob whose
    reader fails to close is reported as an error and cached as valid all
    the same); and no other key of the cache changes. *)
Theorem blob_is_cached_iff_digest_matches
    (r : Remote) (c : RepoClient) (blobDigest : string) (level : Z)
    (st st' : State) (e : option error) :
  read_isValid st (validationCacheKey c blobDigest) = false →
  doValidateBlobContents r c blobDigest level st = Return st' e →
  (read_isValid st' (validationCacheKey c blobDigest) = true
   ↔ ∃ readCloser, blob_matches r c blobDigest readCloser)
  ∧ (e = None ↔ ∃ readCloser, blob_matches r c blobDigest readCloser
                              ∧ body_close_err readCloser = None)
  ∧ ∀ key, key ≠ validationCacheKey c blobDigest →
           read_isValid st' key = read_isValid st key.
Proof.
  intros Hc H.
  pose proof (doValidateBlobContents_spec _ _ _ _ _ _ _ H) as (_ & _ & _ & Hmiss).
  by apply Hmiss.
Qed.

Lemma blob_is_cached_iff_digest_matches_witness :
  read_isValid examples.fresh_state
    (validationCacheKey examples.repo_client "sha256:b") = false
  ∧ ∃ st' e,
      doValidateBlobContents examples.registry_close_fails examples.repo_client
        "sha256:b" 0 examples.fresh_state = Return st' e
      ∧ e = Some (Errorf "connection reset")
      ∧ (read_isValid st' (validationCacheKey examples.repo_client "sha256:b") = true
         ↔ ∃ readCloser,
             blob_matches examples.registry_close_fails examples.repo_client
               "sha256:b" readCloser).
Proof.
  split; [vm_compute; reflexivity|].
  destruct (doValidateBlobContents examples.registry_close_fails examples.repo_client
              "sha256:b" 0 examples.fresh_state) as [st' e| |] eqn:E.
  - exists st', e. split; [reflexivity|]. split.
    + vm_compute in E. injection E as _ <-. reflexivity.
    + apply (blob_is_cached_iff_digest_matches examples.registry_close_fails
               examples.repo_client "sha256:b" 0 examples.fresh_state st' e);
        [vm_compute; reflexivity|exact E].
  - vm_compute in E. discriminate E.
  - vm_compute in E. discriminate E.
Defined.

(** X3.  Every call of [doValidateBlobContents] that returns calls the
    logger exactly once, with the blob's digest, the level, the error it
    returns, and the flag that tells whether the answer came from the
    cache. *)
Theorem blob_validation_logs_once
    (r : Remote) (c : RepoClient) (blobDigest : string) (level : Z)
    (st st' : State) (e : option error) :
  doValidateBlobContents r c blobDigest level st = Return st' e →
  ∃ l, Logger (session st) = Some l
       ∧ output st'
         = LogBlob l blobDigest level e
             (read_isValid st (validationCacheKey c blobDigest)) (output st).
Proof.
  intros H.
  pose proof (doValidateBlobContents_spec _ _ _ _ _ _ _ H) as (_ & Hlog & _).
  exact Hlog.
Qed.

Lemma blob_validation_logs_once_witness :
  ∃ st' e,
    doValidateBlobContents examples.registry_close_fails examples.repo_client "sha256:b" 1
      examples.recording_state = Return st' e
    ∧ ∃ l, Logger (session examples.recording_state) = Some l
         ∧ output st' = LogBlob l "sha256:b" 1 e false [].
Proof.
  destruct (doValidateBlobContents examples.registry_close_fails examples.repo_client
              "sha256:b" 1 examples.recording_state) as [st' e| |] eqn:E.
  - exists st', e. split; [reflexivity|].
    exact (blob_validation_logs_once examples.registry_close_fails examples.repo_client
             "sha256:b" 1 examples.recording_state st' e E).
  - vm_compute in E. discriminate E.
  - vm_compute in E. discriminate E.
Defined.

(** X4.  Once [doValidateManifest] has returned nil for a reference, every
    later validation of that reference in the same session, whatever the
    registry then serves, returns nil without downloading anything: it
    logs one line with the from-cache flag and leaves the session as it
    is. *)
Theorem valid_manifest_is_answered_from_cache
    (fuel : nat) (r : Remote) (c : RepoClient) (pf : PlatformFilter)
    (reference : ManifestReference) (level : Z) (st st' : State) :
  doValidateManifest fuel r c reference level st pf = Return st' None →
  ∃ l, Logger (session st') = Some l
    ∧ ∀ (fuel' : nat) (r' : Remote) (pf' : PlatformFilter) (level' : Z) (out : Output),
        doValidateManifest (S fuel') r' c reference level' (mkState (session st') out) pf'
        = Return (mkState (session st') (LogManifest l reference level' None true out)) None.
Proof.
  intros H.
  pose proof (doValidateManifest_success_key _ _ _ _ _ _ _ _ H) as Hkey.
  assert (∃ l, Logger (session st') = Some l) as [l Hl].
  { destruct fuel as [|fuel]; simpl in H; [done|].
    destruct (Logger (session st')) as [l|] eqn:Hl; [eauto|].
    pose proof (doValidateManifest_grows (S fuel) _ _ _ _ _ _ _ _ H) as [Hlog _].
    rewrite Hl in Hlog. simpl in H.
    destruct (read_isValid st _);
      [unfold call_LogManifest in H; by rewrite <- Hlog in H|].
    destruct (DownloadManifest r c reference) as [err|[manifestBytes manifestMediaType]];
      [unfold call_LogManifest in H; by rewrite <- Hlog in H|].
    destruct (ParseManifest r manifestMediaType manifestBytes) as [err|manifest];
      [unfold call_LogManifest in H; by rewrite <- Hlog in H|].
    unfold call_LogManifest in H. by rewrite <- Hlog in H. }
  exists l. split; [done|]. intros fuel' r' pf' level' out. simpl.
  replace (read_isValid {| session := session st'; output := out |}
             (validationCacheKey c (Ref_String reference))) with true
    by (symmetry; exact Hkey).
  unfold call_LogManifest. simpl. by rewrite Hl.
Qed.

Lemma valid_manifest_is_answered_from_cache_witness :
  ∃ st',
    doValidateManifest 2 examples.registry_one_image examples.repo_client
      (mkManifestReference "" "latest") 0 examples.fresh_state [] = Return st' None
    ∧ ∃ l, Logger (session st') = Some l
      ∧ ∀ (fuel' : nat) (r' : Remote) (pf' : PlatformFilter) (level' : Z) (out : Output),
          doValidateManifest (S fuel') r' examples.repo_client
            (mkManifestReference "" "latest") level' (mkState (session st') out) pf'
          = Return (mkState (session st')
                      (LogManifest l (mkManifestReference "" "latest") level' None true out))
                   None.
Proof.
  destruct (doValidateManifest 2 examples.registry_one_image examples.repo_client
              (mkManifestReference "" "latest") 0 examples.fresh_state [])
    as [st' [err|]|? ?|] eqn:E.
  - vm_compute in E. discriminate E.
  - exists st'. split; [reflexivity|].
    exact (valid_manifest_is_answered_from_cache 2 examples.registry_one_image
             examples.repo_client [] (mkManifestReference "" "latest") 0
             examples.fresh_state st' E).
  - vm_compute in E. discriminate E.
  - vm_compute in E. discriminate E.
Defined.

(** X5.  [doValidateManifest] returns nil for a reference that was not in
    the cache only if the manifest could be downloaded and parsed; then
    every blob and every manifest that it references (under the platform
    filter) is in the cache as valid, and so are the manifest's digest and
    the reference itself. *)
Theorem valid_manifest_has_valid_references
    (fuel : nat) (r : Remote) (c : RepoClient) (pf : PlatformFilter)
    (reference : ManifestReference) (level : Z) (st st' : State) :
  read_isValid st (validationCacheKey c (Ref_String reference)) = false →
  doValidateManifest fuel r c reference level st pf = Return st' None →
  ∃ manifestBytes manifestMediaType manifest,
    DownloadManifest r c reference = inr (manifestBytes, manifestMediaType)
    ∧ ParseManifest r manifestMediaType manifestBytes = inr manifest
    ∧ (∀ d, d ∈ BlobReferences manifest →
         read_isValid st' (validationCacheKey c d) = true)
    ∧ (∀ d, d ∈ ManifestReferences manifest pf →
         read_isValid st' (validationCacheKey c d) = true)
    ∧ read_isValid st' (validationCacheKey c (PM_Digest manifest)) = true
    ∧ read_isValid st' (validationCacheKey c (Ref_String reference)) = true.
Proof.
  intros Hc H.
  destruct (doValidateManifest_success _ _ _ _ _ _ _ _ Hc H)
    as (manifestBytes & manifestMediaType & manifest & Hdl & Hparse & Hb & Hm & Hd).
  exists manifestBytes, manifestMediaType, manifest.
  repeat (split; [assumption|]).
  by eapply doValidateManifest_success_key.
Qed.

Lemma valid_manifest_has_valid_references_witness :
  read_isValid examples.fresh_state
    (validationCacheKey examples.repo_client "latest") = false
  ∧ ∃ st',
      doValidateManifest 2 examples.registry_one_image examples.repo_client
        (mkManifestReference "" "latest") 0 examples.fresh_state [] = Return st' None
      ∧ read_isValid st' (validationCacheKey examples.repo_client "sha256:b") = true.
Proof.
  split; [vm_compute; reflexivity|].
  destruct (doValidateManifest 2 examples.registry_one_image examples.repo_client
              (mkManifestReference "" "latest") 0 examples.fresh_state [])
    as [st' [err|]|? ?|] eqn:E.
  - vm_compute in E. discriminate E.
  - exists st'. split; [reflexivity|].
    destruct (valid_manifest_has_valid_references 2 examples.registry_one_image
                examples.repo_client [] (mkManifestReference "" "latest") 0
                examples.fresh_state st')
      as (manifestBytes & manifestMediaType & manifest & Hdl & Hparse & Hb & _);
      [vm_compute; reflexivity|exact E|].
    apply Hb. vm_compute in Hdl. injection Hdl as <- <-.
    vm_compute in Hparse. injection Hparse as <-. simpl. left.
  - vm_compute in E. discriminate E.
  - vm_compute in E. discriminate E.
Defined.

(** X6.  The cache key tells repositories apart: for host names and
    digests or tag names without a slash (repository names may have
    slashes), two keys are equal only if host, repository and digest or
    tag are all equal.  So a result cached for one repository is never
    taken for another. *)
Theorem validationCacheKey_separates_repos
    (c1 c2 : RepoClient) (digestOrTagName1 digestOrTagName2 : string) :
  slash_free (Host c1) = true → slash_free (Host c2) = true →
  slash_free digestOrTagName1 = true → slash_free digestOrTagName2 = true →
  validationCacheKey c1 digestOrTagName1 = validationCacheKey c2 digestOrTagName2 →
  c1 = c2 ∧ digestOrTagName1 = digestOrTagName2.
Proof.
  unfold validationCacheKey. intros Hh1 Hh2 Hd1 Hd2 Heq.
  apply split_at_first_slash in Heq as [Hhost Heq]; [|done|done].
  apply split_at_last_slash in Heq as [Hrepo Hd]; [|done|done].
  split; [|done]. destruct c1, c2; simpl in *. by subst.
Qed.

Lemma validationCacheKey_separates_repos_witness :
  (slash_free (Host examples.repo_client) = true
   ∧ slash_free "sha256:b" = true
   ∧ validationCacheKey examples.repo_client "sha256:b"
     = validationCacheKey examples.repo_client "sha256:b")
  ∧ examples.repo_client = examples.repo_client ∧ "sha256:b" = "sha256:b".
Proof.
  split; [repeat split; reflexivity|].
  apply (validationCacheKey_separates_repos examples.repo_client examples.repo_client
           "sha256:b" "sha256:b"); reflexivity.
Defined.

End validation_cache.

(* ===================================================================== *)
(** * Theorems: what a manifest sync deletes and schedules *)
(* ===================================================================== *)

Module replica_sync.
Import keppel tasks.

Lemma same_owners_refl db : same_owners db db.
Proof. by repeat split. Qed.

(** The first loop fails as soon as the primary fails to answer. *)
Lemma check_manifests_error j account repo ms : ∀ acc m err,
  m ∈ ms →
  CheckManifestOnPrimary j account repo (mkManifestReference (Manifest_Digest m) "") = inl err →
  ∃ e, check_manifests j account repo ms acc = inl e.
Proof.
  induction ms as [|m0 ms IH]; intros acc m err Hin Hc; [by apply elem_of_nil in Hin|].
  simpl.
  destruct (CheckManifestOnPrimary j account repo (mkManifestReference (Manifest_Digest m0) ""))
    as [e0|exists_] eqn:Hc0; [eauto|].
  apply elem_of_cons in Hin as [->|Hin]; [congruence|]. by eapply IH.
Qed.

Lemma check_manifests_Errorf j account repo ms : ∀ acc e,
  check_manifests j account repo ms acc = inl e → ∃ msg, e = Errorf msg.
Proof.
  induction ms as [|m0 ms IH]; intros acc e; simpl; [done|].
  destruct (CheckManifestOnPrimary j account repo _) as [e0|exists_].
  - intros [= <-]. eauto.
  - apply IH.
Qed.

Lemma sync_prepare_Errorf j account repo db e :
  sync_prepare j account repo db = inl e → ∃ msg, e = Errorf msg.
Proof.
  unfold sync_prepare, query.
  destruct (faults j (StmtSelectManifests _)); [intros [= <-]; eauto|].
  destruct (check_manifests _ _ _ _ _) as [e0|sd] eqn:Hc.
  { intros [= <-]. by eapply check_manifests_Errorf. }
  destruct (faults j (StmtSelectManifestRefs _)); [intros [= <-]; eauto|done].
Qed.

Lemma filter_all {A} (P : A → Prop) `{∀ x, Decision (P x)} (l : list A) :
  (∀ x, x ∈ l → P x) → filter P l = l.
Proof.
  induction l as [|x l IH]; intros Hall; [done|].
  rewrite filter_cons_True by (apply Hall; left).
  f_equal. apply IH. intros y Hy. apply Hall. by right.
Qed.

Lemma filter_iff_elem {A} (P Q : A → Prop) `{∀ x, Decision (P x)} `{∀ x, Decision (Q x)}
    (l : list A) :
  (∀ x, x ∈ l → (P x ↔ Q x)) → filter P l = filter Q l.
Proof.
  induction l as [|x l IH]; intros Hall; [done|].
  assert (filter P l = filter Q l) as Hl.
  { apply IH. intros y Hy. apply Hall. by right. }
  destruct (decide (P x)) as [HP|HP].
  - rewrite !filter_cons_True; [by rewrite Hl|by apply Hall; [left|]|done].
  - rewrite !filter_cons_False; [done| |done].
    intros HQ. apply HP. apply Hall; [left|done].
Qed.

(** Deleting one more manifest of the repo. *)
Lemma delete_from_without repo_id gone digest db :
  delete_manifest_row repo_id digest (without_manifests repo_id gone db)
  = without_manifests repo_id (gone ∪ {[digest]}) db.
Proof.
  unfold delete_manifest_row, without_manifests. simpl.
  rewrite !list_filter_filter.
  f_equal; apply list_filter_iff; intros x;
    rewrite elem_of_union, elem_of_singleton; tauto.
Qed.

Lemma without_no_manifests repo_id db : without_manifests repo_id ∅ db = db.
Proof.
  unfold without_manifests. destruct db. simpl.
  f_equal; apply filter_all; intros x _ [_ Hin]; by apply elem_of_empty in Hin.
Qed.

(** The errors of the deletion loop are made by [fmt.Errorf], and it
    returns nil only with nothing left to delete. *)
Lemma sync_pass_Errorf j account repo parentDigestsOf keys : ∀ st b st' b' err,
  sync_pass j account repo parentDigestsOf keys st b = (st', b', Some err) →
  ∃ msg, err = Errorf msg.
Proof.
  induction keys as [|digest keys IH]; intros st b st' b' err; simpl; [done|].
  destruct (still_referenced _ _ _); [by apply IH|].
  destruct (delete_manifest _ _ _ _); [intros [= _ _ <-]; eauto|].
  destruct (sd_DeleteManifest j _ _ _); [intros [= _ _ <-]; eauto|by apply IH].
Qed.

Lemma sync_loop_Errorf j account repo parentDigestsOf fuel : ∀ st st' err,
  sync_loop fuel j account repo parentDigestsOf st = Some (st', Some err) →
  ∃ msg, err = Errorf msg.
Proof.
  induction fuel as [|fuel IH]; intros st st' err; simpl.
  - by case_decide.
  - case_decide; [done|].
    destruct (sync_pass _ _ _ _ _ _ _) as [[st1 b'] [e|]] eqn:Hpass.
    + intros [= _ <-]. by eapply sync_pass_Errorf.
    + destruct b'; simpl; [by apply IH|]. intros [= _ <-]. unfold stuck_error. eauto.
Qed.

Lemma sync_loop_done j account repo parentDigestsOf fuel : ∀ st st',
  sync_loop fuel j account repo parentDigestsOf st = Some (st', None) →
  shallDeleteManifest st' = ∅.
Proof.
  induction fuel as [|fuel IH]; intros st st'; simpl.
  - case_decide; [|done]. intros [= <-]. by apply map_size_empty_inv.
  - case_decide; [intros [= <-]; by apply map_size_empty_inv|].
    destruct (sync_pass _ _ _ _ _ _ _) as [[st1 b'] [e|]]; [done|].
    destruct b'; simpl; [by apply IH|done].
Qed.

Section deletions.
Context (j : Janitor) (account : Account) (repo : Repository) (db : DB).
Context (parentDigestsOf : gmap string (list string)) (D0 : gset string).

Local Abbreviation repo_id := (Repository_ID repo).

(** Deletions concern this repository and digests of [D0] only. *)
Local Abbreviation only_D0 := (fun st : SyncState =>
  dom (shallDeleteManifest st) ⊆ D0
  ∧ ∀ ev, ev ∈ sync_trace st →
      (ev = EvDBDelete repo_id (event_digest ev)
       ∨ ev = EvStorageDelete (Account_Name account) (Repository_Name repo) (event_digest ev))
      ∧ event_digest ev ∈ D0).

Lemma sync_pass_only_D0 keys : ∀ st b st' b' e,
  (∀ k, k ∈ keys → k ∈ D0) → only_D0 st →
  sync_pass j account repo parentDigestsOf keys st b = (st', b', e) → only_D0 st'.
Proof.
  induction keys as [|digest keys IH]; intros st b st' b' e Hkeys HI; simpl.
  - by intros [= <- _ _].
  - assert (digest ∈ D0) as Hd by (apply Hkeys; left).
    assert (∀ k, k ∈ keys → k ∈ D0) as Hkeys' by (intros k Hk; apply Hkeys; by right).
    destruct (still_referenced _ _ _); [by apply IH|].
    unfold delete_manifest. destruct (faults j _); [by intros [= <- _ _]|].
    destruct (referenced_as_child _ _ _); [by intros [= <- _ _]|].
    destruct HI as [Hdom Hev].
    assert (∀ ev, ev ∈ sync_trace st ++ [EvDBDelete repo_id digest] →
              (ev = EvDBDelete repo_id (event_digest ev)
               ∨ ev = EvStorageDelete (Account_Name account) (Repository_Name repo)
                        (event_digest ev))
              ∧ event_digest ev ∈ D0) as Hev1.
    { intros ev [?| ->%list_elem_of_singleton]%elem_of_app; [by apply Hev|].
      simpl. split; [by left|done]. }
    destruct (sd_DeleteManifest j _ _ _).
    + intros [= <- _ _]. simpl. done.
    + apply IH; [done|]. simpl. split.
      * rewrite dom_delete_L. intros k [Hk _]%elem_of_difference. by apply Hdom.
      * intros ev [?| ->%list_elem_of_singleton]%elem_of_app; [by apply Hev1|].
        simpl. split; [by right|done].
Qed.

(** The accounts, repositories, blobs and blob mounts stay as they are in
    [db]. *)
Lemma sync_pass_tables keys : ∀ st b st' b' e,
  same_owners db (sync_db st) →
  sync_pass j account repo parentDigestsOf keys st b = (st', b', e) →
  same_owners db (sync_db st').
Proof.
  induction keys as [|digest keys IH]; intros st b st' b' e HI; simpl.
  - by intros [= <- _ _].
  - destruct (still_referenced _ _ _); [by apply IH|].
    unfold delete_manifest. destruct (faults j _); [by intros [= <- _ _]|].
    destruct (referenced_as_child _ _ _); [by intros [= <- _ _]|].
    destruct (sd_DeleteManifest j _ _ _).
    + by intros [= <- _ _].
    + by apply IH.
Qed.

(** The tables are those of [db] without the manifests of [D0] that are
    no longer in [shallDeleteManifest], and each of these has its two
    deletions in the trace. *)
Local Abbreviation removed := (fun st : SyncState =>
  sync_db st = without_manifests repo_id (D0 ∖ dom (shallDeleteManifest st)) db
  ∧ ∀ d, d ∈ D0 ∖ dom (shallDeleteManifest st) →
      EvDBDelete repo_id d ∈ sync_trace st
      ∧ EvStorageDelete (Account_Name account) (Repository_Name repo) d ∈ sync_trace st).

Lemma sync_pass_removed keys : ∀ st b st' b',
  (∀ k, k ∈ keys → k ∈ D0) → removed st →
  sync_pass j account repo parentDigestsOf keys st b = (st', b', None) → removed st'.
Proof.
  induction keys as [|digest keys IH]; intros st b st' b' Hkeys HI; simpl.
  - by intros [= <- _].
  - assert (digest ∈ D0) as Hd by (apply Hkeys; left).
    assert (∀ k, k ∈ keys → k ∈ D0) as Hkeys' by (intros k Hk; apply Hkeys; by right).
    destruct (still_referenced _ _ _); [by apply IH|].
    unfold delete_manifest. destruct (faults j _); [done|].
    destruct (referenced_as_child _ _ _); [done|].
    destruct (sd_DeleteManifest j _ _ _); [done|].
    apply IH; [done|]. destruct HI as [Hdb Hev]. simpl. split.
    + rewrite Hdb, delete_from_without. f_equal.
      apply set_eq. intros x.
      rewrite dom_delete_L, elem_of_union, !elem_of_difference, elem_of_singleton.
      destruct (decide (x = digest)) as [->|Hne]; tauto.
    + intros d. rewrite dom_delete_L, !elem_of_difference, elem_of_singleton.
      intros [HD Hnot].
      destruct (decide (d = digest)) as [->|Hne].
      * split; apply elem_of_app.
        -- left. apply elem_of_app. right. by apply list_elem_of_singleton.
        -- right. by apply list_elem_of_singleton.
      * destruct (Hev d) as [H1 H2].
        { apply elem_of_difference. split; [done|]. intros Hin. apply Hnot. done. }
        split; apply elem_of_app; left; apply elem_of_app; by left.
Qed.

Hypothesis range_order_perm : ∀ s : gset string, range_order j s ≡ₚ elements s.

Lemma range_order_in s k : k ∈ range_order j s ↔ k ∈ s.
Proof. rewrite range_order_perm. apply elem_of_elements. Qed.

Lemma sync_loop_only_D0 fuel : ∀ st st' e,
  only_D0 st → sync_loop fuel j account repo parentDigestsOf st = Some (st', e) → only_D0 st'.
Proof.
  induction fuel as [|fuel IH]; intros st st' e HI; simpl.
  - case_decide; [by intros [= <- _]|done].
  - case_decide; [by intros [= <- _]|].
    assert (∀ k, k ∈ range_order j (dom (shallDeleteManifest st)) → k ∈ D0) as Hkeys.
    { intros k Hk%range_order_in. destruct HI as [Hdom _]. by apply Hdom. }
    destruct (sync_pass _ _ _ _ _ _ _) as [[st1 b'] [err|]] eqn:Hpass.
    + intros [= <- _]. by eapply sync_pass_only_D0.
    + destruct b'; simpl.
      * apply IH. by eapply sync_pass_only_D0.
      * intros [= <- _]. by eapply sync_pass_only_D0.
Qed.

Lemma sync_loop_tables fuel : ∀ st st' e,
  same_owners db (sync_db st) →
  sync_loop fuel j account repo parentDigestsOf st = Some (st', e) →
  same_owners db (sync_db st').
Proof.
  induction fuel as [|fuel IH]; intros st st' e HI; simpl.
  - case_decide; [by intros [= <- _]|done].
  - case_decide; [by intros [= <- _]|].
    destruct (sync_pass _ _ _ _ _ _ _) as [[st1 b'] [err|]] eqn:Hpass.
    + intros [= <- _]. by eapply sync_pass_tables.
    + destruct b'; simpl.
      * apply IH. by eapply sync_pass_tables.
      * intros [= <- _]. by eapply sync_pass_tables.
Qed.

Lemma sync_loop_removed fuel : ∀ st st',
  only_D0 st → removed st →
  sync_loop fuel j account repo parentDigestsOf st = Some (st', None) → removed st'.
Proof.
  induction fuel as [|fuel IH]; intros st st' HD HI; simpl.
  - case_decide; [by intros [= <-]|done].
  - case_decide; [by intros [= <-]|].
    assert (∀ k, k ∈ range_order j (dom (shallDeleteManifest st)) → k ∈ D0) as Hkeys.
    { intros k Hk%range_order_in. destruct HD as [Hdom _]. by apply Hdom. }
    destruct (sync_pass _ _ _ _ _ _ _) as [[st1 b'] [err|]] eqn:Hpass; [done|].
    destruct b'; simpl; [|done].
    apply IH.
    + by eapply sync_pass_only_D0.
    + by eapply sync_pass_removed.
Qed.

End deletions.

(** [performManifestSync] returns whenever the map iteration yields the
    keys of the map. *)
Lemma performManifestSync_returns j account repo db :
  (∀ s : gset string, range_order j s ≡ₚ elements s) →
  ∃ st e, performManifestSync j account repo db = Some (st, e).
Proof.
  intros Hperm. unfold performManifestSync.
  destruct (sync_prepare j account repo db) as [err|[shallDelete parentDigestsOf]]; [eauto|].
  apply manifest_sync.sync_loop_terminates; [done|]. simpl. lia.
Qed.

(** Its errors are made by [fmt.Errorf]: none is [sql.ErrNoRows]. *)
Lemma performManifestSync_Errorf j account repo db st err :
  (∀ s : gset string, range_order j s ≡ₚ elements s) →
  performManifestSync j account repo db = Some (st, Some err) → ∃ msg, err = Errorf msg.
Proof.
  intros Hperm. unfold performManifestSync.
  destruct (sync_prepare j account repo db) as [e|[shallDelete parentDigestsOf]] eqn:Hprep.
  { intros [= _ <-]. by eapply sync_prepare_Errorf. }
  intros Hloop. by eapply sync_loop_Errorf.
Qed.

Lemma performManifestSync_tables j account repo db st e :
  performManifestSync j account repo db = Some (st, e) → same_owners db (sync_db st).
Proof.
  unfold performManifestSync.
  destruct (sync_prepare j account repo db) as [err|[shallDelete parentDigestsOf]].
  { intros [= <- _]. apply same_owners_refl. }
  intros Hloop. eapply sync_loop_tables; [|exact Hloop]. apply same_owners_refl.
Qed.

(** X7.  [performManifestSync] deletes nothing but manifests of the
    repository for which the primary account has answered that it does
    not have them: every deletion in the database is of this repo, every
    deletion in the storage is of this account and repo, and the digest
    is that of a manifest row of the repo that is gone upstream. *)
Theorem performManifestSync_deletes_only_gone_manifests
    (j : Janitor) (account : Account) (repo : Repository) (db : DB)
    (st : SyncState) (e : option error) :
  (∀ s : gset string, range_order j s ≡ₚ elements s) →
  performManifestSync j account repo db = Some (st, e) →
  ∀ ev, ev ∈ sync_trace st →
    (ev = EvDBDelete (Repository_ID repo) (event_digest ev)
     ∨ ev = EvStorageDelete (Account_Name account) (Repository_Name repo) (event_digest ev))
    ∧ ∃ m, m ∈ manifests db
         ∧ Manifest_RepositoryID m = Repository_ID repo
         ∧ Manifest_Digest m = event_digest ev
         ∧ gone_upstream j account repo (event_digest ev).
Proof.
  intros Hperm. unfold performManifestSync.
  destruct (sync_prepare j account repo db) as [err|[shallDelete parentDigestsOf]] eqn:Hprep.
  { intros [= <- _] ev Hev. by apply elem_of_nil in Hev. }
  intros Hloop ev Hev.
  eapply (sync_loop_only_D0 j account repo parentDigestsOf (dom shallDelete) Hperm) in Hloop.
  - destruct Hloop as [_ Hall]. destruct (Hall ev Hev) as [Hshape Hin].
    split; [done|]. by apply (manifest_sync.sync_prepare_dom _ _ _ _ _ _ Hprep) in Hin.
  - simpl. split; [done|]. intros ev0 Hev0. by apply elem_of_nil in Hev0.
Qed.

Lemma performManifestSync_deletes_only_gone_manifests_witness :
  (∀ s : gset string, range_order examples.janitor_200000 s ≡ₚ elements s)
  ∧ ∃ st e,
      performManifestSync examples.janitor_200000 examples.account_replica
        examples.repo_replica examples.replica_db = Some (st, e)
      ∧ (EvDBDelete 7 "sha256:list" ∈ sync_trace st)
      ∧ ∀ ev, ev ∈ sync_trace st →
          (ev = EvDBDelete 7 (event_digest ev)
           ∨ ev = EvStorageDelete "replica1" "app" (event_digest ev))
          ∧ ∃ m, m ∈ manifests examples.replica_db
               ∧ Manifest_RepositoryID m = 7
               ∧ Manifest_Digest m = event_digest ev
               ∧ gone_upstream examples.janitor_200000 examples.account_replica
                   examples.repo_replica (event_digest ev).
Proof.
  split; [intros s; reflexivity|].
  destruct (performManifestSync examples.janitor_200000 examples.account_replica
              examples.repo_replica examples.replica_db) as [[st e]|] eqn:E.
  - exists st, e. split; [reflexivity|]. split.
    + vm_compute in E. injection E as <- _. left.
    + apply (performManifestSync_deletes_only_gone_manifests examples.janitor_200000
               examples.account_replica examples.repo_replica examples.replica_db st e);
        [intros s; reflexivity|exact E].
  - vm_compute in E. discriminate E.
Defined.

(** X8.  [performManifestSync] deletes nothing unless the primary account
    has answered for every manifest of the repository: if the check of
    one manifest fails, the call returns an error, the tables are as
    before and no deletion has happened, whatever the primary said about
    the other manifests. *)
Theorem performManifestSync_needs_every_answer
    (j : Janitor) (account : Account) (repo : Repository) (db : DB)
    (m : Manifest) (err : error) :
  m ∈ manifests db →
  Manifest_RepositoryID m = Repository_ID repo →
  CheckManifestOnPrimary j account repo (mkManifestReference (Manifest_Digest m) "") = inl err →
  ∃ e, performManifestSync j account repo db = Some (mkSyncState ∅ ∅ db [], Some e).
Proof.
  intros Hin Hid Hc. unfold performManifestSync, sync_prepare, query.
  destruct (faults j (StmtSelectManifests _)); [eauto|].
  destruct (check_manifests_error j account repo
              (filter (fun m => Manifest_RepositoryID m = Repository_ID repo) (manifests db))
              ∅ m err) as [e ->]; [by apply list_elem_of_filter|done|eauto].
Qed.

Lemma performManifestSync_needs_every_answer_witness :
  (examples.image "sha256:list" ∈ manifests examples.replica_db
   ∧ Manifest_RepositoryID (examples.image "sha256:list")
     = Repository_ID examples.repo_replica
   ∧ CheckManifestOnPrimary examples.janitor_primary_down examples.account_replica
       examples.repo_replica (mkManifestReference "sha256:list" "")
     = inl (DriverErr "primary is down"))
  ∧ ∃ e, performManifestSync examples.janitor_primary_down examples.account_replica
           examples.repo_replica examples.replica_db
         = Some (mkSyncState ∅ ∅ examples.replica_db [], Some e).
Proof.
  assert (examples.image "sha256:list" ∈ manifests examples.replica_db) as Hin.
  { right. left. }
  split; [split; [exact Hin|split; reflexivity]|].
  apply (performManifestSync_needs_every_answer examples.janitor_primary_down
           examples.account_replica examples.repo_replica examples.replica_db
           (examples.image "sha256:list") (DriverErr "primary is down"));
    [exact Hin|reflexivity|reflexivity].
Defined.

(** X9.  When [performManifestSync] returns nil, the tables are those it
    started from without the manifests of the deletion set and what the
    database deletes with their rows: the manifests table has lost
    exactly the rows of the repository whose manifest is gone upstream
    (the other rows are there in their old order), the tags that pointed
    to those manifests and the reference rows derived from them are gone,
    and accounts, repositories, blobs and blob mounts are as before.
    Each of those manifests was deleted from the database and from the
    storage. *)
Theorem performManifestSync_removes_gone_manifests
    (j : Janitor) (account : Account) (repo : Repository) (db : DB) (st : SyncState) :
  (∀ s : gset string, range_order j s ≡ₚ elements s) →
  performManifestSync j account repo db = Some (st, None) →
  sync_db st = without_manifests (Repository_ID repo) (deletion_set j account repo db) db
  ∧ manifests (sync_db st)
    = filter (fun m => ¬ (Manifest_RepositoryID m = Repository_ID repo
                          ∧ gone_upstream j account repo (Manifest_Digest m)))
             (manifests db)
  ∧ ∀ m, m ∈ manifests db →
      Manifest_RepositoryID m = Repository_ID repo →
      gone_upstream j account repo (Manifest_Digest m) →
      EvDBDelete (Repository_ID repo) (Manifest_Digest m) ∈ sync_trace st
      ∧ EvStorageDelete (Account_Name account) (Repository_Name repo) (Manifest_Digest m)
        ∈ sync_trace st.
Proof.
  intros Hperm Hsync.
  unfold performManifestSync in Hsync.
  destruct (sync_prepare j account repo db) as [err|[shallDelete parentDigestsOf]] eqn:Hprep;
    [done|].
  pose proof (manifest_sync.sync_prepare_deletion_set _ _ _ _ _ _ Hprep) as Hdom.
  pose proof (sync_loop_done _ _ _ _ _ _ _ Hsync) as Hend.
  eapply (sync_loop_removed j account repo db parentDigestsOf (dom shallDelete) Hperm)
    in Hsync.
  - destruct Hsync as [Hdb Hev].
    rewrite Hend, dom_empty_L, difference_empty_L, Hdom in Hdb, Hev.
    split; [done|]. split.
    + rewrite Hdb. simpl. apply filter_iff_elem. intros m Hm.
      rewrite manifest_sync.elem_of_deletion_set. split.
      * intros Hno [Hid Hg]. apply Hno. split; [done|]. exists m. done.
      * intros Hno [Hid (m' & _ & _ & _ & Hg)]. by apply Hno.
    + intros m Hm Hid Hg. apply Hev. apply manifest_sync.elem_of_deletion_set. by exists m.
  - simpl. split; [done|]. intros ev Hev. by apply elem_of_nil in Hev.
  - simpl. rewrite difference_diag_L. split.
    + symmetry. apply without_no_manifests.
    + intros d Hin. by apply elem_of_empty in Hin.
Qed.

(** X9 on the replica repository whose three manifests are gone upstream:
    the tag of the manifest list goes with them. *)
Lemma performManifestSync_removes_gone_manifests_witness :
  (∀ s : gset string, range_order examples.janitor_200000 s ≡ₚ elements s)
  ∧ ∃ st,
      performManifestSync examples.janitor_200000 examples.account_replica
        examples.repo_replica examples.replica_db = Some (st, None)
      ∧ tags examples.replica_db = [mkTag 7 "latest" "sha256:list" 1000]
      ∧ tags (sync_db st) = []
      ∧ sync_db st
        = without_manifests 7
            (deletion_set examples.janitor_200000 examples.account_replica
               examples.repo_replica examples.replica_db)
            examples.replica_db.
Proof.
  split; [intros s; reflexivity|].
  destruct (performManifestSync examples.janitor_200000 examples.account_replica
              examples.repo_replica examples.replica_db) as [[st [err|]]|] eqn:E.
  - vm_compute in E. discriminate E.
  - exists st. split; [reflexivity|]. split; [reflexivity|]. split.
    + vm_compute in E. injection E as <-. reflexivity.
    + apply (performManifestSync_removes_gone_manifests examples.janitor_200000
               examples.account_replica examples.repo_replica examples.replica_db st);
        [intros s; reflexivity|exact E].
  - vm_compute in E. discriminate E.
Defined.

#[local] Instance nulls_first_order_total : Total nulls_first_order.
Proof. intros [a|] [b|]; simpl; auto. lia. Qed.

#[local] Instance nulls_first_order_trans : Transitive nulls_first_order.
Proof. intros [a|] [b|] [c|]; simpl; auto; try done. lia. Qed.

#[local] Instance sync_repo_order_total : Total sync_repo_order.
Proof. intros a b. apply nulls_first_order_total. Qed.

#[local] Instance sync_repo_order_trans : Transitive sync_repo_order.
Proof. intros a b c. apply nulls_first_order_trans. Qed.

(** What [syncManifestRepoSelectQuery] returns. *)
Lemma sync_repo_query_result now db :
  ((∀ r, r ∈ repos db → sync_due now db r = false)
   ∧ syncManifestRepoSelectQuery now db = [])
  ∨ (∃ repo, syncManifestRepoSelectQuery now db = [repo]
       ∧ repo ∈ repos db ∧ sync_due now db repo = true
       ∧ ∀ r, r ∈ repos db → sync_due now db r = true → sync_repo_order repo r).
Proof.
  unfold syncManifestRepoSelectQuery.
  destruct (validation_sweep.limit_1_sorted sync_repo_order
              (filter (fun r => sync_due now db r = true) (repos db)))
    as [[Hnil ->]|(repo & -> & Hin & Hmin)].
  - left. split; [|done]. intros r Hr.
    destruct (sync_due now db r) eqn:E; [|done].
    assert (r ∈ filter (fun r => sync_due now db r = true) (repos db)) as H
      by by apply list_elem_of_filter.
    rewrite Hnil in H. by apply elem_of_nil in H.
  - right. exists repo. apply list_elem_of_filter in Hin as [??].
    split; [done|]. split; [done|]. split; [done|].
    intros r Hr Hdue. apply Hmin. by apply list_elem_of_filter.
Qed.

Lemma wrap_sweep_error_Errorf prefix msg :
  wrap_sweep_error prefix (Some (Errorf msg)) = Some (Errorf (prefix +:+ msg)).
Proof. unfold wrap_sweep_error. by rewrite decide_False. Qed.

Lemma wrap_sweep_error_DriverErr prefix msg :
  wrap_sweep_error prefix (Some (DriverErr msg)) = Some (Errorf (prefix +:+ msg)).
Proof. unfold wrap_sweep_error. by rewrite decide_False. Qed.

(** X10.  [SyncManifestsInNextRepo] returns (with enough passes of the
    deletion loop), and when the database answers its first query it
    returns [sql.ErrNoRows] exactly when no repository of a replica
    account is due; in that case it has changed and deleted nothing. *)
Theorem sync_sweep_is_idle_iff_nothing_is_due (j : Janitor) (db : DB) :
  (∀ s : gset string, range_order j s ≡ₚ elements s) →
  faults j StmtSelectSyncRepo = None →
  ∃ db' trace e,
    SyncManifestsInNextRepo j db = Some (db', trace, e)
    ∧ (e = Some ErrNoRows ↔ ∀ r, r ∈ repos db → sync_due (timeNow j 0) db r = false)
    ∧ (e = Some ErrNoRows → db' = db ∧ trace = []).
Proof.
  intros Hperm Hsel.
  unfold SyncManifestsInNextRepo, SyncManifestsInNextRepo_body, selectOne, query.
  rewrite Hsel.
  destruct (sync_repo_query_result (timeNow j 0) db)
    as [[Hnone ->]|(repo & -> & Hin & Hdue & _)]; simpl.
  { eexists _, _, _. split; [reflexivity|]. simpl. done. }
  assert (¬ ∀ r, r ∈ repos db → sync_due (timeNow j 0) db r = false) as Hnot.
  { intros H. specialize (H repo Hin). congruence. }
  destruct (findAccount j db (Repository_AccountName repo)) as [err|account].
  { eexists _, _, _. split; [reflexivity|]. rewrite wrap_sweep_error_Errorf.
    split; [split; [done|by intros ?]|done]. }
  assert (∀ (db1 : DB) (trace : list Event),
            ∃ db' e,
              match
                match exec j (StmtSyncDone (Repository_ID repo))
                        (syncManifestDoneQuery (Repository_ID repo) (timeNow j 1 + 1 * Hour) db1)
                with
                | inl err => Some (db1, trace, Some err)
                | inr db2 => Some (db2, trace, None)
                end
              with
              | Some (db', trace, returnErr) =>
                  Some (db', trace,
                        wrap_sweep_error "while syncing manifests in a replica repo: " returnErr)
              | None => None
              end = Some (db', trace, e) ∧ e ≠ Some ErrNoRows) as Hdone.
  { intros db1 trace. unfold exec. destruct (faults j (StmtSyncDone _)).
    - eexists _, _. split; [reflexivity|]. by rewrite wrap_sweep_error_DriverErr.
    - eexists _, _. split; [reflexivity|]. done. }
  destruct (Account_InMaintenance account).
  { destruct (Hdone db []) as (db' & e & -> & Hne). exists db', [], e.
    split; [done|]. split; [split; [done|by intros ?]|done]. }
  destruct (performManifestSync_returns j account repo db Hperm) as (st & e & Hsync).
  rewrite Hsync. destruct e as [err|].
  - destruct (performManifestSync_Errorf _ _ _ _ _ _ Hperm Hsync) as [msg ->].
    eexists _, _, _. split; [reflexivity|]. rewrite wrap_sweep_error_Errorf.
    split; [split; [done|by intros ?]|done].
  - destruct (Hdone (sync_db st) (sync_trace st)) as (db' & e & -> & Hne).
    exists db', (sync_trace st), e.
    split; [done|]. split; [split; [done|by intros ?]|done].
Qed.

Lemma sync_sweep_is_idle_iff_nothing_is_due_witness :
  ((∀ s : gset string, range_order examples.janitor_200000 s ≡ₚ elements s)
   ∧ faults examples.janitor_200000 StmtSelectSyncRepo = None)
  ∧ ∃ db' trace e,
      SyncManifestsInNextRepo examples.janitor_200000 examples.fixture_db
      = Some (db', trace, e)
      ∧ (e = Some ErrNoRows
         ↔ ∀ r, r ∈ repos examples.fixture_db →
                sync_due (timeNow examples.janitor_200000 0) examples.fixture_db r = false)
      ∧ (e = Some ErrNoRows → db' = examples.fixture_db ∧ trace = []).
Proof.
  split; [split; [intros s; reflexivity|reflexivity]|].
  apply (sync_sweep_is_idle_iff_nothing_is_due examples.janitor_200000 examples.fixture_db);
    [intros s; reflexivity|reflexivity].
Defined.

(** X11.  [SyncManifestsInNextRepo] moves the schedule of the repository
    it selected exactly when it returns nil: then the repo's
    [next_manifest_sync_at] is the current time plus one hour; after an
    error the repos table is as before and the repository is still due at
    every later time.  The accounts are never changed.  In an account
    that is in maintenance nothing is deleted and no manifest row
    changes, yet the schedule moves. *)
Theorem sync_sweep_reschedules_after_success_only
    (j : Janitor) (db : DB) (repo : Repository) (db' : DB)
    (trace : list Event) (e : option error) :
  selectOne j StmtSelectSyncRepo (syncManifestRepoSelectQuery (timeNow j 0) db) = inr repo →
  SyncManifestsInNextRepo j db = Some (db', trace, e) →
  accounts db' = accounts db
  ∧ (e = None →
     repos db'
     = repos (syncManifestDoneQuery (Repository_ID repo) (timeNow j 1 + 1 * Hour) db))
  ∧ (e ≠ None →
     repos db' = repos db
     ∧ ∀ now, timeNow j 0 ≤ now → sync_due now db' repo = true)
  ∧ (∀ account,
       findAccount j db (Repository_AccountName repo) = inr account →
       Account_InMaintenance account = true →
       trace = [] ∧ manifests db' = manifests db).
Proof.
  intros Hsel.
  assert (∀ now db1, accounts db1 = accounts db → timeNow j 0 ≤ now →
            sync_due now db1 repo = true) as Hstill.
  { intros now db1 Hacc Hnow. unfold selectOne, query in Hsel.
    destruct (faults j StmtSelectSyncRepo); [done|].
    destruct (sync_repo_query_result (timeNow j 0) db)
      as [[_ Hq]|(repo' & Hq & _ & Hdue & _)]; rewrite Hq in Hsel; [done|].
    injection Hsel as ->. unfold sync_due in *. rewrite Hacc.
    apply andb_true_iff in Hdue as [Hdue ->]. rewrite andb_true_r.
    destruct (Repository_NextManifestSyncAt repo); [|done].
    apply bool_decide_eq_true in Hdue. apply bool_decide_eq_true. lia. }
  unfold SyncManifestsInNextRepo, SyncManifestsInNextRepo_body. rewrite Hsel.
  destruct (findAccount j db (Repository_AccountName repo)) as [err|account].
  { rewrite wrap_sweep_error_Errorf. intros [= <- <- <-].
    split; [done|]. split; [done|]. split; [|done].
    intros _. split; [done|]. intros now. by apply Hstill. }
  assert (∀ (db1 : DB) (tr : list Event),
            same_owners db db1 →
            match
              match exec j (StmtSyncDone (Repository_ID repo))
                      (syncManifestDoneQuery (Repository_ID repo) (timeNow j 1 + 1 * Hour) db1)
              with
              | inl err => Some (db1, tr, Some err)
              | inr db2 => Some (db2, tr, None)
              end
            with
            | Some (db', trace, returnErr) =>
                Some (db', trace,
                      wrap_sweep_error "while syncing manifests in a replica repo: " returnErr)
            | None => None
            end = Some (db', trace, e) →
            trace = tr ∧ manifests db' = manifests db1
            ∧ accounts db' = accounts db
            ∧ (e = None →
               repos db'
               = repos (syncManifestDoneQuery (Repository_ID repo)
                          (timeNow j 1 + 1 * Hour) db))
            ∧ (e ≠ None →
               repos db' = repos db
               ∧ ∀ now, timeNow j 0 ≤ now → sync_due now db' repo = true)) as Hdone.
  { intros db1 tr (Hacc & Hrepos & _). unfold exec.
    destruct (faults j (StmtSyncDone _)).
    - rewrite wrap_sweep_error_DriverErr. intros [= <- <- <-].
      split; [done|]. split; [done|]. split; [done|]. split; [done|].
      intros _. split; [done|]. intros now. by apply Hstill.
    - intros [= <- <- <-]. simpl.
      split; [done|]. split; [done|]. split; [done|]. split; [|done].
      intros _. by rewrite Hrepos. }
  destruct (Account_InMaintenance account) eqn:Hmaint.
  { intros H. apply Hdone in H as (-> & Hms & Hacc & Hok & Herr);
      [|apply same_owners_refl].
    split; [done|]. split; [done|]. split; [done|].
    intros account' [= <-] _. done. }
  destruct (performManifestSync j account repo db) as [[st [err|]]|] eqn:Hsync; [| |done].
  - pose proof (performManifestSync_tables _ _ _ _ _ _ Hsync) as (Hacc & Hrepos & _).
    intros [= <- <- <-].
    split; [done|]. split.
    { intros He. unfold wrap_sweep_error in He. by case_decide. }
    split.
    { intros _. split; [done|]. intros now. by apply Hstill. }
    intros account' [= <-] Hm. congruence.
  - pose proof (performManifestSync_tables _ _ _ _ _ _ Hsync) as Htables.
    intros H. apply Hdone in H as (-> & Hms & Hacc & Hok & Herr); [|done].
    split; [done|]. split; [done|]. split; [done|].
    intros account' [= <-] Hm. congruence.
Qed.

Lemma sync_sweep_reschedules_after_success_only_witness :
  selectOne examples.janitor_200000 StmtSelectSyncRepo
    (syncManifestRepoSelectQuery (timeNow examples.janitor_200000 0) examples.maintenance_db)
  = inr examples.repo_foo
  ∧ ∃ db',
      SyncManifestsInNextRepo examples.janitor_200000 examples.maintenance_db
      = Some (db', [], None)
      ∧ repos db' = [mkRepository 1 "test1" "foo" (Some 203600)]
      ∧ manifests db' = manifests examples.maintenance_db.
Proof.
  split; [vm_compute; reflexivity|].
  destruct (SyncManifestsInNextRepo examples.janitor_200000 examples.maintenance_db)
    as [[[db' trace] e]|] eqn:E; [|vm_compute in E; discriminate E].
  destruct (sync_sweep_reschedules_after_success_only examples.janitor_200000
              examples.maintenance_db examples.repo_foo db' trace e)
    as (_ & Hok & _ & Hmaint); [vm_compute; reflexivity|exact E|].
  destruct (Hmaint examples.account_maintenance) as [-> Hms];
    [vm_compute; reflexivity|reflexivity|].
  assert (e = None) as -> by (vm_compute in E; by injection E as _ <-).
  exists db'. split; [reflexivity|]. split; [|exact Hms].
  rewrite Hok by reflexivity. vm_compute. reflexivity.
Defined.

Section once.
Context (j : Janitor) (account : Account) (repo : Repository).
Context (parentDigestsOf : gmap string (list string)).

(** No deletion is in the trace twice, and none is of a manifest that is
    still in [shallDeleteManifest]. *)
Local Abbreviation fresh := (fun st : SyncState =>
  NoDup (sync_trace st)
  ∧ ∀ ev, ev ∈ sync_trace st → event_digest ev ∉ dom (shallDeleteManifest st)).

Lemma sync_pass_once keys : ∀ st b st' b' e,
  NoDup keys → (∀ k, k ∈ keys → k ∈ dom (shallDeleteManifest st)) → fresh st →
  sync_pass j account repo parentDigestsOf keys st b = (st', b', e) →
  NoDup (sync_trace st') ∧ (e = None → fresh st').
Proof.
  induction keys as [|digest keys IH]; intros st b st' b' e Hnd Hkeys HI; simpl.
  - intros [= <- _ <-]. split; [by destruct HI|done].
  - apply NoDup_cons in Hnd as [Hnotin Hnd].
    assert (∀ k, k ∈ keys → k ∈ dom (shallDeleteManifest st)) as Hkeys'
      by (intros k Hk; apply Hkeys; by right).
    destruct (still_referenced _ _ _); [by apply IH|].
    unfold delete_manifest.
    destruct (faults j _); [intros [= <- _ <-]; split; [by destruct HI|done]|].
    destruct (referenced_as_child _ _ _); [intros [= <- _ <-]; split; [by destruct HI|done]|].
    destruct HI as [Hnodup Hfresh].
    assert (∀ ev, ev ∈ sync_trace st → event_digest ev ≠ digest) as Hnew.
    { intros ev Hev Heq. apply (Hfresh ev Hev). rewrite Heq. apply Hkeys. left. }
    assert (NoDup (sync_trace st ++ [EvDBDelete (Repository_ID repo) digest])) as Hnodup1.
    { apply NoDup_app. split; [done|]. split; [|apply NoDup_singleton].
      intros ev Hev ->%list_elem_of_singleton. by apply (Hnew _ Hev). }
    destruct (sd_DeleteManifest j _ _ _).
    + intros [= <- _ <-]. simpl. done.
    + apply IH; [done| |].
      * simpl. intros k Hk. rewrite dom_delete_L. apply elem_of_difference.
        split; [by apply Hkeys'|]. intros ->%elem_of_singleton. done.
      * simpl. split.
        -- apply NoDup_app. split; [done|]. split; [|apply NoDup_singleton].
           intros ev [Hev| ->%list_elem_of_singleton]%elem_of_app
             Heq%list_elem_of_singleton; [|done].
           subst ev. by apply (Hnew _ Hev).
        -- intros ev Hev. rewrite dom_delete_L. intros [Hin Hne]%elem_of_difference.
           apply Hne, elem_of_singleton.
           apply elem_of_app in Hev as [[Hev| ->%list_elem_of_singleton]%elem_of_app
                                       | ->%list_elem_of_singleton]; [|done|done].
           by destruct (Hfresh ev Hev).
Qed.

Hypothesis range_order_perm : ∀ s : gset string, range_order j s ≡ₚ elements s.

Lemma sync_loop_once fuel : ∀ st st' e,
  fresh st → sync_loop fuel j account repo parentDigestsOf st = Some (st', e) →
  NoDup (sync_trace st').
Proof.
  induction fuel as [|fuel IH]; intros st st' e HI; simpl.
  - case_decide; [|done]. intros [= <- _]. by destruct HI.
  - case_decide; [intros [= <- _]; by destruct HI|].
    destruct (sync_pass _ _ _ _ _ _ _) as [[st1 b'] err] eqn:Hpass.
    apply sync_pass_once in Hpass as [Hnodup Hfresh]; [| | |done].
    + destruct err as [err|]; [by intros [= <- _]|].
      destruct b'; simpl; [|by intros [= <- _]].
      apply IH. by apply Hfresh.
    + by apply manifest_sync.range_order_NoDup.
    + intros k. by apply manifest_sync.range_order_elem.
Qed.

End once.

(** X26.  [performManifestSync] deletes no manifest twice: in the
    sequence of its deletions, every deletion from the database and every
    deletion from the storage occurs once. *)
Theorem performManifestSync_deletes_each_manifest_once
    (j : Janitor) (account : Account) (repo : Repository) (db : DB)
    (st : SyncState) (e : option error) :
  (∀ s : gset string, range_order j s ≡ₚ elements s) →
  performManifestSync j account repo db = Some (st, e) →
  NoDup (sync_trace st).
Proof.
  intros Hperm. unfold performManifestSync.
  destruct (sync_prepare j account repo db) as [err|[shallDelete parentDigestsOf]].
  { intros [= <- _]. apply NoDup_nil_2. }
  intros Hloop.
  eapply (sync_loop_once j account repo parentDigestsOf Hperm); [|exact Hloop].
  simpl. split; [apply NoDup_nil_2|]. intros ev Hev. by apply elem_of_nil in Hev.
Qed.

Lemma performManifestSync_deletes_each_manifest_once_witness :
  (∀ s : gset string, range_order examples.janitor_200000 s ≡ₚ elements s)
  ∧ ∃ st e,
      performManifestSync examples.janitor_200000 examples.account_replica
        examples.repo_replica examples.replica_db = Some (st, e)
      ∧ length (sync_trace st) = 6%nat
      ∧ NoDup (sync_trace st).
Proof.
  split; [intros s; reflexivity|].
  destruct (performManifestSync examples.janitor_200000 examples.account_replica
              examples.repo_replica examples.replica_db) as [[st e]|] eqn:E.
  - exists st, e. split; [reflexivity|]. split.
    + vm_compute in E. injection E as <- _. reflexivity.
    + apply (performManifestSync_deletes_each_manifest_once examples.janitor_200000
               examples.account_replica examples.repo_replica examples.replica_db st e);
        [intros s; reflexivity|exact E].
  - vm_compute in E. discriminate E.
Defined.

End replica_sync.

(* ===================================================================== *)
(** * Theorems: when the sweeps are idle, and the schedule of the vulnerability check *)
(* ===================================================================== *)

Module sweep_schedule.
Import keppel tasks.

Lemma wrap_sweep_error_is_ErrNoRows prefix returnErr :
  wrap_sweep_error prefix returnErr = Some ErrNoRows ↔ returnErr = Some ErrNoRows.
Proof.
  unfold wrap_sweep_error. destruct returnErr as [err|]; [|done].
  case_decide as H; [by subst|]. split; [done|]. intros [= ->]. done.
Qed.

Lemma wrap_sweep_error_shape prefix returnErr err :
  wrap_sweep_error prefix returnErr = Some err →
  err = ErrNoRows ∨ ∃ msg, err = Errorf (prefix +:+ msg).
Proof.
  unfold wrap_sweep_error. destruct returnErr as [e|]; [|done].
  case_decide; intros [= <-]; eauto.
Qed.

(** When the body of [ValidateNextManifest] returns [sql.ErrNoRows]. *)
Lemma ValidateNextManifest_body_idle j db :
  faults j StmtSelectOutdatedManifest = None →
  ((ValidateNextManifest_body j db).2 = Some ErrNoRows
   ↔ nothing_to_validate j db
     ∨ ∃ manifest repo account,
         sweep_validates j db manifest repo account
         ∧ ValidateExistingManifest j account repo manifest (timeNow j 2) = Some ErrNoRows
         ∧ faults j (StmtUpdateValidation (Repository_ID repo) (Manifest_Digest manifest))
           = None)
  ∧ (nothing_to_validate j db → (ValidateNextManifest_body j db).1 = db).
Proof.
  intros Hsel.
  unfold ValidateNextManifest_body, sweep_validates, nothing_to_validate.
  assert (∀ rows : list Manifest,
            selectOne j StmtSelectOutdatedManifest rows = SelectOne rows) as Hq.
  { intros rows. unfold selectOne, query. by rewrite Hsel. }
  rewrite !Hq.
  destruct (validation_sweep.query_result (timeNow j 0 - 24 * Hour)
              (timeNow j 1 - 10 * Minute) db)
    as [[Hnone ->]|(m & -> & Hin & Hdue & _)]; simpl.
  { split; [split; [auto|done]|done]. }
  assert (¬ ∀ m0, m0 ∈ manifests db →
            outdated_where (timeNow j 0 - 24 * Hour) (timeNow j 1 - 10 * Minute) m0 = false)
    as Hnot.
  { intros H. specialize (H m Hin). congruence. }
  split; [|done].
  destruct (selectOne j (StmtSelectRepo _) _) as [err|repo] eqn:Hrepo; simpl.
  { split; [done|].
    intros [?|(m' & repo & account & ([= <-] & Hr & _) & _)]; [done|]. congruence. }
  destruct (findAccount j db (Repository_AccountName repo)) as [err|account] eqn:Hacc; simpl.
  { split; [done|].
    intros [?|(m' & repo' & account & ([= <-] & Hr & Ha) & _)]; [done|].
    rewrite Hrepo in Hr. injection Hr as <-. congruence. }
  unfold exec.
  destruct (ValidateExistingManifest j account repo m (timeNow j 2)) as [verr|] eqn:Hval;
    destruct (faults j (StmtUpdateValidation _ _)) as [msg|] eqn:Hupd; simpl.
  - split; [done|].
    intros [?|(m' & repo' & account' & ([= <-] & Hr & Ha) & _ & Hf)]; [done|].
    rewrite Hrepo in Hr. injection Hr as <-. congruence.
  - split.
    + intros [= ->]. right. exists m, repo, account. done.
    + intros [?|(m' & repo' & account' & ([= <-] & Hr & Ha) & Hv & _)]; [done|].
      rewrite Hrepo in Hr. injection Hr as <-.
      rewrite Hacc in Ha. injection Ha as <-. congruence.
  - split; [done|].
    intros [?|(m' & repo' & account' & ([= <-] & Hr & Ha) & _ & Hf)]; [done|].
    rewrite Hrepo in Hr. injection Hr as <-. congruence.
  - split; [done|].
    intros [?|(m' & repo' & account' & ([= <-] & Hr & Ha) & Hv & _)]; [done|].
    rewrite Hrepo in Hr. injection Hr as <-.
    rewrite Hacc in Ha. injection Ha as <-. congruence.
Qed.

(** X12.  [ValidateNextManifest] returns the bare [sql.ErrNoRows], the
    signal that there is nothing to do, in exactly two cases (when the
    database answers the search): no manifest is due, and then no table
    has changed; or the revalidation of the selected manifest itself
    failed with [sql.ErrNoRows] and the row could be updated.  Every
    other error comes back with the prefix of the sweep. *)
Theorem ValidateNextManifest_idle_signal (j : Janitor) (db : DB) :
  faults j StmtSelectOutdatedManifest = None →
  ((ValidateNextManifest j db).2 = Some ErrNoRows
   ↔ nothing_to_validate j db
     ∨ ∃ manifest repo account,
         sweep_validates j db manifest repo account
         ∧ ValidateExistingManifest j account repo manifest (timeNow j 2) = Some ErrNoRows
         ∧ faults j (StmtUpdateValidation (Repository_ID repo) (Manifest_Digest manifest))
           = None)
  ∧ (nothing_to_validate j db → (ValidateNextManifest j db).1 = db)
  ∧ ∀ err, (ValidateNextManifest j db).2 = Some err →
      err = ErrNoRows ∨ ∃ msg, err = Errorf ("while validating a manifest: " +:+ msg).
Proof.
  intros Hsel. destruct (ValidateNextManifest_body_idle j db Hsel) as [Hidle Hsame].
  unfold ValidateNextManifest.
  destruct (ValidateNextManifest_body j db) as [db' returnErr]. simpl in *.
  split; [by rewrite wrap_sweep_error_is_ErrNoRows|]. split; [done|].
  intros err. apply wrap_sweep_error_shape.
Qed.

Lemma ValidateNextManifest_idle_signal_witness :
  faults examples.janitor_validation_no_rows StmtSelectOutdatedManifest = None
  ∧ (ValidateNextManifest examples.janitor_validation_no_rows examples.fixture_db).2
    = Some ErrNoRows
  ∧ ¬ nothing_to_validate examples.janitor_validation_no_rows examples.fixture_db.
Proof.
  split; [reflexivity|].
  destruct (ValidateNextManifest_idle_signal examples.janitor_validation_no_rows
              examples.fixture_db) as ([_ Hidle] & Hsame & _); [reflexivity|].
  assert (¬ nothing_to_validate examples.janitor_validation_no_rows examples.fixture_db)
    as Hnot.
  { intros H. specialize (H examples.manifest_broken). discriminate H. right. left. }
  split; [|exact Hnot].
  apply Hidle. right.
  exists examples.manifest_broken, examples.repo_foo, examples.account_test1.
  split; [|split; reflexivity].
  repeat split; vm_compute; reflexivity.
Defined.

(** How the loop over the blobs can end. *)
Lemma vuln_blob_loop_exit j db account repo manifest bs : ∀ layers,
  match vuln_blob_loop j db account repo manifest bs layers with
  | LayersDone _ => Forall (fun b => Blob_StorageID b ≠ "") bs
  | ReturnNow manifest' None =>
      manifest' = set_NextVulnerabilityCheckAt manifest (Manifest_PushedAt manifest + 10 * Minute)
      ∧ Manifest_PushedAt manifest + 10 * Minute < wallNow j
      ∧ ∃ b, b ∈ bs ∧ Blob_StorageID b = ""
  | ReturnNow manifest' (Some _) =>
      manifest' = manifest ∨ ∃ b, b ∈ bs ∧ Blob_StorageID b = ""
  | Restart _ manifest' =>
      manifest' = set_NextVulnerabilityCheckAt manifest (Manifest_PushedAt manifest + 10 * Minute)
      ∧ ∃ b, b ∈ bs ∧ Blob_StorageID b = ""
  end.
Proof.
  induction bs as [|blob bs IH]; intros layers; simpl; [done|].
  case_decide as Hsid.
  - assert (∃ b, b ∈ blob :: bs ∧ Blob_StorageID b = "") as Hex.
    { exists blob. split; [left|done]. }
    case_decide; [done|].
    destruct (ReplicateBlob j db blob account repo) as [db' [err|]]; auto.
  - destruct (sd_URLForBlob j account (Blob_StorageID blob)) as [err|blobURL]; [by left|].
    specialize (IH (layers ++ [mkClairLayer (Blob_Digest blob) blobURL])).
    destruct (vuln_blob_loop _ _ _ _ _ _ _) as [ls|m' [err|]|db' m'].
    + by constructor.
    + destruct IH as [?|(b & ? & ?)]; [by left|]. right. exists b. split; [by right|done].
    + destruct IH as (? & ? & b & ? & ?). split; [done|]. split; [done|].
      exists b. split; [by right|done].
    + destruct IH as (? & b & ? & ?). split; [done|]. exists b. split; [by right|done].
Qed.

(** When every blob of the manifest is in the storage, the check does not
    replicate anything: the tables are as before, and a check that
    returns nil has set the next check in one hour, or in two minutes
    with the status unknown. *)
Lemma doVulnerabilityCheck_stored fuel j db account repo manifest db' manifest' e :
  (∀ b, b ∈ vulnCheckBlobSelectQuery (Manifest_RepositoryID manifest)
              (Manifest_Digest manifest) db → Blob_StorageID b ≠ "") →
  doVulnerabilityCheck fuel j db account repo manifest = Some (db', manifest', e) →
  db' = db
  ∧ (e = None →
     only_vuln_columns_changed manifest manifest'
     ∧ (Manifest_NextVulnerabilityCheckAt manifest' = Some (timeNow j 1 + 1 * Hour)
        ∨ (Manifest_NextVulnerabilityCheckAt manifest' = Some (timeNow j 1 + 2 * Minute)
           ∧ Manifest_VulnerabilityStatus manifest' = UnknownSeverity))).
Proof.
  intros Hstored.
  assert (∀ t, only_vuln_columns_changed manifest (set_NextVulnerabilityCheckAt manifest t))
    as Hnext by (intros t; by repeat split).
  destruct fuel as [|fuel]; simpl;
    (destruct (Account_InMaintenance account);
       [intros [= <- <- <-]; split; [done|]; intros _; split; [apply Hnext|by left]|]);
    (destruct (query j _ _) as [err|blobs] eqn:Hq; [by intros [= <- _ <-]|]);
    pose proof (vuln_blob_loop_exit j db account repo manifest blobs []) as Hexit;
    (assert (¬ ∃ b, b ∈ blobs ∧ Blob_StorageID b = "") as Hnone;
       [intros (b & Hb & Hsid); unfold query in Hq; (destruct (faults j _); [done|]);
        injection Hq as <-; by apply (Hstored b)|]);
    (destruct (vuln_blob_loop _ _ _ _ _ _ _) as [layers|m' [err|]|db1 m'];
       [|by intros [= <- _ <-]|by destruct Hexit as (_ & _ & Hex)|by destruct Hexit as [_ Hex]]);
    (destruct (query j (StmtSelectSubmanifestInfo _) _) as [err|severities];
       [by intros [= <- _ <-]|]);
    repeat case_decide; repeat case_match; try (by intros [= <- _ <-]);
    intros [= <- <- <-]; (split; [done|]); intros _; (split; [by repeat split|]);
    first [by left|by right].
Qed.

(** X13.  [doVulnerabilityCheck] returns nil in four ways only, and in
    each it has set the next check: in an account in maintenance, in one
    hour, without asking the scanner or the database; when a blob of the
    manifest has no storage ID and the manifest was pushed more than ten
    minutes ago, at the time of the push plus ten minutes (a time that
    has passed, so the manifest stays due) with the status untouched;
    when the merged status is unknown, in two minutes; otherwise in one
    hour.  No column of the manifest other than the status and the next
    check changes. *)
Theorem doVulnerabilityCheck_sets_next_check
    (fuel : nat) (j : Janitor) (db : DB) (account : Account) (repo : Repository)
    (manifest : Manifest) (db' : DB) (manifest' : Manifest) :
  doVulnerabilityCheck fuel j db account repo manifest = Some (db', manifest', None) →
  only_vuln_columns_changed manifest manifest'
  ∧ ((Account_InMaintenance account = true ∧ db' = db
      ∧ manifest' = set_NextVulnerabilityCheckAt manifest (timeNow j 1 + 1 * Hour))
     ∨ (Account_InMaintenance account = false
        ∧ Manifest_NextVulnerabilityCheckAt manifest'
          = Some (Manifest_PushedAt manifest + 10 * Minute)
        ∧ Manifest_PushedAt manifest + 10 * Minute < wallNow j
        ∧ Manifest_VulnerabilityStatus manifest' = Manifest_VulnerabilityStatus manifest
        ∧ ∃ blob, blob ∈ vulnCheckBlobSelectQuery (Manifest_RepositoryID manifest)
                           (Manifest_Digest manifest) db'
                  ∧ Blob_StorageID blob = "")
     ∨ (Account_InMaintenance account = false
        ∧ Manifest_VulnerabilityStatus manifest' = UnknownSeverity
        ∧ Manifest_NextVulnerabilityCheckAt manifest' = Some (timeNow j 1 + 2 * Minute))
     ∨ (Account_InMaintenance account = false
        ∧ Manifest_VulnerabilityStatus manifest' ≠ UnknownSeverity
        ∧ Manifest_NextVulnerabilityCheckAt manifest' = Some (timeNow j 1 + 1 * Hour))).
Proof.
  revert db manifest db' manifest'.
  induction fuel as [|fuel IH]; intros db manifest db' manifest'; simpl;
    (destruct (Account_InMaintenance account) eqn:Hm;
       [intros [= <- <-]; split; [by repeat split|]; left; done|]);
    (destruct (query j _ _) as [err|blobs] eqn:Hq; [done|]);
    pose proof (vuln_blob_loop_exit j db account repo manifest blobs []) as Hexit;
    (destruct (vuln_blob_loop _ _ _ _ _ _ _) as [layers|m' [err|]|db1 m']; [|done| |]).
  1, 4:
    destruct (query j (StmtSelectSubmanifestInfo _) _) as [err|severities]; [done|];
    repeat case_decide; repeat case_match; try done;
    intros [= <- <-]; (split; [by repeat split|]);
    first [by right; right; left|by right; right; right].
  1, 3:
    intros [= <- <-]; destruct Hexit as (-> & Hlt & b & Hb & Hsid);
    (split; [by repeat split|]); right; left;
    unfold query in Hq; (destruct (faults j _); [done|]); injection Hq as <-;
    (split; [done|]); (split; [done|]); (split; [done|]); (split; [done|]); eauto.
  - done.
  - destruct Hexit as (-> & _). intros H0. apply IH in H0 as [Hcols Hcases].
    split; [exact Hcols|].
    destruct Hcases as [(? & _)|[(_ & ? & ? & ? & ?)|[(_ & ? & ?)|(_ & ? & ?)]]];
      [done| | |].
    + right. left. simpl in *. done.
    + right. right. left. done.
    + right. right. right. done.
Qed.

Lemma doVulnerabilityCheck_sets_next_check_witness :
  ∃ db' manifest',
    doVulnerabilityCheck 0 examples.janitor_scanner_ok examples.one_manifest_db
      examples.account_test1 examples.repo_foo examples.manifest_8a92
    = Some (db', manifest', None)
    ∧ Manifest_NextVulnerabilityCheckAt manifest' = Some 203600
    ∧ only_vuln_columns_changed examples.manifest_8a92 manifest'.
Proof.
  destruct (doVulnerabilityCheck 0 examples.janitor_scanner_ok examples.one_manifest_db
              examples.account_test1 examples.repo_foo examples.manifest_8a92)
    as [[[db' manifest'] [err|]]|] eqn:E.
  - vm_compute in E. discriminate E.
  - exists db', manifest'. split; [reflexivity|]. split.
    + vm_compute in E. injection E as _ <-. reflexivity.
    + exact (proj1 (doVulnerabilityCheck_sets_next_check 0 examples.janitor_scanner_ok
                      examples.one_manifest_db examples.account_test1 examples.repo_foo
                      examples.manifest_8a92 db' manifest' E)).
  - vm_compute in E. discriminate E.
Defined.

#[local] Instance vuln_check_order_total : Total vuln_check_order.
Proof. intros a b. apply replica_sync.nulls_first_order_total. Qed.

#[local] Instance vuln_check_order_trans : Transitive vuln_check_order.
Proof. intros a b c. apply replica_sync.nulls_first_order_trans. Qed.


Lemma update_manifest_only_row manifest manifest' db :
  same_key manifest' manifest →
  only_row_changed manifest db (update_manifest manifest' db).
Proof.
  intros Hkey. unfold only_row_changed, update_manifest; simpl.
  repeat split; try done.
  apply Forall2_fmap_r, Forall_Forall2_diag, Forall_forall. intros r _. simpl.
  case_decide as Hk; [|by left]. right. destruct Hkey as [H1 H2], Hk as [H3 H4].
  unfold same_key. rewrite H3, H4, H1, H2. done.
Qed.

Lemma update_manifest_row manifest manifest' db r :
  same_key manifest' manifest →
  r ∈ manifests (update_manifest manifest' db) → same_key r manifest → r = manifest'.
Proof.
  intros [H1 H2] Hin [H3 H4]. unfold update_manifest in Hin. simpl in Hin.
  apply list_elem_of_fmap in Hin as (r0 & -> & _). simpl in *.
  case_decide as Hk; [done|]. exfalso. apply Hk. split; congruence.
Qed.




(** X15.  [CheckVulnerabilitiesForNextManifest] on a manifest all of
    whose blobs are in the storage: if it returns an error, no table has
    changed (the next check is not moved); if it returns nil, only the
    rows with the key of that manifest have changed, only in the status
    and the next check, and the next check is the current time plus one
    hour, or plus two minutes, the latter only when the new status is
    unknown. *)
Theorem vulnerability_sweep_outcome
    (fuel : nat) (j : Janitor) (db : DB) (manifest : Manifest)
    (db' : DB) (e : option error) :
  selectOne j StmtSelectNextVulnCheck (vulnCheckSelectQuery (timeNow j 0) db) = inr manifest →
  (∀ b, b ∈ vulnCheckBlobSelectQuery (Manifest_RepositoryID manifest)
              (Manifest_Digest manifest) db → Blob_StorageID b ≠ "") →
  CheckVulnerabilitiesForNextManifest fuel j db = Some (db', e) →
  match e with
  | Some _ => db' = db
  | None =>
      only_row_changed manifest db db'
      ∧ ∀ r, r ∈ manifests db' → same_key r manifest →
          only_vuln_columns_changed manifest r
          ∧ (Manifest_NextVulnerabilityCheckAt r = Some (timeNow j 1 + 1 * Hour)
             ∨ (Manifest_NextVulnerabilityCheckAt r = Some (timeNow j 1 + 2 * Minute)
                ∧ Manifest_VulnerabilityStatus r = UnknownSeverity))
  end.
Proof.
  intros Hsel Hstored.
  unfold CheckVulnerabilitiesForNextManifest, CheckVulnerabilitiesForNextManifest_body.
  rewrite Hsel.
  destruct (selectOne j (StmtSelectRepo _) _) as [err|repo].
  { rewrite replica_sync.wrap_sweep_error_Errorf. by intros [= <- <-]. }
  destruct (findAccount j db (Repository_AccountName repo)) as [err|account].
  { rewrite replica_sync.wrap_sweep_error_Errorf. by intros [= <- <-]. }
  destruct (doVulnerabilityCheck fuel j db account repo manifest)
    as [[[db1 manifest'] e1]|] eqn:Hdo; [|done].
  destruct (doVulnerabilityCheck_stored _ _ _ _ _ _ _ _ _ Hstored Hdo) as [-> Hnil].
  destruct e1 as [err|].
  { intros [= <- <-]. unfold wrap_sweep_error. by case_decide. }
  unfold exec. destruct (faults j (StmtUpdateManifest _ _)).
  { rewrite replica_sync.wrap_sweep_error_DriverErr. by intros [= <- <-]. }
  intros [= <- <-]. simpl.
  destruct (Hnil eq_refl) as [Hcols Hnext].
  assert (same_key manifest' manifest) as Hkey.
  { destruct Hcols as (? & ? & _). by split. }
  split; [by apply update_manifest_only_row|].
  intros r Hr Hrk. apply (update_manifest_row _ _ _ _ Hkey) in Hr; [|done]. by subst r.
Qed.

Lemma vulnerability_sweep_outcome_witness :
  (selectOne examples.janitor_scanner_ok StmtSelectNextVulnCheck
     (vulnCheckSelectQuery (timeNow examples.janitor_scanner_ok 0) examples.one_manifest_db)
   = inr examples.manifest_8a92
   ∧ ∀ b, b ∈ vulnCheckBlobSelectQuery 1 (Manifest_Digest examples.manifest_8a92)
                examples.one_manifest_db → Blob_StorageID b ≠ "")
  ∧ ∃ db',
      CheckVulnerabilitiesForNextManifest 0 examples.janitor_scanner_ok
        examples.one_manifest_db = Some (db', None)
      ∧ only_row_changed examples.manifest_8a92 examples.one_manifest_db db'.
Proof.
  assert (∀ b, b ∈ vulnCheckBlobSelectQuery 1 (Manifest_Digest examples.manifest_8a92)
                     examples.one_manifest_db → Blob_StorageID b ≠ "") as Hstored.
  { intros b Hb. vm_compute in Hb. apply list_elem_of_singleton in Hb. by subst b. }
  split; [split; [vm_compute; reflexivity|exact Hstored]|].
  destruct (CheckVulnerabilitiesForNextManifest 0 examples.janitor_scanner_ok
              examples.one_manifest_db) as [[db' [err|]]|] eqn:E.
  - vm_compute in E. discriminate E.
  - exists db'. split; [reflexivity|].
    exact (proj1 (vulnerability_sweep_outcome 0 examples.janitor_scanner_ok
                    examples.one_manifest_db examples.manifest_8a92 db' None
                    ltac:(vm_compute; reflexivity) Hstored E)).
  - vm_compute in E. discriminate E.
Defined.

End sweep_schedule.

(* ===================================================================== *)
(** * Theorems: required labels and the size of an image *)
(* ===================================================================== *)

Module label_policy.
Import keppel processor.

(** The loop over the references succeeds when every blob is there. *)
Lemma check_references_found p repo account descs : ∀ st,
  (∀ desc, desc ∈ descs →
     p_faults p (StmtFindBlob (Repository_ID repo) (Desc_Digest desc)) = None) →
  Forall (has_blob_row (tx_db st) repo account) descs →
  (check_references p st repo account descs).2 = None.
Proof.
  induction descs as [|desc descs IH]; intros st Hfaults Hall; simpl; [done|].
  apply Forall_cons in Hall as [(b & Hb & Hacc & Hdg & Hmount) Hall].
  unfold FindBlobByRepositoryID. rewrite Hfaults by left. simpl.
  destruct (filter _ (blobs (tx_db st))) as [|b0 rest] eqn:Hf.
  - assert (b ∈ filter (fun b => Blob_AccountName b = Account_Name account
                                 ∧ Blob_Digest b = Desc_Digest desc
                                 ∧ (Blob_ID b, Repository_ID repo) ∈ blob_mounts (tx_db st))
                       (blobs (tx_db st))) as Hin by by apply list_elem_of_filter.
    rewrite Hf in Hin. by apply elem_of_nil in Hin.
  - simpl. apply IH; [|done]. intros d Hd. apply Hfaults. by right.
Qed.

(** What [checkManifestHasRequiredLabels] returns when it returns a list. *)
Lemma required_labels_result p st account manifest requiredLabels missingLabels :
  (checkManifestHasRequiredLabels p st account manifest requiredLabels).2 = inr missingLabels →
  match config_descriptor manifest with
  | None => missingLabels = []
  | Some configBlob =>
      ∃ labels, config_has_labels p (tx_db st) account configBlob labels
                ∧ missingLabels = filter (fun label => label ∉ labels) requiredLabels
  end.
Proof.
  unfold checkManifestHasRequiredLabels.
  destruct manifest as [config refs|config refs|refs|refs]; simpl;
    [ | |by intros [= <-]| ];
    (destruct (p_faults p _); [done|]);
    (destruct (filter _ (blobs (tx_db st))) as [|b rest] eqn:Hf; simpl; [done|]);
    (case_decide as Hsid; [done|]);
    (destruct (ReadBlob p account (Blob_StorageID b)) as [err|blobContents] eqn:Hread;
       [done|]);
    (destruct (config_labels p blobContents) as [err|labels] eqn:Hlabels; [done|]);
    simpl; intros [= <-]; exists labels; (split; [|done]);
    exists b, rest, blobContents; done.
Qed.

(** What it returns when the config blob is there and parses. *)
Lemma required_labels_found p st account manifest requiredLabels configBlob labels :
  config_descriptor manifest = Some configBlob →
  p_faults p (StmtSelectStorageID (Account_Name account) (Desc_Digest configBlob)) = None →
  config_has_labels p (tx_db st) account configBlob labels →
  (checkManifestHasRequiredLabels p st account manifest requiredLabels).2
  = inr (filter (fun label => label ∉ labels) requiredLabels).
Proof.
  intros Hcfg Hfault (b & rest & blobContents & Hf & Hsid & Hread & Hlabels).
  unfold checkManifestHasRequiredLabels.
  destruct manifest as [config refs|config refs|refs|refs]; simpl in Hcfg;
    try discriminate Hcfg; injection Hcfg as <-; simpl in *;
    rewrite Hfault, Hf; simpl; rewrite decide_False by done; simpl;
    rewrite Hread, Hlabels; reflexivity.
Qed.

Lemma validate_for_primary_db p st repo account manifest :
  tx_db (validate_for_primary p st repo account manifest).1 = tx_db st.
Proof. by destruct (manifest_ingest.validate_for_primary_reads p st repo account manifest). Qed.

(** What the validation for a primary account has checked when it lets a
    manifest pass. *)
Lemma validate_for_primary_passes p st repo account manifest :
  (validate_for_primary p st repo account manifest).2 = None →
  Account_RequiredLabels account ≠ "" →
  match config_descriptor manifest with
  | None => True
  | Some configBlob =>
      ∃ labels, config_has_labels p (tx_db st) account configBlob labels
                ∧ ∀ label, label ∈ split_comma (Account_RequiredLabels account) →
                           label ∈ labels
  end.
Proof.
  unfold validate_for_primary. intros Hok Hreq.
  pose proof (manifest_ingest.check_references_reads p repo account (References manifest) st)
    as (Hdb & _).
  destruct (check_references p st repo account (References manifest)) as [st1 [err|]];
    [done|].
  simpl in Hdb. rewrite decide_True in Hok by done.
  pose proof (required_labels_result p st1 account manifest
                (split_comma (Account_RequiredLabels account))) as Hres.
  destruct (checkManifestHasRequiredLabels p st1 account manifest _)
    as [st2 [err|missingLabels]]; [done|].
  specialize (Hres missingLabels eq_refl).
  case_decide as Hlen; [done|].
  assert (missingLabels = []) as -> by (destruct missingLabels; simpl in Hlen; [done|lia]).
  destruct (config_descriptor manifest) as [configBlob|]; [|done].
  destruct Hres as (labels & Hcfg & Hnil). rewrite Hdb in Hcfg.
  exists labels. split; [done|]. intros label Hin.
  destruct (decide (label ∈ labels)) as [|Hno]; [done|].
  assert (label ∈ filter (fun label => label ∉ labels)
                    (split_comma (Account_RequiredLabels account))) as H
    by by apply list_elem_of_filter.
  rewrite <- Hnil in H. by apply elem_of_nil in H.
Qed.

Lemma config_has_labels_after_repo p db name account configBlob labels :
  config_has_labels p (FindOrCreateRepository p db name account).1 account configBlob labels
  ↔ config_has_labels p db account configBlob labels.
Proof.
  destruct (manifest_ingest.FindOrCreateRepository_tables p db name account)
    as (_ & Hb & _).
  cbv zeta in Hb. unfold config_has_labels. by rewrite Hb.
Qed.

(** X16.  A push into an account that is not a replica and requires
    labels succeeds only if the manifest is a manifest list, or the
    account has the manifest's config blob under a storage ID, the blob
    could be read and decoded, and its labels include every required
    label.  ([ValidateAndStoreManifest] never stores an image that lacks
    a required label.) *)
Theorem stored_manifest_has_required_labels
    (p : Processor) (account : Account) (m : IncomingManifest) (db : DB) (storage : Storage) :
  Account_UpstreamPeerHostName account = "" →
  Account_RequiredLabels account ≠ "" →
  res_err (ValidateAndStoreManifest p account m db storage) = None →
  ∃ manifest manifestDesc,
    UnmarshalManifest p (MediaType m) (Contents m) = inr (manifest, manifestDesc)
    ∧ match config_descriptor manifest with
      | None => True
      | Some configBlob =>
          ∃ labels, config_has_labels p db account configBlob labels
                    ∧ ∀ label, label ∈ split_comma (Account_RequiredLabels account) →
                               label ∈ labels
      end.
Proof.
  intros Hprimary Hreq Hok.
  destruct (manifest_ingest.ingest_cases p account m db storage)
    as [(_ & Herr & _)|(repo & manifest & manifestDesc & _ & Hrepo & Hparse & _ & Htx)];
    [done|].
  exists manifest, manifestDesc. split; [done|].
  cbv zeta in Htx. destruct Htx as (_ & _ & _ & Hend).
  unfold store_manifest_tx in Hend. rewrite decide_True in Hend by done.
  pose proof (validate_for_primary_passes p
                (mkTxState (FindOrCreateRepository p db (RepoName m) account).1 storage [])
                repo account manifest) as Hpass.
  destruct (validate_for_primary p _ repo account manifest) as [st1 [err|]].
  { simpl in Hend. destruct Hend as [_ Hend]. congruence. }
  specialize (Hpass eq_refl Hreq). simpl in Hpass.
  destruct (config_descriptor manifest) as [configBlob|]; [|done].
  destruct Hpass as (labels & Hcfg & Hall). exists labels. split; [|done].
  by apply config_has_labels_after_repo in Hcfg.
Qed.

Lemma stored_manifest_has_required_labels_witness :
  (Account_UpstreamPeerHostName examples.account_with_labels = ""
   ∧ Account_RequiredLabels examples.account_with_labels ≠ ""
   ∧ res_err (ValidateAndStoreManifest examples.processor_two_labels
                examples.account_with_labels examples.push_latest
                examples.db_without_manifests ∅) = None)
  ∧ ∃ manifest manifestDesc,
      UnmarshalManifest examples.processor_two_labels (MediaType examples.push_latest)
        (Contents examples.push_latest) = inr (manifest, manifestDesc)
      ∧ match config_descriptor manifest with
        | None => True
        | Some configBlob =>
            ∃ labels, config_has_labels examples.processor_two_labels
                        examples.db_without_manifests examples.account_with_labels
                        configBlob labels
                      ∧ ∀ label, label ∈ ["maintainer"; "source"] → label ∈ labels
        end.
Proof.
  split; [split; [reflexivity|split; [discriminate|vm_compute; reflexivity]]|].
  apply (stored_manifest_has_required_labels examples.processor_two_labels
           examples.account_with_labels examples.push_latest
           examples.db_without_manifests ∅);
    [reflexivity|discriminate|vm_compute; reflexivity].
Defined.

(** X17.  A push into an account that is not a replica and requires
    labels, of a manifest whose referenced blobs are all there and whose
    config blob is there and decodes, is rejected when some required
    label is not among the labels of the config: the error is
    MANIFEST_INVALID with the detail "missing required labels: " followed
    by the missing labels in the order in which the account lists them,
    separated by ", ".  No manifest is returned and the storage and the
    tables are those from before the transaction. *)
Theorem missing_labels_are_reported
    (p : Processor) (account : Account) (m : IncomingManifest) (db : DB) (storage : Storage)
    (repo : Repository) (manifest : DistManifest) (manifestDesc configBlob : Descriptor)
    (labels : gset string) :
  let r := ValidateAndStoreManifest p account m db storage in
  let db1 := (FindOrCreateRepository p db (RepoName m) account).1 in
  let missingLabels :=
    filter (fun label => label ∉ labels) (split_comma (Account_RequiredLabels account)) in
  checkQuotaForManifestPush p db account = None →
  FindOrCreateRepository p db (RepoName m) account = (db1, inr repo) →
  UnmarshalManifest p (MediaType m) (Contents m) = inr (manifest, manifestDesc) →
  (IsDigest (Reference m) = true → Desc_Digest manifestDesc = Ref_Digest (Reference m)) →
  Account_UpstreamPeerHostName account = "" →
  (∀ desc, desc ∈ References manifest →
     p_faults p (StmtFindBlob (Repository_ID repo) (Desc_Digest desc)) = None
     ∧ has_blob_row db repo account desc) →
  Account_RequiredLabels account ≠ "" →
  config_descriptor manifest = Some configBlob →
  p_faults p (StmtSelectStorageID (Account_Name account) (Desc_Digest configBlob)) = None →
  config_has_labels p db account configBlob labels →
  missingLabels ≠ [] →
  res_err r = Some (RegistryErr
                      {| Code := ErrManifestInvalid;
                         Message := "manifest invalid";
                         Detail := Some ("missing required labels: "
                                         +:+ String.concat ", " missingLabels) |})
  ∧ res_manifest r = None ∧ res_storage r = storage ∧ res_db r = db1.
Proof.
  intros r db1 missingLabels Hquota Hrepo Hparse Hdigest Hprimary Hrefs Hreq Hcfg Hfault
    Hlabels Hmissing.
  subst r. unfold ValidateAndStoreManifest. rewrite Hquota, Hrepo, Hparse.
  replace (IsDigest (Reference m)
           && bool_decide (Desc_Digest manifestDesc ≠ Ref_Digest (Reference m))) with false.
  2:{ destruct (IsDigest (Reference m)); [|done]. simpl. symmetry.
      apply bool_decide_eq_false_2. intros Hne. by apply Hne, Hdigest. }
  unfold insideTransaction, store_manifest_tx. rewrite decide_True by done.
  unfold validate_for_primary.
  pose proof (manifest_ingest.check_references_reads p repo account (References manifest)
                (mkTxState db1 storage [])) as (Hdb & Hsto & _).
  pose proof (check_references_found p repo account (References manifest)
                (mkTxState db1 storage [])) as Hfound.
  destruct (check_references p _ repo account (References manifest)) as [st1 e1].
  simpl in Hdb, Hsto, Hfound. rewrite Hfound.
  2:{ intros desc Hd. by apply Hrefs. }
  2:{ apply Forall_forall. intros desc Hd. subst db1.
      apply manifest_ingest.has_blob_row_after_repo. by apply Hrefs. }
  rewrite decide_True by done.
  pose proof (required_labels_found p st1 account manifest
                (split_comma (Account_RequiredLabels account)) configBlob labels Hcfg Hfault)
    as Hres.
  pose proof (manifest_ingest.required_labels_reads p st1 account manifest
                (split_comma (Account_RequiredLabels account))) as (_ & Hsto2 & _).
  destruct (checkManifestHasRequiredLabels p st1 account manifest _) as [st2 res].
  simpl in Hres, Hsto2. rewrite Hres.
  2:{ rewrite Hdb. subst db1. by apply config_has_labels_after_repo. }
  fold missingLabels. rewrite decide_True.
  2:{ destruct missingLabels; [done|simpl; lia]. }
  simpl. unfold With. rewrite decide_False.
  2:{ intros H. discriminate H. }
  simpl. rewrite Hsto2, Hsto. done.
Qed.

Lemma missing_labels_are_reported_witness :
  res_err (ValidateAndStoreManifest examples.processor_one_label
             examples.account_with_labels examples.push_latest
             examples.db_without_manifests ∅)
  = Some (RegistryErr {| Code := ErrManifestInvalid;
                         Message := "manifest invalid";
                         Detail := Some "missing required labels: source" |}).
Proof.
  refine (proj1 (missing_labels_are_reported examples.processor_one_label
                   examples.account_with_labels examples.push_latest
                   examples.db_without_manifests ∅ examples.repo_foo
                   (Schema2Manifest (examples.blob_1_descriptor 1102)
                      [examples.blob_1_descriptor 1102])
                   (mkDescriptor (MediaType examples.push_latest)
                      (Manifest_Digest examples.manifest_8a92) 2)
                   (examples.blob_1_descriptor 1102) {["maintainer"]}
                   _ _ _ _ _ _ _ _ _ _ _)).
  - reflexivity.
  - vm_compute. reflexivity.
  - reflexivity.
  - intros H. discriminate H.
  - reflexivity.
  - intros desc Hd. apply list_elem_of_singleton in Hd. subst desc.
    split; [reflexivity|]. exists examples.blob_1.
    split; [left|]. split; [reflexivity|]. split; [reflexivity|]. left.
  - discriminate.
  - reflexivity.
  - reflexivity.
  - exists examples.blob_1, [], []. split; [vm_compute; reflexivity|].
    split; [discriminate|]. split; reflexivity.
  - vm_compute. discriminate.
Defined.

Lemma sum_sizes_perm refs refs' : refs ≡ₚ refs' → sum_sizes refs = sum_sizes refs'.
Proof.
  unfold sum_sizes. induction 1; simpl; lia.
Qed.

(** X18.  The size that [ValidateAndStoreManifest] computes for an image
    does not depend on the order in which the manifest lists its
    references, and it is a value of the unsigned 64-bit column. *)
Theorem total_size_order_independent
    (manifestDesc : Descriptor) (refs refs' : list Descriptor) :
  refs ≡ₚ refs' →
  total_size manifestDesc refs = total_size manifestDesc refs'
  ∧ 0 ≤ total_size manifestDesc refs < 2 ^ 64.
Proof.
  intros Hperm. rewrite !manifest_ingest.total_size_spec, (sum_sizes_perm _ _ Hperm).
  split; [done|]. apply Z.mod_pos_bound. lia.
Qed.

Lemma total_size_order_independent_witness :
  ([examples.blob_1_descriptor 1; examples.missing_layer]
   ≡ₚ [examples.missing_layer; examples.blob_1_descriptor 1])
  ∧ total_size examples.missing_layer [examples.blob_1_descriptor 1; examples.missing_layer]
    = total_size examples.missing_layer [examples.missing_layer; examples.blob_1_descriptor 1].
Proof.
  split; [apply Permutation_swap|].
  apply (total_size_order_independent examples.missing_layer
           [examples.blob_1_descriptor 1; examples.missing_layer]
           [examples.missing_layer; examples.blob_1_descriptor 1]).
  apply Permutation_swap.
Defined.

End label_policy.

(* ===================================================================== *)
(** * Theorems: what parseToken checks, and the embedded identity *)
(* ===================================================================== *)

Module token_checks.
Import keppel auth.

(** What the key function has found when it returns a key. *)
Lemma find_issuer_key_found keys method t pub :
  find_issuer_key keys method t = Returns (inr pub) →
  ∃ key, key ∈ keys ∧ Header_jwk t = Some (serializePublicKey key)
         ∧ method = chooseSigningMethod key ∧ pub = derivePublicKey key.
Proof.
  induction keys as [|k keys IH]; simpl; [done|].
  case_decide as Hjwk.
  - rewrite key_rotation.equalSigningMethods_choose. case_bool_decide as Hm; [|done].
    intros [= <-]. exists k. split; [left|]. done.
  - intros H. destruct (IH H) as (key & ? & ? & ? & ?). exists key. split; [by right|done].
Qed.

Lemma find_issuer_key_unknown keys method t :
  (∀ key, key ∈ keys → Header_jwk t ≠ Some (serializePublicKey key)) →
  find_issuer_key keys method t = Returns (inl (Errorf "token signed by unknown key")).
Proof.
  induction keys as [|k keys IH]; intros Hall; simpl; [done|].
  rewrite decide_False by (apply Hall; left).
  apply IH. intros key Hk. apply Hall. by right.
Qed.

Lemma find_issuer_key_other_method keys method t key :
  key ∈ keys → Header_jwk t = Some (serializePublicKey key) →
  method ≠ chooseSigningMethod key →
  find_issuer_key keys method t
  = Returns (inl (Errorf ("unexpected signing method: " +:+ fmt_alg (Header_alg t)))).
Proof.
  intros Hin Hjwk Hm. induction keys as [|k keys IH]; [by apply elem_of_nil in Hin|].
  simpl. case_decide as Hk.
  - rewrite Hjwk in Hk. injection Hk as Hk.
    apply key_rotation.serializePublicKey_inj in Hk as [_ Hsame].
    rewrite key_rotation.equalSigningMethods_choose, bool_decide_eq_false_2 by congruence.
    done.
  - apply elem_of_cons in Hin as [->|Hin]; [done|]. by apply IH.
Qed.

(** Every error of [parseToken] has the code UNAUTHORIZED. *)
Lemma parseToken_error_code env cfg ad audience tokenStr e :
  parseToken env cfg ad audience tokenStr = Returns (inl e) → Code e = ErrUnauthorized.
Proof.
  unfold parseToken.
  destruct (ParseWithClaims _ _ _ _) as [[err|claims]|]; [by intros [= <-]| |done].
  repeat case_match; try (by intros [= <-]); by intros [=].
Qed.

(** What [ParseUnverified] has decoded when it returns no error: the
    registered claims and the scopes as the token has them, the identity
    as [UnmarshalJSON] made it of the member ["kea"], and the method
    registered under the name in the header. *)
Lemma ParseUnverified_decoded env tokenStr claims0 method claims :
  ParseUnverified env tokenStr claims0 = Returns (inr (method, claims)) →
  let t := Token_unsigned tokenStr in
  Registered claims = json_registered (Claims t)
  ∧ Access claims = json_access (Claims t)
  ∧ Header_alg t = Some (Alg method)
  ∧ match json_kea (Claims t) with
    | None => Embedded claims = Embedded claims0
    | Some raw =>
        UnmarshalJSON (json env) (Embedded claims0) raw = Returns (Embedded claims, None)
    end.
Proof.
  intros H t. unfold ParseUnverified in H. fold t in H.
  assert (∃ embedded,
            match json_kea (Claims t) with
            | Some raw => UnmarshalJSON (json env) (Embedded claims0) raw
            | None => Returns (Embedded claims0, None)
            end = Returns (embedded, None)
            ∧ match Header_alg t with
              | Some alg =>
                  match GetSigningMethod alg with
                  | Some method =>
                      Returns (inr (method, {| Registered := json_registered (Claims t);
                                               Access := json_access (Claims t);
                                               Embedded := embedded |}))
                  | None => Returns (inl (Errorf "signing method (alg) is unavailable."))
                  end
              | None => Returns (inl (Errorf "signing method (alg) is unspecified."))
              end = Returns (inr (method, claims))) as (embedded & Hdec & Halg).
  { destruct (match json_kea (Claims t) with Some _ => _ | None => _ end)
      as [[embedded [err|]]|]; [done| |done]. eauto. }
  destruct (Header_alg t) as [alg|]; [|done].
  destruct (GetSigningMethod alg) as [method'|] eqn:Hget; [|done].
  injection Halg as -> <-. simpl.
  split; [done|]. split; [done|].
  split; [by rewrite (key_rotation.GetSigningMethod_Alg _ _ Hget)|].
  destruct (json_kea (Claims t)); [done|]. by injection Hdec as <-.
Qed.

(** The checks that have passed when [parseToken] returns an
    authorization. *)
Lemma parseToken_passed env cfg ad audience tokenStr authorization :
  parseToken env cfg ad audience tokenStr = Returns (inr authorization) →
  let t := Token_unsigned tokenStr in
  ∃ method claims pub,
    ParseUnverified env tokenStr (claims_to_fill ad) = Returns (inr (method, claims))
    ∧ find_issuer_key (IssuerKeys audience cfg) method t = Returns (inr pub)
    ∧ Verify env method pub t (Token_signature tokenStr) = true
    ∧ VerifyExpiresAt (Registered claims) (time_Now env 0) false = true
    ∧ VerifyIssuedAt (Registered claims) (time_Now env 0) false = true
    ∧ VerifyNotBefore (Registered claims) (time_Now env 0) false = true
    ∧ VerifyExpiresAt (Registered claims) (time_Now env 1 - 3) true = true
    ∧ VerifyNotBefore (Registered claims) (time_Now env 1 + 3) true = true
    ∧ bool_decide (audience = LocalService)
      && bool_decide (Issuer (Registered claims)
                      ≠ "keppel-api@" +:+ Hostname audience cfg) = false
    ∧ VerifyAudience (Registered claims) (Hostname audience cfg) true = true
    ∧ authorization = {| Auth_UserIdentity := Emb_UserIdentity (Embedded claims);
                         Auth_ScopeSet := foldl ScopeSet_Add [] (Access claims);
                         Auth_Service := audience |}.
Proof.
  intros H t. unfold parseToken, ParseWithClaims in H. fold (claims_to_fill ad) in H.
  fold t in H.
  destruct (ParseUnverified env tokenStr (claims_to_fill ad))
    as [[err|[method claims]]|] eqn:Hparse; [done| |done].
  destruct (find_issuer_key _ method t) as [[err|pub]|] eqn:Hkey; [done| |done].
  exists method, claims, pub. split; [done|]. split; [done|].
  destruct (Verify env _ _ _ _) eqn:Hsig; [|done]. simpl in H.
  destruct (VerifyExpiresAt _ (time_Now env 0) false && _ && _) eqn:Hdates; [|done].
  simpl in H.
  destruct (VerifyExpiresAt _ (time_Now env 1 - 3) true) eqn:Hexp; [|done]. simpl in H.
  destruct (VerifyNotBefore _ (time_Now env 1 + 3) true) eqn:Hnbf; [|done]. simpl in H.
  destruct (bool_decide (audience = LocalService) && _) eqn:Hiss; [done|].
  destruct (VerifyAudience _ _ true) eqn:Haud; [|done]. simpl in H.
  injection H as <-.
  apply andb_true_iff in Hdates as [[Hexp0 Hiat0]%andb_true_iff Hnbf0].
  done.
Qed.

(** What [IssueToken] puts into a token. *)
Lemma IssueToken_claims env a cfg resp :
  IssueToken env a cfg = Returns (inr resp) →
  let claims := json_registered (Claims (Token_unsigned (Resp_Token resp))) in
  ExpiresAt claims = Some (time_Now env 0 + 4 * Hour)
  ∧ NotBefore claims = Some (time_Now env 0)
  ∧ Audience claims = [Hostname (Auth_Service a) cfg]
  ∧ Resp_ExpiresIn resp = 4 * Hour.
Proof.
  unfold IssueToken. destruct (IssuerKeys (Auth_Service a) cfg) as [|key rest]; [done|].
  destruct (Auth_UserIdentity a) as [uid|]; [|done].
  destruct (MarshalJSON _ _) as [[err|kea]|]; [done| |done].
  intros [= <-]. simpl. repeat split. lia.
Qed.

(** X19.  [parseToken] returns an authorization only for a token that
    names, in its header, a key of the audience's issuer keys and that
    key's signing method, and carries a signature that verifies under
    that key's public half; that has an expiry after the current
    time and a not-before time that has come; whose audience claim holds
    the public host name of the audience; and, for the local audience,
    whose issuer is this registry.  The authorization is for the identity
    that [UnmarshalJSON], with the auth driver, has made without error of
    the member ["kea"] of the token (for no identity, if the token has no
    such member), and for the audience asked for. *)
Theorem parseToken_accepts_only_valid_tokens
    (env : Env) (cfg : Configuration) (ad : option AuthDriver) (audience : Service)
    (tokenStr : Token) (authorization : Authorization) :
  parseToken env cfg ad audience tokenStr = Returns (inr authorization) →
  let claims := json_registered (Claims (Token_unsigned tokenStr)) in
  signed_by_one_of env (IssuerKeys audience cfg) tokenStr
  ∧ (∃ exp, ExpiresAt claims = Some exp
            ∧ time_Now env 0 < exp ∧ time_Now env 1 - 3 < exp)
  ∧ (∃ nbf, NotBefore claims = Some nbf
            ∧ nbf ≤ time_Now env 0 ∧ nbf ≤ time_Now env 1 + 3)
  ∧ (∀ iat, IssuedAt claims = Some iat → iat ≤ time_Now env 0)
  ∧ (Hostname audience cfg ∈ Audience claims)
  ∧ (audience = LocalService → Issuer claims = "keppel-api@" +:+ Hostname audience cfg)
  ∧ match json_kea (Claims (Token_unsigned tokenStr)) with
    | None => Auth_UserIdentity authorization = None
    | Some raw =>
        ∃ embedded,
          UnmarshalJSON (json env) {| Emb_UserIdentity := None; Emb_AuthDriver := ad |} raw
          = Returns (embedded, None)
          ∧ Auth_UserIdentity authorization = Emb_UserIdentity embedded
    end
  ∧ Auth_Service authorization = audience.
Proof.
  intros H claims.
  destruct (parseToken_passed _ _ _ _ _ _ H)
    as (method & decoded & pub & Hparse & Hkey & Hsig & Hexp0 & Hiat0 & Hnbf0 & Hexp & Hnbf
        & Hiss & Haud & ->).
  apply ParseUnverified_decoded in Hparse as (Hreg & _ & Halg & Hkea).
  rewrite Hreg in Hexp0, Hiat0, Hnbf0, Hexp, Hnbf, Hiss, Haud.
  fold claims in Hexp0, Hiat0, Hnbf0, Hexp, Hnbf, Hiss, Haud.
  apply find_issuer_key_found in Hkey as (key & Hin & Hjwk & -> & ->).
  unfold VerifyExpiresAt, VerifyNotBefore, VerifyIssuedAt, VerifyAudience in *.
  split; [by exists key|].
  split.
  { destruct (ExpiresAt claims) as [exp|]; [|done]. exists exp.
    apply bool_decide_eq_true in Hexp0, Hexp. done. }
  split.
  { destruct (NotBefore claims) as [nbf|]; [|done]. exists nbf.
    apply bool_decide_eq_true in Hnbf0, Hnbf. done. }
  split.
  { intros iat Hiat. rewrite Hiat in Hiat0. by apply bool_decide_eq_true in Hiat0. }
  split; [by apply key_rotation.verifyAud_required in Haud as [? _]|].
  split.
  { intros ->. rewrite bool_decide_eq_true_2 in Hiss by done. simpl in Hiss.
    apply bool_decide_eq_false in Hiss.
    by destruct (decide (Issuer claims = "keppel-api@" +:+ Hostname LocalService cfg)). }
  split; [|done]. simpl in Hkea |- *.
  destruct (json_kea (Claims (Token_unsigned tokenStr))) as [raw|].
  - exists (Embedded decoded). done.
  - by rewrite Hkea.
Qed.

Lemma parseToken_accepts_only_valid_tokens_witness :
  ∃ resp authorization,
    IssueToken (examples.toy_env 1000) examples.alice examples.config_old
    = Returns (inr resp)
    ∧ parseToken (examples.toy_env 2000) examples.config_old (Some examples.toy_driver)
        LocalService (Resp_Token resp)
      = Returns (inr authorization)
    ∧ signed_by_one_of (examples.toy_env 2000) [examples.key_old] (Resp_Token resp).
Proof.
  destruct (IssueToken (examples.toy_env 1000) examples.alice examples.config_old)
    as [[err|resp]|] eqn:Hissue;
    [vm_compute in Hissue; discriminate Hissue| |vm_compute in Hissue; discriminate Hissue].
  destruct (parseToken (examples.toy_env 2000) examples.config_old (Some examples.toy_driver)
              LocalService (Resp_Token resp)) as [[err|authorization]|] eqn:Hparse.
  - vm_compute in Hissue. injection Hissue as <-. vm_compute in Hparse. discriminate Hparse.
  - exists resp, authorization. split; [reflexivity|]. split; [exact Hparse|].
    exact (proj1 (parseToken_accepts_only_valid_tokens (examples.toy_env 2000)
                    examples.config_old (Some examples.toy_driver) LocalService
                    (Resp_Token resp) authorization Hparse)).
  - vm_compute in Hissue. injection Hissue as <-. vm_compute in Hparse. discriminate Hparse.
Defined.

(** X20.  What [parseToken] reports first.  A token that the JWT library
    cannot decode (its member ["kea"] is not an identity that
    [UnmarshalJSON] accepts with the auth driver, or there is none for
    want of a driver; or its header names no registered method) is
    rejected with the error of the decoding, whatever its key is.  Of a
    token that decodes, the key is settled before any signature is
    looked at: if its header names no key of the audience it is rejected
    as signed by an unknown key; if it names a key of the audience but
    another signing method than the one this registry uses for that key,
    it is rejected for its method.  These hold whatever the signature
    and the registered claims are. *)
Theorem token_key_and_method_are_checked_first
    (env : Env) (cfg : Configuration) (ad : option AuthDriver) (audience : Service)
    (tokenStr : Token) :
  let t := Token_unsigned tokenStr in
  let rejected (detail : string) :=
    parseToken env cfg ad audience tokenStr
    = Returns (inl {| Code := ErrUnauthorized; Message := "authentication required";
                      Detail := Some detail |}) in
  match ParseUnverified env tokenStr (claims_to_fill ad) with
  | Panics => False
  | Returns (inl err) =>
      parseToken env cfg ad audience tokenStr
      = Returns (inl (With ErrUnauthorized (Error err)))
  | Returns (inr (method, _)) =>
      ((∀ key, key ∈ IssuerKeys audience cfg →
          Header_jwk t ≠ Some (serializePublicKey key)) →
       rejected "token signed by unknown key")
      ∧ (∀ key, key ∈ IssuerKeys audience cfg →
           Header_jwk t = Some (serializePublicKey key) →
           method ≠ chooseSigningMethod key →
           Header_alg t = Some (Alg method)
           ∧ rejected ("unexpected signing method: " +:+ Alg method))
  end.
Proof.
  intros t rejected. subst rejected. cbv beta.
  destruct (key_rotation.ParseUnverified_returns env tokenStr (claims_to_fill ad))
    as [res Hparse].
  rewrite Hparse. unfold parseToken, ParseWithClaims. fold (claims_to_fill ad).
  rewrite Hparse. destruct res as [err|[method claims]]; [done|]. fold t. split.
  - intros Hall. by rewrite (find_issuer_key_unknown _ _ _ Hall).
  - intros key Hin Hjwk Hm.
    apply ParseUnverified_decoded in Hparse as (_ & _ & Halg & _). fold t in Halg.
    split; [done|].
    rewrite (find_issuer_key_other_method _ _ _ key Hin Hjwk Hm), Halg. simpl.
    unfold With. rewrite decide_False; [done|].
    destruct method; discriminate.
Qed.

(** X20 on a token that names the RSA key of the registry but the method
    ES256, and on the same token when the registry has no auth driver. *)
Lemma token_key_and_method_are_checked_first_witness :
  (examples.key_old ∈ IssuerKeys LocalService examples.config_old
   ∧ Header_jwk (Token_unsigned examples.token_other_method)
     = Some (serializePublicKey examples.key_old))
  ∧ parseToken (examples.toy_env 1000) examples.config_old (Some examples.toy_driver)
      LocalService examples.token_other_method
    = Returns (inl {| Code := ErrUnauthorized; Message := "authentication required";
                      Detail := Some "unexpected signing method: ES256" |})
  ∧ parseToken (examples.toy_env 1000) examples.config_old None
      LocalService examples.token_other_method
    = Returns (inl {| Code := ErrUnauthorized; Message := "authentication required";
                      Detail := Some "cannot unmarshal EmbeddedAuthorization without an AuthDriver" |}).
Proof.
  assert (examples.key_old ∈ IssuerKeys LocalService examples.config_old) as Hin by left.
  split; [split; [exact Hin|reflexivity]|]. split.
  - pose proof (token_key_and_method_are_checked_first (examples.toy_env 1000)
                  examples.config_old (Some examples.toy_driver) LocalService
                  examples.token_other_method) as H.
    cbv zeta in H.
    destruct (ParseUnverified (examples.toy_env 1000) examples.token_other_method
                (claims_to_fill (Some examples.toy_driver)))
      as [[err|[method claims]]|] eqn:Hparse;
      [vm_compute in Hparse; discriminate Hparse| |destruct H].
    assert (method = SigningMethodECDSA "ES256") as ->
      by (vm_compute in Hparse; by injection Hparse as <- _).
    destruct H as [_ H].
    exact (proj2 (H examples.key_old Hin eq_refl ltac:(discriminate))).
  - pose proof (token_key_and_method_are_checked_first (examples.toy_env 1000)
                  examples.config_old None LocalService examples.token_other_method) as H.
    cbv zeta in H.
    destruct (ParseUnverified (examples.toy_env 1000) examples.token_other_method
                (claims_to_fill None)) as [[err|[method claims]]|] eqn:Hparse;
      [|vm_compute in Hparse; discriminate Hparse|destruct H].
    rewrite H. vm_compute in Hparse. injection Hparse as <-. reflexivity.
Defined.

(** X21.  A token lives four hours: [IssueToken] reports 14400 seconds,
    and once the clock of the parsing side has reached the time of issue
    plus four hours, [parseToken] rejects the token with UNAUTHORIZED,
    under every configuration, with every auth driver and for every
    audience. *)
Theorem issued_token_expires
    (issued parsed : Env) (a : Authorization) (cfg cfg' : Configuration)
    (ad : option AuthDriver) (audience : Service) (resp : TokenResponse) :
  IssueToken issued a cfg = Returns (inr resp) →
  time_Now issued 0 + 4 * Hour ≤ time_Now parsed 0 →
  Resp_ExpiresIn resp = 14400
  ∧ ∃ e, parseToken parsed cfg' ad audience (Resp_Token resp) = Returns (inl e)
         ∧ Code e = ErrUnauthorized.
Proof.
  intros Hissue Hlate.
  destruct (IssueToken_claims _ _ _ _ Hissue) as (Hexp & _ & _ & Hin).
  split; [exact Hin|].
  destruct (key_rotation.parseToken_returns parsed cfg' ad audience (Resp_Token resp))
    as [[e|authorization] Hparse].
  - exists e. split; [done|]. by eapply parseToken_error_code.
  - apply parseToken_passed in Hparse
      as (method & claims & pub & Hdec & _ & _ & Hexp0 & _).
    apply ParseUnverified_decoded in Hdec as (Hreg & _).
    unfold VerifyExpiresAt in Hexp0. rewrite Hreg, Hexp in Hexp0.
    apply bool_decide_eq_true in Hexp0. lia.
Qed.

Lemma issued_token_expires_witness :
  ∃ resp,
    IssueToken (examples.toy_env 1000) examples.alice examples.config_old
    = Returns (inr resp)
    ∧ time_Now (examples.toy_env 1000) 0 + 4 * Hour ≤ time_Now (examples.toy_env 15400) 0
    ∧ Resp_ExpiresIn resp = 14400
    ∧ ∃ e, parseToken (examples.toy_env 15400) examples.config_old
             (Some examples.toy_driver) LocalService (Resp_Token resp) = Returns (inl e)
           ∧ Code e = ErrUnauthorized.
Proof.
  destruct (IssueToken (examples.toy_env 1000) examples.alice examples.config_old)
    as [[err|resp]|] eqn:Hissue;
    [vm_compute in Hissue; discriminate Hissue| |vm_compute in Hissue; discriminate Hissue].
  assert (time_Now (examples.toy_env 1000) 0 + 4 * Hour ≤ time_Now (examples.toy_env 15400) 0)
    as Hlate by (vm_compute; discriminate).
  exists resp. split; [reflexivity|]. split; [exact Hlate|].
  exact (issued_token_expires (examples.toy_env 1000) (examples.toy_env 15400) examples.alice
           examples.config_old examples.config_old (Some examples.toy_driver) LocalService
           resp Hissue Hlate).
Defined.

(** X22.  A token is good for one audience only: a token that
    [IssueToken] made for an audience is rejected with UNAUTHORIZED by
    [parseToken] for every audience whose public host name is another,
    even where both audiences share their issuer keys. *)
Theorem token_for_other_audience_is_rejected
    (issued parsed : Env) (a : Authorization) (cfg cfg' : Configuration)
    (ad : option AuthDriver) (audience : Service) (resp : TokenResponse) :
  IssueToken issued a cfg = Returns (inr resp) →
  Hostname audience cfg' ≠ Hostname (Auth_Service a) cfg →
  ∃ e, parseToken parsed cfg' ad audience (Resp_Token resp) = Returns (inl e)
       ∧ Code e = ErrUnauthorized.
Proof.
  intros Hissue Hother.
  destruct (IssueToken_claims _ _ _ _ Hissue) as (_ & _ & Haud & _).
  destruct (key_rotation.parseToken_returns parsed cfg' ad audience (Resp_Token resp))
    as [[e|authorization] Hparse].
  - exists e. split; [done|]. by eapply parseToken_error_code.
  - apply parseToken_passed in Hparse
      as (method & claims & pub & Hdec & _ & _ & _ & _ & _ & _ & _ & _ & Hin & _).
    apply ParseUnverified_decoded in Hdec as (Hreg & _).
    unfold VerifyAudience in Hin. rewrite Hreg, Haud in Hin.
    apply key_rotation.verifyAud_required in Hin as [Hin _].
    apply list_elem_of_singleton in Hin. done.
Qed.

Lemma token_for_other_audience_is_rejected_witness :
  ∃ resp,
    IssueToken (examples.toy_env 1000) examples.alice examples.config_anycast
    = Returns (inr resp)
    ∧ Hostname AnycastService examples.config_anycast
      ≠ Hostname LocalService examples.config_anycast
    ∧ ∃ e, parseToken (examples.toy_env 2000) examples.config_anycast
             (Some examples.toy_driver) AnycastService (Resp_Token resp) = Returns (inl e)
           ∧ Code e = ErrUnauthorized.
Proof.
  destruct (IssueToken (examples.toy_env 1000) examples.alice examples.config_anycast)
    as [[err|resp]|] eqn:Hissue;
    [vm_compute in Hissue; discriminate Hissue| |vm_compute in Hissue; discriminate Hissue].
  assert (Hostname AnycastService examples.config_anycast
          ≠ Hostname LocalService examples.config_anycast) as Hother by discriminate.
  exists resp. split; [reflexivity|]. split; [exact Hother|].
  exact (token_for_other_audience_is_rejected (examples.toy_env 1000) (examples.toy_env 2000)
           examples.alice examples.config_anycast examples.config_anycast
           (Some examples.toy_driver) AnycastService resp Hissue Hother).
Defined.

(** X23.  The fingerprint that [serializePublicKey] writes into the
    header of a token stands for exactly one public key: two issuer keys
    have the same fingerprint if and only if they have the same public
    half, and then this registry signs with the same method for both. *)
Theorem fingerprint_identifies_public_key (key1 key2 : PrivateKey) :
  (serializePublicKey key1 = serializePublicKey key2
   ↔ derivePublicKey key1 = derivePublicKey key2)
  ∧ (serializePublicKey key1 = serializePublicKey key2 →
     chooseSigningMethod key1 = chooseSigningMethod key2).
Proof.
  split; [split|].
  - intros H. by apply key_rotation.serializePublicKey_inj in H as [? _].
  - destruct key1, key2; simpl; intros [= ]; by subst.
  - intros H. by apply key_rotation.serializePublicKey_inj in H as [_ ?].
Qed.

(** X24.  What [MarshalJSON] writes, [UnmarshalJSON] reads back: if the
    JSON library decodes the bytes that it encoded to the same object,
    then unmarshalling the marshalled identity into a struct with an auth
    driver returns what [DeserializeUserIdentity] makes, with that
    driver, of the type name and payload that [SerializeToJSON] gave for
    the identity; the auth driver of the marshalled struct plays no
    part. *)
Theorem embedded_identity_round_trip
    (codec : IdentityCodec) (ad : AuthDriver) (e0 : embeddedUserIdentity)
    (bytes : list Byte.byte) :
  MarshalJSON codec e0 = Returns (inr bytes) →
  (∀ m, json_Marshal codec m = inr bytes → json_Unmarshal codec bytes = inr m) →
  ∃ uid typeName payload,
    Emb_UserIdentity e0 = Some uid
    ∧ SerializeToJSON codec uid = inr (typeName, payload)
    ∧ ∀ e, Emb_AuthDriver e = Some ad →
        UnmarshalJSON codec e bytes
        = Returns ({| Emb_UserIdentity := (DeserializeUserIdentity ad typeName payload).1;
                      Emb_AuthDriver := Some ad |},
                   (DeserializeUserIdentity ad typeName payload).2).
Proof.
  unfold MarshalJSON. intros Hm Hlib.
  destruct (Emb_UserIdentity e0) as [uid|]; [|done].
  destruct (SerializeToJSON codec uid) as [err|[typeName payload]] eqn:Hser; [done|].
  injection Hm as Hm. exists uid, typeName, payload. split; [done|]. split; [done|].
  intros e Had. unfold UnmarshalJSON. rewrite Had, (Hlib _ Hm).
  rewrite map_size_singleton, decide_False by auto.
  rewrite map_to_list_singleton.
  by destruct (DeserializeUserIdentity ad typeName payload).
Qed.

Lemma embedded_identity_round_trip_witness :
  (MarshalJSON examples.toy_codec
     (mkembeddedUserIdentity (Auth_UserIdentity examples.alice) None)
   = Returns (inr examples.two_bytes)
   ∧ ∀ m, json_Marshal examples.toy_codec m = inr examples.two_bytes →
          json_Unmarshal examples.toy_codec examples.two_bytes = inr m)
  ∧ UnmarshalJSON examples.toy_codec (mkembeddedUserIdentity None (Some examples.toy_driver))
      examples.two_bytes
    = Returns (mkembeddedUserIdentity (Auth_UserIdentity examples.alice)
                 (Some examples.toy_driver), None).
Proof.
  assert (MarshalJSON examples.toy_codec
            (mkembeddedUserIdentity (Auth_UserIdentity examples.alice) None)
          = Returns (inr examples.two_bytes)) as Hm.
  { unfold MarshalJSON. simpl. by rewrite decide_True. }
  assert (∀ m, json_Marshal examples.toy_codec m = inr examples.two_bytes →
               json_Unmarshal examples.toy_codec examples.two_bytes = inr m) as Hlib.
  { intros m. simpl. case_decide as Heq; [by rewrite Heq|done]. }
  split; [split; [exact Hm|exact Hlib]|].
  destruct (embedded_identity_round_trip examples.toy_codec examples.toy_driver
              (mkembeddedUserIdentity (Auth_UserIdentity examples.alice) None)
              examples.two_bytes Hm Hlib)
    as (uid & typeName & payload & Huid & Hser & Hback).
  rewrite (Hback (mkembeddedUserIdentity None (Some examples.toy_driver)) eq_refl).
  injection Huid as <-. injection Hser as <- <-. reflexivity.
Defined.

(** X25.  [UnmarshalJSON] never reaches the panic after its loop: it
    always returns.  Without an auth driver it returns an error whatever
    the input is; when the input is not a JSON object it returns the
    decoder's error; when the object has not exactly one member it
    returns an error that tells the number of members; in these three
    cases the struct is left as it was. *)
Theorem UnmarshalJSON_always_returns
    (codec : IdentityCodec) (e : embeddedUserIdentity) (input : list Byte.byte) :
  ∃ e' err,
    UnmarshalJSON codec e input = Returns (e', err)
    ∧ (Emb_AuthDriver e = None →
       e' = e
       ∧ err = Some (Errorf "cannot unmarshal EmbeddedAuthorization without an AuthDriver"))
    ∧ (∀ decodeErr, is_Some (Emb_AuthDriver e) →
         json_Unmarshal codec input = inl decodeErr → e' = e ∧ err = Some decodeErr)
    ∧ (∀ m, is_Some (Emb_AuthDriver e) →
         json_Unmarshal codec input = inr m → size m ≠ 1%nat →
         e' = e
         ∧ err = Some (Errorf ("cannot unmarshal EmbeddedAuthorization with "
                               +:+ pretty (size m) +:+ " components"))).
Proof.
  unfold UnmarshalJSON.
  destruct (Emb_AuthDriver e) as [ad|] eqn:Had.
  2:{ eexists _, _. split; [reflexivity|]. split; [done|].
      split; [by intros ? [? ?]|by intros ? [? ?]]. }
  destruct (json_Unmarshal codec input) as [decodeErr|m] eqn:Hdec.
  { eexists _, _. split; [reflexivity|]. split; [done|].
    split; [by intros ? _ [= <-]|done]. }
  case_decide as Hsize.
  { eexists _, _. split; [reflexivity|]. split; [done|].
    split; [done|]. by intros ? _ [= <-] _. }
  assert (size m = 1%nat) as Hone by (destruct (decide (size m = 1%nat)); [done|by destruct Hsize]).
  pose proof (length_map_to_list m) as Hlen. rewrite Hone in Hlen.
  destruct (map_to_list m) as [|[typeName payload] rest]; [done|].
  destruct (DeserializeUserIdentity ad typeName payload) as [uid err].
  eexists _, _. split; [reflexivity|]. split; [done|].
  split; [done|]. intros ? _ [= <-] Hne. done.
Qed.

End token_checks.
